(** * pakk: the package installer and the dictionary selector, verified

    A shallow embedding of the installer of [src/cli/index.ts] (semver
    matching, dependency resolution, store lookup, lockfile handling,
    linking) and of the content sniffing of [src/dictionaries/index.ts],
    with the properties the specification states about them.

    Conventions of the embedding.
    - JavaScript strings are [string]s over 8-bit characters; the texts the
      theorems range over are ASCII, which is where a UTF-16 code unit and a
      character of [string] coincide.
    - JavaScript numbers that hold integers (version components, counters,
      sizes) are [Z] or [nat]; the model is exact below 2^53.
    - [Record<string, T>] objects whose key order is observable (a manifest's
      dependency table, the lockfile, the resolved [Map]) are association
      lists in insertion order; the store index, which is only looked up, is
      a [gmap].
    - A property read [obj[key]] on an object made by [JSON.parse] or by a
      literal finds the object's own keys and, failing these, the members
      of [Object.prototype]; where the code makes such a read with a key it
      does not control, the model tells the three cases apart. *)

From Stdlib Require Import ZArith String Ascii List Lia Bool.
From Stdlib Require Import DecimalString DecimalNat.
From stdpp Require Import base option list gmap strings.

Import ListNotations.
Open Scope string_scope.
Open Scope Z_scope.

(** ** JavaScript string primitives *)

Module Js.

(** [s.split(sep)] for a one-character separator: the result is never
    empty, and the empty string splits into one empty piece. *)
Fixpoint split (sep : ascii) (s : string) : list string :=
  match s with
  | EmptyString => [EmptyString]
  | String c s' =>
      if Ascii.eqb c sep then EmptyString :: split sep s'
      else match split sep s' with
           | [] => [String c EmptyString]
           | piece :: pieces => String c piece :: pieces
           end
  end.

(** [s.startsWith(p)] *)
Fixpoint startsWith (p s : string) : bool :=
  match p, s with
  | EmptyString, _ => true
  | String a p', String b s' => Ascii.eqb a b && startsWith p' s'
  | String _ _, EmptyString => false
  end.

(** [s.slice(n)] for [0 <= n] *)
Fixpoint slice (n : nat) (s : string) : string :=
  match n, s with
  | O, _ => s
  | S n', String _ s' => slice n' s'
  | S _, EmptyString => EmptyString
  end.

(** ASCII members of the StrWhiteSpaceChar class that [parseInt] skips:
    TAB, LF, VT, FF, CR and SPACE. *)
Definition is_space (c : ascii) : bool :=
  let n := nat_of_ascii c in
  ((9 <=? n) && (n <=? 13) || (n =? 32))%nat.

Definition is_digit (c : ascii) : bool :=
  let n := nat_of_ascii c in ((48 <=? n) && (n <=? 57))%nat.

Definition digit_val (c : ascii) : Z := Z.of_nat (nat_of_ascii c) - 48.

Fixpoint skip_spaces (s : string) : string :=
  match s with
  | String c s' => if is_space c then skip_spaces s' else s
  | EmptyString => s
  end.

(** The longest prefix of decimal digits, accumulated most significant
    digit first; [None] while no digit has been read. *)
Fixpoint read_digits (s : string) (acc : option Z) : option Z :=
  match s with
  | String c s' =>
      if is_digit c
      then read_digits s' (Some (10 * default 0 acc + digit_val c))
      else acc
  | EmptyString => acc
  end.

(** [parseInt(s, 10)]; [None] is NaN. *)
Definition parseInt (s : string) : option Z :=
  match skip_spaces s with
  | String "-" r => Z.opp <$> read_digits r None
  | String "+" r => read_digits r None
  | r => read_digits r None
  end.

(** Every character of [s] passes the test [p]. *)
Fixpoint all_chars (p : ascii -> bool) (s : string) : bool :=
  match s with
  | EmptyString => true
  | String c s' => p c && all_chars p s'
  end.

(** [x || 0] on a number: NaN and (either) zero give 0. *)
Definition or_zero (x : option Z) : Z := default 0 x.

(** [Array.prototype.sort(cmp)]: the sort is stable, so for a comparator
    that is a consistent ordering the result is the stable insertion of
    the elements, whatever algorithm the engine runs. *)
Fixpoint insert_sorted {A} (cmp : A -> A -> Z) (x : A) (l : list A) : list A :=
  match l with
  | [] => [x]
  | y :: l' => if cmp x y <=? 0 then x :: l else y :: insert_sorted cmp x l'
  end.

Definition sort {A} (cmp : A -> A -> Z) (l : list A) : list A :=
  fold_right (insert_sorted cmp) [] l.

(** The property names of [Object.prototype].  Read through an object that
    has no such key of its own they give a function, or for [__proto__]
    the prototype itself: a value that is truthy and has none of the
    properties the code goes on to read. *)
Definition inherited (key : string) : bool :=
  existsb (String.eqb key)
    ["constructor"; "__defineGetter__"; "__defineSetter__"; "hasOwnProperty";
     "__lookupGetter__"; "__lookupSetter__"; "isPrototypeOf"; "propertyIsEnumerable";
     "toString"; "valueOf"; "__proto__"; "toLocaleString"].

(** What [obj[key]] finds. *)
Inductive Property (A : Type) :=
| Own (a : A)          (* a key of the object itself *)
| FromPrototype        (* a member of [Object.prototype] *)
| Undefined.
Arguments Own {A} a.
Arguments FromPrototype {A}.
Arguments Undefined {A}.

(** [obj[key]], given what [obj] has under [key] as its own. *)
Definition property {A} (own : option A) (key : string) : Property A :=
  match own with
  | Some a => Own a
  | None => if inherited key then FromPrototype else Undefined
  end.

End Js.

(** ** Semver utilities ([satisfies], [compareVersions], [findBestVersion]) *)

Module Semver.

(** [version.replace(/^v/, '')] *)
Definition strip_v (s : string) : string :=
  match s with
  | String "v" r => r
  | _ => s
  end.

(** [a.split('.').map(n => parseInt(n, 10) || 0)] *)
Definition parts (a : string) : list Z :=
  map (fun n => Js.or_zero (Js.parseInt n)) (Js.split "." a).

(** [pa[i] || 0] *)
Definition part (pa : list Z) (i : nat) : Z := nth i pa 0.

Definition compareVersions (a b : string) : Z :=
  let pa := parts a in
  let pb := parts b in
  let d0 := part pa 0 - part pb 0 in
  if negb (d0 =? 0) then d0 else
  let d1 := part pa 1 - part pb 1 in
  if negb (d1 =? 0) then d1 else
  let d2 := part pa 2 - part pb 2 in
  if negb (d2 =? 0) then d2 else
  0.

(** [const [major] = s.split('.')] *)
Definition major_of (s : string) : option string := nth_error (Js.split "." s) 0.
(** the second name of [const [major, minor] = s.split('.')] *)
Definition minor_of (s : string) : option string := nth_error (Js.split "." s) 1.

Definition same (x y : option string) : bool :=
  match x, y with
  | Some a, Some b => String.eqb a b
  | None, None => true
  | _, _ => false
  end.

Definition satisfies (version range : string) : bool :=
  if String.eqb range "*" || String.eqb range "latest" then true else
  let cleanVersion := strip_v version in
  let cleanRange := strip_v range in
  if Js.startsWith "^" cleanRange then
    let base := Js.slice 1 cleanRange in
    same (major_of base) (major_of cleanVersion)
    && (0 <=? compareVersions cleanVersion base)
  else if Js.startsWith "~" cleanRange then
    let base := Js.slice 1 cleanRange in
    same (major_of base) (major_of cleanVersion)
    && same (minor_of base) (minor_of cleanVersion)
    && (0 <=? compareVersions cleanVersion base)
  else if Js.startsWith ">=" cleanRange then
    0 <=? compareVersions cleanVersion (Js.slice 2 cleanRange)
  else if Js.startsWith ">" cleanRange then
    0 <? compareVersions cleanVersion (Js.slice 1 cleanRange)
  else if Js.startsWith "<=" cleanRange then
    compareVersions cleanVersion (Js.slice 2 cleanRange) <=? 0
  else if Js.startsWith "<" cleanRange then
    compareVersions cleanVersion (Js.slice 1 cleanRange) <? 0
  else String.eqb cleanVersion cleanRange.

(** [versions.filter(v => satisfies(v, range))] *)
Definition matching (versions : list string) (range : string) : list string :=
  List.filter (fun v => satisfies v range) versions.

(** [matching.sort((a, b) => compareVersions(b, a))[0] || null]; the empty
    string is falsy, so it is reported as [null] too. *)
Definition findBestVersion (versions : list string) (range : string) : option string :=
  match Js.sort (fun a b => compareVersions b a) (matching versions range) with
  | [] => None
  | v :: _ => if String.eqb v "" then None else Some v
  end.

End Semver.


(** ** The range grammar as the specification words it

    A well-formed version is a triple of natural numbers written in decimal
    and joined by dots; a range is [*], [latest], a version, or a version
    behind one of the operators [^ ~ >= > <= <].  [meaning] is the reading
    the specification gives to each form, over the numbers themselves. *)

Module SemverSpec.

Record version := Version { major : nat; minor : nat; patch : nat }.

Inductive range :=
| Any | Latest
| Exact (b : version)
| Caret (b : version) | Tilde (b : version)
| Ge (b : version) | Gt (b : version) | Le (b : version) | Lt (b : version).

Definition show_nat (n : nat) : string := NilZero.string_of_uint (Nat.to_uint n).

Definition show (v : version) : string :=
  show_nat (major v) ++ "." ++ show_nat (minor v) ++ "." ++ show_nat (patch v).

Definition show_range (r : range) : string :=
  match r with
  | Any => "*"
  | Latest => "latest"
  | Exact b => show b
  | Caret b => "^" ++ show b
  | Tilde b => "~" ++ show b
  | Ge b => ">=" ++ show b
  | Gt b => ">" ++ show b
  | Le b => "<=" ++ show b
  | Lt b => "<" ++ show b
  end.

(** Numeric major.minor.patch ordering. *)
Definition vcompare (a b : version) : comparison :=
  match Nat.compare (major a) (major b) with
  | Eq => match Nat.compare (minor a) (minor b) with
          | Eq => Nat.compare (patch a) (patch b)
          | c => c
          end
  | c => c
  end.

Definition veq (a b : version) : bool := match vcompare a b with Eq => true | _ => false end.
Definition vlt (a b : version) : bool := match vcompare a b with Datatypes.Lt => true | _ => false end.
Definition vle (a b : version) : bool := match vcompare a b with Datatypes.Gt => false | _ => true end.

Definition meaning (v : version) (r : range) : bool :=
  match r with
  | Any | Latest => true
  | Exact b => veq v b
  | Caret b => Nat.eqb (major v) (major b) && vle b v
  | Tilde b => Nat.eqb (major v) (major b) && Nat.eqb (minor v) (minor b) && vle b v
  | Ge b => vle b v
  | Gt b => vlt b v
  | Le b => vle v b
  | Lt b => vlt v b
  end.

(** The numeric triple that [compareVersions] reads off a version string:
    the first three dot-separated components, each [parseInt(c, 10) || 0],
    a missing component counting as 0. *)
Definition triple (a : string) : Z * Z * Z :=
  let c := fun i => match nth_error (Js.split "." a) i with
                    | Some s => Js.or_zero (Js.parseInt s)
                    | None => 0
                    end in
  (c 0%nat, c 1%nat, c 2%nat).

(** Lexicographic difference of two triples, signed like a comparator. *)
Definition lex3 (x y : Z * Z * Z) : Z :=
  let '(x0, x1, x2) := x in
  let '(y0, y1, y2) := y in
  if negb (x0 =? y0) then x0 - y0
  else if negb (x1 =? y1) then x1 - y1
  else x2 - y2.

End SemverSpec.

(** ** Regular expressions: [RegExp.prototype.test]

    The patterns of the dictionary selector use literals, classes, the
    escapes [\s \S \w \W \d \D \b \B \n \t \r \xHH], the dot, groups,
    alternation, the quantifiers [* + ? {n} {n,} {n,m}] (lazy or not) and
    the anchors [^ $], under the flags [i] and [m]: no back-reference, no
    look-around.  For such a pattern [test] asks whether some substring
    matches, and that does not depend on the order in which a backtracking
    engine tries the alternatives; the matcher below tries them all.  A
    pattern is kept as its source text and parsed; in that text a double
    quote is written [\x22], which denotes the same character. *)

Module Regex.

Inductive item :=
| IChar (c : ascii)
| IRange (lo hi : ascii)
| ISpace (positive : bool)     (* \s, and \S when [positive] is false *)
| IWord (positive : bool)      (* \w \W *)
| IDigit (positive : bool).    (* \d \D *)

Inductive re :=
| Empty
| Char (c : ascii)
| Dot
| Class (negated : bool) (items : list item)
| Seq (r1 r2 : re)
| Alt (r1 r2 : re)
| Star (r : re)
| Bol                          (* ^ *)
| Eol                          (* $ *)
| WordBoundary (positive : bool).   (* \b \B *)

Record flags := { ignoreCase : bool; multiline : bool }.

(** *** Character classes (ASCII) *)

Definition code (c : ascii) : nat := nat_of_ascii c.

Definition between (lo hi : nat) (c : ascii) : bool :=
  ((lo <=? code c) && (code c <=? hi))%nat.

(** WhiteSpace and LineTerminator below U+0080: TAB, LF, VT, FF, CR, SPACE. *)
Definition is_space (c : ascii) : bool := between 9 13 c || (code c =? 32)%nat.
Definition is_digit (c : ascii) : bool := between 48 57 c.
Definition is_upper (c : ascii) : bool := between 65 90 c.
Definition is_lower (c : ascii) : bool := between 97 122 c.
Definition is_word (c : ascii) : bool :=
  is_upper c || is_lower c || is_digit c || (code c =? 95)%nat.
Definition is_line_terminator (c : ascii) : bool :=
  (code c =? 10)%nat || (code c =? 13)%nat.

Definition to_upper (c : ascii) : ascii :=
  if is_lower c then ascii_of_nat (code c - 32) else c.
Definition to_lower (c : ascii) : ascii :=
  if is_upper c then ascii_of_nat (code c + 32) else c.

Definition item_has (c : ascii) (i : item) : bool :=
  match i with
  | IChar x => Ascii.eqb x c
  | IRange lo hi => between (code lo) (code hi) c
  | ISpace b => Bool.eqb (is_space c) b
  | IWord b => Bool.eqb (is_word c) b
  | IDigit b => Bool.eqb (is_digit c) b
  end.

Definition class_has (fl : flags) (items : list item) (c : ascii) : bool :=
  existsb (item_has c) items
  || (ignoreCase fl
      && (existsb (item_has (to_upper c)) items || existsb (item_has (to_lower c)) items)).

Definition char_eq (fl : flags) (x c : ascii) : bool :=
  if ignoreCase fl then Ascii.eqb (to_upper x) (to_upper c) else Ascii.eqb x c.

Definition word_before (prev : option ascii) : bool :=
  match prev with Some c => is_word c | None => false end.
Definition word_after (s : string) : bool :=
  match s with String c _ => is_word c | EmptyString => false end.

(** *** Matching

    [matches fl r prev s k]: [r] matches a prefix of [s], the character
    before [s] being [prev], and the continuation [k] accepts what
    follows.  An iteration of a star has to consume a character. *)
Fixpoint matches (fl : flags) (r : re) (prev : option ascii) (s : string)
    (k : option ascii -> string -> bool) {struct r} : bool :=
  match r with
  | Empty => k prev s
  | Char x =>
      match s with
      | String c s' => if char_eq fl x c then k (Some c) s' else false
      | EmptyString => false
      end
  | Dot =>
      match s with
      | String c s' => if is_line_terminator c then false else k (Some c) s'
      | EmptyString => false
      end
  | Class negated items =>
      match s with
      | String c s' =>
          if Bool.eqb (class_has fl items c) negated then false else k (Some c) s'
      | EmptyString => false
      end
  | Seq r1 r2 => matches fl r1 prev s (fun prev' s' => matches fl r2 prev' s' k)
  | Alt r1 r2 => if matches fl r1 prev s k then true else matches fl r2 prev s k
  | Star r1 =>
      (fix iterate (n : nat) (prev : option ascii) (s : string) {struct n} : bool :=
         if k prev s then true
         else match n with
              | O => false
              | S n' =>
                  matches fl r1 prev s
                    (fun prev' s' =>
                       if (String.length s' <? String.length s)%nat
                       then iterate n' prev' s' else false)
              end) (String.length s) prev s
  | Bol =>
      match prev with
      | None => k prev s
      | Some c => if multiline fl && is_line_terminator c then k prev s else false
      end
  | Eol =>
      match s with
      | EmptyString => k prev s
      | String c _ => if multiline fl && is_line_terminator c then k prev s else false
      end
  | WordBoundary positive =>
      if Bool.eqb (xorb (word_before prev) (word_after s)) positive then k prev s else false
  end.

(** A match starting at some position of [s]. *)
Fixpoint search (fl : flags) (r : re) (prev : option ascii) (s : string) : bool :=
  if matches fl r prev s (fun _ _ => true) then true
  else match s with
       | String c s' => search fl r (Some c) s'
       | EmptyString => false
       end.

(** *** Parsing the source of a pattern *)

Definition plus (r : re) : re := Seq r (Star r).
Definition opt (r : re) : re := Alt r Empty.

Fixpoint power (n : nat) (r : re) : re :=
  match n with
  | O => Empty
  | S n' => Seq r (power n' r)
  end.

(** [r{0,n}] *)
Fixpoint upto (n : nat) (r : re) : re :=
  match n with
  | O => Empty
  | S n' => opt (Seq r (upto n' r))
  end.

Definition hex_val (c : ascii) : option nat :=
  if is_digit c then Some (code c - 48)%nat
  else if between 97 102 c then Some (code c - 87)%nat
  else if between 65 70 c then Some (code c - 55)%nat
  else None.

(** The atom, or class item, that an escape [\c] stands for; [rest] is the
    text after [c]. *)
Definition escape_item (c : ascii) (rest : string) : item * string :=
  match c with
  | "s"%char => (ISpace true, rest)
  | "S"%char => (ISpace false, rest)
  | "w"%char => (IWord true, rest)
  | "W"%char => (IWord false, rest)
  | "d"%char => (IDigit true, rest)
  | "D"%char => (IDigit false, rest)
  | "n"%char => (IChar "010"%char, rest)
  | "r"%char => (IChar "013"%char, rest)
  | "t"%char => (IChar "009"%char, rest)
  | "x"%char =>
      match rest with
      | String h1 (String h2 rest') =>
          match hex_val h1, hex_val h2 with
          | Some a, Some b => (IChar (ascii_of_nat (16 * a + b)), rest')
          | _, _ => (IChar c, rest)
          end
      | _ => (IChar c, rest)
      end
  | _ => (IChar c, rest)
  end.

Definition atom_of_item (i : item) : re :=
  match i with
  | IChar c => Char c
  | _ => Class false [i]
  end.

(** The items of a class, up to and including the closing bracket. *)
Fixpoint class_items (fuel : nat) (s : string) : option (list item * string) :=
  match fuel with
  | O => None
  | S fuel' =>
      match s with
      | EmptyString => None
      | String "]" rest => Some ([], rest)
      | String c rest =>
          let '(first, rest1) :=
            match c, rest with
            | "\"%char, String e rest' => escape_item e rest'
            | _, _ => (IChar c, rest)
            end in
          match first, rest1 with
          | IChar lo, String "-" (String c2 rest2) =>
              if Ascii.eqb c2 "]" then
                (* a trailing dash is a literal *)
                match class_items fuel' rest1 with
                | Some (items, rest') => Some (first :: items, rest')
                | None => None
                end
              else
                let '(last, rest3) :=
                  match c2, rest2 with
                  | "\"%char, String e rest' => escape_item e rest'
                  | _, _ => (IChar c2, rest2)
                  end in
                match last with
                | IChar hi =>
                    match class_items fuel' rest3 with
                    | Some (items, rest') => Some (IRange lo hi :: items, rest')
                    | None => None
                    end
                | _ =>
                    match class_items fuel' rest3 with
                    | Some (items, rest') => Some (first :: IChar "-" :: last :: items, rest')
                    | None => None
                    end
                end
          | _, _ =>
              match class_items fuel' rest1 with
              | Some (items, rest') => Some (first :: items, rest')
              | None => None
              end
          end
      end
  end.

Fixpoint read_number (s : string) (acc : option nat) : option nat * string :=
  match s with
  | String c rest =>
      if is_digit c then read_number rest (Some (10 * default O acc + (code c - 48))%nat)
      else (acc, s)
  | EmptyString => (acc, s)
  end.

(** A quantifier, if one follows, applied to [r]; a [?] after it (lazy) is
    dropped.  A brace that does not open a quantifier is left in place. *)
Definition quantified (r : re) (s : string) : re * string :=
  let lazy := fun (s : string) => match s with String "?" rest => rest | _ => s end in
  match s with
  | String "*" rest => (Star r, lazy rest)
  | String "+" rest => (plus r, lazy rest)
  | String "?" rest => (opt r, lazy rest)
  | String "{" rest =>
      match read_number rest None with
      | (Some n, String "}" rest1) => (power n r, lazy rest1)
      | (Some n, String "," (String "}" rest1)) => (Seq (power n r) (Star r), lazy rest1)
      | (Some n, String "," rest1) =>
          match read_number rest1 None with
          | (Some m, String "}" rest2) => (Seq (power n r) (upto (m - n) r), lazy rest2)
          | _ => (r, s)
          end
      | _ => (r, s)
      end
  | _ => (r, s)
  end.

(** Disjunction, alternative and term of the grammar; each stops where it
    cannot go on and returns the rest. *)
Fixpoint disjunction (fuel : nat) (s : string) : option (re * string) :=
  match fuel with
  | O => None
  | S fuel' =>
      match alternative fuel' s with
      | Some (r1, String "|" rest) =>
          match disjunction fuel' rest with
          | Some (r2, rest') => Some (Alt r1 r2, rest')
          | None => None
          end
      | other => other
      end
  end
with alternative (fuel : nat) (s : string) : option (re * string) :=
  match fuel with
  | O => None
  | S fuel' =>
      match s with
      | EmptyString => Some (Empty, s)
      | String "|" _ => Some (Empty, s)
      | String ")" _ => Some (Empty, s)
      | _ =>
          match term fuel' s with
          | Some (r1, rest) =>
              match alternative fuel' rest with
              | Some (Empty, rest') => Some (r1, rest')
              | Some (r2, rest') => Some (Seq r1 r2, rest')
              | None => None
              end
          | None => None
          end
      end
  end
with term (fuel : nat) (s : string) : option (re * string) :=
  match fuel with
  | O => None
  | S fuel' =>
      match s with
      | EmptyString => None
      | String "^" rest => Some (Bol, rest)
      | String "$" rest => Some (Eol, rest)
      | String "." rest => Some (quantified Dot rest)
      | String "(" rest =>
          let body := match rest with
                      | String "?" (String ":" rest') => rest'
                      | _ => rest
                      end in
          match disjunction fuel' body with
          | Some (r, String ")" rest') => Some (quantified r rest')
          | _ => None
          end
      | String "[" rest =>
          let '(negated, body) := match rest with
                                  | String "^" rest' => (true, rest')
                                  | _ => (false, rest)
                                  end in
          match class_items (S (String.length body)) body with
          | Some (items, rest') => Some (quantified (Class negated items) rest')
          | None => None
          end
      | String "\" (String "b" rest) => Some (WordBoundary true, rest)
      | String "\" (String "B" rest) => Some (WordBoundary false, rest)
      | String "\" (String e rest) =>
          let '(i, rest') := escape_item e rest in
          Some (quantified (atom_of_item i) rest')
      | String "\" EmptyString => None
      | String c rest => Some (quantified (Char c) rest)
      end
  end.

Definition parse (source : string) : option re :=
  match disjunction (3 * String.length source + 3) source with
  | Some (r, EmptyString) => Some r
  | _ => None
  end.

(** A pattern as the code writes it: source and flags. *)
Record pattern := { source : string; fl : flags }.

(** [/source/] *)
Definition rx (source : string) : pattern :=
  {| source := source; fl := {| ignoreCase := false; multiline := false |} |}.
(** [/source/i] *)
Definition rx_i (source : string) : pattern :=
  {| source := source; fl := {| ignoreCase := true; multiline := false |} |}.
(** [/source/m] *)
Definition rx_m (source : string) : pattern :=
  {| source := source; fl := {| ignoreCase := false; multiline := true |} |}.

(** [pattern.test(text)] *)
Definition test (p : pattern) (text : string) : bool :=
  match parse (source p) with
  | Some r => search (fl p) r None text
  | None => false
  end.

Definition well_formed (p : pattern) : bool :=
  match parse (source p) with Some _ => true | None => false end.

End Regex.

(** ** The dictionary selector ([detectDictionaryType])

    The pattern tables are those of [dictionaries/index.ts], in order, each
    pattern by its source text. *)

Module Dictionary.

Inductive DictionaryType :=
| react | vue | typescript | javascript | css | html | json
| python | rust | go | java | c | cpp | auto.

(** [htmlPatterns] *)
Definition htmlPatterns : list Regex.pattern := [
  Regex.rx_i "<!DOCTYPE\s+html";
  Regex.rx_i "<html[\s>]";
  Regex.rx_i "<head[\s>]";
  Regex.rx_i "<body[\s>]";
  Regex.rx_i "<div[\s>]";
  Regex.rx_i "<script[\s>]";
  Regex.rx_i "<style[\s>]";
  Regex.rx_i "<link[\s>]";
  Regex.rx_i "<meta[\s>]";
  Regex.rx_i "<title[\s>]";
  Regex.rx_i "<p[\s>]";
  Regex.rx_i "<span[\s>]";
  Regex.rx_i "<a\s+href";
  Regex.rx_i "<img\s+src";
  Regex.rx_i "<svg[\s>]";
  Regex.rx "class=[\x22']";
  Regex.rx "id=[\x22']"
].

(** [cssPatterns] *)
Definition cssPatterns : list Regex.pattern := [
  Regex.rx "@media\s*\(";
  Regex.rx "@keyframes\s+\w";
  Regex.rx "@import\s+['\x22]";
  Regex.rx "@font-face\s*\{";
  Regex.rx "\.[a-z][\w-]*\s*\{";
  Regex.rx "#[a-z][\w-]*\s*\{";
  Regex.rx ":\s*(flex|grid|block|none|inline)";
  Regex.rx "\{[^}]*:\s*[^}]+;[^}]*\}"
].

(** [strongPythonPatterns] *)
Definition strongPythonPatterns : list Regex.pattern := [
  Regex.rx_m "^def\s+\w+\s*\([^)]*\)\s*:";
  Regex.rx_m "^class\s+\w+.*:\s*$";
  Regex.rx "if\s+__name__\s*==\s*[\x22']__main__[\x22']";
  Regex.rx "def\s+__init__\s*\(\s*self";
  Regex.rx "def\s+__\w+__\s*\(";
  Regex.rx "@\w+\s*\n\s*def";
  Regex.rx "except\s+\w+\s*:";
  Regex.rx "elif\s+.*:";
  Regex.rx_m "^\s*self\.\w+\s*="
].

(** [weakPythonPatterns] *)
Definition weakPythonPatterns : list Regex.pattern := [
  Regex.rx_m "^from\s+\w+\s+import";
  Regex.rx "\bTrue\b|\bFalse\b|\bNone\b";
  Regex.rx "print\s*\(";
  Regex.rx ":\s*\n\s{4}"
].

(** [rustPatterns] *)
Definition rustPatterns : list Regex.pattern := [
  Regex.rx_m "^fn\s+\w+";
  Regex.rx_m "^pub\s+fn";
  Regex.rx_m "^struct\s+\w+";
  Regex.rx_m "^enum\s+\w+";
  Regex.rx_m "^impl\s+";
  Regex.rx_m "^trait\s+\w+";
  Regex.rx_m "^use\s+\w+::";
  Regex.rx_m "^mod\s+\w+";
  Regex.rx "let\s+mut\s+";
  Regex.rx "\.unwrap\(\)";
  Regex.rx "\.expect\(";
  Regex.rx "Option<|Result<|Vec<|Box<|Rc<|Arc<";
  Regex.rx "Some\(|None|Ok\(|Err\(";
  Regex.rx_m "\?\s*;?\s*$";
  Regex.rx "#\[derive\(";
  Regex.rx "&self|&mut self";
  Regex.rx "::\s*new\s*\(";
  Regex.rx "->.*\{"
].

(** [goPatterns] *)
Definition goPatterns : list Regex.pattern := [
  Regex.rx_m "^package\s+\w+";
  Regex.rx_m "^import\s+\(";
  Regex.rx_m "^func\s+\w+\s*\(";
  Regex.rx_m "^func\s+\(\w+\s+\*?\w+\)";
  Regex.rx_m "^type\s+\w+\s+struct";
  Regex.rx_m "^type\s+\w+\s+interface";
  Regex.rx "if\s+err\s*!=\s*nil";
  Regex.rx ":\s*=\s*";
  Regex.rx "\bnil\b";
  Regex.rx "\bdefer\s+";
  Regex.rx "\bgo\s+func";
  Regex.rx "\bchan\s+";
  Regex.rx "<-\w+|<-\s*\w+";
  Regex.rx "\.Error\(\)";
  Regex.rx "fmt\.Print";
  Regex.rx "make\(map\[|make\(\[\]";
  Regex.rx "\bfunc\s*\("
].

(** [javaPatterns] *)
Definition javaPatterns : list Regex.pattern := [
  Regex.rx_m "^package\s+[\w.]+;";
  Regex.rx_m "^import\s+[\w.]+;";
  Regex.rx_m "^import\s+static\s+[\w.]+;";
  Regex.rx "public\s+class\s+\w+";
  Regex.rx "public\s+interface\s+\w+";
  Regex.rx "public\s+enum\s+\w+";
  Regex.rx "public\s+static\s+void\s+main";
  Regex.rx "private\s+(final\s+)?[\w<>[\]]+\s+\w+";
  Regex.rx "@Override";
  Regex.rx "@Autowired";
  Regex.rx "@Service|@Repository|@Controller|@Component";
  Regex.rx "System\.out\.print";
  Regex.rx "\.equals\(";
  Regex.rx "\.hashCode\(\)";
  Regex.rx "new\s+\w+\s*<";
  Regex.rx "throws\s+\w+Exception";
  Regex.rx "implements\s+\w+";
  Regex.rx "extends\s+\w+"
].

(** [cppPatterns] *)
Definition cppPatterns : list Regex.pattern := [
  Regex.rx "#include\s*<\w+>";
  Regex.rx_m "^class\s+\w+\s*[:{]";
  Regex.rx_m "^namespace\s+\w+";
  Regex.rx "std::";
  Regex.rx "public:|private:|protected:";
  Regex.rx "virtual\s+";
  Regex.rx "template\s*<";
  Regex.rx "typename\s+";
  Regex.rx "using\s+namespace";
  Regex.rx "new\s+\w+\(";
  Regex.rx "delete\s+\w+";
  Regex.rx "nullptr";
  Regex.rx "auto\s+\w+\s*=";
  Regex.rx "cout\s*<<|cin\s*>>";
  Regex.rx "constexpr\s+";
  Regex.rx "->\s*\w+\s*\(";
  Regex.rx "::\s*\w+\s*\(";
  Regex.rx "unique_ptr|shared_ptr|make_unique|make_shared"
].

(** [cPatterns] *)
Definition cPatterns : list Regex.pattern := [
  Regex.rx "#include\s*<stdio\.h>";
  Regex.rx "#include\s*<stdlib\.h>";
  Regex.rx "#include\s*<string\.h>";
  Regex.rx "#define\s+\w+";
  Regex.rx_m "^typedef\s+struct";
  Regex.rx_m "^struct\s+\w+\s*\{";
  Regex.rx "int\s+main\s*\(";
  Regex.rx "printf\s*\(";
  Regex.rx "scanf\s*\(";
  Regex.rx "malloc\s*\(";
  Regex.rx "free\s*\(";
  Regex.rx "sizeof\s*\(";
  Regex.rx "NULL";
  Regex.rx "->|&\w+|\*\w+";
  Regex.rx "unsigned\s+(int|char|long)";
  Regex.rx "void\s*\*"
].

(** [strongJsPatterns] *)
Definition strongJsPatterns : list Regex.pattern := [
  Regex.rx_m "^import\s+.*\s+from\s+['\x22]";
  Regex.rx_m "^import\s+\{[^}]+\}\s+from\s+['\x22]";
  Regex.rx_m "^export\s+(default|const|function|class|type|interface)\s+";
  Regex.rx_m "^export\s+\{";
  Regex.rx "\bconst\s+\w+\s*=\s*\(";
  Regex.rx "\blet\s+\w+\s*=\s*[\[{('\x22]";
  Regex.rx "\bvar\s+\w+\s*=";
  Regex.rx "=>\s*[\{(]";
  Regex.rx "\bfunction\s*\*?\s*\w*\s*\([^)]*\)\s*\{";
  Regex.rx "\bclass\s+\w+\s*(extends\s+\w+\s*)?\{";
  Regex.rx ":\s*(string|number|boolean|any|void|never|unknown|null|undefined)\s*[;,)=\]]";
  Regex.rx "interface\s+\w+\s*(<[^>]+>)?\s*\{";
  Regex.rx "type\s+\w+\s*(<[^>]+>)?\s*=";
  Regex.rx "as\s+(const|string|number|any|unknown)";
  Regex.rx "<\w+(\s*,\s*\w+)*>\s*\(";
  Regex.rx "\.then\s*\(\s*(async\s*)?\(?";
  Regex.rx "\.catch\s*\(\s*\(?";
  Regex.rx "async\s+(function|\(|\w+\s*=>)";
  Regex.rx "await\s+\w+";
  Regex.rx "console\.(log|error|warn|info|debug)\s*\(";
  Regex.rx "require\s*\(\s*['\x22]";
  Regex.rx "module\.exports\s*=";
  Regex.rx "Object\.(keys|values|entries|assign|freeze)\s*\(";
  Regex.rx "Array\.(isArray|from|of)\s*\(";
  Regex.rx "JSON\.(parse|stringify)\s*\(";
  Regex.rx "Promise\.(all|race|resolve|reject)\s*\(";
  Regex.rx "\bethers\b|\bviem\b|\bwagmi\b";
  Regex.rx "\bweb3\b|\bWeb3\b";
  Regex.rx "\bprovider\b.*\bgetSigner\b|\bgetSigner\b.*\bprovider\b";
  Regex.rx "\buseAccount\b|\buseConnect\b|\buseDisconnect\b";
  Regex.rx "\bconnectAsync\b|\bdisconnectAsync\b";
  Regex.rx "\bRainbowKit\b|\brainbow\b";
  Regex.rx "\bMetaMask\b|\bmetamask\b";
  Regex.rx_i "\bcontract\b.*\babi\b|\babi\b.*\bcontract\b";
  Regex.rx "0x[a-fA-F0-9]{40}";
  Regex.rx "@(Component|Injectable|NgModule|Directive|Pipe|Input|Output)\s*\(";
  Regex.rx "\bngOnInit\b|\bngOnDestroy\b|\bngOnChanges\b";
  Regex.rx "\bObservable\b|\bSubject\b|\bBehaviorSubject\b";
  Regex.rx "\.subscribe\s*\(";
  Regex.rx "\bfrom\s*\(\s*['\x22]rxjs['\x22]";
  Regex.rx "\buseState\b|\buseEffect\b|\buseCallback\b|\buseMemo\b|\buseRef\b";
  Regex.rx "\bReact\.(createElement|Component|Fragment|memo|forwardRef)\b";
  Regex.rx "\b_?jsx\b|\b_?jsxs\b";
  Regex.rx "process\.(env|argv|cwd|exit)";
  Regex.rx "\b__dirname\b|\b__filename\b";
  Regex.rx "document\.(getElementById|querySelector|createElement)";
  Regex.rx "window\.(location|localStorage|sessionStorage|addEventListener)"
].

(** [weakJsPatterns] *)
Definition weakJsPatterns : list Regex.pattern := [
  Regex.rx "\bconst\s+\w+\s*=";
  Regex.rx "\blet\s+\w+\s*=";
  Regex.rx "\.map\s*\(";
  Regex.rx "\.filter\s*\(";
  Regex.rx "\.reduce\s*\(";
  Regex.rx "\.forEach\s*\(";
  Regex.rx "\bnew\s+\w+\s*\(";
  Regex.rx "\bthrow\s+new\s+\w*Error";
  Regex.rx "\btry\s*\{";
  Regex.rx "\bcatch\s*\(\w+\)\s*\{"
].

(** [strongMinifiedPatterns] *)
Definition strongMinifiedPatterns : list Regex.pattern := [
  Regex.rx "webpackJsonp|__webpack_require__|__webpack_exports__";
  Regex.rx "\[\x22__esModule\x22\]";
  Regex.rx "__TURBOPACK__|__turbopack_";
  Regex.rx "\b_interopRequireDefault\b|\b_interopRequireWildcard\b";
  Regex.rx "\bdefineProperty\s*\(\s*exports\s*,";
  Regex.rx "void\s*0\b";
  Regex.rx "!0\b|!1\b";
  Regex.rx "\btypeof\s+\w\s*[!=]==";
  Regex.rx "[;,]\w=[^,;]{1,30}[;,]\w=";
  Regex.rx "\)\s*\{[^}]{0,50}\}\s*\(";
  Regex.rx "\w\.\w\.\w\.\w\.\w"
].

(** [iifePatterns] *)
Definition iifePatterns : list Regex.pattern := [
  Regex.rx "^\s*[\!\(]function\s*\(";
  Regex.rx "^\s*\(function\s*\(\w?,?\w?,?\w?\)\s*\{";
  Regex.rx "^\s*\(\s*\(\s*\)\s*=>\s*\{";
  Regex.rx "^\s*\(\s*function\s*\(\s*\)\s*\{"
].

(** [vuePatterns] *)
Definition vuePatterns : list Regex.pattern := [
  Regex.rx "__VUE__";
  Regex.rx "createVNode\(";
  Regex.rx "createElementVNode\(";
  Regex.rx "defineComponent\(";
  Regex.rx "_createVNode\(";
  Regex.rx "_createElementVNode\(";
  Regex.rx "_resolveComponent\(";
  Regex.rx "\bref\s*\(";
  Regex.rx "\breactive\s*\(";
  Regex.rx "\bcomputed\s*\(";
  Regex.rx "onMounted\s*\(";
  Regex.rx "onUnmounted\s*\(";
  Regex.rx "useRouter\s*\(\)";
  Regex.rx "useRoute\s*\(\)";
  Regex.rx "defineNuxtConfig";
  Regex.rx "useFetch\s*\(";
  Regex.rx "useAsyncData\s*\("
].

(** [reactPatterns] *)
Definition reactPatterns : list Regex.pattern := [
  Regex.rx "__REACT";
  Regex.rx "React\.createElement";
  Regex.rx "React\.(Component|PureComponent|Fragment|memo|forwardRef|lazy|Suspense)";
  Regex.rx "\bjsx\s*\(|\bjsxs\s*\(";
  Regex.rx "_jsx\s*\(|_jsxs\s*\(";
  Regex.rx "createRoot\s*\(|hydrateRoot\s*\(";
  Regex.rx "ReactDOM\.(render|createRoot|hydrateRoot)";
  Regex.rx "\buseState\s*\(";
  Regex.rx "\buseEffect\s*\(";
  Regex.rx "\buseCallback\s*\(";
  Regex.rx "\buseMemo\s*\(";
  Regex.rx "\buseRef\s*\(";
  Regex.rx "\buseContext\s*\(";
  Regex.rx "\buseReducer\s*\(";
  Regex.rx "\buseLayoutEffect\s*\(";
  Regex.rx "\buseImperativeHandle\s*\(";
  Regex.rx "\buseDebugValue\s*\(";
  Regex.rx "\buseTransition\s*\(";
  Regex.rx "\buseDeferredValue\s*\(";
  Regex.rx "\buseId\s*\(";
  Regex.rx "\buseSyncExternalStore\s*\(";
  Regex.rx "useRouter\s*\(\)";
  Regex.rx "usePathname\s*\(\)";
  Regex.rx "useSearchParams\s*\(\)";
  Regex.rx "useParams\s*\(\)";
  Regex.rx "\x22use client\x22";
  Regex.rx "\x22use server\x22";
  Regex.rx "\bnext\/\w+";
  Regex.rx "getServerSideProps|getStaticProps|getStaticPaths";
  Regex.rx "\buseQuery\s*\(";
  Regex.rx "\buseMutation\s*\(";
  Regex.rx "\buseInfiniteQuery\s*\(";
  Regex.rx "QueryClient|QueryClientProvider";
  Regex.rx "\buseAccount\s*\(";
  Regex.rx "\buseConnect\s*\(";
  Regex.rx "\buseDisconnect\s*\(";
  Regex.rx "\buseNetwork\s*\(";
  Regex.rx "\buseBalance\s*\(";
  Regex.rx "\buseContractRead\s*\(";
  Regex.rx "\buseContractWrite\s*\(";
  Regex.rx "\busePrepareContractWrite\s*\(";
  Regex.rx "\buseWaitForTransaction\s*\(";
  Regex.rx "\buseSignMessage\s*\(";
  Regex.rx "\buseSendTransaction\s*\(";
  Regex.rx "RainbowKitProvider|ConnectButton";
  Regex.rx "WagmiConfig|WagmiProvider";
  Regex.rx "\buseSelector\s*\(";
  Regex.rx "\buseDispatch\s*\(";
  Regex.rx "\buseStore\s*\(";
  Regex.rx "\buseAtom\s*\(";
  Regex.rx "\buseRecoilState\s*\(";
  Regex.rx "\buseRecoilValue\s*\(";
  Regex.rx "\bstyled\s*\.";
  Regex.rx "\bcss\s*`";
  Regex.rx "\bclassName\s*=";
  Regex.rx "\bclassNames\s*\(";
  Regex.rx "\bclsx\s*\(";
  Regex.rx "\bcn\s*\(";
  Regex.rx "\buseForm\s*\(";
  Regex.rx "\buseFormContext\s*\(";
  Regex.rx "\bregister\s*\(";
  Regex.rx "\bhandleSubmit\s*\("
].

(** The counting loops: [matches++] for every pattern that tests true and
    [return true] as soon as [matches >= limit].  [None] is that early
    return, [Some matches] the count at the end of the table. *)
Fixpoint scan (limit : nat) (patterns : list Regex.pattern) (text : string) (matches : nat)
  : option nat :=
  match patterns with
  | [] => Some matches
  | pattern :: rest =>
      if Regex.test pattern text then
        if (limit <=? S matches)%nat then None else scan limit rest text (S matches)
      else scan limit rest text matches
  end.

(** The loop returned [true]. *)
Definition returned (r : option nat) : bool :=
  match r with
  | None => true
  | Some _ => false
  end.

Definition isHtml (text : string) : bool := returned (scan 3 htmlPatterns text 0).
Definition isCss (text : string) : bool := returned (scan 2 cssPatterns text 0).

(** [text.trim()] *)
Fixpoint trim_start (s : string) : string :=
  match s with
  | String ch s' => if Regex.is_space ch then trim_start s' else s
  | EmptyString => s
  end.

Fixpoint trim_end (s : string) : string :=
  match s with
  | String ch s' =>
      match trim_end s' with
      | EmptyString => if Regex.is_space ch then EmptyString else String ch EmptyString
      | t => String ch t
      end
  | EmptyString => EmptyString
  end.

Definition trim (s : string) : string := trim_end (trim_start s).

(** The state of the loop of [isJson]. *)
Record JsonScan := {
  braces : Z;
  brackets : Z;
  inString : bool;
  escaped : bool;
}.

Definition json_step (st : JsonScan) (char : ascii) : JsonScan :=
  if escaped st then
    {| braces := braces st; brackets := brackets st; inString := inString st; escaped := false |}
  else if Ascii.eqb char "\" then
    {| braces := braces st; brackets := brackets st; inString := inString st; escaped := true |}
  else if Ascii.eqb char "034" then
    {| braces := braces st; brackets := brackets st; inString := negb (inString st);
       escaped := false |}
  else if inString st then st
  else if Ascii.eqb char "{" then
    {| braces := braces st + 1; brackets := brackets st; inString := false; escaped := false |}
  else if Ascii.eqb char "}" then
    {| braces := braces st - 1; brackets := brackets st; inString := false; escaped := false |}
  else if Ascii.eqb char "[" then
    {| braces := braces st; brackets := brackets st + 1; inString := false; escaped := false |}
  else if Ascii.eqb char "]" then
    {| braces := braces st; brackets := brackets st - 1; inString := false; escaped := false |}
  else st.

(** [s.slice(0, n)] *)
Fixpoint take (n : nat) (s : string) : string :=
  match n, s with
  | S n', String ch s' => String ch (take n' s')
  | _, _ => EmptyString
  end.

Definition isJson (text : string) : bool :=
  let trimmed := trim text in
  if negb (Js.startsWith "{" trimmed) && negb (Js.startsWith "[" trimmed) then false
  else
    let st := fold_left json_step (list_ascii_of_string (take 1000 trimmed))
                {| braces := 0; brackets := 0; inString := false; escaped := false |} in
    (0 <=? braces st) && (0 <=? brackets st).

Definition isPython (text : string) : bool :=
  match scan 2 strongPythonPatterns text 0 with
  | None => true
  | Some strongMatches =>
      (* [strongMatches + weakMatches >= 3], counted on from [strongMatches] *)
      (1 <=? strongMatches)%nat && returned (scan 3 weakPythonPatterns text strongMatches)
  end.

Definition isRust (text : string) : bool := returned (scan 3 rustPatterns text 0).
Definition isGo (text : string) : bool := returned (scan 3 goPatterns text 0).
Definition isJava (text : string) : bool := returned (scan 3 javaPatterns text 0).
Definition isCpp (text : string) : bool := returned (scan 3 cppPatterns text 0).

Definition isC (text : string) : bool :=
  if isCpp text then false else returned (scan 3 cPatterns text 0).

Definition isJavaScriptOrTypeScript (text : string) : bool :=
  match scan 2 strongJsPatterns text 0 with
  | None => true
  | Some matches =>
      (1 <=? matches)%nat && returned (scan 3 weakJsPatterns text matches)
  end.

(** The number of characters of [s] that pass [p]:
    [(s.match(/.../g) || []).length] for a one-character pattern. *)
Fixpoint count_chars (p : ascii -> bool) (s : string) : nat :=
  match s with
  | String ch s' => ((if p ch then 1 else 0) + count_chars p s')%nat
  | EmptyString => O
  end.

(** [score += points] for every pattern of the table that tests true. *)
Definition score_of (points : nat) (patterns : list Regex.pattern) (sample : string) : nat :=
  (points * length (List.filter (fun p => Regex.test p sample) patterns))%nat.

Definition bonus (b : bool) (points : nat) : nat := if b then points else O.

(** The ratios are quotients of two integers, the divisor at most 8000 (or
    the text's length against a line count), compared with 500, 0.08, 0.12
    and 0.002: the comparisons are decided exactly by cross-multiplying. *)
Definition isMinifiedJs (text : string) : bool :=
  let lines := Js.split "010" text in
  (* [avgLineLength > 500] *)
  if (500 * Nat.max (length lines) 1 <? String.length text)%nat then true
  else
    let sample := take 8000 text in
    let len := String.length sample in
    let whitespace := count_chars Regex.is_space sample in
    let newlines := count_chars (fun ch => Ascii.eqb ch "010") sample in
    let hasBlockComments := Regex.test (Regex.rx "\/\*[\s\S]{10,}?\*\/") sample in
    let hasLineComments := Regex.test (Regex.rx "\/\/[^\n]{5,}") sample in
    let minifiedScore :=
      (score_of 2 strongMinifiedPatterns sample
       + score_of 1 iifePatterns sample
       + bonus (Regex.test (Regex.rx "function\s*\(\s*\w\s*,\s*\w\s*,\s*\w\s*\)") sample) 1
       + bonus (Regex.test (Regex.rx "\(\s*\w\s*,\s*\w\s*\)\s*=>") sample) 1
       + bonus (Regex.test (Regex.rx "\bvar\s+\w\s*,\s*\w\s*,\s*\w\s*[,;=]") sample) 1
       + (if (100 * whitespace <? 8 * len) && (1000 <? len) then 3
          else if (100 * whitespace <? 12 * len) && (1000 <? len) then 2
          else 0)
       + bonus ((1000 * newlines <? 2 * len) && (2000 <? len)) 2
       + bonus (negb hasBlockComments && negb hasLineComments && (3000 <? len)) 1)%nat in
    (3 <=? minifiedScore)%nat.

Definition isVue (text : string) : bool := returned (scan 2 vuePatterns text 0).
Definition isReact (text : string) : bool := returned (scan 2 reactPatterns text 0).

(** [content]: a string, or a Buffer, of which the first 50000 bytes are
    decoded. *)
Inductive Content :=
| Text (s : string)
| Buffer (bytes : string).

Definition text_of (content : Content) : string :=
  match content with
  | Text s => s
  | Buffer bytes => take 50000 bytes
  end.

Definition detectDictionaryType (content : Content) : DictionaryType :=
  let text := text_of content in
  if isHtml text then html
  else if isCss text then css
  else if isJson text then json
  else if isMinifiedJs text then javascript
  else if isJavaScriptOrTypeScript text then
    if isVue text then vue
    else if isReact text then react
    else typescript
  else if isPython text then python
  else if isRust text then rust
  else if isGo text then go
  else if isJava text then java
  else if isCpp text then cpp
  else if isC text then c
  else typescript.

(** Every pattern of the tables, and of [isMinifiedJs]. *)
Definition all_patterns : list Regex.pattern :=
  (htmlPatterns ++ cssPatterns ++ strongPythonPatterns ++ weakPythonPatterns
   ++ rustPatterns ++ goPatterns ++ javaPatterns ++ cppPatterns ++ cPatterns
   ++ strongJsPatterns ++ weakJsPatterns ++ strongMinifiedPatterns ++ iifePatterns
   ++ vuePatterns ++ reactPatterns
   ++ [Regex.rx "\/\*[\s\S]{10,}?\*\/"; Regex.rx "\/\/[^\n]{5,}";
       Regex.rx "function\s*\(\s*\w\s*,\s*\w\s*,\s*\w\s*\)";
       Regex.rx "\(\s*\w\s*,\s*\w\s*\)\s*=>";
       Regex.rx "\bvar\s+\w\s*,\s*\w\s*,\s*\w\s*[,;=]"])%list.

(** *** Sample inputs *)

Definition nl : string := String "010" EmptyString.
Definition dq : string := String "034" EmptyString.

(** [import x from 'y'], then a Python function. *)
Definition import_then_def : string :=
  "import x from 'y'" ++ nl ++ "def f():" ++ nl ++ "    print(1)" ++ nl.

(** The same with a second line of JavaScript. *)
Definition two_js_lines_then_def : string :=
  "import x from 'y'" ++ nl ++ "export default x" ++ nl
  ++ "def f():" ++ nl ++ "    print(1)" ++ nl.

(** No category accepts the text. *)
Definition no_category (text : string) : bool :=
  negb (isHtml text || isCss text || isJson text || isMinifiedJs text
        || isJavaScriptOrTypeScript text || isPython text || isRust text
        || isGo text || isJava text || isCpp text || isC text).

(** The inputs of the repository's tests of [detectDictionaryType]. *)

Definition test_reactCode : string :=
  nl ++ "      const App = () => {" ++ nl ++
  "        const [count, setCount] = useState(0);" ++ nl ++ "        useEffect(() => {" ++
  nl ++ "          console.log(count);" ++ nl ++ "        }, [count]);" ++ nl ++
  "        return _jsx(" ++ dq ++ "div" ++ dq ++ ", { children: count });" ++ nl ++
  "      };" ++ nl ++ "    ".

Definition test_vueCode : string :=
  nl ++ "      import { createApp, ref, reactive, onMounted, computed } from 'vue';" ++
  nl ++ "      const app = createApp({" ++ nl ++ "        setup() {" ++ nl ++
  "          const count = ref(0);" ++ nl ++
  "          const state = reactive({ items: [] });" ++ nl ++
  "          const doubled = computed(() => count.value * 2);" ++ nl ++
  "          onMounted(() => console.log('mounted'));" ++ nl ++
  "          return { count, state, doubled };" ++ nl ++ "        }" ++ nl ++
  "      });" ++ nl ++ "      _createVNode(" ++ dq ++ "div" ++ dq ++
  ", null, count.value);" ++ nl ++ "      _createElementVNode(" ++ dq ++ "span" ++ dq ++
  ", null, " ++ dq ++ "hello" ++ dq ++ ");" ++ nl ++ "    ".

Definition test_css : string :=
  nl ++ "      @media (min-width: 768px) {" ++ nl ++ "        .container {" ++ nl ++
  "          display: flex;" ++ nl ++ "          flex-direction: column;" ++ nl ++
  "        }" ++ nl ++ "      }" ++ nl ++ "    ".

Definition test_pythonCode : string :=
  nl ++ "def main():" ++ nl ++ "    print(" ++ dq ++ "Hello" ++ dq ++ ")" ++ nl ++ nl ++
  "class MyClass:" ++ nl ++ "    def __init__(self):" ++ nl ++ "        self.value = 42" ++
  nl ++ "    ".

Definition test_rustCode : string :=
  nl ++ "fn main() {" ++ nl ++ "    let mut x = 5;" ++ nl ++ "    println!(" ++ dq ++
  "{}" ++ dq ++ ", x);" ++ nl ++ "}" ++ nl ++ nl ++ "impl MyTrait for MyStruct {" ++ nl ++
  "    fn method(&self) -> Option<i32> {" ++ nl ++ "        Some(42)" ++ nl ++ "    }" ++
  nl ++ "}" ++ nl ++ "    ".

Definition test_goCode : string :=
  nl ++ "package main" ++ nl ++ nl ++ "import " ++ dq ++ "fmt" ++ dq ++ nl ++ nl ++
  "func main() {" ++ nl ++ "    if err != nil {" ++ nl ++ "        return" ++ nl ++
  "    }" ++ nl ++ "    fmt.Println(" ++ dq ++ "Hello" ++ dq ++ ")" ++ nl ++ "}" ++ nl ++
  "    ".

Definition test_javaCode : string :=
  nl ++ "package com.example;" ++ nl ++ nl ++ "import java.util.List;" ++ nl ++ nl ++
  "public class Main {" ++ nl ++ "    public static void main(String[] args) {" ++ nl ++
  "        System.out.println(" ++ dq ++ "Hello" ++ dq ++ ");" ++ nl ++ "    }" ++ nl ++
  "}" ++ nl ++ "    ".

Definition test_json : string :=
  "{" ++ dq ++ "name" ++ dq ++ ":" ++ dq ++ "test" ++ dq ++ "," ++ dq ++ "version" ++ dq ++
  ":" ++ dq ++ "1.0.0" ++ dq ++ "}".

Definition test_generic : string :=
  "function foo() { return 42; }".

Definition test_bufferCode : string :=
  "const [x, setX] = useState(0); useEffect(() => {}, []);".

End Dictionary.

(** ** Registry metadata and the resolved map *)

Module Registry.

(** [Record<string, string>]: a dependency table, in key order. *)
Abbreviation Deps := (list (string * string)).

(** [versionData.dist] *)
Record Dist := {
  integrity : option string;
  shasum : option string;
  tarball : option string;
}.

(** One entry of [metadata.versions]. *)
Record VersionData := {
  dist : option Dist;
  dependencies : option Deps;
  peerDependencies : option Deps;
  optionalDependencies : option Deps;
}.

(** The body of a 200 response of the registry. *)
Record Metadata := {
  versions : option (list (string * VersionData));
}.

Record ResolvedPackage := {
  name : string;
  version : string;
  pkg_integrity : string;
  tarballUrl : string;
  pkg_dependencies : Deps;
  pkg_peerDependencies : option Deps;
  pkg_optionalDependencies : option Deps;
}.

(** [x || y] where [x] is a string or undefined: the empty string is falsy. *)
Definition str_or (x : option string) (y : string) : string :=
  match x with
  | Some s => if String.eqb s "" then y else s
  | None => y
  end.

(** [obj[key]] on an association list. *)
Fixpoint assoc {A} (key : string) (l : list (string * A)) : option A :=
  match l with
  | [] => None
  | (k, v) :: l' => if String.eqb k key then Some v else assoc key l'
  end.

(** [map.has(key)] *)
Definition has {A} (key : string) (l : list (string * A)) : bool :=
  match assoc key l with Some _ => true | None => false end.

(** [map.set(key, v)] and [obj[key] = v]: an existing key keeps its place
    and takes the new value, a new key goes to the end. *)
Fixpoint set {A} (key : string) (v : A) (l : list (string * A)) : list (string * A) :=
  match l with
  | [] => [(key, v)]
  | (k, w) :: l' => if String.eqb k key then (k, v) :: l' else (k, w) :: set key v l'
  end.

(** The keys are distinct and every package sits under its own name. *)
Definition well_keyed (l : list (string * ResolvedPackage)) : Prop :=
  List.NoDup (map fst l) /\ List.Forall (fun e => name (snd e) = fst e) l.

End Registry.

(** ** [resolveDependencies]: resolution in parallel batches

    The function is asynchronous.  A call runs synchronously up to its
    first [await]; later it is resumed when the awaited promise settles.
    The model keeps the suspended computations as a tree: a call of
    [resolveDependencies] waits for the tasks of its running batch, and a
    task waits either for the registry's answer or for the nested call it
    made.  One step of the machine delivers the answer to one outstanding
    request and runs everything this wakes up, to the next [await]; which
    request is answered next is the network's choice, given as a schedule. *)

Module Resolver.
Import Registry.

Inductive Error :=
| FetchFailed (name : string)       (* fetchPackageMetadata threw: non-200, bad body *)
| DepthExceeded                     (* 'Maximum dependency depth exceeded' *)
| NoVersionData (name : string).    (* metadata.versions[bestVersion] is undefined *)

(** What a run does that can be observed from outside. *)
Inductive Event :=
| Request (name : string)                    (* a metadata request is issued *)
| MapSet (name version : string)             (* resolved.set(name, pkg) *)
| WarnNoMatch (name range : string)          (* 'No matching version for name@range' *)
| WarnFailed (name : string) (e : Error).    (* 'Failed to resolve name: error' *)

Record State := {
  resolved : list (string * ResolvedPackage);
  trace : list Event;
}.

Definition emit (e : Event) (st : State) : State :=
  {| resolved := resolved st; trace := (trace st ++ [e])%list |}.

Definition map_set (name : string) (pkg : ResolvedPackage) (st : State) : State :=
  {| resolved := set name pkg (resolved st);
     trace := (trace st ++ [MapSet name (version pkg)])%list |}.

Inductive task :=
| Fetching (name range : string)   (* at [await fetchPackageMetadata(name)] *)
| Nested (c : call)                (* at [await resolveDependencies(pkg.dependencies, ...)] *)
| Finished
with call :=
| Call (depth : nat) (batch : tasks) (later : list Deps)
    (* at [await Promise.all(batch.map(...))]; [later] are the batches of
       the [for] loop that have not started *)
with tasks :=
| TNil
| TCons (t : task) (ts : tasks).

Fixpoint all_finished (ts : tasks) : bool :=
  match ts with
  | TNil => true
  | TCons Finished ts' => all_finished ts'
  | TCons _ _ => false
  end.

(** [for (let i = 0; i < l.length; i += size) l.slice(i, i + size)] *)
Fixpoint chunks_upto (fuel size : nat) {A} (l : list A) : list (list A) :=
  match fuel, l with
  | S fuel', _ :: _ => firstn size l :: chunks_upto fuel' size (skipn size l)
  | _, _ => []
  end.

Definition chunks (size : nat) {A} (l : list A) : list (list A) :=
  chunks_upto (length l) size l.

Section Resolution.

(** [cpus().length]; positive. *)
Context (NUM_CPUS : positive).
(** The registry: the metadata [fetchPackageMetadata(name)] resolves to, or
    [None] when it throws. *)
Context (registry : string -> option Metadata).

(** [Math.min(32, NUM_CPUS * 4)] *)
Definition batchSize : nat := Nat.min 32 (Pos.to_nat NUM_CPUS * 4).

(** The synchronous start of one task of [batch.map(async ([name, range]) => ...)]:
    [if (resolved.has(name)) return;] and otherwise the request goes out. *)
Definition start_task (st : State) (entry : string * string) : State * task :=
  let '(name, range) := entry in
  if has name (resolved st) then (st, Finished)
  else (emit (Request name) st, Fetching name range).

Fixpoint start_batch (st : State) (batch : Deps) : State * tasks :=
  match batch with
  | [] => (st, TNil)
  | entry :: batch' =>
      let '(st1, t) := start_task st entry in
      let '(st2, ts) := start_batch st1 batch' in
      (st2, TCons t ts)
  end.

(** The [for] loop over the batches, run until a batch has to be awaited;
    [None] when the loop, and so the call, is over. *)
Fixpoint advance (st : State) (depth : nat) (later : list Deps) : State * option call :=
  match later with
  | [] => (st, None)
  | batch :: later' =>
      let '(st1, ts) := start_batch st batch in
      if all_finished ts then advance st1 depth later'
      else (st1, Some (Call depth ts later'))
  end.

(** A call of [resolveDependencies(dependencies, resolved, depth)] up to
    its first [await]: it throws, it returns, or it is suspended. *)
Definition enter (st : State) (dependencies : Deps) (depth : nat)
  : Error + State * option call :=
  if (50 <? depth)%nat then inl DepthExceeded
  else
    let toResolve := List.filter (fun e => negb (has (fst e) (resolved st))) dependencies in
    inr (advance st depth (chunks batchSize toResolve)).

(** [Object.keys(obj)] *)
Definition keys {A} (l : list (string * A)) : list string := map fst l.

(** The task of [name], resumed with the registry's answer, to its end or
    to its next [await]: the body of the [try], and the [catch]. *)
Definition on_metadata (st : State) (depth : nat) (name range : string) : State * task :=
  match registry name with
  | None => (emit (WarnFailed name (FetchFailed name)) st, Finished)
  | Some metadata =>
      let all := default [] (versions metadata) in
      match Semver.findBestVersion (keys all) range with
      | None => (emit (WarnNoMatch name range) st, Finished)
      | Some bestVersion =>
          match assoc bestVersion all with
          | None => (emit (WarnFailed name (NoVersionData name)) st, Finished)
          | Some versionData =>
              let d := dist versionData in
              let pkg :=
                {| name := name;
                   version := bestVersion;
                   pkg_integrity := str_or (d ≫= integrity) (str_or (d ≫= shasum) "");
                   tarballUrl := str_or (d ≫= tarball) "";
                   pkg_dependencies := default [] (dependencies versionData);
                   pkg_peerDependencies := peerDependencies versionData;
                   pkg_optionalDependencies := optionalDependencies versionData |} in
              let st1 := map_set name pkg st in
              match pkg_dependencies pkg with
              | [] => (st1, Finished)
              | _ :: _ =>
                  match enter st1 (pkg_dependencies pkg) (S depth) with
                  | inl e => (emit (WarnFailed name e) st1, Finished)
                  | inr (st2, None) => (st2, Finished)
                  | inr (st2, Some c) => (st2, Nested c)
                  end
              end
          end
      end
  end.

(** Deliver the answer to the [k]-th outstanding request, counted through
    the tree from the left.  [inl k'] when the tree holds fewer requests:
    [k'] is what is left of [k]. *)
Fixpoint deliver_task (depth k : nat) (t : task) (st : State) : nat + State * task :=
  match t with
  | Fetching name range =>
      match k with
      | O => inr (on_metadata st depth name range)
      | S k' => inl k'
      end
  | Nested (Call d batch later) =>
      match deliver_tasks d k batch st with
      | inl k' => inl k'
      | inr (st1, batch') =>
          if all_finished batch' then
            match advance st1 d later with
            | (st2, None) => inr (st2, Finished)
            | (st2, Some c) => inr (st2, Nested c)
            end
          else inr (st1, Nested (Call d batch' later))
      end
  | Finished => inl k
  end
with deliver_tasks (depth k : nat) (ts : tasks) (st : State) : nat + State * tasks :=
  match ts with
  | TNil => inl k
  | TCons t ts' =>
      match deliver_task depth k t st with
      | inr (st1, t') => inr (st1, TCons t' ts')
      | inl k' =>
          match deliver_tasks depth k' ts' st with
          | inr (st1, ts'') => inr (st1, TCons t ts'')
          | inl k'' => inl k''
          end
      end
  end.

(** The top-level call and what is left of it. *)
Definition machine : Type := State * option call.

Definition step (m : machine) (k : nat) : machine :=
  match m with
  | (st, Some (Call d batch later)) =>
      match deliver_tasks d k batch st with
      | inl _ => m
      | inr (st1, batch') =>
          if all_finished batch' then advance st1 d later
          else (st1, Some (Call d batch' later))
      end
  | (_, None) => m
  end.

Definition run (schedule : list nat) (m : machine) : machine :=
  fold_left step schedule m.

(** [await resolveDependencies(dependencies, resolved, depth)] under a
    schedule: the promise is rejected ([inl]), or the machine is run;
    the promise is fulfilled once the machine holds no call. *)
Definition resolveDependencies (dependencies : Deps) (st : State) (depth : nat)
    (schedule : list nat) : Error + machine :=
  match enter st dependencies depth with
  | inl e => inl e
  | inr m => inr (run schedule m)
  end.

End Resolution.

(** The names for which a request went out, in order. *)
Definition requests (tr : list Event) : list string :=
  omap (fun e => match e with Request n => Some n | _ => None end) tr.

(** The calls of [resolved.set], in order. *)
Definition map_sets (tr : list Event) : list (string * string) :=
  omap (fun e => match e with MapSet n v => Some (n, v) | _ => None end) tr.

Definition warnings (tr : list Event) : list Event :=
  List.filter (fun e => match e with WarnNoMatch _ _ | WarnFailed _ _ => true | _ => false end) tr.

Definition empty_state : State := {| resolved := []; trace := [] |}.

(** *** Test registries *)

Definition simple_version (deps : Deps) : VersionData :=
  {| dist := Some {| integrity := Some "sha512-x"; shasum := None;
                     tarball := Some "https://registry.npmjs.org/x.tgz" |};
     dependencies := match deps with [] => None | _ => Some deps end;
     peerDependencies := None;
     optionalDependencies := None |}.

(** A chain [p0 -> p1 -> ... ]: package [p<i>] has the single version
    1.0.0, which depends on [p<i+1>]; every name of that form exists. *)
Definition chain_name (i : nat) : string := "p" ++ SemverSpec.show_nat i.

Definition chain_registry (len : nat) (name : string) : option Metadata :=
  match List.find (fun i => String.eqb (chain_name i) name) (seq 0 len) with
  | Some i =>
      Some {| versions := Some [("1.0.0", simple_version [(chain_name (S i), "^1.0.0")])] |}
  | None => None
  end.

(** [a] depends on [b@^2.0.0]; [b] has the versions 1.0.0 and 2.0.0. *)
Definition race_registry (name : string) : option Metadata :=
  if String.eqb name "a" then
    Some {| versions := Some [("1.0.0", simple_version [("b", "^2.0.0")])] |}
  else if String.eqb name "b" then
    Some {| versions := Some [("1.0.0", simple_version []); ("2.0.0", simple_version [])] |}
  else None.

End Resolver.

(** ** A bound on the requests of a resolution

    The nesting of [resolveDependencies] stops at depth 50 and every table
    of dependencies is finite, so the number of requests a resolution can
    issue is bounded, whatever the order of the answers.  The bound counts
    one request for every entry of a table and, where a nested call is
    still allowed, those of the table of the version the entry resolves
    to. *)

Module Budget.
Import Registry Resolver.

Section Budget.

Context (registry : string -> option Metadata).

(** The dependencies of the version that the task of [name] resolves to,
    as [on_metadata] finds them. *)
Definition deps_of (name range : string) : Deps :=
  match registry name with
  | None => []
  | Some metadata =>
      let all := default [] (versions metadata) in
      match Semver.findBestVersion (keys all) range with
      | None => []
      | Some bestVersion =>
          match assoc bestVersion all with
          | None => []
          | Some versionData => default [] (dependencies versionData)
          end
      end
  end.

(** The requests that resolving [deps] can issue when [levels] nested
    calls are allowed below the call. *)
Fixpoint budget (levels : nat) (deps : Deps) : nat :=
  list_sum
    (map (fun e => S (match levels with
                      | O => O
                      | S l => budget l (deps_of (fst e) (snd e))
                      end))
         deps).

(** What is left to request below a task of a call at [depth], below a
    suspended call, and below the tasks of a batch. *)
Fixpoint weight_task (depth : nat) (t : task) : nat :=
  match t with
  | Fetching name range =>
      S (match (50 - depth)%nat with
         | O => O
         | S l => budget l (deps_of name range)
         end)
  | Nested c => weight_call c
  | Finished => O
  end
with weight_call (c : call) : nat :=
  match c with
  | Call d batch later =>
      (weight_tasks d batch + list_sum (map (budget (50 - d)) later))%nat
  end
with weight_tasks (depth : nat) (ts : tasks) : nat :=
  match ts with
  | TNil => O
  | TCons t ts' => (weight_task depth t + weight_tasks depth ts')%nat
  end.

Definition weight (m : machine) : nat :=
  match snd m with
  | Some c => weight_call c
  | None => O
  end.

End Budget.

(** A suspended call waits for a batch that is not over. *)
Fixpoint waiting_task (t : task) : bool :=
  match t with
  | Nested c => waiting_call c
  | _ => true
  end
with waiting_call (c : call) : bool :=
  match c with
  | Call _ batch _ => negb (all_finished batch) && waiting_tasks batch
  end
with waiting_tasks (ts : tasks) : bool :=
  match ts with
  | TNil => true
  | TCons t ts' => waiting_task t && waiting_tasks ts'
  end.

Definition waiting (m : machine) : bool :=
  match snd m with
  | Some c => waiting_call c
  | None => true
  end.

End Budget.

(** *** Where a resolved package comes from *)

Module Provenance.
Import Registry.

(** The entry is what [resolveDependencies] makes of a version the registry
    lists for this name: stored under its name, with the version's own
    dependencies, tarball and integrity. *)
Definition registered (registry : string -> option Metadata)
    (e : string * ResolvedPackage) : Prop :=
  name (snd e) = fst e
  /\ version (snd e) <> ""
  /\ exists metadata versionData,
       registry (fst e) = Some metadata
       /\ assoc (version (snd e)) (default [] (versions metadata)) = Some versionData
       /\ pkg_dependencies (snd e) = default [] (dependencies versionData)
       /\ tarballUrl (snd e) = str_or (dist versionData ≫= tarball) ""
       /\ pkg_integrity (snd e)
          = str_or (dist versionData ≫= integrity) (str_or (dist versionData ≫= shasum) "").

End Provenance.

(** ** [install]: manifest, lockfile, store index, fetch phase, lockfile

    The files the installer reads are given by how reading them ends:
    missing, present but rejected by [JSON.parse], or parsed to a value of
    the interface the code declares for it.  The model lets the value a
    successful parse yields conform to that interface, and lets
    [JSON.parse (JSON.stringify v)] be [v]; an entry of the store index,
    though, may come without its [versions].  The downloads of a batch
    touch disjoint keys of the index, so they are taken one after the
    other, in the order of the batch.  A version named [__proto__] is
    outside the model: assigning to that key of a table changes the
    prototype of the table and adds no entry.  What linking does to
    [node_modules] is the matter of [Linker]; here only whether it throws
    is kept, as an oracle. *)

Module Install.
Import Registry.

Inductive File (A : Type) :=
| Missing
| Unparsable
| Parsed (a : A).
Arguments Missing {A}.
Arguments Unparsable {A}.
Arguments Parsed {A} a.

Record PackageJson := {
  pj_name : option string;
  pj_dependencies : option Deps;
  pj_devDependencies : option Deps;
  pj_peerDependencies : option Deps;
  pj_optionalDependencies : option Deps;
}.

Record LockEntry := {
  lk_version : string;
  lk_integrity : string;
  lk_dependencies : option Deps;
  lk_tarballUrl : option string;
}.

Record Lockfile := {
  lockfileVersion : nat;
  lk_packages : list (string * LockEntry);
}.

Record StoreEntry := {
  se_integrity : string;
  compressedSize : nat;
  originalSize : nat;
  dictionary : string;
  extractedPath : option string;
}.

(** [packages[name].versions[version]]; an entry of [packages] that has
    no [versions] is [None]. *)
Record StoreIndex := {
  si_version : nat;
  si_packages : gmap string (option (gmap string StoreEntry));
}.

Inductive LinkMode := hardlink | symlink | copy.

Record InstallOptions := {
  dev : bool;
  production : bool;
  frozen : bool;
  verbose : bool;
  parallel : option (option Z);   (* what [parseInt] gave: [Some None] is NaN *)
  linkMode : option LinkMode;
}.

Record World := {
  packageJson : File PackageJson;     (* <projectDir>/package.json *)
  lockfile : File Lockfile;           (* <projectDir>/pakk.lock *)
  indexFile : File StoreIndex;        (* INDEX_FILE *)
  disk : gset string;                 (* the paths that exist *)
}.

(** How [downloadAndExtract(url, destDir)] ends. *)
Inductive Download :=
| DownloadThrows                         (* before [mkdirSync(destDir)] *)
| ExtractThrows                          (* after it *)
| Downloaded (downloadSize extractedSize : nat).

Inductive Fatal :=
| PackageJsonNotFound
| PackageJsonUnparsable
| ResolutionThrew (e : Resolver.Error)
| IndexLookupThrew (name version : string)   (* TypeError: reading [version] of undefined *)
| LinkingThrew.

Inductive outcome (A : Type) :=
| Done (a : A)
| Thrown (e : Fatal)
| Unsettled     (* the schedule ends with requests still unanswered *)
| Hangs.        (* a [for] loop of the run never ends *)
Arguments Done {A} a.
Arguments Thrown {A} e.
Arguments Unsettled {A}.
Arguments Hangs {A}.

Record Report := {
  usedLockfile : bool;
  resolution : list Resolver.Event;      (* what resolveDependencies did *)
  resolvedPackages : list (string * ResolvedPackage);
  cachedCount : nat;
  toDownload : list ResolvedPackage;
  downloadCount : nat;
  downloadFailures : list ResolvedPackage;
}.

(** [path.join] of segments that are already normalised. *)
Definition join (a b : string) : string := a ++ "/" ++ b.

(** [Object.assign(target, source)] *)
Definition assign (target : Deps) (source : option Deps) : Deps :=
  fold_left (fun t e => set (fst e) (snd e) t) (default [] source) target.

(** [key.replace(/@[^@]+$/, '')]: the match starts at the first [@] that is
    followed, up to the end, by at least one character and no [@]. *)
Fixpoint strip_version (key : string) : string :=
  match key with
  | EmptyString => EmptyString
  | String c rest =>
      if Ascii.eqb c "@" && negb (String.eqb rest "")
         && Js.all_chars (fun x => negb (Ascii.eqb x "@")) rest
      then EmptyString
      else String c (strip_version rest)
  end.

(** [name.split('/').pop()] *)
Definition last_segment (name : string) : string := List.last (Js.split "/" name) "".

Definition default_tarball (name version : string) : string :=
  "https://registry.npmjs.org/" ++ name ++ "/-/" ++ last_segment name ++ "-" ++ version ++ ".tgz".

Definition loadLockfile (w : World) : option Lockfile :=
  match lockfile w with
  | Missing => None            (* [if (!existsSync(lockPath)) return null] *)
  | Unparsable => None         (* [catch { return null }] *)
  | Parsed l => Some l
  end.

Definition loadStoreIndex (w : World) : StoreIndex :=
  match indexFile w with
  | Parsed i => i
  | _ => {| si_version := 1; si_packages := ∅ |}
  end.

(** What one entry of [lockfile.packages] becomes in the resolved map. *)
Definition of_lock_entry (e : string * LockEntry) : string * ResolvedPackage :=
  let '(key, pkg) := e in
  let name := strip_version key in
  (name,
   {| name := name;
      version := lk_version pkg;
      pkg_integrity := lk_integrity pkg;
      tarballUrl := str_or (lk_tarballUrl pkg) (default_tarball name (lk_version pkg));
      pkg_dependencies := default [] (lk_dependencies pkg);
      pkg_peerDependencies := None;
      pkg_optionalDependencies := None |}).

(** The loop over [Object.entries(lockfile.packages)], with its
    [resolved.set(name, ...)]. *)
Definition from_lockfile (l : Lockfile) : list (string * ResolvedPackage) :=
  fold_left (fun resolved e => set (fst (of_lock_entry e)) (snd (of_lock_entry e)) resolved)
            (lk_packages l) [].

(** The entry that the index itself holds for the name and the version. *)
Definition store_lookup (idx : StoreIndex) (name version : string) : option StoreEntry :=
  si_packages idx !! name ≫= fun p => p ≫= fun versions => versions !! version.

(** [storeIndex.packages[name]?.versions[version]].  [?.] stops at an
    undefined [packages[name]] only: when [packages[name]] is an entry
    without [versions], or a member of [Object.prototype], which has no
    such property either, the read of [versions[version]] throws a
    TypeError, here [None]. *)
Definition existing (idx : StoreIndex) (name version : string)
  : option (Js.Property StoreEntry) :=
  match Js.property (si_packages idx !! name) name with
  | Js.Undefined => Some Js.Undefined
  | Js.FromPrototype => None
  | Js.Own None => None
  | Js.Own (Some versions) => Some (Js.property (versions !! version) version)
  end.

(** [existing?.extractedPath && existsSync(existing.extractedPath)] *)
Definition trusted (disk : gset string) (existing : Js.Property StoreEntry) : bool :=
  match existing with
  | Js.Own e =>
      match extractedPath e with
      | Some path => negb (String.eqb path "") && bool_decide (path ∈ disk)
      | None => false
      end
  | Js.FromPrototype => false     (* it has no [extractedPath] *)
  | Js.Undefined => false
  end.

(** The package passes for cached: the read does not throw and what it
    finds is trusted. *)
Definition cached (idx : StoreIndex) (disk : gset string) (pkg : ResolvedPackage) : bool :=
  match existing idx (name pkg) (version pkg) with
  | Some e => trusted disk e
  | None => false
  end.

(** The read for the package does not throw. *)
Definition readable (idx : StoreIndex) (pkg : ResolvedPackage) : bool :=
  match existing idx (name pkg) (version pkg) with
  | Some _ => true
  | None => false
  end.

(** The loop [for (const pkg of resolved.values())] of the fetch phase:
    the package whose read throws, the first one, or the count of the
    cached packages and the queue of the others. *)
Fixpoint classify (idx : StoreIndex) (disk : gset string) (pkgs : list ResolvedPackage)
  : ResolvedPackage + nat * list ResolvedPackage :=
  match pkgs with
  | [] => inr (O, [])
  | pkg :: rest =>
      match existing idx (name pkg) (version pkg) with
      | None => inl pkg
      | Some e =>
          match classify idx disk rest with
          | inl thrown => inl thrown
          | inr (cachedCount, toDownload) =>
              if trusted disk e then inr (S cachedCount, toDownload)
              else inr (cachedCount, pkg :: toDownload)
          end
      end
  end.

(** [if (!storeIndex.packages[name]) storeIndex.packages[name] = { versions: {} }]
    and then [storeIndex.packages[name].versions[version] = e]; [None] when
    the assignment throws a TypeError, [packages[name]] having no
    [versions]. *)
Definition store_insert (idx : StoreIndex) (name version : string) (e : StoreEntry)
  : option StoreIndex :=
  let put versions :=
    Some {| si_version := si_version idx;
            si_packages := <[name := Some (<[version := e]> versions)]> (si_packages idx) |} in
  match Js.property (si_packages idx !! name) name with
  | Js.Undefined => put ∅
  | Js.Own (Some versions) => put versions
  | Js.Own None => None
  | Js.FromPrototype => None
  end.

(** [array.slice(start, end)]: an index below zero counts from the end. *)
Definition slice_index (len : nat) (i : Z) : nat :=
  if i <? 0 then Z.to_nat (Z.max (Z.of_nat len + i) 0) else Nat.min (Z.to_nat i) len.

Definition slice {A} (l : list A) (start final : Z) : list A :=
  let k := slice_index (length l) start in
  firstn (slice_index (length l) final - k) (skipn k l).

(** The state the download tasks share. *)
Record Fetch := {
  f_index : StoreIndex;
  f_disk : gset string;
  f_downloadCount : nat;
  f_failures : list ResolvedPackage;
}.

(** The world with another lockfile in place. *)
Definition with_lockfile (l : File Lockfile) (w : World) : World :=
  {| packageJson := packageJson w; lockfile := l;
     indexFile := indexFile w; disk := disk w |}.

(** A version that can be told from the name in a key [name@version]. *)
Definition plain_version (v : string) : bool :=
  negb (String.eqb v "") && Js.all_chars (fun x => negb (Ascii.eqb x "@")) v.

Section Install.

(** [cpus().length]: zero where the platform cannot tell. *)
Context (NUM_CPUS : N).
Context (registry : string -> option Metadata).
(** [STORE_PATH], fixed by the platform and the home directory. *)
Context (STORE_PATH : string).
(** [createHash('sha256').update(s).digest('hex')] *)
Context (sha256 : string -> string).
(** The network and the archive: how downloading and unpacking a URL ends. *)
Context (tarballs : string -> Download).
(** Whether [createVirtualStore] throws, given what it reads. *)
Context (linking_throws : list (string * string) -> StoreIndex -> gset string -> LinkMode -> bool).

Definition PACKAGES_DIR : string := join STORE_PATH "packages".
Definition TARBALLS_DIR : string := join STORE_PATH "tarballs".
Definition DICTS_DIR : string := join STORE_PATH "dictionaries".

Definition hashPackage (name version : string) : string := sha256 (name ++ "@" ++ version).

Definition getPackageDir (hash : string) : string :=
  join (join PACKAGES_DIR (String.substring 0 2 hash)) hash.

(** The download of [p] ends well. *)
Definition downloads_well (p : ResolvedPackage) : bool :=
  match tarballs (tarballUrl p) with Downloaded _ _ => true | _ => false end.

(** One task of the download batch: the [try] and its [catch]. *)
Definition download_one (f : Fetch) (pkg : ResolvedPackage) : Fetch :=
  let hash := hashPackage (name pkg) (version pkg) in
  let extractDir := getPackageDir hash in
  match tarballs (tarballUrl pkg) with
  | DownloadThrows =>
      {| f_index := f_index f; f_disk := f_disk f;
         f_downloadCount := f_downloadCount f;
         f_failures := (f_failures f ++ [pkg])%list |}
  | ExtractThrows =>
      {| f_index := f_index f; f_disk := {[extractDir]} ∪ f_disk f;
         f_downloadCount := f_downloadCount f;
         f_failures := (f_failures f ++ [pkg])%list |}
  | Downloaded downloadSize extractedSize =>
      match store_insert (f_index f) (name pkg) (version pkg)
              {| se_integrity := pkg_integrity pkg;
                 compressedSize := downloadSize;
                 originalSize := extractedSize;
                 dictionary := "node_modules";
                 extractedPath := Some extractDir |} with
      | Some index =>
          {| f_index := index;
             f_disk := {[extractDir]} ∪ f_disk f;
             f_downloadCount := S (f_downloadCount f);
             f_failures := f_failures f |}
      | None =>      (* the update of the index throws, inside the [try] *)
          {| f_index := f_index f; f_disk := {[extractDir]} ∪ f_disk f;
             f_downloadCount := f_downloadCount f;
             f_failures := (f_failures f ++ [pkg])%list |}
      end
  end.

(** [options.parallel || Math.min(16, NUM_CPUS * 2)]: NaN and zero are
    falsy, a number below zero is taken as it is. *)
Definition parallelLimit (options : InstallOptions) : Z :=
  let cores := Z.min 16 (Z.of_N NUM_CPUS * 2) in
  match parallel options with
  | Some (Some n) => if n =? 0 then cores else n
  | Some None => cores
  | None => cores
  end.

(** [for (let i = ...; i < toDownload.length; i += parallelLimit)] with its
    batch [toDownload.slice(i, i + parallelLimit)], from [i] on and for at
    most [fuel] tests of the condition; [None] when these are not enough. *)
Fixpoint download_from (fuel : nat) (limit : Z) (toDownload : list ResolvedPackage)
    (i : Z) (f : Fetch) : option Fetch :=
  match fuel with
  | O => None
  | S fuel' =>
      if i <? Z.of_nat (length toDownload) then
        let batch := slice toDownload i (i + limit) in
        download_from fuel' limit toDownload (i + limit) (fold_left download_one batch f)
      else Some f
  end.

(** The batches of the fetch phase; [None] when the loop never ends.  A
    loop that ends has tested its condition at most once more than there
    are packages in the queue, so this much fuel tells. *)
Definition download_all (options : InstallOptions) (f : Fetch)
    (toDownload : list ResolvedPackage) : option Fetch :=
  download_from (S (length toDownload)) (parallelLimit options) toDownload 0 f.

(** The dependency table the resolution starts from. *)
Definition allDeps (options : InstallOptions) (pj : PackageJson) : Deps :=
  let d0 := if production options then [] else assign [] (pj_devDependencies pj) in
  let d1 := assign d0 (pj_dependencies pj) in
  if dev options then assign d1 (pj_devDependencies pj) else d1.

(** [Object.fromEntries(entries)] *)
Definition fromEntries {A} (entries : list (string * A)) : list (string * A) :=
  fold_left (fun o e => set (fst e) (snd e) o) entries [].

(** The entry the lockfile gets for a resolved package. *)
Definition lock_entry (e : string * ResolvedPackage) : string * LockEntry :=
  let '(name, pkg) := e in
  (name ++ "@" ++ version pkg,
   {| lk_version := version pkg;
      lk_integrity := pkg_integrity pkg;
      lk_dependencies := Some (pkg_dependencies pkg);
      lk_tarballUrl := Some (tarballUrl pkg) |}).

(** The lockfile [install] writes. *)
Definition newLockfile (resolved : list (string * ResolvedPackage)) : Lockfile :=
  {| lockfileVersion := 1;
     lk_packages := fromEntries (map lock_entry resolved) |}.

(** Resolution: from the lockfile when it lists a package, from the
    registry otherwise.  Without a CPU the batches of [resolveDependencies]
    have size 0 and its loop over a table that is not empty never
    advances. *)
Definition resolve_phase (options : InstallOptions) (w : World) (pj : PackageJson)
    (schedule : list nat)
  : outcome (bool * list (string * ResolvedPackage) * list Resolver.Event) :=
  let from_registry :=
    match NUM_CPUS with
    | N0 =>
        match allDeps options pj with
        | [] => Done (false, [], [])
        | _ :: _ => Hangs
        end
    | Npos cpus =>
        match Resolver.resolveDependencies cpus registry (allDeps options pj)
                Resolver.empty_state 0 schedule with
        | inl e => Thrown (ResolutionThrew e)
        | inr (st, None) => Done (false, Resolver.resolved st, Resolver.trace st)
        | inr (_, Some _) => Unsettled
        end
    end in
  match loadLockfile w with
  | Some l =>
      (* [lockfile && Object.keys(lockfile.packages).length > 0] *)
      match lk_packages l with
      | _ :: _ => Done (true, from_lockfile l, [])
      | [] => from_registry
      end
  | None => from_registry
  end.

(** [install] from the download and extract phase on, the packages being
    resolved. *)
Definition fetch_and_link (options : InstallOptions) (w : World)
    (fromLock : bool) (resolved : list (string * ResolvedPackage))
    (events : list Resolver.Event) : outcome (World * Report) :=
  (* ensureDirectories() *)
  let disk0 := {[PACKAGES_DIR; TARBALLS_DIR; DICTS_DIR]} ∪ disk w in
  let storeIndex := loadStoreIndex w in
  match classify storeIndex disk0 (map snd resolved) with
  | inl pkg => Thrown (IndexLookupThrew (name pkg) (version pkg))
  | inr (cachedCount, toDownload) =>
      match download_all options
              {| f_index := storeIndex; f_disk := disk0;
                 f_downloadCount := 0; f_failures := [] |}
              toDownload with
      | None => Hangs
      | Some f =>
          (* saveStoreIndex(storeIndex), then the linking phase *)
          let mode := default hardlink (linkMode options) in
          if linking_throws (map (fun e => (fst e, version (snd e))) resolved)
               (f_index f) (f_disk f) mode
          then Thrown LinkingThrew
          else
            Done ({| packageJson := packageJson w;
                     lockfile := Parsed (newLockfile resolved);
                     indexFile := Parsed (f_index f);
                     disk := f_disk f |},
                  {| usedLockfile := fromLock;
                     resolution := events;
                     resolvedPackages := resolved;
                     cachedCount := cachedCount;
                     toDownload := toDownload;
                     downloadCount := f_downloadCount f;
                     downloadFailures := f_failures f |})
      end
  end.

Definition install (w : World) (options : InstallOptions) (schedule : list nat)
  : outcome (World * Report) :=
  match packageJson w with
  | Missing => Thrown PackageJsonNotFound
  | Unparsable => Thrown PackageJsonUnparsable
  | Parsed pj =>
      match resolve_phase options w pj schedule with
      | Thrown e => Thrown e
      | Unsettled => Unsettled
      | Hangs => Hangs
      | Done (fromLock, resolved, events) =>
          fetch_and_link options w fromLock resolved events
      end
  end.

End Install.

(** What a lockfile keeps of a resolved package. *)
Definition relock (e : string * ResolvedPackage) : string * ResolvedPackage :=
  (fst e,
   {| name := fst e;
      version := version (snd e);
      pkg_integrity := pkg_integrity (snd e);
      tarballUrl := tarballUrl (snd e);
      pkg_dependencies := pkg_dependencies (snd e);
      pkg_peerDependencies := None;
      pkg_optionalDependencies := None |}).

(** The package has a version that its lockfile key gives back, and a
    tarball URL. *)
Definition lockable (e : string * ResolvedPackage) : bool :=
  plain_version (version (snd e)) && negb (String.eqb (tarballUrl (snd e)) "").

(** The run completed, resolved at least one package, every download it
    started ended well, and every resolved package is [lockable]. *)
Definition clean_run (o : outcome (World * Report)) : bool :=
  match o with
  | Done (_, r) =>
      match resolvedPackages r with [] => false | _ :: _ => true end
      && match downloadFailures r with [] => true | _ :: _ => false end
      && forallb lockable (resolvedPackages r)
  | _ => false
  end.

(** *** A test bench: one CPU, every download succeeds, linking succeeds *)

Definition bench_store : string := "/home/u/.cache/pakk-store".
(** A stand-in for the digest: any function of the text will do. *)
Definition bench_digest (s : string) : string := s.
Definition bench_tarballs (url : string) : Download := Downloaded 100 400.
Definition bench_linking (_ : list (string * string)) (_ : StoreIndex)
    (_ : gset string) (_ : LinkMode) : bool := false.

Definition default_options : InstallOptions :=
  {| dev := false; production := false; frozen := false; verbose := false;
     parallel := None; linkMode := None |}.

(** A project with the given [dependencies], no lockfile, and an empty store. *)
Definition fresh_project (deps : Deps) : World :=
  {| packageJson := Parsed {| pj_name := Some "demo"; pj_dependencies := Some deps;
                              pj_devDependencies := None; pj_peerDependencies := None;
                              pj_optionalDependencies := None |};
     lockfile := Missing;
     indexFile := Missing;
     disk := ∅ |}.

(** The same bench with the network down for tarballs. *)
Definition offline_install (registry : string -> option Metadata) :=
  install 1 registry bench_store bench_digest (fun _ => DownloadThrows) bench_linking.

Definition bench_install (registry : string -> option Metadata) :=
  install 1 registry bench_store bench_digest bench_tarballs bench_linking.

(** A registry that knows one package, named [constructor]. *)
Definition odd_registry (name : string) : option Metadata :=
  if String.eqb name "constructor" then
    Some {| versions := Some [("1.0.0", Resolver.simple_version [])] |}
  else None.

(** The project of [fresh_project] after a run that resolved [b] to 1.0.0,
    and then lost, to a cleaning by hand, the directory the index names:
    the lockfile and the index are as the run left them. *)
Definition swept_project : World :=
  match bench_install Resolver.race_registry (fresh_project [("b", "^1.0.0")])
          default_options [0%nat] with
  | Done (w, _) =>
      {| packageJson := packageJson w; lockfile := lockfile w;
         indexFile := indexFile w; disk := ∅ |}
  | _ => fresh_project []
  end.

End Install.

(** ** [linkPackage]: linking a package tree

    The file system is a table from absolute paths (lists of components) to
    what the name denotes, a directory, a file by its inode, or a symbolic
    link by its target, and a table from inodes to contents.  A hard link
    is a second name for one inode.  The last component of a path is
    followed, when it is a symbolic link, by the calls that open or test a
    file; symbolic links to directories in the middle of a path are not
    modelled.  [linkSync] and [symlinkSync] can fail for reasons outside the
    tables (another device, no permission, no support on the platform):
    these are given by an oracle.  A recursion on what [readdirSync] finds
    need not end when the destination lies inside the source, so
    [linkPackage] takes fuel, a bound on the depth of the recursion. *)

Module Linker.

Abbreviation path := (list string).

Inductive entry :=
| Dir
| File (ino : nat)
| Symlink (target : path).

Record FS := {
  names : gmap path entry;
  data : gmap nat string;
}.

Inductive Errno := ENOENT | EEXIST | ENOTDIR | EISDIR | EPERM | ELOOP | EXDEV.

Inductive result (A : Type) :=
| Ok (a : A)
| Throws (e : Errno)
| OutOfFuel.
Arguments Ok {A} a.
Arguments Throws {A} e.
Arguments OutOfFuel {A}.

Definition bind {A B} (r : result A) (k : A -> result B) : result B :=
  match r with
  | Ok a => k a
  | Throws e => Throws e
  | OutOfFuel => OutOfFuel
  end.

(** The faults of the platform: whether [linkSync(src, dest)] and
    [symlinkSync(target, dest)] are refused. *)
Record Faults := {
  link_refused : path -> path -> bool;
  symlink_refused : path -> path -> bool;
}.

Inductive LinkMode := hardlink | symlink | copy.

Definition with_names (f : gmap path entry -> gmap path entry) (fs : FS) : FS :=
  {| names := f (names fs); data := data fs |}.

(** [mkdirSync(p, { recursive: true })]: every missing directory on the way
    is made; a name on the way that is not a directory is an error. *)
Fixpoint mkdir_from (done : path) (todo : list string) (fs : FS) : result FS :=
  let next := fun fs' =>
    match todo with
    | [] => Ok fs'
    | n :: todo' => mkdir_from (done ++ [n])%list todo' fs'
    end in
  match names fs !! done with
  | Some Dir => next fs
  | None => next (with_names (insert done Dir) fs)
  | Some _ => Throws (match todo with [] => EEXIST | _ => ENOTDIR end)
  end.

Definition mkdirSync (fs : FS) (p : path) : result FS := mkdir_from [] p fs.

(** [q] is [p] followed by one component. *)
Fixpoint child_of (p q : path) : option string :=
  match p, q with
  | [], [n] => Some n
  | a :: p', b :: q' => if String.eqb a b then child_of p' q' else None
  | _, _ => None
  end.

(** [readdirSync(p, { withFileTypes: true })]: the names in [p] with what
    they denote. *)
Definition children (fs : FS) (p : path) : list (string * entry) :=
  omap (fun kv => match child_of p (fst kv) with
                  | Some n => Some (n, snd kv)
                  | None => None
                  end) (map_to_list (names fs)).

Definition readdirSync (fs : FS) (p : path) : result (list (string * entry)) :=
  match names fs !! p with
  | Some Dir => Ok (children fs p)
  | Some _ => Throws ENOTDIR
  | None => Throws ENOENT
  end.

(** [entry.isDirectory()] *)
Definition isDirectory (e : entry) : bool :=
  match e with Dir => true | _ => false end.

(** Where a path leads when the symbolic links at its end are followed, at
    most [fuel] of them. *)
Fixpoint follow (fuel : nat) (fs : FS) (p : path) : option path :=
  match names fs !! p with
  | Some (Symlink target) =>
      match fuel with
      | O => None
      | S fuel' => follow fuel' fs target
      end
  | _ => Some p
  end.

(** The number of links the system follows before it gives up. *)
Definition MAXSYMLINKS : nat := 40.

Definition existsSync (fs : FS) (p : path) : bool :=
  match follow MAXSYMLINKS fs p with
  | Some q => match names fs !! q with Some _ => true | None => false end
  | None => false
  end.

Definition unlinkSync (fs : FS) (p : path) : result FS :=
  match names fs !! p with
  | Some Dir => Throws EPERM
  | Some _ => Ok (with_names (delete p) fs)
  | None => Throws ENOENT
  end.

Definition parent (p : path) : path := removelast p.

Definition linkSync (ft : Faults) (fs : FS) (src dest : path) : result FS :=
  if link_refused ft src dest then Throws EXDEV
  else
    match names fs !! src, names fs !! dest, names fs !! parent dest with
    | None, _, _ => Throws ENOENT
    | Some Dir, _, _ => Throws EPERM
    | Some _, Some _, _ => Throws EEXIST
    | Some e, None, Some Dir => Ok (with_names (insert dest e) fs)
    | Some _, None, _ => Throws ENOENT
    end.

Definition symlinkSync (ft : Faults) (fs : FS) (target dest : path) : result FS :=
  if symlink_refused ft target dest then Throws EPERM
  else
    match names fs !! dest, names fs !! parent dest with
    | Some _, _ => Throws EEXIST
    | None, Some Dir => Ok (with_names (insert dest (Symlink target)) fs)
    | None, _ => Throws ENOENT
    end.

Definition readFileSync (fs : FS) (p : path) : result string :=
  match follow MAXSYMLINKS fs p with
  | None => Throws ELOOP
  | Some q =>
      match names fs !! q with
      | Some (File i) =>
          match data fs !! i with
          | Some bytes => Ok bytes
          | None => Throws ENOENT
          end
      | Some _ => Throws EISDIR
      | None => Throws ENOENT
      end
  end.

Definition writeFileSync (fs : FS) (p : path) (bytes : string) : result FS :=
  match follow MAXSYMLINKS fs p with
  | None => Throws ELOOP
  | Some q =>
      match names fs !! q with
      | Some (File i) => Ok {| names := names fs; data := <[i := bytes]> (data fs) |}
      | Some _ => Throws EISDIR
      | None =>
          match names fs !! parent q with
          | Some Dir =>
              let i := fresh (dom (data fs)) in
              Ok {| names := <[q := File i]> (names fs); data := <[i := bytes]> (data fs) |}
          | _ => Throws ENOENT
          end
      end
  end.

(** [try { attempt } catch { writeFileSync(destPath, readFileSync(srcPath)) }] *)
Definition or_copy (attempt : result FS) (fs : FS) (srcPath destPath : path) : result FS :=
  match attempt with
  | Ok fs' => Ok fs'
  | OutOfFuel => OutOfFuel
  | Throws _ => bind (readFileSync fs srcPath) (writeFileSync fs destPath)
  end.

(** The body of the loop for an entry that is not a directory. *)
Definition link_file (ft : Faults) (mode : LinkMode) (fs : FS) (srcPath destPath : path)
  : result FS :=
  bind (if existsSync fs destPath then unlinkSync fs destPath else Ok fs)
    (fun fs1 =>
       match mode with
       | hardlink => or_copy (linkSync ft fs1 srcPath destPath) fs1 srcPath destPath
       | symlink => or_copy (symlinkSync ft fs1 srcPath destPath) fs1 srcPath destPath
       | copy => bind (readFileSync fs1 srcPath) (writeFileSync fs1 destPath)
       end).

(** [for (const entry of entries) body], the body able to throw. *)
Fixpoint for_each {A} (body : FS -> A -> result FS) (entries : list A) (fs : FS) : result FS :=
  match entries with
  | [] => Ok fs
  | e :: rest => bind (body fs e) (for_each body rest)
  end.

Fixpoint linkPackage (fuel : nat) (ft : Faults) (fs : FS) (srcDir destDir : path)
    (mode : LinkMode) : result FS :=
  match fuel with
  | O => OutOfFuel
  | S fuel' =>
      bind (mkdirSync fs destDir) (fun fs1 =>
      bind (readdirSync fs1 srcDir) (fun entries =>
      for_each
        (fun fs2 e =>
           let srcPath := (srcDir ++ [fst e])%list in
           let destPath := (destDir ++ [fst e])%list in
           if isDirectory (snd e)
           then linkPackage fuel' ft fs2 srcPath destPath mode
           else link_file ft mode fs2 srcPath destPath)
        entries fs1))
  end.

(** *** What the claims speak of *)

(** The inode of the regular file at [rel] below [p], every component on
    the way being a directory. *)
Fixpoint file_at (fs : FS) (p : path) (rel : path) : option nat :=
  match rel with
  | [] => None
  | [n] => match names fs !! (p ++ [n])%list with
           | Some (File i) => Some i
           | _ => None
           end
  | n :: rel' => match names fs !! (p ++ [n])%list with
                 | Some Dir => file_at fs (p ++ [n])%list rel'
                 | _ => None
                 end
  end.

(** [dest] is a new file, not one of [fs], with the given contents. *)
Definition copied (fs fs' : FS) (dest : path) (bytes : string) : Prop :=
  exists j, names fs' !! dest = Some (File j) /\ (j ∉ dom (data fs))
            /\ data fs' !! j = Some bytes.

(** What [dest] is after the run, by mode and by the platform's answer. *)
Definition linked (ft : Faults) (mode : LinkMode) (fs fs' : FS)
    (src dest : path) (i : nat) (bytes : string) : Prop :=
  match mode with
  | hardlink =>
      if link_refused ft src dest then copied fs fs' dest bytes
      else names fs' !! dest = Some (File i)
  | symlink =>
      if symlink_refused ft src dest then copied fs fs' dest bytes
      else names fs' !! dest = Some (Symlink src)
  | copy => copied fs fs' dest bytes
  end.

(** Neither path is a prefix of the other. *)
Definition apart (p q : path) : Prop :=
  (¬ (p `prefix_of` q)) /\ (¬ (q `prefix_of` p)).

(** Nothing exists at or below [p]. *)
Definition vacant (fs : FS) (p : path) : Prop :=
  forall q, p `prefix_of` q -> names fs !! q = None.

(** Every proper ancestor of [p] is a directory or does not exist. *)
Definition reachable (fs : FS) (p : path) : Prop :=
  forall q, q `prefix_of` p -> q <> p -> names fs !! q = None \/ names fs !! q = Some Dir.

(** What may sit at [rel] below the root of a plain tree of the given
    depth: a directory above the last level, or a regular file with
    contents; no symbolic link. *)
Definition plain_entry (fs : FS) (depth : nat) (rel : path) (e : entry) : bool :=
  match e with
  | Dir => (length rel <? depth)%nat
  | File i => (length rel <=? depth)%nat && bool_decide (is_Some (data fs !! i))
  | Symlink _ => false
  end.

(** [p] is a directory; below it there are only directories and regular
    files with contents, no deeper than [depth]. *)
Definition plain_tree (fs : FS) (p : path) (depth : nat) : Prop :=
  names fs !! p = Some Dir
  /\ forall rel e, rel <> [] -> names fs !! (p ++ rel)%list = Some e ->
                   plain_entry fs depth rel e = true.

(** What a run of [linkPackage] from [fs] to [fs'] has done: outside the
    destination and its ancestors no name has changed, the ancestors and
    the destination are directories, no inode of [fs] has changed, and
    every regular file of the source tree is linked or copied at the same
    place below the destination. *)
Definition links (ft : Faults) (mode : LinkMode) (fs fs' : FS) (src dst : path) : Prop :=
  (forall q, ¬ (dst `prefix_of` q) -> ¬ (q `prefix_of` dst) -> names fs' !! q = names fs !! q)
  /\ (forall q, q `prefix_of` dst -> names fs' !! q = Some Dir)
  /\ (forall k, k ∈ dom (data fs) -> data fs' !! k = data fs !! k)
  /\ (forall rel i bytes,
        file_at fs src rel = Some i -> data fs !! i = Some bytes ->
        linked ft mode fs fs' (src ++ rel)%list (dst ++ rel)%list i bytes).

(** The same four conditions as tests. *)
Fixpoint prefixb (p q : path) : bool :=
  match p, q with
  | [], _ => true
  | a :: p', b :: q' => String.eqb a b && prefixb p' q'
  | _ :: _, [] => false
  end.

(** [q] without its prefix [p]. *)
Fixpoint below (p q : path) : option path :=
  match p, q with
  | [], _ => Some q
  | a :: p', b :: q' => if String.eqb a b then below p' q' else None
  | _ :: _, [] => None
  end.

Definition apartb (p q : path) : bool := negb (prefixb p q) && negb (prefixb q p).

Definition vacantb (fs : FS) (p : path) : bool :=
  forallb (fun kv => negb (prefixb p (fst kv))) (map_to_list (names fs)).

Definition reachableb (fs : FS) (p : path) : bool :=
  forallb (fun kv => negb (prefixb (fst kv) p) || bool_decide (fst kv = p)
                     || isDirectory (snd kv))
          (map_to_list (names fs)).

Definition plain_treeb (fs : FS) (p : path) (depth : nat) : bool :=
  match names fs !! p with Some Dir => true | _ => false end
  && forallb (fun kv => match below p (fst kv) with
                        | Some [] | None => true
                        | Some rel => plain_entry fs depth rel (snd kv)
                        end)
             (map_to_list (names fs)).

(** *** A small store and project *)

Definition demo_fs : FS :=
  {| names := list_to_map
       [ ([], Dir); (["store"], Dir); (["store"; "pkg"], Dir);
         (["store"; "pkg"; "index.js"], File 1);
         (["store"; "pkg"; "lib"], Dir);
         (["store"; "pkg"; "lib"; "util.js"], File 2);
         (["project"], Dir) ];
     data := list_to_map [ (1%nat, "module.exports = 1"); (2%nat, "exports.util = 2") ] |}.

(** A platform that refuses every hard link to a file named [util.js] and
    every symbolic link. *)
Definition demo_faults : Faults :=
  {| link_refused := fun src _ => match List.last src "" with
                                  | "util.js" => true
                                  | _ => false
                                  end;
     symlink_refused := fun _ _ => true |}.

End Linker.

(** ** Command lines, package specs and file extensions

    [parseArgs] and [parsePackageSpec] of [src/cli/index.ts], and
    [detectFromExtension] of [src/dictionaries/index.ts], which the
    compress and bench commands call on every file name. *)

Module JsString.

(** [s.indexOf(c)] for a character [c]; [None] is -1. *)
Fixpoint indexOf (c : ascii) (s : string) : option nat :=
  match s with
  | EmptyString => None
  | String a s' => if Ascii.eqb a c then Some O else S <$> indexOf c s'
  end.

(** [s.lastIndexOf(c)] *)
Fixpoint lastIndexOf (c : ascii) (s : string) : option nat :=
  match s with
  | EmptyString => None
  | String a s' =>
      match lastIndexOf c s' with
      | Some i => Some (S i)
      | None => if Ascii.eqb a c then Some O else None
      end
  end.

(** [s.slice(0, n)] for [0 <= n] *)
Fixpoint slice_to (n : nat) (s : string) : string :=
  match n, s with
  | S n', String c s' => String c (slice_to n' s')
  | _, _ => EmptyString
  end.

(** The character [c] does not occur in [s]. *)
Definition lacks (c : ascii) (s : string) : bool :=
  Js.all_chars (fun a => negb (Ascii.eqb a c)) s.

(** A string in a condition: the empty string is false. *)
Definition truthy (s : string) : bool := negb (String.eqb s "").

Definition is_upper (c : ascii) : bool :=
  let n := nat_of_ascii c in ((65 <=? n) && (n <=? 90))%nat.

(** [s.toLowerCase()] on ASCII text *)
Definition lower (c : ascii) : ascii :=
  if is_upper c then ascii_of_nat (nat_of_ascii c + 32) else c.

Fixpoint toLowerCase (s : string) : string :=
  match s with
  | EmptyString => EmptyString
  | String c s' => String (lower c) (toLowerCase s')
  end.

End JsString.

Module Cli.

(** [ParsedArgs['options']]: a field that was never assigned is [None], or
    [false] for the flags, which are only ever set to [true]; a level
    that [parseInt] could not read is [Some None], NaN. *)
Record Options := {
  dictionary : option string;
  level : option (option Z);
  output : option string;
  recursive : bool;
  verbose : bool;
  help : bool;
  version : bool;
}.

Record ParsedArgs := {
  command : string;
  files : list string;
  options : Options;
}.

Definition no_options : Options :=
  {| dictionary := None; level := None; output := None; recursive := false;
     verbose := false; help := false; version := false |}.

Definition set_dictionary (v : string) (o : Options) : Options :=
  {| dictionary := Some v; level := level o; output := output o; recursive := recursive o;
     verbose := verbose o; help := help o; version := version o |}.

Definition set_level (v : option Z) (o : Options) : Options :=
  {| dictionary := dictionary o; level := Some v; output := output o;
     recursive := recursive o; verbose := verbose o; help := help o; version := version o |}.

Definition set_output (v : string) (o : Options) : Options :=
  {| dictionary := dictionary o; level := level o; output := Some v;
     recursive := recursive o; verbose := verbose o; help := help o; version := version o |}.

Definition set_recursive (o : Options) : Options :=
  {| dictionary := dictionary o; level := level o; output := output o; recursive := true;
     verbose := verbose o; help := help o; version := version o |}.

Definition set_verbose (o : Options) : Options :=
  {| dictionary := dictionary o; level := level o; output := output o;
     recursive := recursive o; verbose := true; help := help o; version := version o |}.

Definition set_help (o : Options) : Options :=
  {| dictionary := dictionary o; level := level o; output := output o;
     recursive := recursive o; verbose := verbose o; help := true; version := version o |}.

Definition set_version (o : Options) : Options :=
  {| dictionary := dictionary o; level := level o; output := output o;
     recursive := recursive o; verbose := verbose o; help := help o; version := true |}.

Definition with_options (f : Options -> Options) (r : ParsedArgs) : ParsedArgs :=
  {| command := command r; files := files r; options := f (options r) |}.

Definition push_file (f : string) (r : ParsedArgs) : ParsedArgs :=
  {| command := command r; files := (files r ++ [f])%list; options := options r |}.

Definition is_one_of (arg short long : string) : bool :=
  String.eqb arg short || String.eqb arg long.

(** The first loop: the arguments in front that start with a dash; of
    these only the help and the version flag are looked at. *)
Fixpoint leading (args : list string) (o : Options) : Options * list string :=
  match args with
  | arg :: rest =>
      if Js.startsWith "-" arg then
        let o1 := if is_one_of arg "-h" "--help" then set_help o else o in
        let o2 := if is_one_of arg "-V" "--version" then set_version o1 else o1 in
        leading rest o2
      else (o, args)
  | [] => (o, [])
  end.

(** The second loop.  [args[++i]] takes the next argument as the value of
    the option, whatever it looks like; past the end it is [undefined]. *)
Fixpoint remaining (args : list string) (r : ParsedArgs) : ParsedArgs :=
  match args with
  | [] => r
  | arg :: rest =>
      if is_one_of arg "-d" "--dictionary" then
        match rest with
        | val :: rest' =>
            remaining rest'
              (if JsString.truthy val then with_options (set_dictionary val) r else r)
        | [] => r
        end
      else if is_one_of arg "-l" "--level" then
        match rest with
        | val :: rest' => remaining rest' (with_options (set_level (Js.parseInt val)) r)
        | [] => with_options (set_level (Js.parseInt "11")) r
        end
      else if is_one_of arg "-o" "--output" then
        match rest with
        | val :: rest' =>
            remaining rest'
              (if JsString.truthy val then with_options (set_output val) r else r)
        | [] => r
        end
      else if is_one_of arg "-r" "--recursive" then remaining rest (with_options set_recursive r)
      else if is_one_of arg "-v" "--verbose" then remaining rest (with_options set_verbose r)
      else if is_one_of arg "-h" "--help" then remaining rest (with_options set_help r)
      else if is_one_of arg "-V" "--version" then remaining rest (with_options set_version r)
      else if negb (Js.startsWith "-" arg) then remaining rest (push_file arg r)
      else remaining rest r
  end.

(** What the first loop makes of the arguments [pre] it passes over. *)
Definition flags_of (pre : list string) (o : Options) : Options :=
  let o1 := if existsb (fun a => is_one_of a "-h" "--help") pre then set_help o else o in
  if existsb (fun a => is_one_of a "-V" "--version") pre then set_version o1 else o1.

(** The options that are followed by a value. *)
Definition takes_value (arg : string) : bool :=
  is_one_of arg "-d" "--dictionary" || is_one_of arg "-l" "--level"
  || is_one_of arg "-o" "--output".

Definition parseArgs (args : list string) : ParsedArgs :=
  let '(o, rest) := leading args no_options in
  match rest with
  | cmd :: rest' => remaining rest' {| command := cmd; files := []; options := o |}
  | [] => {| command := ""; files := []; options := o |}
  end.

(** [{ name, version }] of [parsePackageSpec] *)
Record PackageSpec := {
  spec_name : string;
  spec_version : string;
}.

Definition at_sign : ascii := "@"%char.

Definition parsePackageSpec (spec : string) : PackageSpec :=
  if Js.startsWith "@" spec then
    match JsString.lastIndexOf at_sign spec with
    | Some (S i) =>
        {| spec_name := JsString.slice_to (S i) spec; spec_version := Js.slice (S i + 1) spec |}
    | _ => {| spec_name := spec; spec_version := "latest" |}
    end
  else
    match JsString.indexOf at_sign spec with
    | Some (S i) =>
        {| spec_name := JsString.slice_to (S i) spec; spec_version := Js.slice (S i + 1) spec |}
    | _ => {| spec_name := spec; spec_version := "latest" |}
    end.

End Cli.

Module Extension.

Import Dictionary.

Definition one_of (ext : string) (cases : list string) : bool :=
  existsb (String.eqb ext) cases.

(** [filename.toLowerCase().split('.').pop() ?? ''] *)
Definition extension (filename : string) : string :=
  List.last (Js.split "." (JsString.toLowerCase filename)) "".

(** The [switch] on the extension; the cases are disjoint. *)
Definition by_extension (ext : string) : DictionaryType :=
  if one_of ext ["html"; "htm"; "xhtml"; "svg"; "xml"] then html
  else if one_of ext ["css"; "scss"; "sass"; "less"; "styl"; "stylus"] then css
  else if one_of ext ["json"; "jsonc"; "json5"] then json
  else if one_of ext ["vue"] then vue
  else if one_of ext ["jsx"; "tsx"] then react
  else if one_of ext ["py"; "pyw"; "pyi"; "pyx"; "pxd"] then python
  else if one_of ext ["rs"] then rust
  else if one_of ext ["go"] then go
  else if one_of ext ["java"] then java
  else if one_of ext ["c"; "h"] then c
  else if one_of ext ["cpp"; "cc"; "cxx"; "c++"; "hpp"; "hh"; "hxx"; "h++"; "ipp"] then cpp
  else auto.

Definition detectFromExtension (filename : string) : DictionaryType :=
  by_extension (extension filename).

End Extension.

(** ** [downloadTarball]: following redirects

    [request] is the network: what the [n]-th request of a download, for a
    given URL, is answered with, or that it fails.  The function calls
    itself for every redirect, so the model takes fuel; six levels are
    enough whatever the network answers. *)

Module Download.

Record Response := {
  statusCode : Z;
  location : option string;       (* [headers['location']] *)
  body : list string;             (* the chunks of the body *)
}.

Inductive Error :=
| TooManyRedirects
| RedirectWithoutLocation (status : Z)
| FailedToDownload (status : Z)
| RequestFailed (reason : string).

Inductive result :=
| Ok (buffer : string)
| Throws (e : Error)
| OutOfFuel.

Section Network.

Context (request : nat -> string -> string + Response).

(** [Buffer.concat(chunks)] *)
Definition Buffer_concat (chunks : list string) : string := String.concat "" chunks.

(** The URLs requested, in order, and the outcome. *)
Fixpoint downloadTarball (fuel : nat) (url : string) (redirectCount : nat)
  : list string * result :=
  if (5 <? redirectCount)%nat then ([], Throws TooManyRedirects)
  else
    match fuel with
    | O => ([], OutOfFuel)
    | S fuel' =>
        match request redirectCount url with
        | inl reason => ([url], Throws (RequestFailed reason))
        | inr response =>
            let status := statusCode response in
            if (300 <=? status) && (status <? 400) then
              match location response with
              | Some loc =>
                  if JsString.truthy loc then
                    let '(log, r) := downloadTarball fuel' loc (redirectCount + 1) in
                    (url :: log, r)
                  else ([url], Throws (RedirectWithoutLocation status))
              | None => ([url], Throws (RedirectWithoutLocation status))
              end
            else if negb (status =? 200) then ([url], Throws (FailedToDownload status))
            else ([url], Ok (Buffer_concat (body response)))
        end
    end.

(** The [n]-th request, for [url], is answered by a redirect to [next]. *)
Definition redirects_to (n : nat) (url next : string) : bool :=
  match request n url with
  | inr response =>
      (300 <=? statusCode response) && (statusCode response <? 400)
      && match location response with
         | Some loc => JsString.truthy loc && String.eqb loc next
         | None => false
         end
  | inl _ => false
  end.

(** Each URL of the list, requested as the [n]-th, then [n+1]-th, ...,
    redirects to the next one. *)
Fixpoint redirect_chain (n : nat) (urls : list string) : bool :=
  match urls with
  | url :: (next :: _) as rest => redirects_to n url next && redirect_chain (S n) rest
  | _ => true
  end.

End Network.

(** A network for the examples: [hop<i>] redirects to [hop<i+1>], and the
    [k]-th hop answers with a body of two chunks. *)
Definition hops (k : nat) (n : nat) (url : string) : string + Response :=
  if String.eqb url ("hop" ++ SemverSpec.show_nat k)
  then inr {| statusCode := 200; location := None; body := ["tar"; "ball"] |}
  else inr {| statusCode := 302;
              location := Some ("hop" ++ SemverSpec.show_nat (S n)); body := [] |}.

End Download.

(** ** [commandAdd] and [commandRemove]: editing the manifest

    The two commands read [package.json], change its dependency tables and
    write it back.  [commandAdd] asks the registry for each package and
    ends with a run of [install]; [commandRemove] ends by cleaning
    [node_modules], which is the matter of [VirtualStore]. *)

Module Manifest.
Import Registry Install.

(** *** [pakk add] *)

Record AddArgs := {
  add_packages : list string;
  isDev : bool;
  add_showHelp : bool;
  add_verbose : bool;
}.

Definition add_arg (a : AddArgs) (arg : string) : AddArgs :=
  if Cli.is_one_of arg "--help" "-h" then
    {| add_packages := add_packages a; isDev := isDev a; add_showHelp := true;
       add_verbose := add_verbose a |}
  else if Cli.is_one_of arg "--dev" "-D" then
    {| add_packages := add_packages a; isDev := true; add_showHelp := add_showHelp a;
       add_verbose := add_verbose a |}
  else if Cli.is_one_of arg "--verbose" "-v" then
    {| add_packages := add_packages a; isDev := isDev a; add_showHelp := add_showHelp a;
       add_verbose := true |}
  else if negb (Js.startsWith "-" arg) then
    {| add_packages := (add_packages a ++ [arg])%list; isDev := isDev a;
       add_showHelp := add_showHelp a; add_verbose := add_verbose a |}
  else a.

Definition add_args (args : list string) : AddArgs :=
  fold_left add_arg args
    {| add_packages := []; isDev := false; add_showHelp := false; add_verbose := false |}.

(** What the loop over the specs prints besides progress. *)
Inductive Message :=
| NoMatchingVersion (name version : string)
| FailedToResolve (name : string)
| NotFoundInDependencies (name : string).

(** [Object.keys(metadata.versions || {})] *)
Definition version_keys (m : Metadata) : list string :=
  map fst (default [] (versions m)).

(** [keys.pop()]: the last element, or undefined *)
Fixpoint pop (keys : list string) : option string :=
  match keys with
  | [] => None
  | [k] => Some k
  | _ :: rest => pop rest
  end.

(** [Object.entries(obj).sort(([a], [b]) => a.localeCompare(b))], then
    [Object.fromEntries]; the collation is the platform's. *)
Definition sortObject (localeCompare : string -> string -> Z) (obj : Deps) : Deps :=
  fromEntries (Js.sort (fun e1 e2 => localeCompare (fst e1) (fst e2)) obj).

Record AddLoop := {
  targetDeps : Deps;
  addedPackages : list (string * string);
  add_messages : list Message;
}.

Inductive AddResult :=
| AddUsage                                 (* help, or no package given *)
| AddExit                                  (* package.json not found: exit(1) *)
| AddThrew                                 (* JSON.parse threw *)
| NothingAdded (messages : list Message)   (* package.json is not written *)
| Added (messages : list Message) (written : PackageJson)
        (added : list (string * string)) (installed : outcome (World * Report)).

Definition with_packageJson (pj : File PackageJson) (w : World) : World :=
  {| packageJson := pj; lockfile := lockfile w; indexFile := indexFile w; disk := disk w |}.

Section Add.

Context (NUM_CPUS : N).
Context (registry : string -> option Metadata).
(** [metadata['dist-tags']?.latest] of the metadata of a package *)
Context (latest_tag : string -> option string).
Context (STORE_PATH : string).
Context (sha256 : string -> string).
Context (tarballs : string -> Download).
Context (linking_throws : list (string * string) -> StoreIndex -> gset string -> LinkMode -> bool).
Context (localeCompare : string -> string -> Z).

(** [getLatestVersion]; [None] when [fetchPackageMetadata] throws. *)
Definition getLatestVersion (name : string) : option string :=
  match registry name with
  | None => None
  | Some metadata =>
      Some (str_or (latest_tag name)
              (str_or (pop (version_keys metadata)) "0.0.0"))
  end.

(** The body of the loop over the specs, with its [try] and [catch]. *)
Definition add_one (st : AddLoop) (spec : string) : AddLoop :=
  let name := Cli.spec_name (Cli.parsePackageSpec spec) in
  let version := Cli.spec_version (Cli.parsePackageSpec spec) in
  let fail m :=
    {| targetDeps := targetDeps st; addedPackages := addedPackages st;
       add_messages := (add_messages st ++ [m])%list |} in
  let add resolvedVersion :=
    {| targetDeps := set name ("^" ++ resolvedVersion) (targetDeps st);
       addedPackages := (addedPackages st ++ [(name, resolvedVersion)])%list;
       add_messages := add_messages st |} in
  if String.eqb version "latest" then
    match getLatestVersion name with
    | Some resolvedVersion => add resolvedVersion
    | None => fail (FailedToResolve name)
    end
  else
    match registry name with
    | None => fail (FailedToResolve name)
    | Some metadata =>
        match Semver.findBestVersion (version_keys metadata) version with
        | None => fail (NoMatchingVersion name version)
        | Some best => add best
        end
    end.

Definition commandAdd (args : list string) (w : World) (schedule : list nat) : AddResult :=
  let a := add_args args in
  if add_showHelp a || (length (add_packages a) =? 0)%nat then AddUsage
  else
    match packageJson w with
    | Missing => AddExit
    | Unparsable => AddThrew
    | Parsed packageJson =>
        let dependencies := default [] (pj_dependencies packageJson) in
        let devDependencies := default [] (pj_devDependencies packageJson) in
        let st := fold_left add_one (add_packages a)
                    {| targetDeps := if isDev a then devDependencies else dependencies;
                       addedPackages := []; add_messages := [] |} in
        match addedPackages st with
        | [] => NothingAdded (add_messages st)
        | _ :: _ =>
            let dependencies' :=
              sortObject localeCompare (if isDev a then dependencies else targetDeps st) in
            let devDependencies' :=
              sortObject localeCompare (if isDev a then targetDeps st else devDependencies) in
            let written :=
              {| pj_name := pj_name packageJson;
                 pj_dependencies := Some dependencies';
                 pj_devDependencies :=
                   match devDependencies' with [] => None | _ :: _ => Some devDependencies' end;
                 pj_peerDependencies := pj_peerDependencies packageJson;
                 pj_optionalDependencies := pj_optionalDependencies packageJson |} in
            Added (add_messages st) written (addedPackages st)
              (install NUM_CPUS registry STORE_PATH sha256 tarballs linking_throws
                 (with_packageJson (Parsed written) w)
                 {| dev := false; production := false; frozen := false;
                    verbose := add_verbose a; parallel := None; linkMode := None |}
                 schedule)
        end
    end.

End Add.

(** The version the last addition of [name] resolved to. *)
Fixpoint last_added (name : string) (added : list (string * string)) : option string :=
  match added with
  | [] => None
  | (n, v) :: rest =>
      match last_added name rest with
      | Some v' => Some v'
      | None => if String.eqb n name then Some v else None
      end
  end.

(** [section?.[name]], a table that may be missing. *)
Definition lookup (name : string) (section : option Deps) : option string :=
  match section with
  | Some deps => assoc name deps
  | None => None
  end.

(** The keys of a table that is there are distinct, as those of a parsed
    object are. *)
Definition distinct_keys (section : option Deps) : Prop :=
  List.NoDup (map fst (default [] section)).

(** The four dependency tables of a manifest. *)
Definition sections : list (PackageJson -> option Deps) :=
  [pj_dependencies; pj_devDependencies; pj_optionalDependencies; pj_peerDependencies].

(** *** [pakk remove] *)

Record RemoveArgs := {
  rm_packages : list string;
  rm_showHelp : bool;
}.

Definition remove_arg (a : RemoveArgs) (arg : string) : RemoveArgs :=
  if Cli.is_one_of arg "--help" "-h" then
    {| rm_packages := rm_packages a; rm_showHelp := true |}
  else if negb (Js.startsWith "-" arg) then
    {| rm_packages := (rm_packages a ++ [arg])%list; rm_showHelp := rm_showHelp a |}
  else a.

Definition remove_args (args : list string) : RemoveArgs :=
  fold_left remove_arg args {| rm_packages := []; rm_showHelp := false |}.

(** [section?.[name]] in a condition: the table is there, and it has an
    entry of its own for the name whose range is not the empty string, or
    it has none and the name is that of a member of [Object.prototype]
    ([constructor], [toString], ...), which the read then finds. *)
Definition listed (name : string) (section : option Deps) : bool :=
  match section with
  | None => false
  | Some deps =>
      match Js.property (assoc name deps) name with
      | Js.Own range => JsString.truthy range
      | Js.FromPrototype => true
      | Js.Undefined => false
      end
  end.

(** [delete obj[name]]: an entry of the table's own goes, nothing else. *)
Definition delete_key (name : string) (deps : Deps) : Deps :=
  List.filter (fun e => negb (String.eqb (fst e) name)) deps.

(** [if (section?.[name]) { delete section[name]; found = true; }] *)
Definition drop (name : string) (section : option Deps) : option Deps :=
  if listed name section then delete_key name <$> section else section.

Record RemoveLoop := {
  manifest : PackageJson;
  removedPackages : list string;
  rm_messages : list Message;
}.

Definition remove_one (st : RemoveLoop) (name : string) : RemoveLoop :=
  let pj := manifest st in
  let found :=
    listed name (pj_dependencies pj) || listed name (pj_devDependencies pj)
    || listed name (pj_optionalDependencies pj) || listed name (pj_peerDependencies pj) in
  {| manifest :=
       {| pj_name := pj_name pj;
          pj_dependencies := drop name (pj_dependencies pj);
          pj_devDependencies := drop name (pj_devDependencies pj);
          pj_peerDependencies := drop name (pj_peerDependencies pj);
          pj_optionalDependencies := drop name (pj_optionalDependencies pj) |};
     removedPackages :=
       if found then (removedPackages st ++ [name])%list else removedPackages st;
     rm_messages :=
       if found then rm_messages st
       else (rm_messages st ++ [NotFoundInDependencies name])%list |}.

(** [if (section && Object.keys(section).length === 0) delete packageJson.section] *)
Definition prune (section : option Deps) : option Deps :=
  match section with
  | Some [] => None
  | _ => section
  end.

Inductive RemoveResult :=
| RemoveUsage
| RemoveExit
| RemoveThrew
| NothingRemoved (messages : list Message)     (* package.json is not written *)
| Removed (messages : list Message) (written : PackageJson) (removed : list string).

(** The command up to the writing of [package.json]; the cleaning of
    [node_modules] for the names in [removed] follows. *)
Definition commandRemove (args : list string) (w : World) : RemoveResult :=
  let a := remove_args args in
  if rm_showHelp a || (length (rm_packages a) =? 0)%nat then RemoveUsage
  else
    match packageJson w with
    | Missing => RemoveExit
    | Unparsable => RemoveThrew
    | Parsed packageJson =>
        let st := fold_left remove_one (rm_packages a)
                    {| manifest := packageJson; removedPackages := []; rm_messages := [] |} in
        match removedPackages st with
        | [] => NothingRemoved (rm_messages st)
        | _ :: _ =>
            let pj := manifest st in
            Removed (rm_messages st)
              {| pj_name := pj_name pj;
                 pj_dependencies := prune (pj_dependencies pj);
                 pj_devDependencies := prune (pj_devDependencies pj);
                 pj_peerDependencies := prune (pj_peerDependencies pj);
                 pj_optionalDependencies := prune (pj_optionalDependencies pj) |}
              (removedPackages st)
        end
    end.

End Manifest.

(** ** [createVirtualStore]: the layout of [node_modules]

    Paths are those of [Linker]: absolute, as lists of components.  The
    platform is a POSIX one: the separator is the slash, and the type given
    to [symlinkSync] plays no part.  A symbolic link made with a relative
    target is kept in the table by the path the target leads to from the
    directory of the link, which is where the system looks for it; no
    link is moved afterwards. *)

Module VirtualStore.
Import Registry Linker.

(** A segment that [path.normalize] drops. *)
Definition skipped (seg : string) : bool := String.eqb seg "" || String.eqb seg ".".

(** One more segment on an absolute, normalised path. *)
Definition enter (p : path) (seg : string) : path :=
  if skipped seg then p
  else if String.eqb seg ".." then removelast p
  else (p ++ [seg])%list.

(** [join(base, ...parts)] for an absolute, normalised [base] *)
Definition join (base : path) (parts : list string) : path :=
  fold_left enter (concat (map (Js.split "/") parts)) base.

(** One more segment on a relative, normalised path, where [..] in front
    stays. *)
Definition enter_relative (p : list string) (seg : string) : list string :=
  if skipped seg then p
  else if String.eqb seg ".." then
    match p with
    | [] => [".."]
    | _ :: _ => if String.eqb (List.last p "") ".." then (p ++ [".."])%list else removelast p
    end
  else (p ++ [seg])%list.

(** [join(...parts)] for parts that make a relative path *)
Definition join_relative (parts : list string) : list string :=
  fold_left enter_relative (concat (map (Js.split "/") parts)) [].

(** [dirname(p)] *)
Definition dirname (p : path) : path := removelast p.

(** Where the relative [target] of a link in the directory [dir] leads. *)
Definition resolve (dir : path) (target : list string) : path := fold_left enter target dir.

(** A path as the process reads it: absolute when it starts with a slash,
    relative to the working directory otherwise. *)
Definition of_string (cwd : path) (s : string) : path :=
  if Js.startsWith "/" s then join [] [s] else join cwd [s].

(** [rmSync(p, { recursive: true })]: a directory goes with all that is
    below it; of a symbolic link only the link goes. *)
Definition rmSync (fs : FS) (p : path) : result FS :=
  match names fs !! p with
  | None => Throws ENOENT
  | Some Dir => Ok (with_names (filter (fun kv => prefixb p kv.1 = false)) fs)
  | Some _ => Ok (with_names (delete p) fs)
  end.

(** [for (const x of xs) body], the body able to throw, on any state. *)
Fixpoint for_of {S A} (body : S -> A -> result S) (xs : list A) (s : S) : result S :=
  match xs with
  | [] => Ok s
  | x :: rest => bind (body s x) (for_of body rest)
  end.

(** [console.warn('Package not in store: name@version')] *)
Inductive Warning := NotInStore (name version : string).

Section Store.

Context (ft : Faults).
(** [process.cwd()] *)
Context (cwd : path).
(** A bound on the depth of the recursion of [linkPackage]. *)
Context (fuel : nat).

Definition virtualStoreDir (nodeModulesDir : path) : path := join nodeModulesDir [".pakk"].

Definition virtualPkgDir (nodeModulesDir : path) (name version : string) : path :=
  join (virtualStoreDir nodeModulesDir) [name ++ "@" ++ version; "node_modules"; name].

Definition topLevelLink (nodeModulesDir : path) (name : string) : path :=
  join nodeModulesDir [name].

Definition relativePath (name version : string) : list string :=
  join_relative [".pakk"; name ++ "@" ++ version; "node_modules"; name].

(** [storeEntry?.extractedPath] when it is there and not the empty string *)
Definition extractedPath_of (storeIndex : Install.StoreIndex) (name version : string)
  : option string :=
  match Install.store_lookup storeIndex name version ≫= Install.extractedPath with
  | Some p => if JsString.truthy p then Some p else None
  | None => None
  end.

(** The body of the loop over the packages. *)
Definition link_one (storeIndex : Install.StoreIndex) (nodeModulesDir : path)
    (linkMode : LinkMode) (st : FS * list Warning) (e : string * ResolvedPackage)
  : result (FS * list Warning) :=
  let '(fs, warnings) := st in
  let name := fst e in
  let pkg := snd e in
  let not_in_store := Ok (fs, (warnings ++ [NotInStore name (version pkg)])%list) in
  match extractedPath_of storeIndex name (version pkg) with
  | None => not_in_store
  | Some extractedPath =>
      if negb (existsSync fs (of_string cwd extractedPath)) then not_in_store
      else
        let virtualPkgDir := virtualPkgDir nodeModulesDir name (version pkg) in
        bind (linkPackage fuel ft fs (of_string cwd extractedPath) virtualPkgDir linkMode)
          (fun fs1 =>
        let topLevelLink := topLevelLink nodeModulesDir name in
        let topLevelDir := dirname topLevelLink in
        bind (mkdirSync fs1 topLevelDir) (fun fs2 =>
        bind (if existsSync fs2 topLevelLink then rmSync fs2 topLevelLink else Ok fs2)
          (fun fs3 =>
        match symlinkSync ft fs3 (resolve topLevelDir (relativePath name (version pkg)))
                topLevelLink with
        | Ok fs4 => Ok (fs4, warnings)
        | OutOfFuel => OutOfFuel
        | Throws _ =>
            bind (linkPackage fuel ft fs3 virtualPkgDir topLevelLink linkMode)
              (fun fs4 => Ok (fs4, warnings))
        end)))
  end.

Definition createVirtualStore (packages : list (string * ResolvedPackage))
    (storeIndex : Install.StoreIndex) (nodeModulesDir : path) (linkMode : LinkMode)
    (fs : FS) : result (FS * list Warning) :=
  bind (mkdirSync fs (virtualStoreDir nodeModulesDir)) (fun fs0 =>
  for_of (link_one storeIndex nodeModulesDir linkMode) packages (fs0, [])).

End Store.

(** *** What the theorems speak of *)

(** A segment that [join] keeps as it is. *)
Definition simple (seg : string) : bool :=
  negb (skipped seg) && negb (String.eqb seg "..") && JsString.lacks "/" seg.

(** A package name without scope, and not that of the virtual store. *)
Definition unscoped (name : string) : bool :=
  simple name && negb (String.eqb name ".pakk") && JsString.lacks "@" name.

(** A package without scope whose version is one segment. *)
Definition plain_package (e : string * ResolvedPackage) : bool :=
  unscoped (fst e) && JsString.lacks "/" (version (snd e)).

(** The directory of the store the index has for the package, if it is
    there. *)
Definition store_dir (cwd : path) (storeIndex : Install.StoreIndex) (fs : FS)
    (e : string * ResolvedPackage) : option path :=
  match extractedPath_of storeIndex (fst e) (version (snd e)) with
  | Some p => if existsSync fs (of_string cwd p) then Some (of_string cwd p) else None
  | None => None
  end.

(** The warning for a package that has no directory in the store. *)
Definition warning_of (cwd : path) (storeIndex : Install.StoreIndex) (fs : FS)
    (e : string * ResolvedPackage) : option Warning :=
  match store_dir cwd storeIndex fs e with
  | Some _ => None
  | None => Some (NotInStore (fst e) (version (snd e)))
  end.

(** The path the index gives for the package, if any, is apart from
    [nodeModulesDir], and is either missing or a plain tree. *)
Definition store_ok (cwd : path) (storeIndex : Install.StoreIndex) (fs : FS)
    (nodeModulesDir : path) (depth : nat) (e : string * ResolvedPackage) : bool :=
  match extractedPath_of storeIndex (fst e) (version (snd e)) with
  | None => true
  | Some p =>
      let src := of_string cwd p in
      apartb src nodeModulesDir
      && (plain_treeb fs src depth
          || match names fs !! src with None => true | Some _ => false end)
  end.

(** The proper prefixes of a path, the root first. *)
Definition ancestors (p : path) : list path :=
  map (fun n => firstn n p) (seq 0 (length p)).

Definition is_dir (fs : FS) (q : path) : bool :=
  match names fs !! q with Some Dir => true | _ => false end.

(** The platform makes the top-level symbolic link of every package. *)
Definition links_granted (ft : Faults) (nodeModulesDir : path)
    (packages : list (string * ResolvedPackage)) : bool :=
  forallb (fun e =>
             negb (symlink_refused ft
                     (resolve (dirname (topLevelLink nodeModulesDir (fst e)))
                        (relativePath (fst e) (version (snd e))))
                     (topLevelLink nodeModulesDir (fst e))))
          packages.

(** *** A project to install into

    The store of [Linker.demo_fs] with an index that knows [pkg] at version
    1.0.0, and a platform that refuses the hard link of [util.js] but makes
    symbolic links. *)

Definition demo_index : Install.StoreIndex :=
  {| Install.si_version := 1;
     Install.si_packages :=
       {[ "pkg" := Some {[ "1.0.0" := {| Install.se_integrity := "sha512-x";
                                         Install.compressedSize := 10;
                                         Install.originalSize := 34;
                                         Install.dictionary := "node_modules";
                                         Install.extractedPath := Some "/store/pkg" |} ]} ]} |}.

(** The same store under a scoped name. *)
Definition scoped_index : Install.StoreIndex :=
  {| Install.si_version := 1;
     Install.si_packages :=
       {[ "@acme/tool" := Some {[ "1.0.0" := {| Install.se_integrity := "sha512-x";
                                                Install.compressedSize := 10;
                                                Install.originalSize := 34;
                                                Install.dictionary := "node_modules";
                                                Install.extractedPath := Some "/store/pkg" |} ]} ]} |}.

Definition demo_package (name version : string) : string * ResolvedPackage :=
  (name, {| name := name; version := version; pkg_integrity := "sha512-x";
            tarballUrl := ""; pkg_dependencies := [];
            pkg_peerDependencies := None; pkg_optionalDependencies := None |}).

Definition posix_faults : Faults :=
  {| link_refused := fun src _ => match List.last src "" with
                                  | "util.js" => true
                                  | _ => false
                                  end;
     symlink_refused := fun _ _ => false |}.

End VirtualStore.

(** ** [compress] and [decompress]: choosing the codec

    The codecs themselves (zlib's gzip and Brotli, and zstd-napi, which may
    be missing) are parameters; what is modelled is which codec is called,
    with which dictionary and level, and what is reported.  A Buffer is a
    [string], one character per byte.  The fields [ratio], [savings] and
    [timeMs] of the result, floating-point numbers made from the two sizes
    and the clock, are left out. *)

Module Compressor.
Import Dictionary.

Abbreviation Buffer := string.

Inductive CompressionAlgorithm := zstd | zstd_dict | brotli | gzip.

(** [zstd-napi] *)
Record ZstdModule := {
  (* [zstd.compress(data, level)]; [None] when it throws *)
  zstd_compress : Buffer -> Z -> option Buffer;
  (* [zstd.decompress(data)] *)
  zstd_decompress : Buffer -> option Buffer;
  (* a [Compressor] with the level set and the dictionary loaded *)
  compressor_compress : Buffer -> Z -> Buffer -> option Buffer;
  (* a [Decompressor] with the dictionary loaded *)
  decompressor_decompress : Buffer -> Buffer -> option Buffer;
}.

Record Codecs := {
  zstdModule : option ZstdModule;             (* what [loadZstd()] resolves to *)
  brotliCompressSync : Buffer -> Z -> Buffer; (* with the quality given *)
  brotliDecompressSync : Buffer -> option Buffer;
  gzipSync : Buffer -> Z -> Buffer;
  gunzipSync : Buffer -> option Buffer;
  dictionaries : DictionaryType -> Buffer;    (* the trained dictionaries *)
}.

Record CompressOptions := {
  level : option Z;
  minDictSize : option nat;
  dictionary : option DictionaryType;
  algorithm : option CompressionAlgorithm;
}.

Record CompressResult := {
  data : Buffer;
  originalSize : nat;
  compressedSize : nat;
  used_dictionary : option DictionaryType;    (* [None] is 'none' *)
  used_algorithm : CompressionAlgorithm;
}.

Record DecompressOptions := {
  with_dictionary : option DictionaryType;
}.

(** [Math.min(Math.max(level, lo), hi)] *)
Definition clamp (lo hi level : Z) : Z := Z.min (Z.max level lo) hi.

(** The byte [n] as a character. *)
Definition byte (n : nat) : ascii := ascii_of_nat n.

(** [data[i] === n] *)
Definition byte_is (data : Buffer) (i n : nat) : bool :=
  match String.get i data with
  | Some b => Ascii.eqb b (byte n)
  | None => false
  end.

Definition detectFormat (data : Buffer) : option CompressionAlgorithm :=
  if (String.length data <? 4)%nat then None
  else if byte_is data 0 40 && byte_is data 1 181 && byte_is data 2 47 && byte_is data 3 253
  then Some zstd
  else if byte_is data 0 31 && byte_is data 1 139 then Some gzip
  else None.

Section Codecs.

Context (codecs : Codecs).

(** [getDictionary] of [src/dictionaries/index.ts] *)
Definition getDictionary (type : DictionaryType) : Buffer :=
  match type with
  | auto => dictionaries codecs typescript
  | _ => dictionaries codecs type
  end.

(** [None] when the function throws. *)
Definition compressWithZstd (data : Buffer) (dict : option Buffer) (level : Z)
  : option Buffer :=
  match zstdModule codecs with
  | None => None
  | Some z =>
      let clampedLevel := clamp 1 22 level in
      match dict with
      | Some d =>
          if (0 <? String.length d)%nat then compressor_compress z d clampedLevel data
          else zstd_compress z data clampedLevel
      | None => zstd_compress z data clampedLevel
      end
  end.

Definition decompressWithZstd (data : Buffer) (dict : option Buffer) : option Buffer :=
  match zstdModule codecs with
  | None => None
  | Some z =>
      match dict with
      | Some d =>
          if (0 <? String.length d)%nat then decompressor_decompress z d data
          else zstd_decompress z data
      | None => zstd_decompress z data
      end
  end.

Definition compressWithBrotli (data : Buffer) (level : Z) : Buffer :=
  brotliCompressSync codecs data (clamp 0 11 level).

Definition compressWithGzip (data : Buffer) (level : Z) : Buffer :=
  gzipSync codecs data (clamp 1 9 level).

(** The dictionary [compress] and [benchmark] go by: the one asked for,
    or, when none or 'auto' is, the one detected. *)
Definition dictType_of (requested : option DictionaryType) (data : Buffer) : DictionaryType :=
  match requested with
  | None | Some auto => detectDictionaryType (Dictionary.Buffer data)
  | Some d => d
  end.

Definition is_auto (d : DictionaryType) : bool :=
  match d with auto => true | _ => false end.

Definition result_of (data compressed : Buffer) (usedDict : option DictionaryType)
    (algo : CompressionAlgorithm) : CompressResult :=
  {| data := compressed;
     originalSize := String.length data;
     compressedSize := String.length compressed;
     used_dictionary := usedDict;
     used_algorithm := algo |}.

Definition compress (input : Buffer) (options : CompressOptions) : CompressResult :=
  let data := input in
  let level := default 11 (level options) in
  let minDictSize := default 256%nat (minDictSize options) in
  let dictType := dictType_of (dictionary options) data in
  let useDict := (minDictSize <=? String.length data)%nat && negb (is_auto dictType) in
  let with_brotli usedDict :=
    result_of data (compressWithBrotli data (Z.min level 11)) usedDict brotli in
  match algorithm options with
  | Some gzip => result_of data (compressWithGzip data (Z.min level 9)) None gzip
  | Some brotli => with_brotli None
  | Some zstd | None =>
      match zstdModule codecs with
      | Some _ =>
          let dict := if useDict then Some (getDictionary dictType) else None in
          match compressWithZstd data dict level with
          | Some compressed =>
              match dict with
              | Some _ => result_of data compressed (Some dictType) zstd_dict
              | None => result_of data compressed None zstd
              end
          | None => with_brotli (if useDict then Some dictType else None)
          end
      | None => with_brotli (if useDict then Some dictType else None)
      end
  | Some zstd_dict => with_brotli None
  end.

(** [None] when the codec throws. *)
Definition decompress (input : Buffer) (options : DecompressOptions) : option Buffer :=
  match detectFormat input with
  | Some zstd =>
      decompressWithZstd input (getDictionary <$> with_dictionary options)
  | Some gzip => gunzipSync codecs input
  | _ => brotliDecompressSync codecs input
  end.

End Codecs.

(** *** What is assumed of the codecs for a round trip *)




(** *** Toy codecs, for the examples: a header in front of the data *)


Definition toy_codecs (z : option ZstdModule) : Codecs :=
  {| zstdModule := z;
     brotliCompressSync := fun d _ => d;
     brotliDecompressSync := fun c => Some c;
     gzipSync := fun d _ => String (byte 31) (String (byte 139) (String (byte 8)
                              (String (byte 0) d)));
     gunzipSync := fun c => Some (Js.slice 4 c);
     dictionaries := fun _ => "dictionary" |}.

Definition no_options : CompressOptions :=
  {| level := None; minDictSize := None; dictionary := None; algorithm := None |}.

End Compressor.

(** ** [expandFiles] and [getFilesRecursive]: the files a command works on

    The file system is that of [Linker].  A pattern is given by the path it
    names; [join(dir, entry)] adds the entry, a single component, to the
    path of the directory.  [getFilesRecursive] catches every error; the
    recursion takes fuel, a bound on its depth.  Directories reached
    through a symbolic link are outside the model of [Linker], and the
    theorems take trees without links. *)

Module Files.
Import Linker.

(** [statSync(p)]: what the name denotes, the links at its end followed. *)
Definition statSync (fs : FS) (p : path) : result entry :=
  match follow MAXSYMLINKS fs p with
  | None => Throws ELOOP
  | Some q =>
      match names fs !! q with
      | Some e => Ok e
      | None => Throws ENOENT
      end
  end.

(** [stat.isFile()] *)
Definition isFile (e : entry) : bool :=
  match e with File _ => true | _ => false end.

(** [for (const entry of entries) body], the body pushing to [files]. *)
Fixpoint for_entries {A} (body : list path -> A -> result (list path)) (entries : list A)
    (files : list path) : result (list path) :=
  match entries with
  | [] => Ok files
  | e :: rest => bind (body files e) (for_entries body rest)
  end.

Fixpoint getFilesRecursive (fuel : nat) (fs : FS) (dir : path) : result (list path) :=
  match fuel with
  | O => OutOfFuel
  | S fuel' =>
      match readdirSync fs dir with
      | Ok entries =>
          for_entries
            (fun files entry =>
               let fullPath := (dir ++ [entry])%list in
               match statSync fs fullPath with
               | Ok stat =>
                   if isDirectory stat
                   then bind (getFilesRecursive fuel' fs fullPath)
                             (fun inner => Ok (files ++ inner)%list)
                   else Ok (files ++ [fullPath])%list
               | Throws _ => Ok files
               | OutOfFuel => OutOfFuel
               end)
            (entries.*1) []
      | Throws _ => Ok []
      | OutOfFuel => OutOfFuel
      end
  end.

Definition expandFiles (fuel : nat) (fs : FS) (patterns : list path) (recursive : bool)
  : result (list path) :=
  for_entries
    (fun files pattern =>
       if negb (existsSync fs pattern) then Ok files
       else
         bind (statSync fs pattern) (fun stat =>
         if isFile stat then Ok (files ++ [pattern])%list
         else if isDirectory stat && recursive
         then bind (getFilesRecursive fuel fs pattern)
                   (fun inner => Ok (files ++ inner)%list)
         else if isDirectory stat
         then bind (readdirSync fs pattern) (fun entries =>
              for_entries
                (fun files entry =>
                   let fullPath := (pattern ++ [entry])%list in
                   match statSync fs fullPath with
                   | Ok stat => if isFile stat then Ok (files ++ [fullPath])%list else Ok files
                   | Throws _ => Ok files
                   | OutOfFuel => OutOfFuel
                   end)
                (entries.*1) files)
         else Ok files))
    patterns [].

(** *** What the theorems speak of *)

(** The regular files of the tree below [dir]. *)
Definition files_below (fs : FS) (dir : path) (q : path) : Prop :=
  exists rel i, q = (dir ++ rel)%list /\ file_at fs dir rel = Some i.

(** Those that go through the entry [n] of [dir]. *)
Definition files_through (fs : FS) (dir : path) (n : string) (q : path) : Prop :=
  exists rel i, q = (dir ++ n :: rel)%list /\ file_at fs dir (n :: rel) = Some i.

(** What a pattern may name for the theorem on [expandFiles]: nothing, a
    regular file, or a directory with a plain tree below it. *)
Definition plain_pattern (fs : FS) (depth : nat) (p : path) : bool :=
  match names fs !! p with
  | None | Some (File _) => true
  | Some Dir => plain_treeb fs p depth
  | Some (Symlink _) => false
  end.

(** How many times [q] is in the list. *)
Definition occurrences (q : path) (files : list path) : nat :=
  length (filter (fun f => bool_decide (f = q)) files).

(** The regular file [q] is what the pattern [p] stands for: [p] itself,
    or a file below the directory [p], right below it unless [recursive]. *)
Definition expands_to (fs : FS) (recursive : bool) (p q : path) : Prop :=
  (q = p /\ exists i, names fs !! p = Some (File i))
  \/ (names fs !! p = Some Dir
      /\ exists rel i, q = (p ++ rel)%list /\ file_at fs p rel = Some i
                       /\ (recursive = false -> length rel = 1%nat)).

End Files.

(** ** [commandRemove]: cleaning [node_modules]

    The last loop of [commandRemove], over the names taken off
    [package.json]: the entry of the package in [node_modules] goes, and
    with it the directories of [node_modules/.pakk] whose names start with
    the name of the package and an at sign.  The file system and the paths
    are those of [Linker] and [VirtualStore]. *)

Module Cleanup.
Import Linker VirtualStore.

(** The body of the loop over the entries of [.pakk]. *)
Definition clean_entry (name : string) (pakkDir : path) (fs : FS) (entry : string)
  : result FS :=
  if Js.startsWith (name ++ "@") entry then rmSync fs (join pakkDir [entry]) else Ok fs.

(** The body of the loop over [removedPackages]. *)
Definition clean_package (nodeModulesDir : path) (fs : FS) (name : string) : result FS :=
  let pkgPath := join nodeModulesDir [name] in
  bind (if existsSync fs pkgPath then rmSync fs pkgPath else Ok fs) (fun fs1 =>
  let pakkDir := join nodeModulesDir [".pakk"] in
  if existsSync fs1 pakkDir
  then bind (readdirSync fs1 pakkDir) (fun entries =>
       for_of (clean_entry name pakkDir) (entries.*1) fs1)
  else Ok fs1).

Definition cleanNodeModules (nodeModulesDir : path) (removedPackages : list string) (fs : FS)
  : result FS :=
  for_of (clean_package nodeModulesDir) removedPackages fs.

(** *** What the theorems speak of *)

(** The tables are those of a file system: every name but the root is
    made of plain components and has a directory as its parent. *)
Definition well_formed (fs : FS) : Prop :=
  forall q e, names fs !! q = Some e -> q <> [] ->
              forallb simple q = true /\ names fs !! removelast q = Some Dir.

Definition well_formedb (fs : FS) : bool :=
  forallb (fun kv => match fst kv with
                     | [] => true
                     | _ :: _ => forallb simple (fst kv) && is_dir fs (removelast (fst kv))
                     end)
          (map_to_list (names fs)).

(** [.pakk] is a directory, or is not there. *)
Definition pakk_dir (fs : FS) (nodeModulesDir : path) : bool :=
  match names fs !! (nodeModulesDir ++ [".pakk"])%list with
  | None | Some Dir => true
  | Some _ => false
  end.

(** [q] is at or below an entry of [.pakk] that the loop over the entries
    [es] removes. *)
Definition gone (nodeModulesDir : path) (name : string) (es : list string) (q : path) : bool :=
  existsb (fun e => Js.startsWith (name ++ "@") e
                    && prefixb ((nodeModulesDir ++ [".pakk"]) ++ [e])%list q) es.

(** The file system after [createVirtualStore], or the one before when it
    fails. *)
Definition installed (ft : Faults) (cwd : path) (fuel : nat)
    (packages : list (string * Registry.ResolvedPackage)) (storeIndex : Install.StoreIndex)
    (nodeModulesDir : path) (linkMode : LinkMode) (fs : FS) : FS :=
  match createVirtualStore ft cwd fuel packages storeIndex nodeModulesDir linkMode fs with
  | Ok (fs', _) => fs'
  | _ => fs
  end.

(** [demo_fs] with [pkg] linked into the project, and with [@acme/tool]. *)
Definition demo_installed : FS :=
  installed posix_faults ["project"] 2 [demo_package "pkg" "1.0.0"] demo_index
    ["project"; "node_modules"] hardlink demo_fs.

Definition scoped_installed : FS :=
  installed posix_faults ["project"] 2 [demo_package "@acme/tool" "1.0.0"] scoped_index
    ["project"; "node_modules"] hardlink demo_fs.

End Cleanup.

(** ** [main]: which command runs, and on what

    [main] reads [process.argv] twice: [parseArgs] gets the arguments from
    the third on, and the commands with a parser of their own get those
    from the fourth on.  The model takes the former, [argv], so that the
    latter is its tail; what [main] does is the call it makes. *)

Module Main.
Import Cli.

Inductive Action :=
| printVersion
| commandCache (args : list string)
| commandInstall (args : list string)
| commandStore (args : list string)
| commandAdd (args : list string)
| commandRemove (args : list string)
| printHelp
| commandCompress (files : list string) (options : Options)
| commandDecompress (files : list string) (options : Options)
| commandBench (files : list string) (options : Options)
| commandInfo
| unknownCommand (command : string).

Definition main (argv : list string) : Action :=
  let args := parseArgs argv in
  let command_is := String.eqb (command args) in
  if version (options args) then printVersion
  else if command_is "cache" then commandCache (tl argv)
  else if command_is "install" || command_is "i" then commandInstall (tl argv)
  else if command_is "store" then commandStore (tl argv)
  else if command_is "add" || command_is "a" then commandAdd (tl argv)
  else if command_is "remove" || command_is "rm" || command_is "uninstall" || command_is "un" then commandRemove (tl argv)
  else if help (options args) || negb (JsString.truthy (command args)) then printHelp
  else if command_is "compress" || command_is "c" then commandCompress (files args) (options args)
  else if command_is "decompress" || command_is "d" || command_is "extract" || command_is "x"
  then commandDecompress (files args) (options args)
  else if command_is "bench" || command_is "benchmark" || command_is "b" then commandBench (files args) (options args)
  else if command_is "info" || command_is "i" then commandInfo
  else unknownCommand (command args).

End Main.

(** * Theorems *)

(** ** Semver *)

Example parseInt_ex1 : Js.parseInt "21" = Some 21. Proof. reflexivity. Qed.
Example parseInt_ex2 : Js.parseInt "3-beta" = Some 3. Proof. reflexivity. Qed.
Example parseInt_ex3 : Js.parseInt "x" = None. Proof. reflexivity. Qed.
Example parseInt_ex4 : Js.parseInt " -7a" = Some (-7). Proof. reflexivity. Qed.
Example split_ex : Js.split "." "1..2" = ["1"; ""; "2"]. Proof. reflexivity. Qed.
Example show_ex : SemverSpec.show (SemverSpec.Version 4 17 21) = "4.17.21". Proof. reflexivity. Qed.

Section CompareVersions.
Import Semver.

Lemma compareVersions_lex a b :
  compareVersions a b = SemverSpec.lex3 (SemverSpec.triple a) (SemverSpec.triple b).
Proof.
  unfold compareVersions, SemverSpec.lex3, SemverSpec.triple, part, parts.
  assert (E : forall l i, nth i (map (fun n => Js.or_zero (Js.parseInt n)) l) 0
              = match nth_error l i with
                | Some s => Js.or_zero (Js.parseInt s) | None => 0 end).
  { induction l as [|x l IH]; intros [|i]; simpl; auto. }
  rewrite !E. cbv zeta.
  repeat match goal with |- context [match nth_error ?l ?i with _ => _ end] =>
    generalize (match nth_error l i with
                | Some s => Js.or_zero (Js.parseInt s) | None => 0 end); intro
  end.
  repeat match goal with |- context [?x =? ?y] => destruct (Z.eqb_spec x y) end;
    simpl; lia.
Qed.

Lemma compareVersions_swap a b : compareVersions b a = - compareVersions a b.
Proof.
  rewrite !compareVersions_lex.
  destruct (SemverSpec.triple a) as [[x0 x1] x2], (SemverSpec.triple b) as [[y0 y1] y2].
  unfold SemverSpec.lex3.
  repeat match goal with |- context [?x =? ?y] => destruct (Z.eqb_spec x y) end;
    simpl; lia.
Qed.

Lemma compareVersions_le_trans a b c :
  compareVersions a b <= 0 -> compareVersions b c <= 0 -> compareVersions a c <= 0.
Proof.
  rewrite !compareVersions_lex.
  destruct (SemverSpec.triple a) as [[x0 x1] x2], (SemverSpec.triple b) as [[y0 y1] y2],
           (SemverSpec.triple c) as [[z0 z1] z2].
  unfold SemverSpec.lex3.
  repeat match goal with |- context [?x =? ?y] => destruct (Z.eqb_spec x y) end;
    simpl; lia.
Qed.

Lemma compareVersions_lt_le_trans a b c :
  compareVersions a b < 0 -> compareVersions b c <= 0 -> compareVersions a c < 0.
Proof.
  rewrite !compareVersions_lex.
  destruct (SemverSpec.triple a) as [[x0 x1] x2], (SemverSpec.triple b) as [[y0 y1] y2],
           (SemverSpec.triple c) as [[z0 z1] z2].
  unfold SemverSpec.lex3.
  repeat match goal with |- context [?x =? ?y] => destruct (Z.eqb_spec x y) end;
    simpl; lia.
Qed.

(** The head of the descending stable sort is the first maximal element of
    the input. *)
Lemma sort_desc_head l h t :
  Js.sort (fun a b => compareVersions b a) l = h :: t ->
  exists l1 l2, l = (l1 ++ h :: l2)%list
    /\ (forall y, In y l1 -> compareVersions y h < 0)
    /\ (forall y, In y l2 -> compareVersions y h <= 0).
Proof.
  revert h t. induction l as [|x l IH]; intros h t; simpl; [discriminate|].
  destruct (Js.sort (fun a b => compareVersions b a) l) as [|h' t'] eqn:E; simpl.
  - intros [= <- <-]. destruct l as [|y l]; simpl in E.
    + exists [], []. simpl. repeat split; intros ? [].
    + exfalso. revert E. generalize (Js.sort (fun a b => compareVersions b a) l).
      intros [|z s]; simpl; [discriminate|]. destruct (_ <=? _); discriminate.
  - destruct (IH _ _ eq_refl) as (l1 & l2 & -> & H1 & H2).
    destruct (Z.leb_spec (compareVersions h' x) 0) as [Hle|Hgt].
    + intros [= <- <-]. exists [], (l1 ++ h' :: l2)%list. simpl. repeat split; [intros ? []|].
      intros y Hy. apply in_app_or in Hy. destruct Hy as [Hy|[<-|Hy]]; auto.
      * apply Z.lt_le_incl. eapply compareVersions_lt_le_trans; eauto.
      * eapply compareVersions_le_trans; eauto.
    + intros [= <- <-]. exists (x :: l1), l2. simpl. repeat split; auto.
      intros y [<-|Hy]; auto. rewrite compareVersions_swap. lia.
Qed.

Lemma sort_nil_inv {A} (cmp : A -> A -> Z) l : Js.sort cmp l = [] -> l = [].
Proof.
  destruct l as [|x l]; simpl; auto.
  generalize (Js.sort cmp l). intros [|z s]; simpl; [discriminate|].
  destruct (_ <=? _); discriminate.
Qed.

End CompareVersions.

Section FindBestVersion.
Import Semver.

Lemma findBestVersion_some versions range best :
  findBestVersion versions range = Some best ->
  exists l1 l2, matching versions range = (l1 ++ best :: l2)%list
    /\ Forall (fun y => compareVersions y best < 0) l1
    /\ Forall (fun y => compareVersions y best <= 0) l2.
Proof.
  unfold findBestVersion.
  destruct (Js.sort _ (matching versions range)) as [|h t] eqn:E; [discriminate|].
  destruct (String.eqb h ""); [discriminate|]. intros [= <-].
  destruct (sort_desc_head _ _ _ E) as (l1 & l2 & -> & H1 & H2).
  exists l1, l2. rewrite !List.Forall_forall. auto.
Qed.

Lemma findBestVersion_none versions range :
  existsb (String.eqb "") versions = false ->
  findBestVersion versions range = None -> matching versions range = [].
Proof.
  unfold findBestVersion. intros Hne.
  destruct (Js.sort _ (matching versions range)) as [|h t] eqn:E.
  - intros _. eapply sort_nil_inv; eauto.
  - destruct (String.eqb_spec h ""); [|discriminate]. subst h. exfalso.
    destruct (sort_desc_head _ _ _ E) as (l1 & l2 & Hm & _).
    assert (Hin : In "" versions).
    { assert (In "" (matching versions range)) as Hi
        by (rewrite Hm; apply in_or_app; right; left; reflexivity).
      unfold matching in Hi. apply filter_In in Hi. tauto. }
    assert (existsb (String.eqb "") versions = true) as Ht
      by (apply existsb_exists; exists ""; split; [assumption | reflexivity]).
    congruence.
Qed.

(** C3. Among candidate version strings none of which is the empty string,
    [findBestVersion] answers with a candidate that satisfies the range and
    that no satisfying candidate exceeds in the numeric major.minor.patch
    order; it answers [null] exactly when no candidate satisfies the range.
    On ["1.0.0"; "1.2.0"; "1.1.5"] and "^1.0.0" the answer is "1.2.0". *)
Theorem findBestVersion_highest (versions : list string) (range : string) :
  existsb (String.eqb "") versions = false ->
  match findBestVersion versions range with
  | Some best =>
      In best versions /\ satisfies best range = true
      /\ Forall (fun c => compareVersions c best <= 0) (matching versions range)
  | None => Forall (fun c => satisfies c range = false) versions
  end
  /\ findBestVersion ["1.0.0"; "1.2.0"; "1.1.5"] "^1.0.0" = Some "1.2.0".
Proof.
  intros Hne. split; [|reflexivity].
  destruct (findBestVersion versions range) as [best|] eqn:E.
  - destruct (findBestVersion_some _ _ _ E) as (l1 & l2 & Hm & H1 & H2).
    assert (Hin : In best (matching versions range))
      by (rewrite Hm; apply in_or_app; right; left; reflexivity).
    unfold matching in Hin. apply filter_In in Hin. destruct Hin as [Hin Hs].
    repeat split; auto. rewrite Hm. apply Forall_app. split.
    + eapply List.Forall_impl; [|exact H1]. simpl. intros. lia.
    + constructor; [|exact H2].
      rewrite compareVersions_lex. destruct (SemverSpec.triple best) as [[x0 x1] x2].
      unfold SemverSpec.lex3. rewrite !Z.eqb_refl. simpl. lia.
  - pose proof (findBestVersion_none _ _ Hne E) as Hm.
    apply List.Forall_forall. intros c Hc.
    destruct (satisfies c range) eqn:Hs; auto. exfalso.
    assert (In c (matching versions range)) as Hi by (apply filter_In; auto).
    rewrite Hm in Hi. destruct Hi.
Qed.

Lemma findBestVersion_highest_witness :
  existsb (String.eqb "") ["2.0.0"; "1.4.2"; "1.9.0"; "1.9.0-rc1"] = false
  /\ (match findBestVersion ["2.0.0"; "1.4.2"; "1.9.0"; "1.9.0-rc1"] "~1.9.0" with
      | Some best =>
          In best ["2.0.0"; "1.4.2"; "1.9.0"; "1.9.0-rc1"] /\ satisfies best "~1.9.0" = true
          /\ Forall (fun c => compareVersions c best <= 0)
               (matching ["2.0.0"; "1.4.2"; "1.9.0"; "1.9.0-rc1"] "~1.9.0")
      | None => Forall (fun c => satisfies c "~1.9.0" = false)
                  ["2.0.0"; "1.4.2"; "1.9.0"; "1.9.0-rc1"]
      end
      /\ findBestVersion ["1.0.0"; "1.2.0"; "1.1.5"] "^1.0.0" = Some "1.2.0").
Proof.
  split; [reflexivity|].
  apply (findBestVersion_highest ["2.0.0"; "1.4.2"; "1.9.0"; "1.9.0-rc1"] "~1.9.0").
  reflexivity.
Defined.

End FindBestVersion.

Section Splitting.

Lemma split_nonempty sep s : Js.split sep s <> [].
Proof.
  destruct s as [|c s]; simpl; [discriminate|].
  destruct (Ascii.eqb c sep); [discriminate|]. destruct (Js.split sep s); discriminate.
Qed.

Lemma split_app sep a b :
  Js.split sep (a ++ String sep b) = (Js.split sep a ++ Js.split sep b)%list.
Proof.
  induction a as [|c a IH]; simpl.
  - rewrite Ascii.eqb_refl. reflexivity.
  - destruct (Ascii.eqb c sep); [now rewrite IH|].
    rewrite IH. pose proof (split_nonempty sep a).
    destruct (Js.split sep a); [congruence | reflexivity].
Qed.

Lemma split_no_sep sep s :
  Js.all_chars (fun c => negb (Ascii.eqb c sep)) s = true -> Js.split sep s = [s].
Proof.
  induction s as [|c s IH]; simpl; [reflexivity|].
  intros H. apply andb_prop in H. destruct H as [Hc Hs].
  destruct (Ascii.eqb c sep); [discriminate|]. now rewrite IH.
Qed.

Lemma all_chars_impl (p q : ascii -> bool) s :
  (forall c, p c = true -> q c = true) -> Js.all_chars p s = true -> Js.all_chars q s = true.
Proof.
  intros Hpq. induction s as [|c s IH]; simpl; [reflexivity|].
  intros H. apply andb_prop in H. destruct H as [Hc Hs].
  now rewrite (Hpq _ Hc), IH.
Qed.

End Splitting.

Section Printing.
Import Semver SemverSpec.

Lemma digit_cases c :
  Js.is_digit c = true ->
  In c ["0"; "1"; "2"; "3"; "4"; "5"; "6"; "7"; "8"; "9"]%char.
Proof.
  destruct c as [[] [] [] [] [] [] [] []]; vm_compute; intros H;
    first [discriminate H | intuition congruence].
Qed.

Lemma uint_digits d : Js.all_chars Js.is_digit (NilEmpty.string_of_uint d) = true.
Proof. induction d; simpl; auto. Qed.

Lemma show_nat_digits n : Js.all_chars Js.is_digit (show_nat n) = true.
Proof.
  unfold show_nat, NilZero.string_of_uint.
  destruct (Nat.to_uint n) eqn:E; try reflexivity; rewrite <- E; apply uint_digits.
Qed.

Lemma show_nat_head n : exists c s, show_nat n = String c s /\ Js.is_digit c = true.
Proof.
  unfold show_nat, NilZero.string_of_uint.
  destruct (Nat.to_uint n); simpl; eauto.
Qed.

Lemma read_digits_uint d a :
  Js.read_digits (NilEmpty.string_of_uint d) (Some (Z.of_nat a))
  = Some (Z.of_nat (Nat.of_uint_acc d a)).
Proof.
  revert a. induction d; intros a; simpl; [reflexivity|..];
    rewrite <- IHd; do 2 f_equal; unfold Js.digit_val; rewrite Nat.tail_mul_spec;
    match goal with |- context [nat_of_ascii ?c] =>
      let v := eval vm_compute in (nat_of_ascii c) in change (nat_of_ascii c) with v
    end; lia.
Qed.

Lemma parseInt_show_nat n : Js.parseInt (show_nat n) = Some (Z.of_nat n).
Proof.
  rewrite <- (DecimalNat.Unsigned.of_to n) at 2.
  unfold show_nat, NilZero.string_of_uint, Nat.of_uint.
  destruct (Nat.to_uint n) as [|d|d|d|d|d|d|d|d|d|d]; try reflexivity;
    unfold Js.parseInt; simpl;
    match goal with |- Js.read_digits _ (Some ?z) = Some (Z.of_nat (Nat.of_uint_acc _ ?k)) =>
      change z with (Z.of_nat k) end; apply read_digits_uint.
Qed.

Lemma show_nat_inj a b : show_nat a = show_nat b -> a = b.
Proof.
  intros H. apply (f_equal Js.parseInt) in H. rewrite !parseInt_show_nat in H.
  injection H. lia.
Qed.

Lemma show_nat_eqb a b : String.eqb (show_nat a) (show_nat b) = Nat.eqb a b.
Proof.
  destruct (String.eqb_spec (show_nat a) (show_nat b)) as [E|E], (Nat.eqb_spec a b);
    auto; try (apply show_nat_inj in E); try subst; congruence.
Qed.

Lemma show_nat_no_dot n :
  Js.all_chars (fun c => negb (Ascii.eqb c ".")) (show_nat n) = true.
Proof.
  eapply all_chars_impl; [|apply show_nat_digits].
  intros c Hc. apply digit_cases in Hc. simpl in Hc.
  repeat destruct Hc as [<-|Hc]; try reflexivity. destruct Hc.
Qed.

Lemma split_show v :
  Js.split "." (show v) = [show_nat (major v); show_nat (minor v); show_nat (patch v)].
Proof.
  unfold show. change (?a ++ "." ++ ?b) with (a ++ String "." b).
  rewrite split_app. change (?a ++ "." ++ ?b) with (a ++ String "." b).
  rewrite split_app.
  rewrite !split_no_sep by apply show_nat_no_dot. reflexivity.
Qed.

Lemma triple_show v :
  triple (show v) = (Z.of_nat (major v), Z.of_nat (minor v), Z.of_nat (patch v)).
Proof. unfold triple. rewrite split_show. simpl. now rewrite !parseInt_show_nat. Qed.

End Printing.

Section Refinement.
Import Semver SemverSpec.

Lemma show_head v :
  exists c s, show v = String c s
    /\ In c ["0"; "1"; "2"; "3"; "4"; "5"; "6"; "7"; "8"; "9"]%char.
Proof.
  destruct (show_nat_head (major v)) as (c & s & E & Hc).
  exists c, (s ++ "." ++ show_nat (minor v) ++ "." ++ show_nat (patch v)).
  split; [unfold show; now rewrite E | now apply digit_cases].
Qed.

Lemma strip_v_show v : strip_v (show v) = show v.
Proof.
  destruct (show_head v) as (c & s & -> & Hc). simpl in Hc.
  repeat destruct Hc as [<-|Hc]; try reflexivity. destruct Hc.
Qed.

Lemma major_of_show v : major_of (show v) = Some (show_nat (major v)).
Proof. unfold major_of. now rewrite split_show. Qed.

Lemma minor_of_show v : minor_of (show v) = Some (show_nat (minor v)).
Proof. unfold minor_of. now rewrite split_show. Qed.

Lemma show_eqb a b : String.eqb (show a) (show b) = veq a b.
Proof.
  assert (Hinj : show a = show b ->
                 major a = major b /\ minor a = minor b /\ patch a = patch b).
  { intros E. apply (f_equal (Js.split ".")) in E. rewrite !split_show in E.
    injection E as E1 E2 E3. auto using show_nat_inj. }
  unfold veq, vcompare.
  destruct (String.eqb_spec (show a) (show b)) as [E|E].
  - destruct (Hinj E) as (-> & -> & ->). now rewrite !Nat.compare_refl.
  - destruct (Nat.compare_spec (major a) (major b)) as [E1| |]; auto.
    destruct (Nat.compare_spec (minor a) (minor b)) as [E2| |]; auto.
    destruct (Nat.compare_spec (patch a) (patch b)) as [E3| |]; auto.
    exfalso. apply E. destruct a, b; simpl in *; congruence.
Qed.

Lemma compare_show a b :
  compareVersions (show a) (show b)
  = lex3 (Z.of_nat (major a), Z.of_nat (minor a), Z.of_nat (patch a))
         (Z.of_nat (major b), Z.of_nat (minor b), Z.of_nat (patch b)).
Proof. now rewrite compareVersions_lex, !triple_show. Qed.

Ltac order_cases a b :=
  rewrite compare_show; unfold lex3, vle, vlt, vcompare;
  destruct (Nat.compare_spec (major a) (major b));
  destruct (Nat.compare_spec (minor a) (minor b));
  destruct (Nat.compare_spec (patch a) (patch b));
  repeat match goal with |- context [Z.eqb ?x ?y] => destruct (Z.eqb_spec x y) end;
  simpl; lia.

Lemma show_ge v b : (0 <=? compareVersions (show v) (show b)) = vle b v.
Proof.
  destruct (Z.leb_spec 0 (compareVersions (show v) (show b))) as [H|H];
    revert H; order_cases b v.
Qed.

Lemma show_gt v b : (0 <? compareVersions (show v) (show b)) = vlt b v.
Proof.
  destruct (Z.ltb_spec 0 (compareVersions (show v) (show b))) as [H|H];
    revert H; order_cases b v.
Qed.

Lemma show_le v b : (compareVersions (show v) (show b) <=? 0) = vle v b.
Proof.
  destruct (Z.leb_spec (compareVersions (show v) (show b)) 0) as [H|H];
    revert H; order_cases v b.
Qed.

Lemma show_lt v b : (compareVersions (show v) (show b) <? 0) = vlt v b.
Proof.
  destruct (Z.ltb_spec (compareVersions (show v) (show b)) 0) as [H|H];
    revert H; order_cases v b.
Qed.

Lemma satisfies_caret version base :
  satisfies version (String "^" base)
  = same (major_of base) (major_of (strip_v version))
    && (0 <=? compareVersions (strip_v version) base).
Proof. reflexivity. Qed.

Lemma satisfies_tilde version base :
  satisfies version (String "~" base)
  = same (major_of base) (major_of (strip_v version))
    && same (minor_of base) (minor_of (strip_v version))
    && (0 <=? compareVersions (strip_v version) base).
Proof. reflexivity. Qed.

Lemma satisfies_ge version base :
  satisfies version (String ">" (String "=" base))
  = (0 <=? compareVersions (strip_v version) base).
Proof. reflexivity. Qed.

Lemma satisfies_le version base :
  satisfies version (String "<" (String "=" base))
  = (compareVersions (strip_v version) base <=? 0).
Proof. reflexivity. Qed.

Lemma satisfies_gt version b :
  satisfies version (String ">" (show b))
  = (0 <? compareVersions (strip_v version) (show b)).
Proof.
  destruct (show_head b) as (c & s & -> & Hc). simpl in Hc.
  repeat destruct Hc as [<-|Hc]; try reflexivity. destruct Hc.
Qed.

Lemma satisfies_lt version b :
  satisfies version (String "<" (show b))
  = (compareVersions (strip_v version) (show b) <? 0).
Proof.
  destruct (show_head b) as (c & s & -> & Hc). simpl in Hc.
  repeat destruct Hc as [<-|Hc]; try reflexivity. destruct Hc.
Qed.

Lemma satisfies_exact version b :
  satisfies version (show b) = String.eqb (strip_v version) (show b).
Proof.
  destruct (show_head b) as (c & s & -> & Hc). simpl in Hc.
  repeat destruct Hc as [<-|Hc]; try reflexivity. destruct Hc.
Qed.

Lemma satisfies_refines v r : satisfies (show v) (show_range r) = meaning v r.
Proof.
  destruct r as [| |b|b|b|b|b|b|b]; cbn [show_range meaning];
    repeat first
      [ progress change (String.append (String ?c ?s) ?t) with (String c (String.append s t))
      | progress change (String.append EmptyString ?t) with t ];
    try reflexivity.
  - now rewrite satisfies_exact, strip_v_show, show_eqb.
  - rewrite satisfies_caret, strip_v_show, !major_of_show, show_ge. simpl.
    now rewrite show_nat_eqb, Nat.eqb_sym.
  - rewrite satisfies_tilde, strip_v_show, !major_of_show, !minor_of_show, show_ge.
    simpl. now rewrite !show_nat_eqb, (Nat.eqb_sym (major b)), (Nat.eqb_sym (minor b)).
  - now rewrite satisfies_ge, strip_v_show, show_ge.
  - now rewrite satisfies_gt, strip_v_show, show_gt.
  - now rewrite satisfies_le, strip_v_show, show_le.
  - now rewrite satisfies_lt, strip_v_show, show_lt.
Qed.

(** C4. [satisfies] is a function of its two arguments (total and
    deterministic by construction) and implements the range grammar: on
    every well-formed version and range it agrees with the meaning the
    specification gives ([*] and [latest] always true; exact equality;
    caret: same major and not below the base; tilde: same major and minor
    and not below the base; the four comparison operators), all under the
    numeric major.minor.patch order; on arbitrary strings the order it uses
    is the lexicographic one on the three numbers read off the string, a
    non-numeric component reading as 0.  The two instances of the
    specification hold. *)
Theorem satisfies_implements_grammar :
  (forall v r, satisfies (show v) (show_range r) = meaning v r)
  /\ (forall version, satisfies version "*" = true /\ satisfies version "latest" = true)
  /\ (forall a b, compareVersions a b = lex3 (triple a) (triple b))
  /\ (forall s, Js.parseInt s = None -> Js.or_zero (Js.parseInt s) = 0)
  /\ triple "1.x.3" = (1, 0, 3)
  /\ satisfies "4.17.21" "^4.17.0" = true
  /\ satisfies "5.0.0" "^4.17.0" = false.
Proof.
  split; [exact satisfies_refines|].
  split; [intros; split; reflexivity|].
  split; [exact compareVersions_lex|].
  split; [intros s ->; reflexivity|].
  repeat split; reflexivity.
Qed.

End Refinement.

Section Ties.
Import Semver SemverSpec.

Lemma triple_ignores_rest a extra :
  match Js.split "." a with
  | _ :: _ :: _ :: _ => triple (a ++ "." ++ extra) = triple a
  | _ => True
  end.
Proof.
  destruct (Js.split "." a) as [|c0 [|c1 [|c2 rest]]] eqn:E; auto.
  unfold triple. change (a ++ "." ++ extra) with (a ++ String "." extra).
  rewrite split_app, E. reflexivity.
Qed.

(** C10. [compareVersions] is the lexicographic comparison of the first
    three dot-separated components, each read by [parseInt(_, 10) || 0] with
    a missing component as 0; a fourth or later component changes nothing.
    So "1.2.3", "1.2.3-beta" and "1.2.3.9" all compare equal, and
    [findBestVersion] settles a tie by position: its answer is the first of
    the maximal satisfying candidates, which may be the pre-release
    string. *)
Theorem compareVersions_first_three_components :
  (forall a b, compareVersions a b = lex3 (triple a) (triple b))
  /\ (forall a extra,
        match Js.split "." a with
        | _ :: _ :: _ :: _ => triple (a ++ "." ++ extra) = triple a
        | _ => True
        end)
  /\ triple "7" = (7, 0, 0) /\ triple "1.x" = (1, 0, 0)
  /\ compareVersions "1.2.3" "1.2.3-beta" = 0
  /\ compareVersions "1.2.3-beta" "1.2.3.9" = 0
  /\ compareVersions "1.2.3" "1.2.3.9" = 0
  /\ (forall versions range,
        match findBestVersion versions range with
        | Some best =>
            exists l1 l2, matching versions range = (l1 ++ best :: l2)%list
              /\ Forall (fun y => compareVersions y best < 0) l1
              /\ Forall (fun y => compareVersions y best <= 0) l2
        | None => True
        end)
  /\ findBestVersion ["1.2.3-beta"; "1.2.3"; "1.2.3.9"] "^1.2.0" = Some "1.2.3-beta"
  /\ findBestVersion ["1.2.3"; "1.2.3-beta"; "1.2.3.9"] "^1.2.0" = Some "1.2.3".
Proof.
  split; [exact compareVersions_lex|].
  split; [exact triple_ignores_rest|].
  do 5 (split; [reflexivity|]).
  split; [|split; reflexivity].
  intros versions range.
  destruct (findBestVersion versions range) as [best|] eqn:E; auto.
  now apply findBestVersion_some.
Qed.

End Ties.

(** ** The dictionary selector *)

Section DictionaryFacts.
Import Dictionary.

Example all_patterns_parse : forallb Regex.well_formed all_patterns = true.
Proof. vm_compute. reflexivity. Qed.

(** The repository's tests of [detectDictionaryType], run on the model. *)
Example detects_react : detectDictionaryType (Text test_reactCode) = react.
Proof. vm_compute. reflexivity. Qed.
Example detects_css : detectDictionaryType (Text test_css) = css.
Proof. vm_compute. reflexivity. Qed.
Example detects_json : detectDictionaryType (Text test_json) = json.
Proof. vm_compute. reflexivity. Qed.
Example detects_python : detectDictionaryType (Text test_pythonCode) = python.
Proof. vm_compute. reflexivity. Qed.
Example detects_rust : detectDictionaryType (Text test_rustCode) = rust.
Proof. vm_compute. reflexivity. Qed.
Example detects_go : detectDictionaryType (Text test_goCode) = go.
Proof. vm_compute. reflexivity. Qed.
Example detects_java : detectDictionaryType (Text test_javaCode) = java.
Proof. vm_compute. reflexivity. Qed.
Example defaults_to_typescript : detectDictionaryType (Text test_generic) = typescript.
Proof. vm_compute. reflexivity. Qed.
Example handles_buffer : detectDictionaryType (Buffer test_bufferCode) = react.
Proof. vm_compute. reflexivity. Qed.

(** The input of the Vue test: its [import] line is indented, so the
    pattern for an [import ... from] at the start of a line does not match;
    [console.log(] is
    the one strong pattern and [const x =] the one weak pattern that do,
    which makes two where three are asked, and no other category accepts
    the text. *)
Example vue_test_input :
  scan 2 strongJsPatterns test_vueCode 0 = Some 1%nat
  /\ scan 3 weakJsPatterns test_vueCode 1 = Some 2%nat
  /\ isVue test_vueCode = true
  /\ detectDictionaryType (Text test_vueCode) = typescript.
Proof. vm_compute. repeat split; reflexivity. Qed.

Lemma python_only_after_js content :
  detectDictionaryType content = python ->
  isMinifiedJs (text_of content) = false
  /\ isJavaScriptOrTypeScript (text_of content) = false
  /\ isPython (text_of content) = true.
Proof.
  unfold detectDictionaryType.
  destruct (isHtml _); [discriminate|]. destruct (isCss _); [discriminate|].
  destruct (isJson _); [discriminate|]. destruct (isMinifiedJs _); [discriminate|].
  destruct (isJavaScriptOrTypeScript _).
  { destruct (isVue _); [discriminate|]. destruct (isReact _); discriminate. }
  destruct (isPython _); [auto|].
  destruct (isRust _); [discriminate|]. destruct (isGo _); [discriminate|].
  destruct (isJava _); [discriminate|]. destruct (isCpp _); [discriminate|].
  destruct (isC _); discriminate.
Qed.

Lemma fallback_is_typescript content :
  no_category (text_of content) = true -> detectDictionaryType content = typescript.
Proof.
  unfold no_category, detectDictionaryType. intros H. apply negb_true_iff in H.
  repeat (apply orb_false_elim in H; destruct H as [H ?]).
  repeat match goal with E : _ = false |- _ => rewrite E; clear E end. reflexivity.
Qed.

(** C9, as amended. The minified-JS test and the JavaScript/TypeScript test
    (which is where the Vue and React markers are looked at) come before
    the Python test: an input that either of them accepts is never
    classified [python], whatever Python syntax it holds, and [python] is
    answered only when both have rejected the input.  When no category
    accepts the input the answer is the fallback, [typescript]; the
    function always answers. *)
Theorem js_detection_precedes_python (content : Content) :
  isMinifiedJs (text_of content) || isJavaScriptOrTypeScript (text_of content) = true ->
  detectDictionaryType content <> python
  /\ (forall other,
        detectDictionaryType other = python ->
        isMinifiedJs (text_of other) = false
        /\ isJavaScriptOrTypeScript (text_of other) = false
        /\ isPython (text_of other) = true)
  /\ (forall other,
        no_category (text_of other) = true -> detectDictionaryType other = typescript).
Proof.
  intros H. split; [|split; [exact python_only_after_js | exact fallback_is_typescript]].
  intros E. apply python_only_after_js in E. destruct E as (E1 & E2 & _).
  rewrite E1, E2 in H. discriminate.
Qed.

Lemma js_detection_precedes_python_witness :
  isMinifiedJs (text_of (Text two_js_lines_then_def))
  || isJavaScriptOrTypeScript (text_of (Text two_js_lines_then_def)) = true
  /\ (detectDictionaryType (Text two_js_lines_then_def) <> python
      /\ (forall other,
            detectDictionaryType other = python ->
            isMinifiedJs (text_of other) = false
            /\ isJavaScriptOrTypeScript (text_of other) = false
            /\ isPython (text_of other) = true)
      /\ (forall other,
            no_category (text_of other) = true -> detectDictionaryType other = typescript)).
Proof.
  split; [vm_compute; reflexivity|].
  apply (js_detection_precedes_python (Text two_js_lines_then_def)).
  vm_compute. reflexivity.
Defined.

(** C9 as stated fails: a snippet with the line [import x from 'y'] and the
    Python function [def f():] matches one strong JavaScript pattern only,
    where two are asked (or one with two weak ones), so the Python test
    decides, and accepts. *)
Lemma import_and_def_is_python :
  Regex.test (Regex.rx_m "^import\s+.*\s+from\s+['\x22]") import_then_def = true
  /\ Regex.test (Regex.rx_m "^def\s+\w+\s*\([^)]*\)\s*:") import_then_def = true
  /\ scan 2 strongJsPatterns import_then_def 0 = Some 1%nat
  /\ scan 3 weakJsPatterns import_then_def 1 = Some 1%nat
  /\ isPython import_then_def = true
  /\ detectDictionaryType (Text import_then_def) = python.
Proof. vm_compute. repeat split; reflexivity. Qed.

End DictionaryFacts.

(** ** Dependency resolution *)

Section ResolverFacts.
Import Registry Resolver.

Context (NUM_CPUS : positive) (registry : string -> option Metadata).

Scheme task_mut := Induction for task Sort Prop
  with call_mut := Induction for call Sort Prop
  with tasks_mut := Induction for tasks Sort Prop.
Combined Scheme task_call_tasks_ind from task_mut, call_mut, tasks_mut.

Lemma start_task_resolved st e : resolved (fst (start_task st e)) = resolved st.
Proof. destruct e as [n r]. unfold start_task. now destruct (has n (resolved st)). Qed.

Lemma start_batch_resolved st batch : resolved (fst (start_batch st batch)) = resolved st.
Proof.
  revert st. induction batch as [|e batch IH]; intros st; simpl; [reflexivity|].
  pose proof (start_task_resolved st e) as H1.
  destruct (start_task st e) as [st1 t]. pose proof (IH st1) as H2.
  destruct (start_batch st1 batch) as [st2 ts]. simpl in *. congruence.
Qed.

Lemma advance_resolved st depth later :
  resolved (fst (advance st depth later)) = resolved st.
Proof.
  revert st. induction later as [|b later IH]; intros st; simpl; [reflexivity|].
  pose proof (start_batch_resolved st b) as H1.
  destruct (start_batch st b) as [st1 ts]. simpl in H1.
  destruct (all_finished ts); simpl; [rewrite IH|]; congruence.
Qed.

Lemma enter_resolved st deps depth m :
  enter NUM_CPUS st deps depth = inr m -> resolved (fst m) = resolved st.
Proof.
  unfold enter. destruct (50 <? depth)%nat; [discriminate|].
  intros [= <-]. apply advance_resolved.
Qed.

(** The top-level call, which [install] makes at depth 0, is never
    rejected: the depth test is the only [throw] outside a [try]. *)
Lemma enter_depth_0 st deps : exists m, enter NUM_CPUS st deps 0 = inr m.
Proof. unfold enter. simpl. eauto. Qed.

Section Invariant.

(** A property of the resolved map that every [resolved.set(name, pkg)]
    with [pkg.name = name] preserves is an invariant of the machine. *)
Context (P : list (string * ResolvedPackage) -> Prop).
Context (P_set : forall l pkg, P l -> P (set (name pkg) pkg l)).

Lemma on_metadata_inv st depth n range :
  P (resolved st) -> P (resolved (fst (on_metadata NUM_CPUS registry st depth n range))).
Proof.
  intros HP. unfold on_metadata.
  destruct (registry n) as [md|]; [|exact HP].
  destruct (Semver.findBestVersion _ range) as [best|]; [|exact HP].
  destruct (assoc best _) as [vd|]; [|exact HP].
  match goal with |- context [map_set n ?p st] => set (pkg := p) end.
  assert (HP1 : P (resolved (map_set n pkg st))) by (apply (P_set _ pkg HP)).
  destruct (pkg_dependencies pkg) as [|d ds] eqn:Ed; [exact HP1|].
  destruct (enter NUM_CPUS (map_set n pkg st) (d :: ds) (S depth)) as [e|[st2 c]] eqn:E.
  - exact HP1.
  - apply enter_resolved in E. simpl in E.
    destruct c; simpl; rewrite E; exact HP1.
Qed.

Lemma deliver_inv :
  (forall t depth k st st' t',
      deliver_task NUM_CPUS registry depth k t st = inr (st', t') ->
      P (resolved st) -> P (resolved st'))
  /\ (forall c : call, match c with Call d batch later =>
        forall k st st' batch',
          deliver_tasks NUM_CPUS registry d k batch st = inr (st', batch') ->
          P (resolved st) -> P (resolved st') end)
  /\ (forall ts depth k st st' ts',
      deliver_tasks NUM_CPUS registry depth k ts st = inr (st', ts') ->
      P (resolved st) -> P (resolved st')).
Proof.
  apply (task_call_tasks_ind
    (fun t => forall depth k st st' t',
       deliver_task NUM_CPUS registry depth k t st = inr (st', t') ->
       P (resolved st) -> P (resolved st'))
    (fun c => match c with Call d batch later =>
       forall k st st' batch',
         deliver_tasks NUM_CPUS registry d k batch st = inr (st', batch') ->
         P (resolved st) -> P (resolved st') end)
    (fun ts => forall depth k st st' ts',
       deliver_tasks NUM_CPUS registry depth k ts st = inr (st', ts') ->
       P (resolved st) -> P (resolved st'))).
  - (* Fetching *)
    intros n range depth [|k] st st' t'; simpl; [|discriminate].
    intros E HP. pose proof (on_metadata_inv st depth n range HP) as H.
    destruct (on_metadata NUM_CPUS registry st depth n range). now injection E as <- <-.
  - (* Nested *)
    intros [d batch later] IH depth k st st' t'. simpl in *.
    destruct (deliver_tasks NUM_CPUS registry d k batch st) as [k'|[st1 batch']] eqn:E;
      [discriminate|].
    intros H HP. pose proof (IH _ _ _ _ E HP) as HP1.
    destruct (all_finished batch').
    + pose proof (advance_resolved st1 d later) as Ha.
      destruct (advance st1 d later) as [st2 [c|]]; simpl in Ha;
        injection H as <- <-; now rewrite Ha.
    + now injection H as <- <-.
  - (* Finished *)
    intros depth k st st' t'; simpl; discriminate.
  - (* Call *)
    intros d batch IH later. intros k st st' batch'. apply IH.
  - (* TNil *)
    intros depth k st st' ts'; simpl; discriminate.
  - (* TCons *)
    intros t IHt ts IHts depth k st st' ts'. simpl.
    destruct (deliver_task NUM_CPUS registry depth k t st) as [k'|[st1 t1]] eqn:E1.
    + destruct (deliver_tasks NUM_CPUS registry depth k' ts st) as [k''|[st1 ts1]] eqn:E2;
        [discriminate|].
      intros [= <- <-]. eauto.
    + intros [= <- <-]. eauto.
Qed.

Lemma step_inv m k : P (resolved (fst m)) -> P (resolved (fst (step NUM_CPUS registry m k))).
Proof.
  destruct m as [st [[d batch later]|]]; simpl; auto.
  destruct (deliver_tasks NUM_CPUS registry d k batch st) as [k'|[st1 batch']] eqn:E; auto.
  intros HP. pose proof (proj2 (proj2 deliver_inv) _ _ _ _ _ _ E HP) as HP1.
  destruct (all_finished batch'); simpl; auto.
  now rewrite advance_resolved.
Qed.

Lemma run_inv schedule m :
  P (resolved (fst m)) -> P (resolved (fst (run NUM_CPUS registry schedule m))).
Proof.
  revert m. induction schedule as [|k schedule IH]; intros m HP; simpl; auto.
  apply IH. now apply step_inv.
Qed.

Lemma resolveDependencies_inv deps st depth schedule m :
  resolveDependencies NUM_CPUS registry deps st depth schedule = inr m ->
  P (resolved st) -> P (resolved (fst m)).
Proof.
  unfold resolveDependencies.
  destruct (enter NUM_CPUS st deps depth) as [e|m0] eqn:E; [discriminate|].
  intros [= <-] HP. apply run_inv. apply enter_resolved in E. now rewrite E.
Qed.

End Invariant.

End ResolverFacts.

Section DepthLimit.
Import Registry Resolver.

Lemma resolveDependencies_depth_0 NUM_CPUS registry deps st schedule :
  exists m, resolveDependencies NUM_CPUS registry deps st 0 schedule = inr m.
Proof. unfold resolveDependencies. simpl. eauto. Qed.

(** C1 (the code departs from the claim). The depth test throws inside the
    [try] of the task that made the nested call, so the error ends as that
    task's warning.  At depth 0, where [install] calls, nothing is thrown,
    whatever the registry and the schedule.  On the chain
    p0 -> p1 -> ... the call for p51 is made at depth 51 and throws: no
    request for p51 goes out, p0 to p50 stay resolved, the warning names
    p50, and [install] completes and writes a lockfile of 51 packages. *)
Theorem depth_limit_ends_as_warning :
  (forall NUM_CPUS registry deps st schedule,
     exists m, resolveDependencies NUM_CPUS registry deps st 0 schedule = inr m)
  /\ (exists st,
        resolveDependencies 1 (chain_registry 60) [("p0", "^1.0.0")] empty_state 0
          (repeat 0%nat 51) = inr (st, None)
        /\ keys (resolved st) = map chain_name (seq 0 51)
        /\ requests (trace st) = map chain_name (seq 0 51)
        /\ warnings (trace st) = [WarnFailed "p50" DepthExceeded])
  /\ match Install.bench_install (chain_registry 60)
             (Install.fresh_project [("p0", "^1.0.0")]) Install.default_options
             (repeat 0%nat 51) with
     | Install.Done (w, r) =>
         keys (Install.resolvedPackages r) = map chain_name (seq 0 51)
         /\ Install.downloadCount r = 51%nat
         /\ (length <$> (Install.lk_packages <$> Install.loadLockfile w)) = Some 51%nat
     | _ => False
     end.
Proof.
  split; [exact resolveDependencies_depth_0|]. split.
  - eexists. split; [vm_compute; reflexivity|]. repeat split; vm_compute; reflexivity.
  - vm_compute. repeat split; reflexivity.
Qed.

(** C2 (the code departs from the claim). [resolved.has(name)] is tested
    before the request goes out and not again when the answer arrives.
    With [a] and [b] requested in one batch, the answer for [a] arriving
    first sends a second request for [b] (for [a]'s range ^2.0.0); the
    first answer for [b] resolves it to 1.0.0 and the second replaces that
    entry by 2.0.0. *)
Theorem resolved_entry_replaced :
  exists st1 c st2,
    resolveDependencies 1 race_registry [("a", "*"); ("b", "^1.0.0")] empty_state 0
      [0; 1]%nat = inr (st1, Some c)
    /\ map (fun e => (fst e, version (snd e))) (resolved st1) = [("a", "1.0.0"); ("b", "1.0.0")]
    /\ resolveDependencies 1 race_registry [("a", "*"); ("b", "^1.0.0")] empty_state 0
         [0; 1; 0]%nat = inr (st2, None)
    /\ map (fun e => (fst e, version (snd e))) (resolved st2) = [("a", "1.0.0"); ("b", "2.0.0")]
    /\ trace st2 = [Request "a"; Request "b"; MapSet "a" "1.0.0"; Request "b";
                    MapSet "b" "1.0.0"; MapSet "b" "2.0.0"].
Proof.
  do 3 eexists. split; [vm_compute; reflexivity|].
  split; [vm_compute; reflexivity|]. split; [vm_compute; reflexivity|].
  split; vm_compute; reflexivity.
Qed.

End DepthLimit.

(** ** Every resolution settles *)

Section Chunks.

Lemma chunks_upto_concat {A} fuel size (l : list A) :
  (0 < size)%nat -> (length l <= fuel)%nat ->
  concat (Resolver.chunks_upto fuel size l) = l.
Proof.
  intros Hs. revert l. induction fuel as [|fuel IH]; intros l Hl.
  - destruct l; [reflexivity|simpl in Hl; lia].
  - destruct l as [|x l]; [reflexivity|].
    cbn [Resolver.chunks_upto concat]. rewrite IH.
    + apply firstn_skipn.
    + rewrite length_skipn. simpl in *. lia.
Qed.

End Chunks.

Section Settles.
Import Registry Resolver Budget.

Context (NUM_CPUS : positive) (registry : string -> option Metadata).

#[local] Abbreviation budget := (budget registry).
#[local] Abbreviation weight_task := (weight_task registry).
#[local] Abbreviation weight_call := (weight_call registry).
#[local] Abbreviation weight_tasks := (weight_tasks registry).

Lemma budget_cons levels e deps :
  budget levels (e :: deps)
  = (S (match levels with
        | O => O
        | S l => budget l (deps_of registry (fst e) (snd e))
        end) + budget levels deps)%nat.
Proof. destruct levels; reflexivity. Qed.

Lemma budget_app levels a b : budget levels (a ++ b) = (budget levels a + budget levels b)%nat.
Proof.
  induction a as [|e a IH]; [now destruct levels|].
  change ((e :: a) ++ b)%list with (e :: (a ++ b))%list. rewrite !budget_cons, IH. lia.
Qed.

Lemma budget_concat levels (batches : list Deps) :
  list_sum (map (budget levels) batches) = budget levels (concat batches).
Proof.
  induction batches as [|b batches IH]; [now destruct levels|].
  change (list_sum (map (budget levels) (b :: batches)))
    with (budget levels b + list_sum (map (budget levels) batches))%nat.
  cbn [concat]. now rewrite budget_app, IH.
Qed.

Lemma budget_filter levels f deps : (budget levels (List.filter f deps) <= budget levels deps)%nat.
Proof.
  induction deps as [|e deps IH]; [reflexivity|].
  cbn [List.filter]. destruct (f e); rewrite !budget_cons; lia.
Qed.

Lemma batchSize_pos : (0 < batchSize NUM_CPUS)%nat.
Proof. unfold batchSize. lia. Qed.

Lemma start_batch_weight depth batch : forall st,
  (weight_tasks depth (snd (start_batch st batch)) <= budget (50 - depth) batch)%nat
  /\ waiting_tasks (snd (start_batch st batch)) = true.
Proof.
  induction batch as [|[n r] batch IH]; intros st; [split; [now destruct (50 - depth)%nat | reflexivity]|].
  cbn [start_batch]. unfold start_task.
  destruct (has n (resolved st)).
  - destruct (IH st) as [H1 H2]. destruct (start_batch st batch) as [st2 ts].
    cbn [snd] in *. rewrite budget_cons. cbn [Budget.weight_tasks Budget.weight_task waiting_tasks waiting_task].
    split; [lia | exact H2].
  - destruct (IH (emit (Request n) st)) as [H1 H2].
    destruct (start_batch (emit (Request n) st) batch) as [st2 ts].
    cbn [snd] in *. rewrite budget_cons.
    cbn [Budget.weight_tasks Budget.weight_task waiting_tasks waiting_task fst snd].
    split; [lia | exact H2].
Qed.

Lemma advance_weight depth later : forall st,
  (weight registry (advance st depth later) <= list_sum (map (budget (50 - depth)) later))%nat
  /\ waiting (advance st depth later) = true.
Proof.
  induction later as [|batch later IH]; intros st; [split; [apply Nat.le_0_l | reflexivity]|].
  cbn [advance]. destruct (start_batch_weight depth batch st) as [H1 H2].
  destruct (start_batch st batch) as [st1 ts]. cbn [snd] in H1, H2.
  destruct (all_finished ts) eqn:Ea.
  - destruct (IH st1) as [H3 H4].
    change (list_sum (map (budget (50 - depth)) (batch :: later)))
      with (budget (50 - depth) batch + list_sum (map (budget (50 - depth)) later))%nat.
    split; [lia | exact H4].
  - change (list_sum (map (budget (50 - depth)) (batch :: later)))
      with (budget (50 - depth) batch + list_sum (map (budget (50 - depth)) later))%nat.
    unfold weight, waiting. cbn [snd Budget.weight_call waiting_call].
    rewrite Ea, H2. split; [lia | reflexivity].
Qed.

Lemma enter_weight st deps depth m :
  enter NUM_CPUS st deps depth = inr m ->
  (weight registry m <= budget (50 - depth) deps)%nat /\ waiting m = true.
Proof.
  unfold enter. destruct (50 <? depth)%nat; [discriminate|]. intros [= <-].
  destruct (advance_weight depth
              (chunks (batchSize NUM_CPUS)
                 (List.filter (fun e => negb (has (fst e) (resolved st))) deps)) st)
    as [H1 H2].
  split; [|exact H2]. etrans; [exact H1|].
  rewrite budget_concat. unfold chunks.
  rewrite chunks_upto_concat by (auto using batchSize_pos). apply budget_filter.
Qed.

(** The answer to a request leaves less to request. *)
Lemma on_metadata_weight st depth n range :
  (weight_task depth (snd (on_metadata NUM_CPUS registry st depth n range))
   < weight_task depth (Fetching n range))%nat
  /\ waiting_task (snd (on_metadata NUM_CPUS registry st depth n range)) = true.
Proof.
  cbn [Budget.weight_task]. unfold on_metadata, deps_of.
  destruct (registry n) as [md|]; [|split; [cbn; lia | reflexivity]].
  cbv zeta.
  destruct (Semver.findBestVersion _ range) as [best|]; [|split; [cbn; lia | reflexivity]].
  destruct (assoc best _) as [vd|]; [|split; [cbn; lia | reflexivity]].
  cbn [pkg_dependencies].
  destruct (default [] (dependencies vd)) as [|d ds] eqn:Ed; [split; [cbn; lia | reflexivity]|].
  match goal with |- context [enter NUM_CPUS ?s (d :: ds) (S depth)] => set (st1 := s) end.
  destruct (enter NUM_CPUS st1 (d :: ds) (S depth)) as [e|[st2 [c|]]] eqn:E;
    [split; [cbn; lia | reflexivity] | | split; [cbn; lia | reflexivity]].
  pose proof (enter_weight _ _ _ _ E) as [H1 H2].
  unfold weight, waiting in H1, H2. cbn [snd] in H1, H2.
  unfold enter in E. destruct (50 <? S depth)%nat eqn:El; [discriminate|].
  apply Nat.ltb_ge in El.
  replace (50 - depth)%nat with (S (50 - S depth)) by lia.
  cbn [snd Budget.weight_task waiting_task]. split; [lia | exact H2].
Qed.

Lemma deliver_task_nested depth k d batch later st :
  deliver_task NUM_CPUS registry depth k (Nested (Call d batch later)) st
  = match deliver_tasks NUM_CPUS registry d k batch st with
    | inl k' => inl k'
    | inr (st1, batch') =>
        if all_finished batch' then
          match advance st1 d later with
          | (st2, None) => inr (st2, Finished)
          | (st2, Some c) => inr (st2, Nested c)
          end
        else inr (st1, Nested (Call d batch' later))
    end.
Proof. reflexivity. Qed.

Lemma deliver_tasks_cons depth k t ts st :
  deliver_tasks NUM_CPUS registry depth k (TCons t ts) st
  = match deliver_task NUM_CPUS registry depth k t st with
    | inr (st1, t') => inr (st1, TCons t' ts)
    | inl k' =>
        match deliver_tasks NUM_CPUS registry depth k' ts st with
        | inr (st1, ts'') => inr (st1, TCons t ts'')
        | inl k'' => inl k''
        end
    end.
Proof. reflexivity. Qed.

Lemma deliver_weight :
  (forall t depth st,
      waiting_task t = true -> t <> Finished ->
      exists st' t', deliver_task NUM_CPUS registry depth 0 t st = inr (st', t')
                     /\ (weight_task depth t' < weight_task depth t)%nat
                     /\ waiting_task t' = true)
  /\ (forall c : call, match c with Call d batch later =>
        forall st,
          waiting_tasks batch = true -> all_finished batch = false ->
          exists st' batch', deliver_tasks NUM_CPUS registry d 0 batch st = inr (st', batch')
                     /\ (weight_tasks d batch' < weight_tasks d batch)%nat
                     /\ waiting_tasks batch' = true end)
  /\ (forall ts depth st,
      waiting_tasks ts = true -> all_finished ts = false ->
      exists st' ts', deliver_tasks NUM_CPUS registry depth 0 ts st = inr (st', ts')
                     /\ (weight_tasks depth ts' < weight_tasks depth ts)%nat
                     /\ waiting_tasks ts' = true).
Proof.
  apply (task_call_tasks_ind
    (fun t => forall depth st,
       waiting_task t = true -> t <> Finished ->
       exists st' t', deliver_task NUM_CPUS registry depth 0 t st = inr (st', t')
                      /\ (weight_task depth t' < weight_task depth t)%nat
                      /\ waiting_task t' = true)
    (fun c => match c with Call d batch later =>
       forall st,
         waiting_tasks batch = true -> all_finished batch = false ->
         exists st' batch', deliver_tasks NUM_CPUS registry d 0 batch st = inr (st', batch')
                      /\ (weight_tasks d batch' < weight_tasks d batch)%nat
                      /\ waiting_tasks batch' = true end)
    (fun ts => forall depth st,
       waiting_tasks ts = true -> all_finished ts = false ->
       exists st' ts', deliver_tasks NUM_CPUS registry depth 0 ts st = inr (st', ts')
                      /\ (weight_tasks depth ts' < weight_tasks depth ts)%nat
                      /\ waiting_tasks ts' = true)).
  - (* Fetching *)
    intros n range depth st _ _. cbn [deliver_task].
    destruct (on_metadata_weight st depth n range) as [H1 H2].
    destruct (on_metadata NUM_CPUS registry st depth n range) as [st' t'].
    exists st', t'. auto.
  - (* Nested *)
    intros [d batch later] IH depth st Hw _. cbn [waiting_task waiting_call] in Hw.
    apply andb_prop in Hw. destruct Hw as [Hnf Hw]. apply negb_true_iff in Hnf.
    destruct (IH st Hw Hnf) as (st1 & batch' & E & Hlt & Hw').
    rewrite deliver_task_nested, E. cbn [Budget.weight_task Budget.weight_call].
    destruct (all_finished batch') eqn:Ea.
    + destruct (advance_weight d later st1) as [H1 H2].
      destruct (advance st1 d later) as [st2 [c|]]; unfold weight, waiting in H1, H2;
        cbn [snd] in H1, H2.
      * exists st2, (Nested c). split; [reflexivity|].
        cbn [Budget.weight_task waiting_task]. split; [lia | exact H2].
      * exists st2, Finished. split; [reflexivity|].
        cbn [Budget.weight_task waiting_task]. split; [lia | reflexivity].
    + exists st1, (Nested (Call d batch' later)). split; [reflexivity|].
      cbn [Budget.weight_task Budget.weight_call waiting_task waiting_call].
      rewrite Ea, Hw'. split; [lia | reflexivity].
  - (* Finished *)
    intros depth st _ H. contradiction.
  - (* Call *)
    intros d batch IH later st. apply IH.
  - (* TNil *)
    intros depth st _ H. discriminate.
  - (* TCons *)
    intros t IHt ts IHts depth st Hw Hnf. cbn [waiting_tasks] in Hw.
    apply andb_prop in Hw. destruct Hw as [Hwt Hws].
    assert (Hcase : t = Finished \/ t <> Finished)
      by (destruct t; [right; discriminate | right; discriminate | now left]).
    destruct Hcase as [->|Hne].
    + cbn [all_finished] in Hnf.
      destruct (IHts depth st Hws Hnf) as (st' & ts' & E & Hlt & Hw').
      rewrite deliver_tasks_cons.
      change (deliver_task NUM_CPUS registry depth 0 Finished st) with (@inl nat (State * task) 0%nat).
      cbv beta iota. rewrite E.
      exists st', (TCons Finished ts'). split; [reflexivity|].
      cbn [Budget.weight_tasks waiting_tasks waiting_task]. split; [lia | exact Hw'].
    + destruct (IHt depth st Hwt Hne) as (st' & t' & E & Hlt & Hw').
      rewrite deliver_tasks_cons, E.
      exists st', (TCons t' ts). split; [reflexivity|].
      cbn [Budget.weight_tasks waiting_tasks]. rewrite Hw', Hws. split; [lia | reflexivity].
Qed.

Lemma step_weight st c :
  waiting_call c = true ->
  (weight registry (step NUM_CPUS registry (st, Some c) 0) < weight_call c)%nat
  /\ waiting (step NUM_CPUS registry (st, Some c) 0) = true.
Proof.
  destruct c as [d batch later]. cbn [waiting_call]. intros Hw.
  apply andb_prop in Hw. destruct Hw as [Hnf Hw]. apply negb_true_iff in Hnf.
  destruct (proj2 (proj2 deliver_weight) batch d st Hw Hnf) as (st1 & batch' & E & Hlt & Hw').
  cbn [step]. rewrite E. cbn [Budget.weight_call].
  destruct (all_finished batch') eqn:Ea.
  - destruct (advance_weight d later st1) as [H1 H2]. split; [lia | exact H2].
  - unfold weight, waiting. cbn [snd Budget.weight_call waiting_call].
    rewrite Ea, Hw'. split; [lia | reflexivity].
Qed.

Lemma run_settled schedule st : run NUM_CPUS registry schedule (st, None) = (st, None).
Proof. induction schedule as [|k schedule IH]; [reflexivity | exact IH]. Qed.

(** Answering the first outstanding request, again and again, ends the
    run; as many answers as the weight are enough. *)
Lemma run_settles n : forall m,
  waiting m = true -> (weight registry m <= n)%nat ->
  snd (run NUM_CPUS registry (repeat 0%nat n) m) = None.
Proof.
  induction n as [|n IH]; intros [st [c|]] Hw Hn.
  - exfalso. destruct (step_weight st c Hw) as [H _]. unfold weight in Hn. cbn [snd] in Hn. lia.
  - reflexivity.
  - cbn [repeat run fold_left]. destruct (step_weight st c Hw) as [H1 H2].
    apply IH; [exact H2|]. unfold weight in Hn. cbn [snd] in Hn. lia.
  - now rewrite run_settled.
Qed.

(** The call [install] makes settles when the registry has answered
    [budget 50 dependencies] times, the first outstanding request each
    time. *)
Lemma resolveDependencies_settles dependencies st :
  exists st',
    resolveDependencies NUM_CPUS registry dependencies st 0
      (repeat 0%nat (budget 50 dependencies)) = inr (st', None).
Proof.
  unfold resolveDependencies.
  destruct (enter_depth_0 NUM_CPUS st dependencies) as [m E]. rewrite E.
  destruct (enter_weight _ _ _ _ E) as [H1 H2]. cbn [Nat.sub] in H1.
  pose proof (run_settles (budget 50 dependencies) m H2 H1) as H.
  destruct (run NUM_CPUS registry _ m) as [st' c]. cbn [snd] in H. subst c. now exists st'.
Qed.

End Settles.

(** ** Association lists *)

Section Assoc.
Import Registry.
Context {A : Type}.
Implicit Types (l : list (string * A)) (k : string) (v : A).

Lemma has_in k l : has k l = true <-> In k (map fst l).
Proof.
  unfold has. induction l as [|[k' v'] l IH]; simpl; [split; [discriminate|tauto]|].
  destruct (String.eqb_spec k' k) as [->|Hne]; [split; auto|].
  rewrite IH. split; [auto|]. intros [E|H]; [congruence|exact H].
Qed.

Lemma has_false k l : has k l = false <-> ~ In k (map fst l).
Proof. rewrite <- has_in. destruct (has k l); split; congruence. Qed.

Lemma set_absent k v l : has k l = false -> set k v l = (l ++ [(k, v)])%list.
Proof.
  unfold has. induction l as [|[k' v'] l IH]; simpl; [reflexivity|].
  destruct (String.eqb k' k); [discriminate|]. intros H. now rewrite IH.
Qed.

Lemma set_keys k v l :
  map fst (set k v l) = if has k l then map fst l else (map fst l ++ [k])%list.
Proof.
  unfold has. induction l as [|[k' v'] l IH]; simpl; [reflexivity|].
  destruct (String.eqb_spec k' k) as [->|Hne]; simpl; [reflexivity|].
  rewrite IH. now destruct (assoc k l).
Qed.

Lemma set_in k v l e : In e (set k v l) -> e = (k, v) \/ In e l.
Proof.
  induction l as [|[k' v'] l IH]; simpl; [intuition|].
  destruct (String.eqb_spec k' k) as [->|Hne]; simpl; intuition.
Qed.

Lemma set_nodup k v l : List.NoDup (map fst l) -> List.NoDup (map fst (set k v l)).
Proof.
  intros H. rewrite set_keys. destruct (has k l) eqn:E; [exact H|].
  apply has_false in E. apply List.NoDup_app; [exact H | repeat constructor; intros [] |].
  intros x Hx [<-|[]]. contradiction.
Qed.

(** Setting, one after the other, pairs whose keys are new and distinct
    appends them. *)
Lemma fold_set_fresh {B} (g : B -> string * A) (xs : list B) l :
  List.NoDup (map fst l ++ map (fun x => fst (g x)) xs) ->
  fold_left (fun o x => set (fst (g x)) (snd (g x)) o) xs l = (l ++ map g xs)%list.
Proof.
  revert l. induction xs as [|x xs IH]; intros l H; simpl; [now rewrite app_nil_r|].
  assert (Hx : has (fst (g x)) l = false).
  { apply has_false. intros Hin. simpl in H.
    apply List.NoDup_remove_2 in H. apply H. apply in_or_app. now left. }
  rewrite set_absent by exact Hx. rewrite IH.
  - rewrite <- app_assoc. simpl. now destruct (g x).
  - rewrite map_app. simpl. rewrite <- app_assoc. exact H.
Qed.

End Assoc.

Section WellKeyed.
Import Registry.

Lemma well_keyed_nil : well_keyed [].
Proof. split; constructor. Qed.

Lemma well_keyed_set l pkg : well_keyed l -> well_keyed (set (name pkg) pkg l).
Proof.
  intros [H1 H2]. split; [now apply set_nodup|].
  apply List.Forall_forall. intros e He. apply set_in in He.
  destruct He as [->|He]; [reflexivity|].
  rewrite List.Forall_forall in H2. now apply H2.
Qed.

End WellKeyed.

(** ** The installer *)

Section InstallFacts.
Import Registry Install.

Context (NUM_CPUS : N).
Context (registry : string -> option Metadata).
Context (STORE_PATH : string).
Context (sha256 : string -> string).
Context (tarballs : string -> Download).
Context (linking_throws : list (string * string) -> StoreIndex -> gset string -> LinkMode -> bool).

#[local] Abbreviation install := (install NUM_CPUS registry STORE_PATH sha256 tarballs linking_throws).
#[local] Abbreviation fetch_and_link :=
  (fetch_and_link NUM_CPUS STORE_PATH sha256 tarballs linking_throws).
#[local] Abbreviation resolve_phase := (resolve_phase NUM_CPUS registry).
#[local] Abbreviation download_one := (download_one STORE_PATH sha256 tarballs).
#[local] Abbreviation download_from := (download_from STORE_PATH sha256 tarballs).
#[local] Abbreviation download_all := (download_all NUM_CPUS STORE_PATH sha256 tarballs).
#[local] Abbreviation downloads_ok := (downloads_well tarballs).
#[local] Abbreviation store_dirs :=
  ({[PACKAGES_DIR STORE_PATH; TARBALLS_DIR STORE_PATH; DICTS_DIR STORE_PATH]} : gset string).

(** *** Resolution phase *)

Lemma from_registry_cases cpus deps schedule :
  match Resolver.resolveDependencies cpus registry deps Resolver.empty_state 0 schedule with
  | inl _ => False
  | inr (st, _) => well_keyed (Resolver.resolved st)
  end.
Proof.
  destruct (Resolver.resolveDependencies _ _ _ _ _ _) as [e|[st c]] eqn:E.
  - destruct (resolveDependencies_depth_0 cpus registry deps Resolver.empty_state schedule)
      as [m Hm]. congruence.
  - apply (resolveDependencies_inv cpus registry well_keyed well_keyed_set _ _ _ _ _ E).
    apply well_keyed_nil.
Qed.

Lemma from_lockfile_well_keyed l : well_keyed (from_lockfile l).
Proof.
  unfold from_lockfile. generalize (@nil (string * ResolvedPackage)) (well_keyed_nil).
  induction (lk_packages l) as [|[key pkg] es IH]; intros acc Hacc; simpl; [exact Hacc|].
  apply IH. apply (well_keyed_set acc (snd (of_lock_entry (key, pkg))) Hacc).
Qed.

Lemma resolve_phase_cases options w pj schedule :
  match resolve_phase options w pj schedule with
  | Done (_, resolved, _) => well_keyed resolved
  | Thrown _ => False
  | Unsettled => True
  | Hangs => True
  end.
Proof.
  unfold Install.resolve_phase.
  assert (Hreg :
    match (match NUM_CPUS with
           | N0 => match allDeps options pj with
                   | [] => Done (false, [], [])
                   | _ :: _ => Hangs
                   end
           | Npos cpus =>
               match Resolver.resolveDependencies cpus registry (allDeps options pj)
                       Resolver.empty_state 0 schedule with
               | inl e => Thrown (ResolutionThrew e)
               | inr (st, None) => Done (false, Resolver.resolved st, Resolver.trace st)
               | inr (_, Some _) => Unsettled
               end
           end : outcome (bool * list (string * ResolvedPackage) * list Resolver.Event)) with
    | Done (_, resolved, _) => well_keyed resolved
    | Thrown _ => False
    | _ => True
    end).
  { destruct NUM_CPUS as [|cpus].
    - destruct (allDeps options pj); [apply well_keyed_nil | exact I].
    - pose proof (from_registry_cases cpus (allDeps options pj) schedule) as H.
      destruct (Resolver.resolveDependencies _ _ _ _ _ _) as [e|[st [c|]]]; auto. }
  destruct (loadLockfile w) as [l|]; [|exact Hreg].
  destruct (lk_packages l) eqn:E; [exact Hreg | apply from_lockfile_well_keyed].
Qed.

(** *** Fetch phase: what is in the index *)

Lemma existing_own idx n v e :
  existing idx n v = Some (Js.Own e) <-> store_lookup idx n v = Some e.
Proof.
  unfold existing, store_lookup, Js.property.
  destruct (si_packages idx !! n) as [[versions|]|]; cbn [mbind option_bind].
  - destruct (versions !! v) as [e'|]; [split; congruence|].
    destruct (Js.inherited v); split; discriminate.
  - split; discriminate.
  - destruct (Js.inherited n); split; discriminate.
Qed.

Lemma cached_iff idx (disk : gset string) pkg :
  cached idx disk pkg = true <->
  exists e path, store_lookup idx (name pkg) (version pkg) = Some e
                 /\ extractedPath e = Some path /\ path <> "" /\ path ∈ disk.
Proof.
  unfold cached. split.
  - destruct (existing idx (name pkg) (version pkg)) as [[e| |]|] eqn:Ex; try discriminate.
    apply existing_own in Ex. cbn [trusted].
    destruct (extractedPath e) as [path|] eqn:Ep; [|discriminate].
    intros H. apply andb_true_iff in H. destruct H as [H1 H2].
    exists e, path. repeat split; auto.
    + intros ->. discriminate.
    + now apply bool_decide_eq_true in H2.
  - intros (e & path & He & Hp & Hne & Hin). apply existing_own in He. rewrite He.
    cbn [trusted]. rewrite Hp. apply andb_true_iff. split.
    + destruct (String.eqb_spec path ""); [contradiction | reflexivity].
    + now apply bool_decide_eq_true.
Qed.


Lemma cached_readable idx (disk : gset string) pkg :
  cached idx disk pkg = true -> readable idx pkg = true.
Proof.
  unfold cached, readable. now destruct (existing idx (name pkg) (version pkg)).
Qed.

Lemma classify_spec idx (disk : gset string) pkgs :
  classify idx disk pkgs
  = match List.find (fun p => negb (readable idx p)) pkgs with
    | Some pkg => inl pkg
    | None => inr (length (List.filter (cached idx disk) pkgs),
                   List.filter (fun p => negb (cached idx disk p)) pkgs)
    end.
Proof.
  induction pkgs as [|p pkgs IH]; [reflexivity|].
  cbn [classify List.find List.filter].
  destruct (existing idx (name p) (version p)) as [e|] eqn:Ex.
  - assert (Hr : readable idx p = true) by (unfold readable; now rewrite Ex).
    assert (Hc : cached idx disk p = trusted disk e) by (unfold cached; now rewrite Ex).
    rewrite Hr, Hc, IH. cbn [negb].
    destruct (List.find (fun p => negb (readable idx p)) pkgs); [reflexivity|].
    now destruct (trusted disk e).
  - assert (Hr : readable idx p = false) by (unfold readable; now rewrite Ex).
    now rewrite Hr.
Qed.

(** *** Fetch phase: the loop over the batches *)

Lemma slice_forward {A} (l : list A) (i limit : Z) :
  0 <= i -> 0 < limit ->
  slice l i (i + limit)
  = firstn (Z.to_nat limit) (skipn (Z.to_nat i) l).
Proof.
  intros Hi Hl. unfold slice, slice_index.
  destruct (Z.ltb_spec i 0) as [H|_]; [lia|].
  destruct (Z.ltb_spec (i + limit) 0) as [H|_]; [lia|].
  destruct (Nat.le_gt_cases (length l) (Z.to_nat i)) as [Hlen|Hlen].
  - rewrite !(skipn_all2 l) by lia. now rewrite !firstn_nil.
  - rewrite (Nat.min_l (Z.to_nat i)) by lia.
    destruct (Nat.le_gt_cases (Z.to_nat (i + limit)) (length l)) as [H2|H2].
    + rewrite Nat.min_l by exact H2. f_equal. lia.
    + rewrite Nat.min_r by lia.
      rewrite !firstn_all2; [reflexivity | |]; rewrite length_skipn; lia.
Qed.

(** With a batch size above zero the loop takes the queue from end to
    end, and has enough of one test more than there are packages. *)
Lemma download_from_forward limit l : 0 < limit ->
  forall fuel i f,
    0 <= i -> (length l - Z.to_nat i < fuel)%nat ->
    download_from fuel limit l i f = Some (fold_left download_one (skipn (Z.to_nat i) l) f).
Proof.
  intros Hl. induction fuel as [|fuel IH]; intros i f Hi Hf; [lia|].
  cbn [Install.download_from].
  destruct (Z.ltb_spec i (Z.of_nat (length l))) as [Hlt|Hge].
  - rewrite IH by lia. rewrite slice_forward by lia. f_equal.
    rewrite <- fold_left_app. f_equal.
    replace (Z.to_nat (i + limit)) with (Z.to_nat limit + Z.to_nat i)%nat by lia.
    rewrite <- skipn_skipn. apply firstn_skipn.
  - rewrite (skipn_all2 l) by lia. reflexivity.
Qed.

Lemma download_all_seq options f l :
  0 < parallelLimit NUM_CPUS options ->
  download_all options f l = Some (fold_left download_one l f).
Proof.
  intros H. unfold Install.download_all.
  rewrite (download_from_forward _ l H) by (simpl; lia). reflexivity.
Qed.

Lemma download_all_nil options f : download_all options f [] = Some f.
Proof. reflexivity. Qed.

(** With a batch size of zero or less the loop never gets past the start
    of a queue that is not empty. *)
Lemma download_from_stuck limit l : limit <= 0 -> l <> [] ->
  forall fuel i f, i <= 0 -> download_from fuel limit l i f = None.
Proof.
  intros Hl Hne. induction fuel as [|fuel IH]; intros i f Hi; [reflexivity|].
  cbn [Install.download_from].
  destruct (Z.ltb_spec i (Z.of_nat (length l))) as [_|Hge].
  - apply IH. lia.
  - destruct l; [contradiction | simpl in Hge; lia].
Qed.

Lemma download_all_cases options f l :
  download_all options f l
  = if (0 <? parallelLimit NUM_CPUS options) || (length l =? 0)%nat
    then Some (fold_left download_one l f) else None.
Proof.
  destruct (Z.ltb_spec 0 (parallelLimit NUM_CPUS options)) as [H|H]; cbn [orb].
  - now apply download_all_seq.
  - destruct l as [|p l]; [reflexivity|]. cbn [length Nat.eqb].
    apply (download_from_stuck _ (p :: l) H); [discriminate | lia].
Qed.

(** *** Fetch phase: one download *)

Lemma join_nonempty a b : join a b <> "".
Proof. unfold join. destruct a; discriminate. Qed.

Lemma download_one_disk f p : f_disk f ⊆ f_disk (download_one f p).
Proof.
  unfold Install.download_one. destruct (tarballs _); cbn [f_disk]; [set_solver..|].
  destruct (store_insert _ _ _ _); cbn [f_disk]; set_solver.
Qed.

Lemma store_insert_readable idx p e :
  readable idx p = true -> is_Some (store_insert idx (name p) (version p) e).
Proof.
  unfold readable, existing, store_insert.
  destruct (Js.property (si_packages idx !! name p) (name p)) as [[versions|]| |];
    try discriminate; eauto.
Qed.

Lemma store_insert_lookup idx n v e idx' n' v' :
  store_insert idx n v e = Some idx' ->
  store_lookup idx' n' v'
  = if bool_decide (n' = n) && bool_decide (v' = v) then Some e else store_lookup idx n' v'.
Proof.
  unfold store_insert, store_lookup, Js.property.
  destruct (si_packages idx !! n) as [[versions|]|] eqn:En;
    [| discriminate | destruct (Js.inherited n); [discriminate|]];
    intros [= <-]; cbn [si_packages];
    (destruct (decide (n' = n)) as [->|Hn];
     [ rewrite lookup_insert_eq, bool_decide_eq_true_2 by reflexivity;
       cbn [mbind option_bind andb];
       destruct (decide (v' = v)) as [->|Hv];
       [ rewrite lookup_insert_eq, bool_decide_eq_true_2 by reflexivity; reflexivity
       | rewrite lookup_insert_ne, bool_decide_eq_false_2 by congruence;
         rewrite En; reflexivity ]
     | rewrite lookup_insert_ne, (bool_decide_eq_false_2 (n' = n)) by congruence;
       reflexivity ]).
Qed.

Lemma store_insert_keeps_readable idx n v e idx' q :
  store_insert idx n v e = Some idx' -> readable idx q = true -> readable idx' q = true.
Proof.
  unfold store_insert, readable, existing, Js.property.
  destruct (si_packages idx !! n) as [[versions|]|] eqn:En;
    [| discriminate | destruct (Js.inherited n); [discriminate|]];
    intros [= <-]; cbn [si_packages];
    (destruct (decide (name q = n)) as [->|Hn];
     [ now rewrite lookup_insert_eq | now rewrite lookup_insert_ne by congruence ]).
Qed.

Lemma download_one_readable f p q :
  readable (f_index f) q = true -> readable (f_index (download_one f p)) q = true.
Proof.
  intros H. unfold Install.download_one. destruct (tarballs _); cbn [f_index]; auto.
  destruct (store_insert _ _ _ _) eqn:E; cbn [f_index]; auto.
  now apply (store_insert_keeps_readable _ _ _ _ _ q E).
Qed.

Lemma download_one_keeps f p q :
  cached (f_index f) (f_disk f) q = true ->
  cached (f_index (download_one f p)) (f_disk (download_one f p)) q = true.
Proof.
  rewrite !cached_iff. intros (e & path & He & Hp & Hne & Hin).
  pose proof (download_one_disk f p) as Hd.
  unfold Install.download_one in *. destruct (tarballs (tarballUrl p)); cbn [f_index f_disk] in *.
  - eauto 6.
  - exists e, path. repeat split; auto.
  - destruct (store_insert _ _ _ _) as [idx'|] eqn:E; cbn [f_index f_disk] in *.
    + rewrite (store_insert_lookup _ _ _ _ _ (name q) (version q) E).
      destruct (bool_decide (name q = name p) && bool_decide (version q = version p)).
      * eexists _, _. split; [reflexivity|]. cbn [extractedPath].
        split; [reflexivity|]. split; [apply join_nonempty | set_solver].
      * exists e, path. repeat split; auto.
    + exists e, path. repeat split; auto.
Qed.

(** A download that ends well leaves the package in the index, with its
    directory on disk. *)
Lemma download_one_caches f p :
  readable (f_index f) p = true -> downloads_ok p = true ->
  store_lookup (f_index (download_one f p)) (name p) (version p)
  = Some {| se_integrity := pkg_integrity p;
            compressedSize := match tarballs (tarballUrl p) with
                              | Downloaded d _ => d | _ => 0%nat end;
            originalSize := match tarballs (tarballUrl p) with
                            | Downloaded _ x => x | _ => 0%nat end;
            dictionary := "node_modules";
            extractedPath :=
              Some (getPackageDir STORE_PATH (hashPackage sha256 (name p) (version p))) |}
  /\ getPackageDir STORE_PATH (hashPackage sha256 (name p) (version p))
     ∈ f_disk (download_one f p).
Proof.
  intros Hr. unfold Install.downloads_well, Install.download_one.
  destruct (tarballs (tarballUrl p)) as [| |d x]; try discriminate. intros _.
  destruct (store_insert_readable (f_index f) p
              {| se_integrity := pkg_integrity p; compressedSize := d; originalSize := x;
                 dictionary := "node_modules";
                 extractedPath :=
                   Some (getPackageDir STORE_PATH (hashPackage sha256 (name p) (version p))) |}
              Hr) as [idx' E].
  rewrite E. cbn [f_index f_disk]. split; [|set_solver].
  rewrite (store_insert_lookup _ _ _ _ _ (name p) (version p) E).
  now rewrite !bool_decide_eq_true_2 by reflexivity.
Qed.

Lemma download_one_cached f p :
  readable (f_index f) p = true -> downloads_ok p = true ->
  cached (f_index (download_one f p)) (f_disk (download_one f p)) p = true.
Proof.
  intros Hr Hok. destruct (download_one_caches f p Hr Hok) as [H1 H2].
  apply cached_iff. eexists _, _. split; [exact H1|]. cbn [extractedPath].
  split; [reflexivity|]. split; [apply join_nonempty | exact H2].
Qed.

Lemma download_one_tally f p :
  readable (f_index f) p = true ->
  f_downloadCount (download_one f p)
  = (f_downloadCount f + if downloads_ok p then 1 else 0)%nat
  /\ f_failures (download_one f p)
     = (f_failures f ++ if downloads_ok p then [] else [p])%list.
Proof.
  intros Hr. unfold Install.downloads_well, Install.download_one.
  destruct (tarballs (tarballUrl p)) as [| |d x]; cbn [f_downloadCount f_failures];
    rewrite ?app_nil_r; [split; auto; lia..|].
  match goal with |- context [store_insert _ _ _ ?e] =>
    destruct (store_insert_readable (f_index f) p e Hr) as [idx' E] end.
  rewrite E. cbn [f_downloadCount f_failures]. split; auto; lia.
Qed.

(** *** Fetch phase: the queue *)

Lemma download_seq_disk l f : f_disk f ⊆ f_disk (fold_left download_one l f).
Proof.
  revert f. induction l as [|p l IH]; intros f; simpl; [set_solver|].
  pose proof (download_one_disk f p). specialize (IH (download_one f p)). set_solver.
Qed.

Lemma download_seq_readable l f q :
  readable (f_index f) q = true -> readable (f_index (fold_left download_one l f)) q = true.
Proof.
  revert f. induction l as [|p l IH]; intros f H; simpl; [exact H|].
  apply IH. now apply download_one_readable.
Qed.

Lemma download_seq_keeps l f q :
  cached (f_index f) (f_disk f) q = true ->
  cached (f_index (fold_left download_one l f)) (f_disk (fold_left download_one l f)) q = true.
Proof.
  revert f. induction l as [|p l IH]; intros f H; simpl; [exact H|].
  apply IH. now apply download_one_keeps.
Qed.

Lemma download_seq_tally l : forall f,
  List.Forall (fun p => readable (f_index f) p = true) l ->
  f_downloadCount (fold_left download_one l f)
  = (f_downloadCount f + length (List.filter downloads_ok l))%nat
  /\ f_failures (fold_left download_one l f)
     = (f_failures f ++ List.filter (fun p => negb (downloads_ok p)) l)%list.
Proof.
  induction l as [|p l IH]; intros f Hr; simpl.
  - rewrite app_nil_r. split; auto; lia.
  - apply List.Forall_cons_iff in Hr. destruct Hr as [Hp Hl].
    destruct (IH (download_one f p)) as [H1 H2].
    { revert Hl. apply List.Forall_impl. intros q. apply download_one_readable. }
    rewrite H1, H2. destruct (download_one_tally f p Hp) as [-> ->].
    destruct (downloads_ok p); simpl; rewrite <- ?app_assoc; simpl; split; auto; lia.
Qed.

Lemma download_seq_caches l : forall f p,
  List.Forall (fun q => readable (f_index f) q = true) l ->
  In p l -> downloads_ok p = true ->
  cached (f_index (fold_left download_one l f)) (f_disk (fold_left download_one l f)) p = true.
Proof.
  induction l as [|q l IH]; intros f p Hr; simpl; [tauto|].
  apply List.Forall_cons_iff in Hr. destruct Hr as [Hq Hl].
  intros [->|Hin] Hw.
  - apply download_seq_keeps. now apply download_one_cached.
  - apply IH; [|exact Hin | exact Hw].
    revert Hl. apply List.Forall_impl. intros x. apply download_one_readable.
Qed.

Lemma find_none_readable idx pkgs :
  List.find (fun p => negb (readable idx p)) pkgs = None ->
  List.Forall (fun p => readable idx p = true) pkgs.
Proof.
  intros H. apply List.Forall_forall. intros p Hp.
  pose proof (find_none _ _ H p Hp) as Hn. now apply negb_false_iff in Hn.
Qed.

(** *** The run from the fetch phase on *)

Lemma fetch_and_link_cases options w fromLock resolved events :
  let idx := loadStoreIndex w in
  let disk0 := store_dirs ∪ disk w in
  let pkgs := map snd resolved in
  let queue := List.filter (fun p => negb (cached idx disk0 p)) pkgs in
  let f := fold_left download_one queue
             {| f_index := idx; f_disk := disk0; f_downloadCount := 0; f_failures := [] |} in
  fetch_and_link options w fromLock resolved events
  = match List.find (fun p => negb (readable idx p)) pkgs with
    | Some pkg => Thrown (IndexLookupThrew (name pkg) (version pkg))
    | None =>
        if (0 <? parallelLimit NUM_CPUS options) || (length queue =? 0)%nat then
          if linking_throws (map (fun e => (fst e, version (snd e))) resolved)
               (f_index f) (f_disk f) (default hardlink (linkMode options))
          then Thrown LinkingThrew
          else Done ({| packageJson := packageJson w;
                        lockfile := Parsed (newLockfile resolved);
                        indexFile := Parsed (f_index f);
                        disk := f_disk f |},
                     {| usedLockfile := fromLock;
                        resolution := events;
                        resolvedPackages := resolved;
                        cachedCount := length (List.filter (cached idx disk0) pkgs);
                        toDownload := queue;
                        downloadCount := length (List.filter downloads_ok queue);
                        downloadFailures :=
                          List.filter (fun p => negb (downloads_ok p)) queue |})
        else Hangs
    end.
Proof.
  cbv zeta. unfold Install.fetch_and_link. rewrite classify_spec.
  destruct (List.find _ (map snd resolved)) as [pkg|] eqn:Ef; [reflexivity|].
  rewrite download_all_cases.
  destruct ((0 <? parallelLimit NUM_CPUS options) || (length _ =? 0)%nat); [|reflexivity].
  destruct (linking_throws _ _ _ _); [reflexivity|].
  match goal with |- context [fold_left download_one ?l ?f0] =>
    destruct (download_seq_tally l f0) as [H1 H2] end.
  { cbn [f_index]. apply find_none_readable in Ef.
    rewrite List.Forall_forall in Ef |- *. intros p Hp. apply Ef.
    apply filter_In in Hp. tauto. }
  cbn [f_downloadCount f_failures] in H1, H2. rewrite H1, H2. reflexivity.
Qed.



(** C7. A lockfile that [JSON.parse] rejects is read as no lockfile:
    [loadLockfile] gives [null] in both cases, and [install] on the project
    with the malformed file ends, under every schedule of the registry's
    answers, as it does on the project without the file.  It ends with the
    manifest's error when the manifest cannot be read.  Otherwise it
    resolves through the registry: once the registry has answered, the
    first outstanding request each time, as often as the tables of
    dependencies leave requests to issue, the resolution has settled and
    the install goes on to its fetch phase with the packages resolved from
    the registry and none from a lockfile; so it does whenever the
    schedule lets the resolution settle.  (Without a CPU reported the
    loop of the resolution never advances, malformed lockfile or none.) *)
Theorem malformed_lockfile_is_no_lockfile (w : World) (options : InstallOptions) :
  loadLockfile (with_lockfile Unparsable w) = None
  /\ loadLockfile (with_lockfile Missing w) = None
  /\ (forall schedule,
        install (with_lockfile Unparsable w) options schedule
        = install (with_lockfile Missing w) options schedule)
  /\ match packageJson w with
     | Missing =>
         forall schedule,
           install (with_lockfile Unparsable w) options schedule = Thrown PackageJsonNotFound
     | Unparsable =>
         forall schedule,
           install (with_lockfile Unparsable w) options schedule = Thrown PackageJsonUnparsable
     | Parsed pj =>
         match NUM_CPUS with
         | N0 =>
             forall schedule,
               install (with_lockfile Unparsable w) options schedule
               = match allDeps options pj with
                 | [] => fetch_and_link options (with_lockfile Unparsable w) false [] []
                 | _ :: _ => Hangs
                 end
         | Npos cpus =>
             (exists st,
                 Resolver.resolveDependencies cpus registry (allDeps options pj)
                   Resolver.empty_state 0
                   (repeat 0%nat (Budget.budget registry 50 (allDeps options pj)))
                 = inr (st, None)
                 /\ install (with_lockfile Unparsable w) options
                      (repeat 0%nat (Budget.budget registry 50 (allDeps options pj)))
                    = fetch_and_link options (with_lockfile Unparsable w) false
                        (Resolver.resolved st) (Resolver.trace st))
             /\ (forall schedule st,
                   Resolver.resolveDependencies cpus registry (allDeps options pj)
                     Resolver.empty_state 0 schedule = inr (st, None) ->
                   install (with_lockfile Unparsable w) options schedule
                   = fetch_and_link options (with_lockfile Unparsable w) false
                       (Resolver.resolved st) (Resolver.trace st))
         end
     end.
Proof.
  split; [reflexivity|]. split; [reflexivity|]. split; [reflexivity|].
  destruct (packageJson w) as [| |pj] eqn:Epj.
  - intros schedule. unfold Install.install. cbn [packageJson with_lockfile]. now rewrite Epj.
  - intros schedule. unfold Install.install. cbn [packageJson with_lockfile]. now rewrite Epj.
  - destruct NUM_CPUS as [|cpus].
    + intros schedule. unfold Install.install. cbn [packageJson with_lockfile].
      rewrite Epj. unfold Install.resolve_phase. cbn [loadLockfile with_lockfile lockfile].
      now destruct (allDeps options pj).
    + assert (Hsettled : forall schedule st,
                Resolver.resolveDependencies cpus registry (allDeps options pj)
                  Resolver.empty_state 0 schedule = inr (st, None) ->
                Install.install (Npos cpus) registry STORE_PATH sha256 tarballs linking_throws
                  (with_lockfile Unparsable w) options schedule
                = Install.fetch_and_link (Npos cpus) STORE_PATH sha256 tarballs linking_throws
                    options (with_lockfile Unparsable w) false
                    (Resolver.resolved st) (Resolver.trace st)).
      { intros schedule st E. unfold Install.install. cbn [packageJson with_lockfile].
        rewrite Epj. unfold Install.resolve_phase. cbn [loadLockfile with_lockfile lockfile].
        now rewrite E. }
      split; [|exact Hsettled].
      destruct (resolveDependencies_settles cpus registry (allDeps options pj)
                  Resolver.empty_state) as [st E].
      exists st. split; [exact E | now apply Hsettled].
Qed.

(** *** Installing again *)

Lemma all_chars_app p a b :
  Js.all_chars p (a ++ b) = Js.all_chars p a && Js.all_chars p b.
Proof. induction a as [|c a IH]; simpl; [reflexivity|]. now rewrite IH, andb_assoc. Qed.

Lemma strip_version_key n v :
  plain_version v = true -> strip_version (n ++ "@" ++ v) = n.
Proof.
  unfold plain_version. intros H. apply andb_prop in H. destruct H as [Hne Hat].
  induction n as [|c n IH].
  - change ("" ++ "@" ++ v) with (String "@" v). simpl. now rewrite Hne, Hat.
  - change (String c n ++ "@" ++ v) with (String c (n ++ "@" ++ v)).
    cbn [strip_version]. rewrite IH.
    change (n ++ "@" ++ v) with (n ++ String "@" v).
    rewrite all_chars_app. simpl. now rewrite !andb_false_r.
Qed.

Lemma of_lock_entry_lock_entry e :
  lockable e = true -> of_lock_entry (lock_entry e) = relock e.
Proof.
  destruct e as [n p]. unfold lockable, of_lock_entry, lock_entry, relock. simpl.
  intros H. apply andb_prop in H. destruct H as [Hv Hu].
  rewrite strip_version_key by exact Hv. f_equal. f_equal.
  unfold str_or. now destruct (String.eqb (tarballUrl p) "").
Qed.

Lemma lock_entry_relock e : lock_entry (relock e) = lock_entry e.
Proof. now destruct e. Qed.

Lemma fromEntries_fresh {A} (l : list (string * A)) :
  List.NoDup (map fst l) -> fromEntries l = l.
Proof.
  intros H. unfold fromEntries.
  rewrite (fold_set_fresh (fun x => x) l []); simpl; [now rewrite map_id | exact H].
Qed.

Lemma lock_keys resolved :
  well_keyed resolved -> forallb lockable resolved = true ->
  map strip_version (map fst (map lock_entry resolved)) = map fst resolved.
Proof.
  intros _ Hl. rewrite !map_map. apply map_ext_in. intros [n p] Hin. simpl.
  rewrite forallb_forall in Hl. specialize (Hl _ Hin).
  apply andb_prop in Hl. destruct Hl as [Hv _]. now apply strip_version_key.
Qed.

Lemma newLockfile_packages resolved :
  well_keyed resolved -> forallb lockable resolved = true ->
  lk_packages (newLockfile resolved) = map lock_entry resolved.
Proof.
  intros Hw Hl. unfold newLockfile. simpl. apply fromEntries_fresh.
  apply (NoDup_map_inv strip_version). rewrite lock_keys by assumption. apply Hw.
Qed.

Lemma from_lockfile_newLockfile resolved :
  well_keyed resolved -> forallb lockable resolved = true ->
  from_lockfile (newLockfile resolved) = map relock resolved.
Proof.
  intros Hw Hl. unfold from_lockfile. rewrite newLockfile_packages by assumption.
  rewrite (fold_set_fresh of_lock_entry (map lock_entry resolved) []).
  - simpl. rewrite map_map. apply map_ext_in. intros e Hin.
    apply of_lock_entry_lock_entry. rewrite forallb_forall in Hl. now apply Hl.
  - simpl. rewrite map_map.
    replace (map (fun x => fst (of_lock_entry (lock_entry x))) resolved)
      with (map fst resolved); [apply Hw|].
    apply map_ext_in. intros e Hin. rewrite of_lock_entry_lock_entry; [reflexivity|].
    rewrite forallb_forall in Hl. now apply Hl.
Qed.

Lemma newLockfile_relock resolved :
  newLockfile (map relock resolved) = newLockfile resolved.
Proof.
  unfold newLockfile. do 2 f_equal. rewrite map_map. apply map_ext. apply lock_entry_relock.
Qed.

Lemma all_cached idx (disk0 : gset string) pkgs :
  List.Forall (fun p => cached idx disk0 p = true) pkgs ->
  List.find (fun p => negb (readable idx p)) pkgs = None
  /\ List.filter (cached idx disk0) pkgs = pkgs
  /\ List.filter (fun p => negb (cached idx disk0 p)) pkgs = [].
Proof.
  induction 1 as [|p pkgs Hp _ (IH1 & IH2 & IH3)]; [auto|].
  cbn [List.find List.filter]. rewrite (cached_readable idx disk0 p Hp), Hp. cbn [negb].
  now rewrite IH1, IH2, IH3.
Qed.

Lemma cached_relock idx (disk0 : gset string) e :
  name (snd e) = fst e -> cached idx disk0 (snd (relock e)) = cached idx disk0 (snd e).
Proof. destruct e as [n p]. simpl. intros <-. reflexivity. Qed.

(** C6, as amended. After a run of [install] that completed, resolved at
    least one package, saw every download it started end well, and
    resolved only packages whose version is not empty and has no [@] and
    whose tarball URL is not empty, a second run on the world the first
    left (same manifest, same options, untouched store) resolves from the
    lockfile alone, with no request to the registry, finds every package
    cached and downloads none, and leaves the world, and with it the
    lockfile, exactly as it found it. *)
Theorem reinstall_after_clean_run
    (w : World) (options : InstallOptions) (schedule schedule' : list nat) :
  clean_run (install w options schedule) = true ->
  match install w options schedule with
  | Done (w1, r1) =>
      lockfile w1 = Parsed (newLockfile (resolvedPackages r1))
      /\ install w1 options schedule'
         = Done (w1,
                 {| usedLockfile := true;
                    resolution := [];
                    resolvedPackages := map relock (resolvedPackages r1);
                    cachedCount := length (resolvedPackages r1);
                    toDownload := [];
                    downloadCount := 0;
                    downloadFailures := [] |})
  | _ => False
  end.
Proof.
  intros Hclean.
  destruct (install w options schedule) as [[w1 r1]|e| |] eqn:Ei; [|discriminate..].
  unfold Install.install in Ei. destruct (packageJson w) as [| |pj] eqn:Hpj; try discriminate.
  destruct (resolve_phase options w pj schedule) as [[[fromLock resolved] events]|e| |] eqn:Hr;
    try discriminate.
  assert (Hwk : well_keyed resolved).
  { pose proof (resolve_phase_cases options w pj schedule) as H. now rewrite Hr in H. }
  rewrite fetch_and_link_cases in Ei.
  destruct (List.find _ (map snd resolved)) as [bad|] eqn:Ef; [discriminate|].
  apply find_none_readable in Ef.
  destruct ((0 <? parallelLimit NUM_CPUS options) || (length _ =? 0)%nat); [|discriminate].
  destruct (linking_throws _ _ _ _) eqn:Hlink; [discriminate|].
  injection Ei as <- <-.
  cbn [clean_run resolvedPackages downloadFailures] in Hclean.
  apply andb_prop in Hclean. destruct Hclean as [Hclean Hlockable].
  apply andb_prop in Hclean. destruct Hclean as [Hsome Hnofail].
  set (f0 := {| f_index := loadStoreIndex w; f_disk := store_dirs ∪ disk w;
                f_downloadCount := 0; f_failures := [] |}) in *.
  set (queue := List.filter (fun p => negb (cached (loadStoreIndex w) (store_dirs ∪ disk w) p))
                  (map snd resolved)) in *.
  set (f := fold_left download_one queue f0) in *.
  assert (Hqueue : List.Forall (fun p => readable (f_index f0) p = true) queue).
  { cbn [f_index]. rewrite List.Forall_forall in Ef |- *. intros p Hp. apply Ef.
    apply filter_In in Hp. tauto. }
  (* every resolved package is in the store after the first run *)
  assert (Hall : List.Forall (fun p => cached (f_index f) (f_disk f) p = true)
                   (map snd (map relock resolved))).
  { apply List.Forall_forall. intros p Hp. apply in_map_iff in Hp.
    destruct Hp as (e' & <- & He'). apply in_map_iff in He'. destruct He' as (e & <- & He).
    rewrite cached_relock
      by (destruct Hwk as [_ Hn]; rewrite List.Forall_forall in Hn; now apply Hn).
    destruct (cached (loadStoreIndex w) (store_dirs ∪ disk w) (snd e)) eqn:Ec.
    - apply (download_seq_keeps queue f0). exact Ec.
    - assert (Hin : In (snd e) queue).
      { apply filter_In. split; [now apply in_map|]. now rewrite Ec. }
      apply download_seq_caches; [exact Hqueue | exact Hin|].
      destruct (downloads_ok (snd e)) eqn:Eok; [reflexivity|]. exfalso.
      assert (In (snd e) (List.filter (fun p => negb (downloads_ok p)) queue)) as Hx
        by (apply filter_In; split; [exact Hin | now rewrite Eok]).
      destruct (List.filter (fun p => negb (downloads_ok p)) queue); [destruct Hx | discriminate]. }
  assert (Hdisk : store_dirs ∪ f_disk f = f_disk f).
  { apply subseteq_union_1_L. pose proof (download_seq_disk queue f0) as H.
    fold f in H. cbn [f_disk f0] in H. set_solver. }
  split; [reflexivity|].
  unfold Install.install. cbn [packageJson disk indexFile lockfile].
  rewrite Hpj. unfold Install.resolve_phase, loadLockfile.
  cbn [packageJson disk indexFile lockfile].
  rewrite newLockfile_packages by assumption.
  assert (Hne : exists x xs, map lock_entry resolved = x :: xs)
    by (destruct resolved; [discriminate Hsome | simpl; eauto]).
  destruct Hne as (x & xs & Hne). rewrite Hne.
  rewrite from_lockfile_newLockfile by assumption.
  rewrite fetch_and_link_cases. cbn [packageJson disk indexFile lockfile loadStoreIndex].
  unfold loadStoreIndex. cbn [indexFile]. rewrite Hdisk.
  destruct (all_cached (f_index f) (f_disk f) _ Hall) as (E1 & E2 & E3).
  rewrite E1, E2, E3. cbn [length Nat.eqb fold_left f_index f_disk List.filter].
  rewrite orb_true_r.
  rewrite (map_map relock). cbn [relock fst snd version].
  rewrite Hlink. rewrite newLockfile_relock, !length_map. reflexivity.
Qed.

End InstallFacts.

Section Reinstall.
Import Registry Install.

Lemma reinstall_after_clean_run_witness :
  clean_run (bench_install Resolver.race_registry (fresh_project [("a", "*")])
               default_options [0; 0]%nat) = true
  /\ match bench_install Resolver.race_registry (fresh_project [("a", "*")])
             default_options [0; 0]%nat with
     | Done (w1, r1) =>
         lockfile w1 = Parsed (newLockfile (resolvedPackages r1))
         /\ bench_install Resolver.race_registry w1 default_options []
            = Done (w1,
                    {| usedLockfile := true;
                       resolution := [];
                       resolvedPackages := map relock (resolvedPackages r1);
                       cachedCount := length (resolvedPackages r1);
                       toDownload := [];
                       downloadCount := 0;
                       downloadFailures := [] |})
     | _ => False
     end.
Proof.
  split; [vm_compute; reflexivity|].
  apply (reinstall_after_clean_run 1%N Resolver.race_registry bench_store bench_digest
           bench_tarballs bench_linking (fresh_project [("a", "*")]) default_options
           [0; 0]%nat []).
  vm_compute. reflexivity.
Defined.

(** C6 as stated fails.  (1) When the first run resolves nothing (no
    version of [b] satisfies ^9.0.0) its lockfile lists no package, and the
    second run asks the registry again.  (2) When a download of the first
    run fails, the second run, resolving from the lockfile, finds the
    package missing from the store and queues it again: no full cache
    hit. *)
Lemma reinstall_not_always_from_lockfile :
  match bench_install Resolver.race_registry (fresh_project [("b", "^9.0.0")])
          default_options [0]%nat with
  | Done (w1, r1) =>
      match bench_install Resolver.race_registry w1 default_options [0]%nat with
      | Done (_, r2) =>
          usedLockfile r2 = false /\ Resolver.requests (resolution r2) = ["b"]
      | _ => False
      end
  | _ => False
  end
  /\ match offline_install Resolver.race_registry (fresh_project [("b", "^1.0.0")])
             default_options [0]%nat with
     | Done (w1, r1) =>
         Resolver.keys (resolvedPackages r1) = ["b"]
         /\ match offline_install Resolver.race_registry w1 default_options [] with
            | Done (_, r2) =>
                usedLockfile r2 = true /\ cachedCount r2 = 0%nat
                /\ map name (toDownload r2) = ["b"]
            | _ => False
            end
     | _ => False
     end.
Proof. vm_compute. repeat split; reflexivity. Qed.

(** The fetch phase at work.  (1) The index names a directory for [b]
    1.0.0 that is no longer on disk: the run, resolving from the lockfile,
    finds nothing cached, downloads [b] and ends well, with the directory
    back.  (2) A package named [constructor], which the index has no entry
    for: the read of the index finds the function of that name in
    [Object.prototype] and throws.  (3) The same project as in (1),
    installed with a batch size of -1: the loop over the batches does not
    end. *)
Example fetch_phase_at_work :
  match bench_install Resolver.race_registry swept_project default_options [] with
  | Done (w', r) =>
      usedLockfile r = true /\ cachedCount r = 0%nat
      /\ map name (toDownload r) = ["b"] /\ downloadCount r = 1%nat
      /\ downloadFailures r = []
      /\ match store_lookup (loadStoreIndex swept_project) "b" "1.0.0" ≫= extractedPath with
         | Some path => (path ∉ disk swept_project) /\ path ∈ disk w'
         | None => False
         end
  | _ => False
  end
  /\ bench_install odd_registry (fresh_project [("constructor", "*")]) default_options [0%nat]
     = Thrown (IndexLookupThrew "constructor" "1.0.0")
  /\ bench_install Resolver.race_registry swept_project
       {| dev := false; production := false; frozen := false; verbose := false;
          parallel := Some (Some (-1)); linkMode := None |} []
     = Hangs.
Proof.
  split; [|split; vm_compute; reflexivity].
  vm_compute. repeat split; try reflexivity. intros H. discriminate H.
Qed.

End Reinstall.

(** ** What resolution keeps *)

Section Provenance.
Import Registry Resolver Provenance.

Context (NUM_CPUS : positive) (registry : string -> option Metadata).

(** The map has one entry per name and every entry is the registry's. *)
#[local] Abbreviation sound l := (well_keyed l /\ Forall (registered registry) l).

Lemma findBestVersion_nonempty versions range best :
  Semver.findBestVersion versions range = Some best -> best <> "".
Proof.
  unfold Semver.findBestVersion. destruct (Js.sort _ _) as [|v l]; [discriminate|].
  destruct (String.eqb_spec v ""); [discriminate|]. now intros [= <-].
Qed.

Lemma sound_set l pkg :
  registered registry (name pkg, pkg) -> sound l -> sound (set (name pkg) pkg l).
Proof.
  intros Hq [Hw Hf]. split; [now apply well_keyed_set|].
  apply Forall_forall. intros e He. apply list_elem_of_In, set_in in He.
  destruct He as [->|He]; [exact Hq|].
  rewrite Forall_forall in Hf. apply Hf. now apply list_elem_of_In.
Qed.

Lemma on_metadata_sound st depth n range :
  sound (resolved st) -> sound (resolved (fst (on_metadata NUM_CPUS registry st depth n range))).
Proof.
  intros HP. unfold on_metadata.
  destruct (registry n) as [md|] eqn:Er; [|exact HP].
  destruct (Semver.findBestVersion _ range) as [best|] eqn:Eb; [|exact HP].
  destruct (assoc best _) as [vd|] eqn:Ea; [|exact HP].
  match goal with |- context [map_set n ?p st] => set (pkg := p) end.
  assert (HP1 : sound (resolved (map_set n pkg st))).
  { apply (sound_set _ pkg); [|exact HP]. split; [reflexivity|]. split.
    - eapply findBestVersion_nonempty; eauto.
    - exists md, vd. cbn. auto. }
  destruct (pkg_dependencies pkg) as [|d ds] eqn:Ed; [exact HP1|].
  destruct (enter NUM_CPUS (map_set n pkg st) (d :: ds) (S depth)) as [e|[st2 c]] eqn:E.
  - exact HP1.
  - apply enter_resolved in E. simpl in E.
    destruct c; simpl; rewrite E; exact HP1.
Qed.

Lemma deliver_sound :
  (forall t depth k st st' t',
      deliver_task NUM_CPUS registry depth k t st = inr (st', t') ->
      sound (resolved st) -> sound (resolved st'))
  /\ (forall c : call, match c with Call d batch later =>
        forall k st st' batch',
          deliver_tasks NUM_CPUS registry d k batch st = inr (st', batch') ->
          sound (resolved st) -> sound (resolved st') end)
  /\ (forall ts depth k st st' ts',
      deliver_tasks NUM_CPUS registry depth k ts st = inr (st', ts') ->
      sound (resolved st) -> sound (resolved st')).
Proof.
  apply (task_call_tasks_ind
    (fun t => forall depth k st st' t',
       deliver_task NUM_CPUS registry depth k t st = inr (st', t') ->
       sound (resolved st) -> sound (resolved st'))
    (fun c => match c with Call d batch later =>
       forall k st st' batch',
         deliver_tasks NUM_CPUS registry d k batch st = inr (st', batch') ->
         sound (resolved st) -> sound (resolved st') end)
    (fun ts => forall depth k st st' ts',
       deliver_tasks NUM_CPUS registry depth k ts st = inr (st', ts') ->
       sound (resolved st) -> sound (resolved st'))).
  - intros n range depth [|k] st st' t'; simpl; [|discriminate].
    intros E HP. pose proof (on_metadata_sound st depth n range HP) as H.
    destruct (on_metadata NUM_CPUS registry st depth n range). now injection E as <- <-.
  - intros [d batch later] IH depth k st st' t'. simpl in *.
    destruct (deliver_tasks NUM_CPUS registry d k batch st) as [k'|[st1 batch']] eqn:E;
      [discriminate|].
    intros H HP. pose proof (IH _ _ _ _ E HP) as HP1.
    destruct (all_finished batch').
    + pose proof (advance_resolved st1 d later) as Ha.
      destruct (advance st1 d later) as [st2 [c|]]; simpl in Ha;
        injection H as <- <-; now rewrite Ha.
    + now injection H as <- <-.
  - intros depth k st st' t'; simpl; discriminate.
  - intros d batch IH later. intros k st st' batch'. apply IH.
  - intros depth k st st' ts'; simpl; discriminate.
  - intros t IHt ts IHts depth k st st' ts'. simpl.
    destruct (deliver_task NUM_CPUS registry depth k t st) as [k'|[st1 t1]] eqn:E1.
    + destruct (deliver_tasks NUM_CPUS registry depth k' ts st) as [k''|[st1 ts1]] eqn:E2;
        [discriminate|].
      intros [= <- <-]. eauto.
    + intros [= <- <-]. eauto.
Qed.

Lemma step_sound m k :
  sound (resolved (fst m)) -> sound (resolved (fst (step NUM_CPUS registry m k))).
Proof.
  destruct m as [st [[d batch later]|]]; simpl; auto.
  destruct (deliver_tasks NUM_CPUS registry d k batch st) as [k'|[st1 batch']] eqn:E; auto.
  intros HP. pose proof (proj2 (proj2 deliver_sound) _ _ _ _ _ _ E HP) as HP1.
  destruct (all_finished batch'); simpl; auto.
  now rewrite advance_resolved.
Qed.

Lemma run_sound schedule m :
  sound (resolved (fst m)) -> sound (resolved (fst (run NUM_CPUS registry schedule m))).
Proof.
  revert m. induction schedule as [|k schedule IH]; intros m HP; simpl; auto.
  apply IH. now apply step_sound.
Qed.

(** X12. However the answers of the registry are scheduled, and whether
    or not the run has come to its end, the map [resolveDependencies] fills
    from empty holds at most one entry per name, each stored under its own
    name, and every entry is a version the registry lists for that name,
    not the empty string, with that version's dependencies, tarball and
    integrity. *)
Theorem resolveDependencies_keeps_registry_data
    (dependencies : Deps) (depth : nat) (schedule : list nat) (m : machine) :
  resolveDependencies NUM_CPUS registry dependencies empty_state depth schedule = inr m ->
  well_keyed (resolved (fst m)) /\ Forall (registered registry) (resolved (fst m)).
Proof.
  unfold resolveDependencies.
  destruct (enter NUM_CPUS empty_state dependencies depth) as [e|m0] eqn:E; [discriminate|].
  intros [= <-]. apply run_sound. apply enter_resolved in E. rewrite E.
  split; [apply well_keyed_nil | constructor].
Qed.

End Provenance.

Lemma resolveDependencies_keeps_registry_data_witness :
  match Resolver.resolveDependencies 1 Resolver.race_registry [("a", "*"); ("b", "^1.0.0")]
          Resolver.empty_state 0 [0; 1; 0]%nat with
  | inr m =>
      Registry.well_keyed (Resolver.resolved (fst m))
      /\ Forall (Provenance.registered Resolver.race_registry) (Resolver.resolved (fst m))
  | inl _ => False
  end.
Proof.
  destruct (Resolver.resolveDependencies 1 Resolver.race_registry _ _ _ _) as [e|m] eqn:E;
    [vm_compute in E; discriminate|].
  apply (resolveDependencies_keeps_registry_data 1 Resolver.race_registry _ _ _ m E).
Defined.

(** ** Linking *)

Section Paths.
Import Linker.
Implicit Types (p q : path) (n : string).

Lemma prefix_snoc_inv p q n :
  p `prefix_of` (q ++ [n])%list -> p = (q ++ [n])%list \/ p `prefix_of` q.
Proof.
  intros [k Hk]. destruct k as [|m k _] using rev_ind.
  - rewrite app_nil_r in Hk. auto.
  - rewrite app_assoc in Hk. apply app_inj_tail in Hk. destruct Hk as [-> _].
    right. now exists k.
Qed.

Lemma apart_child p q n : apart p q -> apart (p ++ [n])%list (q ++ [n])%list.
Proof.
  intros [H1 H2]. split; intros H; apply prefix_snoc_inv in H.
  - destruct H as [H|H].
    + apply app_inj_tail in H. destruct H as [-> _]. now apply H1.
    + apply H1. etrans; [|exact H]. now apply prefix_app_r.
  - destruct H as [H|H].
    + apply app_inj_tail in H. destruct H as [-> _]. now apply H1.
    + apply H2. etrans; [|exact H]. now apply prefix_app_r.
Qed.

(** A path below [p] is neither below nor above [q] when the two are apart. *)
Lemma apart_below p q r :
  apart p q -> p `prefix_of` r -> (¬ (q `prefix_of` r)) /\ (¬ (r `prefix_of` q)).
Proof.
  intros [H1 H2] Hp. split; intros Hq.
  - destruct (prefix_weak_total _ _ _ Hp Hq); contradiction.
  - apply H1. etrans; [exact Hp | exact Hq].
Qed.

Lemma child_of_spec p q n : child_of p q = Some n <-> q = (p ++ [n])%list.
Proof.
  revert q. induction p as [|a p IH]; intros q; simpl.
  - destruct q as [|b [|c q]]; split; intros H; try discriminate; try congruence.
  - destruct q as [|b q]; [split; [discriminate|]; intros H; discriminate|].
    destruct (String.eqb_spec a b) as [->|Hne].
    + rewrite IH. split; [now intros -> | now intros [= ->]].
    + split; [discriminate|]. intros [= -> _]. contradiction.
Qed.

Lemma prefixb_spec p q : prefixb p q = true <-> p `prefix_of` q.
Proof.
  revert q. induction p as [|a p IH]; intros q; simpl.
  - split; auto. intros _. apply prefix_nil.
  - destruct q as [|b q].
    + split; [discriminate|]. intros H. apply prefix_nil_inv in H. discriminate.
    + rewrite andb_true_iff, IH. destruct (String.eqb_spec a b) as [->|Hne].
      * split; [intros [_ H]; now apply prefix_cons | intros H; split; auto].
        now apply prefix_cons_inv_2 in H.
      * split; [intros [? _]; discriminate|]. intros H.
        apply prefix_cons_inv_1 in H. contradiction.
Qed.

Lemma below_spec p q rel : below p q = Some rel <-> q = (p ++ rel)%list.
Proof.
  revert q. induction p as [|a p IH]; intros q; simpl.
  - split; congruence.
  - destruct q as [|b q]; [split; discriminate|].
    destruct (String.eqb_spec a b) as [->|Hne].
    + rewrite IH. split; [now intros -> | now intros [= ->]].
    + split; [discriminate|]. intros [= -> _]. contradiction.
Qed.

End Paths.

Section Operations.
Import Linker.
Implicit Types (p q : path) (n : string) (fs : FS).

Lemma mkdir_from_ok todo : forall done fs,
  (forall q, done `prefix_of` q -> q `prefix_of` (done ++ todo)%list ->
             names fs !! q = None \/ names fs !! q = Some Dir) ->
  exists fs1, mkdir_from done todo fs = Ok fs1 /\ data fs1 = data fs
    /\ (forall q, done `prefix_of` q -> q `prefix_of` (done ++ todo)%list ->
                  names fs1 !! q = Some Dir)
    /\ (forall q, ¬ (done `prefix_of` q /\ q `prefix_of` (done ++ todo)%list) ->
                  names fs1 !! q = names fs !! q).
Proof.
  induction todo as [|n todo IH]; intros done fs H.
  - rewrite app_nil_r in *. simpl.
    assert (Honly : forall q, done `prefix_of` q -> q `prefix_of` done -> q = done)
      by (intros q H1 H2; now apply (anti_symm prefix)).
    destruct (H done) as [E|E]; try reflexivity; rewrite E.
    + eexists. split; [reflexivity|]. split; [reflexivity|]. split.
      * intros q H1 H2. rewrite (Honly q H1 H2). apply lookup_insert_eq.
      * intros q Hq. simpl. apply lookup_insert_ne. intros <-. apply Hq. split; reflexivity.
    + eexists. split; [reflexivity|]. split; [reflexivity|]. split.
      * intros q H1 H2. now rewrite (Honly q H1 H2).
      * reflexivity.
  - assert (Hstep : forall fs0,
              data fs0 = data fs -> names fs0 !! done = Some Dir ->
              (forall q, q <> done -> names fs0 !! q = names fs !! q) ->
              exists fs1, mkdir_from (done ++ [n]) todo fs0 = Ok fs1 /\ data fs1 = data fs
                /\ (forall q, done `prefix_of` q -> q `prefix_of` (done ++ n :: todo)%list ->
                              names fs1 !! q = Some Dir)
                /\ (forall q, ¬ (done `prefix_of` q /\ q `prefix_of` (done ++ n :: todo)%list) ->
                              names fs1 !! q = names fs !! q)).
    { intros fs0 Hd Hdone Hother.
      assert (Hlonger : forall q, (done ++ [n])%list `prefix_of` q -> q <> done).
      { intros q [k Hk] ->. apply (f_equal length) in Hk.
        rewrite !length_app in Hk. simpl in Hk. lia. }
      destruct (IH (done ++ [n])%list fs0) as (fs1 & E & Hd1 & Hdirs & Hframe).
      { intros q H1 H2. rewrite Hother by (now apply Hlonger). apply H.
        - etrans; [|exact H1]. now apply prefix_app_r.
        - now rewrite <- app_assoc in H2. }
      exists fs1. split; [exact E|]. split; [congruence|]. split.
      - intros q H1 H2. destruct (decide (q = done)) as [->|Hne].
        + rewrite Hframe; [exact Hdone|]. intros [H3 _]. now apply (Hlonger done).
        + apply Hdirs; [|now rewrite <- app_assoc].
          destruct H1 as [k ->]. destruct k as [|m k]; [now rewrite app_nil_r in Hne|].
          destruct H2 as [k' Hk']. rewrite <- app_assoc in Hk'. apply app_inv_head in Hk'.
          injection Hk' as <- _. exists k. now rewrite <- app_assoc.
      - intros q Hq. destruct (decide (q = done)) as [->|Hne].
        + exfalso. apply Hq. split; [reflexivity | now apply prefix_app_r].
        + rewrite Hframe; [now apply Hother|]. intros [H1 H2]. apply Hq. split.
          * etrans; [|exact H1]. now apply prefix_app_r.
          * now rewrite <- app_assoc in H2. }
    simpl. destruct (H done) as [E|E]; try reflexivity; [now apply prefix_app_r|..];
      rewrite E.
    + apply Hstep; simpl; [reflexivity | apply lookup_insert_eq |].
      intros q Hne. now apply lookup_insert_ne.
    + apply Hstep; auto.
Qed.

Lemma mkdirSync_ok fs dst :
  reachable fs dst -> names fs !! dst = None ->
  exists fs1, mkdirSync fs dst = Ok fs1 /\ data fs1 = data fs
    /\ (forall q, q `prefix_of` dst -> names fs1 !! q = Some Dir)
    /\ (forall q, ¬ (q `prefix_of` dst) -> names fs1 !! q = names fs !! q).
Proof.
  intros Hr Hd. destruct (mkdir_from_ok dst [] fs) as (fs1 & E & Hdata & Hdirs & Hframe).
  - intros q _ Hq. simpl in Hq. destruct (decide (q = dst)) as [->|Hne]; auto.
  - exists fs1. split; [exact E|]. split; [exact Hdata|]. split.
    + intros q Hq. apply Hdirs; [apply prefix_nil | exact Hq].
    + intros q Hq. apply Hframe. intros [_ H]. now apply Hq.
Qed.

Lemma children_spec fs p n e :
  (n, e) ∈ children fs p <-> names fs !! (p ++ [n])%list = Some e.
Proof.
  unfold children. rewrite list_elem_of_omap. split.
  - intros ([q e'] & Hin & Hf). apply elem_of_map_to_list in Hin. simpl in Hf.
    destruct (child_of p q) as [m|] eqn:Ec; [|discriminate].
    injection Hf as -> ->. apply child_of_spec in Ec. now subst.
  - intros H. exists ((p ++ [n])%list, e). split; [now apply elem_of_map_to_list|].
    simpl. now rewrite (proj2 (child_of_spec p _ n) eq_refl).
Qed.

Lemma children_nodup fs p : NoDup (children fs p).*1.
Proof.
  unfold children. pose proof (NoDup_fst_map_to_list (names fs)) as Hnd.
  induction (map_to_list (names fs)) as [|[q e] l IH]; simpl; [constructor|].
  apply NoDup_cons in Hnd. destruct Hnd as [Hq Hl].
  destruct (child_of p q) as [m|] eqn:Ec; simpl; [|now apply IH].
  apply NoDup_cons. split; [|now apply IH].
  intros Hin. apply list_elem_of_fmap in Hin. destruct Hin as ([m' e'] & -> & Hin).
  apply list_elem_of_omap in Hin. destruct Hin as ([q' e''] & Hin' & Hf). simpl in *.
  destruct (child_of p q') as [m''|] eqn:Ec'; [|discriminate]. injection Hf as -> ->.
  apply child_of_spec in Ec, Ec'. subst. apply Hq.
  apply list_elem_of_fmap. now exists ((p ++ [m'])%list, e').
Qed.

Lemma follow_here fuel fs p :
  match names fs !! p with Some (Symlink _) => False | _ => True end ->
  follow fuel fs p = Some p.
Proof. destruct fuel; simpl; destruct (names fs !! p) as [[]|]; tauto. Qed.

Lemma follow_symlink fuel fs p q :
  names fs !! p = Some (Symlink q) -> follow (S fuel) fs p = follow fuel fs q.
Proof. intros H. simpl. now rewrite H. Qed.

Lemma parent_snoc p n : parent (p ++ [n])%list = p.
Proof. unfold parent. apply removelast_last. Qed.

Lemma readFileSync_file fs p i bytes :
  names fs !! p = Some (File i) -> data fs !! i = Some bytes ->
  readFileSync fs p = Ok bytes.
Proof.
  intros Hn Hd. unfold readFileSync. rewrite follow_here by now rewrite Hn.
  now rewrite Hn, Hd.
Qed.

Lemma readFileSync_symlink fs p q i bytes :
  names fs !! p = Some (Symlink q) ->
  names fs !! q = Some (File i) -> data fs !! i = Some bytes ->
  readFileSync fs p = Ok bytes.
Proof.
  intros Hp Hn Hd. unfold readFileSync. change MAXSYMLINKS with (S 39).
  rewrite (follow_symlink 39 fs p q Hp).
  rewrite follow_here by now rewrite Hn. now rewrite Hn, Hd.
Qed.

(** Writing a file where nothing is: a new inode. *)
Lemma writeFileSync_new fs dst n bytes :
  names fs !! (dst ++ [n])%list = None -> names fs !! dst = Some Dir ->
  let j := fresh (dom (data fs)) in
  writeFileSync fs (dst ++ [n])%list bytes
  = Ok {| names := <[(dst ++ [n])%list := File j]> (names fs);
          data := <[j := bytes]> (data fs) |}.
Proof.
  intros Hn Hd. unfold writeFileSync. rewrite follow_here by now rewrite Hn.
  now rewrite Hn, parent_snoc, Hd.
Qed.

(** An entry that is not a directory, linked to a name that is free. *)
Lemma link_file_fresh ft mode fs src dst n i bytes :
  names fs !! src = Some (File i) -> data fs !! i = Some bytes ->
  names fs !! (dst ++ [n])%list = None -> names fs !! dst = Some Dir ->
  exists fs' e,
    link_file ft mode fs src (dst ++ [n])%list = Ok fs'
    /\ names fs' = <[(dst ++ [n])%list := e]> (names fs)
    /\ (forall k, k ∈ dom (data fs) -> data fs' !! k = data fs !! k)
    /\ linked ft mode fs fs' src (dst ++ [n])%list i bytes.
Proof.
  intros Hs Hi Hn Hd.
  assert (Hcopy : exists fs' e,
             bind (readFileSync fs src) (writeFileSync fs (dst ++ [n])%list) = Ok fs'
             /\ names fs' = <[(dst ++ [n])%list := e]> (names fs)
             /\ (forall k, k ∈ dom (data fs) -> data fs' !! k = data fs !! k)
             /\ copied fs fs' (dst ++ [n])%list bytes).
  { rewrite (readFileSync_file fs src i bytes Hs Hi). simpl.
    rewrite writeFileSync_new by assumption.
    pose proof (is_fresh (dom (data fs))) as Hfresh.
    eexists _, _. split; [reflexivity|]. split; [reflexivity|]. split.
    - intros k Hk. simpl. apply lookup_insert_ne. intros <-. contradiction.
    - eexists. simpl. rewrite !lookup_insert_eq. auto. }
  unfold link_file, existsSync. rewrite follow_here by now rewrite Hn. rewrite Hn.
  cbn [bind]. unfold linked. destruct mode.
  - unfold linkSync. destruct (link_refused ft src (dst ++ [n])%list); [exact Hcopy|].
    rewrite Hs, Hn, parent_snoc, Hd. simpl.
    eexists _, _. split; [reflexivity|]. split; [reflexivity|]. split; [reflexivity|].
    simpl. apply lookup_insert_eq.
  - unfold symlinkSync. destruct (symlink_refused ft src (dst ++ [n])%list); [exact Hcopy|].
    rewrite Hn, parent_snoc, Hd. simpl.
    eexists _, _. split; [reflexivity|]. split; [reflexivity|]. split; [reflexivity|].
    simpl. apply lookup_insert_eq.
  - exact Hcopy.
Qed.

End Operations.

Section LinkPackage.
Import Linker.
Implicit Types (p q src dst : path) (n : string) (fs : FS).

Context (ft : Faults) (mode : LinkMode).

Lemma file_at_ext fs fs' p rel :
  (forall q, p `prefix_of` q -> names fs' !! q = names fs !! q) ->
  file_at fs' p rel = file_at fs p rel.
Proof.
  revert p. induction rel as [|n rel IH]; intros p H; [reflexivity|].
  cbn [file_at]. rewrite (H (p ++ [n])%list) by (now apply prefix_app_r).
  destruct rel as [|m rel]; [reflexivity|].
  destruct (names fs !! (p ++ [n])%list) as [[]|]; try reflexivity.
  apply IH. intros q Hq. apply H. etrans; [|exact Hq]. now apply prefix_app_r.
Qed.

Lemma file_at_names fs p rel i :
  file_at fs p rel = Some i -> names fs !! (p ++ rel)%list = Some (File i).
Proof.
  revert p. induction rel as [|n rel IH]; intros p; [discriminate|].
  cbn [file_at]. destruct rel as [|m rel].
  - destruct (names fs !! (p ++ [n])%list) as [[]|] eqn:E; try discriminate.
    now intros [= ->].
  - destruct (names fs !! (p ++ [n])%list) as [[]|] eqn:E; try discriminate.
    intros H. apply IH in H. now rewrite <- app_assoc in H.
Qed.

Lemma file_at_cons fs p n rel i :
  file_at fs p (n :: rel) = Some i ->
  (rel = [] /\ names fs !! (p ++ [n])%list = Some (File i))
  \/ (rel <> [] /\ names fs !! (p ++ [n])%list = Some Dir
      /\ file_at fs (p ++ [n])%list rel = Some i).
Proof.
  cbn [file_at]. destruct rel as [|m rel].
  - destruct (names fs !! (p ++ [n])%list) as [[]|]; try discriminate.
    intros [= ->]. auto.
  - destruct (names fs !! (p ++ [n])%list) as [[]|]; try discriminate.
    intros H. right. split; [discriminate|]. split; [reflexivity | exact H].
Qed.

(** What is said of a destination name stays true while the name and the
    inodes of the time are left alone. *)
Lemma linked_later fsA fsA' fsB fsC src dest i bytes :
  linked ft mode fsA fsB src dest i bytes ->
  dom (data fsA') ⊆ dom (data fsA) ->
  names fsC !! dest = names fsB !! dest ->
  (forall k, k ∈ dom (data fsB) -> data fsC !! k = data fsB !! k) ->
  linked ft mode fsA' fsC src dest i bytes.
Proof.
  intros H Hdom Hn Hd.
  assert (Hc : copied fsA fsB dest bytes -> copied fsA' fsC dest bytes).
  { intros (j & H1 & H2 & H3). exists j. split; [congruence|]. split; [set_solver|].
    rewrite Hd; [exact H3|]. apply elem_of_dom. eauto. }
  unfold linked in *. destruct mode.
  - destruct (link_refused ft src dest); [auto | congruence].
  - destruct (symlink_refused ft src dest); [auto | congruence].
  - auto.
Qed.

Lemma below_child_not_above dst n q : (dst ++ [n])%list `prefix_of` q -> ¬ (q `prefix_of` dst).
Proof.
  intros [k ->] [k' Hk']. apply (f_equal length) in Hk'.
  rewrite !length_app in Hk'. simpl in Hk'. lia.
Qed.

Lemma below_child_below dst n q : (dst ++ [n])%list `prefix_of` q -> dst `prefix_of` q.
Proof. intros H. etrans; [|exact H]. now apply prefix_app_r. Qed.

Lemma below_two_children dst n m q :
  (dst ++ [n])%list `prefix_of` q -> (dst ++ [m])%list `prefix_of` q -> n = m.
Proof.
  intros [k ->] [k' Hk']. rewrite <- !app_assoc in Hk'. apply app_inv_head in Hk'.
  simpl in Hk'. congruence.
Qed.

(** A run that [links] changes names below its destination only, when the
    ancestors of the destination were directories already. *)
Lemma links_frame fs fs' src dst q :
  links ft mode fs fs' src dst ->
  (forall a, a `prefix_of` dst -> a <> dst -> names fs !! a = Some Dir) ->
  ¬ (dst `prefix_of` q) -> names fs' !! q = names fs !! q.
Proof.
  intros (F1 & F2 & _) Hanc Hq.
  destruct (decide (q `prefix_of` dst)) as [Ha|Ha]; [|now apply F1].
  rewrite F2 by exact Ha. symmetry. apply Hanc; [exact Ha|]. intros ->. now apply Hq.
Qed.

Lemma plain_entry_below fs1 fs2 fuel' n rel e :
  (forall k, k ∈ dom (data fs1) -> data fs2 !! k = data fs1 !! k) ->
  plain_entry fs1 (S fuel') (n :: rel) e = true -> plain_entry fs2 fuel' rel e = true.
Proof.
  intros Hd. destruct e as [|i|t]; simpl; auto.
  intros H. apply andb_prop in H. destruct H as [H1 H2].
  apply bool_decide_eq_true in H2. apply andb_true_intro. split; [exact H1|].
  apply bool_decide_eq_true. rewrite Hd; [exact H2 | now apply elem_of_dom].
Qed.

(** The loop of [linkPackage] over the entries [es] of [src], started in
    [fs_cur], given that the recursive calls do what [links] says. *)
Lemma for_each_links fuel'
    (IH : forall fs src dst,
        apart src dst -> vacant fs dst -> reachable fs dst ->
        plain_tree fs src fuel' -> (0 < fuel')%nat ->
        exists fs', linkPackage fuel' ft fs src dst mode = Ok fs'
                    /\ links ft mode fs fs' src dst)
    src dst fs1 :
  apart src dst ->
  (forall a, a `prefix_of` dst -> names fs1 !! a = Some Dir) ->
  plain_tree fs1 src (S fuel') ->
  forall (es : list (string * entry)) fs_cur,
    NoDup es.*1 ->
    (forall n e, (n, e) ∈ es -> names fs1 !! (src ++ [n])%list = Some e) ->
    (forall q, (forall n, ¬ ((dst ++ [n])%list `prefix_of` q)) ->
               names fs_cur !! q = names fs1 !! q) ->
    (forall k, k ∈ dom (data fs1) -> data fs_cur !! k = data fs1 !! k) ->
    (forall n e, (n, e) ∈ es -> vacant fs_cur (dst ++ [n])%list) ->
    exists fs',
      for_each
        (fun fs2 e =>
           if isDirectory (snd e)
           then linkPackage fuel' ft fs2 (src ++ [fst e])%list (dst ++ [fst e])%list mode
           else link_file ft mode fs2 (src ++ [fst e])%list (dst ++ [fst e])%list)
        es fs_cur = Ok fs'
      /\ (forall q, (forall n e, (n, e) ∈ es -> ¬ ((dst ++ [n])%list `prefix_of` q)) ->
                    names fs' !! q = names fs_cur !! q)
      /\ (forall k, k ∈ dom (data fs_cur) -> data fs' !! k = data fs_cur !! k)
      /\ (forall n e rel i bytes,
            (n, e) ∈ es -> file_at fs1 src (n :: rel) = Some i ->
            data fs1 !! i = Some bytes ->
            linked ft mode fs1 fs' (src ++ n :: rel)%list (dst ++ n :: rel)%list i bytes).
Proof.
  intros Hap Hanc [Hsrc Hplain].
  induction es as [|[n e] es IHes]; intros fs_cur Hnd Hent J1 J2 J3.
  { exists fs_cur. split; [reflexivity|]. split; [reflexivity|]. split; [reflexivity|].
    intros n e rel i bytes Hin. apply elem_of_nil in Hin. destruct Hin. }
  assert (Hsame : forall q, src `prefix_of` q -> names fs_cur !! q = names fs1 !! q).
  { intros q Hq. apply J1. intros m Hm.
    destruct (apart_below src dst q Hap Hq) as [H _]. apply H.
    now apply below_child_below in Hm. }
  assert (Hdom : dom (data fs1) ⊆ dom (data fs_cur)).
  { intros k Hk. apply elem_of_dom. rewrite J2 by exact Hk. now apply elem_of_dom. }
  assert (Hn : names fs1 !! (src ++ [n])%list = Some e) by (apply Hent; left).
  assert (Hvac : vacant fs_cur (dst ++ [n])%list) by (apply (J3 n e); left).
  assert (Hdst : forall a, a `prefix_of` dst -> names fs_cur !! a = Some Dir).
  { intros a Ha. rewrite J1; [now apply Hanc|].
    intros m Hm. now apply (below_child_not_above dst m a). }
  apply NoDup_cons in Hnd. destruct Hnd as [Hfresh Hnd]. simpl in Hfresh.
  pose proof (Hplain [n] e ltac:(discriminate) Hn) as He.
  (* one turn of the loop *)
  assert (Hstep : exists fs2,
    (if isDirectory e
     then linkPackage fuel' ft fs_cur (src ++ [n])%list (dst ++ [n])%list mode
     else link_file ft mode fs_cur (src ++ [n])%list (dst ++ [n])%list) = Ok fs2
    /\ (forall q, ¬ ((dst ++ [n])%list `prefix_of` q) -> names fs2 !! q = names fs_cur !! q)
    /\ (forall k, k ∈ dom (data fs_cur) -> data fs2 !! k = data fs_cur !! k)
    /\ (forall rel i bytes,
          file_at fs1 src (n :: rel) = Some i -> data fs1 !! i = Some bytes ->
          linked ft mode fs_cur fs2 (src ++ n :: rel)%list (dst ++ n :: rel)%list i bytes)).
  { destruct e as [|i0|target]; [| |discriminate He].
    - (* a directory: the recursive call *)
      unfold plain_entry in He. apply Nat.ltb_lt in He. simpl in He.
      assert (Hanc' : forall a, a `prefix_of` (dst ++ [n])%list -> a <> (dst ++ [n])%list ->
                                names fs_cur !! a = Some Dir).
      { intros a Ha Hne. apply prefix_snoc_inv in Ha. destruct Ha as [->|Ha]; [congruence|].
        now apply Hdst. }
      destruct (IH fs_cur (src ++ [n])%list (dst ++ [n])%list) as (fs2 & E & HL).
      + now apply apart_child.
      + exact Hvac.
      + intros a Ha Hne. right. now apply Hanc'.
      + split.
        * rewrite Hsame by (now apply prefix_app_r). exact Hn.
        * intros rel e' Hrel He'. rewrite <- app_assoc in He'.
          rewrite Hsame in He' by (now apply prefix_app_r).
          apply (plain_entry_below fs1 fs_cur fuel' n rel e' J2).
          apply Hplain; [discriminate | exact He'].
      + lia.
      + exists fs2. simpl. split; [exact E|]. split; [|split].
        * intros q Hq. now apply (links_frame fs_cur fs2 _ _ q HL Hanc').
        * apply HL.
        * intros rel i bytes Hf Hb. apply file_at_cons in Hf.
          destruct Hf as [[_ Hf]|(Hrel & _ & Hf)]; [congruence|].
          destruct HL as (_ & _ & _ & HC).
          specialize (HC rel i bytes). rewrite <- !app_assoc in HC. apply HC.
          -- rewrite (file_at_ext fs1 fs_cur); [exact Hf|]. intros q Hq. apply Hsame.
             etrans; [|exact Hq]. now apply prefix_app_r.
          -- rewrite J2; [exact Hb | now apply elem_of_dom].
    - (* a regular file *)
      unfold plain_entry in He. apply andb_prop in He. destruct He as [_ He].
      apply bool_decide_eq_true in He. destruct He as [bytes0 Hb0].
      destruct (link_file_fresh ft mode fs_cur (src ++ [n])%list dst n i0 bytes0)
        as (fs2 & e' & E & Hnames & Hdata & HL).
      + rewrite Hsame by (now apply prefix_app_r). exact Hn.
      + rewrite J2; [exact Hb0 | now apply elem_of_dom].
      + now apply Hvac.
      + now apply Hdst.
      + exists fs2. simpl. split; [exact E|]. split; [|split].
        * intros q Hq. rewrite Hnames. apply lookup_insert_ne. intros <-. now apply Hq.
        * exact Hdata.
        * intros rel i bytes Hf Hb. apply file_at_cons in Hf.
          destruct Hf as [[-> Hf]|(_ & Hf & _)]; [|congruence].
          rewrite Hn in Hf. injection Hf as <-.
          rewrite Hb0 in Hb. injection Hb as <-. exact HL. }
  destruct Hstep as (fs2 & E2 & S1 & S2 & S3).
  destruct (IHes fs2) as (fs' & E' & K' & D' & C').
  - exact Hnd.
  - intros m e' Hin. apply Hent. now right.
  - intros q Hq. rewrite S1 by (apply Hq). now apply J1.
  - intros k Hk. rewrite S2 by (now apply Hdom). now apply J2.
  - intros m e' Hin q Hq. rewrite S1.
    + apply (J3 m e'); [now right | exact Hq].
    + intros Hq'. pose proof (below_two_children dst n m q Hq' Hq) as ->.
      apply Hfresh. apply list_elem_of_fmap. now exists (m, e').
  - exists fs'. split; [cbn [for_each bind fst snd]; rewrite E2; exact E'|].
    split; [|split].
    + intros q Hq. rewrite K'.
      * apply S1. apply (Hq n e). left.
      * intros m e' Hin. apply (Hq m e'). now right.
    + intros k Hk. rewrite D'; [now apply S2|].
      apply elem_of_dom. rewrite S2 by exact Hk. now apply elem_of_dom.
    + intros m e' rel i bytes Hin Hf Hb. apply elem_of_cons in Hin.
      destruct Hin as [[= -> ->]|Hin]; [|now apply (C' m e')].
      apply (linked_later fs_cur fs1 fs2 fs'); [now apply S3 | exact Hdom | | exact D'].
      apply K'. intros m e' Hin Hm.
      assert ((dst ++ [n])%list `prefix_of` (dst ++ n :: rel)%list) as Hn'
        by (exists rel; now rewrite <- app_assoc).
      pose proof (below_two_children dst m n _ Hm Hn') as ->.
      apply Hfresh. apply list_elem_of_fmap. now exists (n, e').
Qed.

Lemma linkPackage_links fuel : forall fs src dst,
  apart src dst -> vacant fs dst -> reachable fs dst ->
  plain_tree fs src fuel -> (0 < fuel)%nat ->
  exists fs', linkPackage fuel ft fs src dst mode = Ok fs' /\ links ft mode fs fs' src dst.
Proof.
  induction fuel as [|fuel' IH]; intros fs src dst Hap Hvac Hreach Hplain Hpos; [lia|].
  destruct (mkdirSync_ok fs dst Hreach) as (fs1 & E1 & Hdata & Hdirs & Hframe).
  { apply Hvac. reflexivity. }
  assert (Hsame : forall q, src `prefix_of` q -> names fs1 !! q = names fs !! q).
  { intros q Hq. apply Hframe. now destruct (apart_below src dst q Hap Hq). }
  assert (Hplain1 : plain_tree fs1 src (S fuel')).
  { destruct Hplain as [H1 H2]. split.
    - rewrite Hsame by reflexivity. exact H1.
    - intros rel e Hrel He. rewrite Hsame in He by (now apply prefix_app_r).
      specialize (H2 rel e Hrel He). destruct e; simpl in *; auto. now rewrite Hdata. }
  destruct (for_each_links fuel' IH src dst fs1 Hap Hdirs Hplain1 (children fs1 src) fs1)
    as (fs' & E' & K & D & C).
  - apply children_nodup.
  - intros n e. apply children_spec.
  - reflexivity.
  - reflexivity.
  - intros n e _ q Hq. rewrite Hframe by (now apply (below_child_not_above dst n)).
    apply Hvac. now apply (below_child_below dst n).
  - exists fs'. split.
    + cbn [linkPackage]. rewrite E1. cbn [bind]. unfold readdirSync.
      destruct Hplain1 as [-> _]. cbn [bind]. exact E'.
    + split; [|split; [|split]].
      * intros q H1 H2. rewrite K; [now apply Hframe|].
        intros n e _ Hq. apply H1. now apply (below_child_below dst n).
      * intros q Hq. rewrite K; [now apply Hdirs|].
        intros n e _ Hq'. now apply (below_child_not_above dst n q).
      * intros k Hk. rewrite <- Hdata in Hk |- *. now apply D.
      * intros rel i bytes Hf Hb. destruct rel as [|n rel]; [discriminate|].
        assert (Hf1 : file_at fs1 src (n :: rel) = Some i)
          by (rewrite (file_at_ext fs fs1); [exact Hf | exact Hsame]).
        assert (exists e, (n, e) ∈ children fs1 src) as [e He].
        { apply file_at_cons in Hf1. destruct Hf1 as [[_ H]|(_ & H & _)];
            eexists; apply children_spec; exact H. }
        apply (linked_later fs1 fs fs' fs'); auto.
        -- apply (C n e); [exact He | exact Hf1 | now rewrite Hdata].
        -- now rewrite Hdata.
Qed.

End LinkPackage.

Section Preconditions.
Import Linker.

Lemma apartb_spec (p q : path) : apartb p q = true -> apart p q.
Proof.
  unfold apartb, apart. rewrite andb_true_iff, !negb_true_iff. intros [H1 H2].
  split; intros H; apply prefixb_spec in H; congruence.
Qed.

Lemma forallb_names (f : path * entry -> bool) (fs : FS) (q : path) (e : entry) :
  forallb f (map_to_list (names fs)) = true -> names fs !! q = Some e -> f (q, e) = true.
Proof.
  intros H Hq. rewrite forallb_forall in H. apply H.
  apply list_elem_of_In. now apply elem_of_map_to_list.
Qed.

Lemma vacantb_spec (fs : FS) (p : path) : vacantb fs p = true -> vacant fs p.
Proof.
  intros H q Hq. destruct (names fs !! q) as [e|] eqn:E; [|reflexivity].
  apply (forallb_names _ fs q e H) in E. simpl in E.
  apply prefixb_spec in Hq. rewrite Hq in E. discriminate.
Qed.

Lemma reachableb_spec (fs : FS) (p : path) : reachableb fs p = true -> reachable fs p.
Proof.
  intros H q Hq Hne. destruct (names fs !! q) as [e|] eqn:E; [right|now left].
  apply (forallb_names _ fs q e H) in E. simpl in E.
  apply prefixb_spec in Hq. rewrite Hq in E. simpl in E.
  rewrite bool_decide_eq_false_2 in E by exact Hne. simpl in E.
  destruct e; try discriminate. reflexivity.
Qed.

Lemma plain_treeb_spec (fs : FS) (p : path) (depth : nat) :
  plain_treeb fs p depth = true -> plain_tree fs p depth.
Proof.
  unfold plain_treeb. intros H. apply andb_prop in H. destruct H as [H1 H2]. split.
  - destruct (names fs !! p) as [[]|]; try discriminate. reflexivity.
  - intros rel e Hrel He. apply (forallb_names _ fs _ e H2) in He. simpl in He.
    rewrite (proj2 (below_spec p (p ++ rel)%list rel) eq_refl) in He.
    destruct rel; [contradiction | exact He].
Qed.

(** C8. Linking a source tree of directories and regular files into a
    destination that is apart from it and does not exist yet always
    completes, for every platform and in every mode: a refused hard link or
    symbolic link surfaces no error.  Afterwards every regular file of the
    source has, at the same place below the destination, a counterpart with
    the same contents, and the source reads as before.  The counterpart is,
    file by file, the hard link (the same inode) or the symbolic link when
    the platform grants it, and otherwise a new file holding a copy of the
    bytes. *)
Theorem linkPackage_links_or_copies
    (ft : Faults) (mode : LinkMode) (fs : FS) (src dst : path) (fuel : nat) :
  apartb src dst = true -> vacantb fs dst = true -> reachableb fs dst = true ->
  plain_treeb fs src (S fuel) = true ->
  exists fs',
    linkPackage (S fuel) ft fs src dst mode = Ok fs'
    /\ forall rel i bytes,
         file_at fs src rel = Some i -> data fs !! i = Some bytes ->
         readFileSync fs (src ++ rel)%list = Ok bytes
         /\ readFileSync fs' (src ++ rel)%list = Ok bytes
         /\ readFileSync fs' (dst ++ rel)%list = Ok bytes
         /\ linked ft mode fs fs' (src ++ rel)%list (dst ++ rel)%list i bytes.
Proof.
  intros Hap Hvac Hreach Hplain.
  apply apartb_spec in Hap. apply vacantb_spec in Hvac.
  apply reachableb_spec in Hreach. apply plain_treeb_spec in Hplain.
  destruct (linkPackage_links ft mode (S fuel) fs src dst Hap Hvac Hreach Hplain)
    as (fs' & E & F1 & F2 & F3 & C); [lia|].
  exists fs'. split; [exact E|]. intros rel i bytes Hf Hb.
  pose proof (file_at_names fs src rel i Hf) as Hn.
  assert (Hsrc' : names fs' !! (src ++ rel)%list = Some (File i)).
  { destruct (apart_below src dst (src ++ rel)%list Hap) as [H1 H2];
      [now apply prefix_app_r|]. now rewrite F1. }
  assert (Hb' : data fs' !! i = Some bytes)
    by (rewrite F3; [exact Hb | now apply elem_of_dom]).
  specialize (C rel i bytes Hf Hb).
  split; [now apply (readFileSync_file fs _ i)|].
  split; [now apply (readFileSync_file fs' _ i)|].
  split; [|exact C].
  assert (Hcopy : copied fs fs' (dst ++ rel)%list bytes ->
                  readFileSync fs' (dst ++ rel)%list = Ok bytes).
  { intros (j & H1 & _ & H3). now apply (readFileSync_file fs' _ j). }
  unfold linked in C. destruct mode.
  - destruct (link_refused ft _ _); [auto|]. now apply (readFileSync_file fs' _ i).
  - destruct (symlink_refused ft _ _); [auto|].
    now apply (readFileSync_symlink fs' _ (src ++ rel)%list i).
  - auto.
Qed.

Lemma linkPackage_links_or_copies_witness :
  apartb ["store"; "pkg"] ["project"; "node_modules"; "pkg"] = true
  /\ vacantb demo_fs ["project"; "node_modules"; "pkg"] = true
  /\ reachableb demo_fs ["project"; "node_modules"; "pkg"] = true
  /\ plain_treeb demo_fs ["store"; "pkg"] 2 = true
  /\ exists fs',
      linkPackage 2 demo_faults demo_fs ["store"; "pkg"]
        ["project"; "node_modules"; "pkg"] hardlink = Ok fs'
      /\ forall rel i bytes,
           file_at demo_fs ["store"; "pkg"] rel = Some i -> data demo_fs !! i = Some bytes ->
           readFileSync demo_fs (["store"; "pkg"] ++ rel)%list = Ok bytes
           /\ readFileSync fs' (["store"; "pkg"] ++ rel)%list = Ok bytes
           /\ readFileSync fs' (["project"; "node_modules"; "pkg"] ++ rel)%list = Ok bytes
           /\ linked demo_faults hardlink demo_fs fs' (["store"; "pkg"] ++ rel)%list
                (["project"; "node_modules"; "pkg"] ++ rel)%list i bytes.
Proof.
  split; [vm_compute; reflexivity|]. split; [vm_compute; reflexivity|].
  split; [vm_compute; reflexivity|]. split; [vm_compute; reflexivity|].
  apply (linkPackage_links_or_copies demo_faults hardlink demo_fs
           ["store"; "pkg"] ["project"; "node_modules"; "pkg"] 1);
    vm_compute; reflexivity.
Defined.

(** The demo run: [index.js] becomes a hard link (inode 1), [lib/util.js],
    whose hard link the platform refuses, a copy in a new inode; both read
    as their sources do.  Linking again over the result, in symlink mode on
    a platform that refuses symbolic links, removes each old name and
    writes copies, and still completes. *)
Example demo_run :
  match linkPackage 2 demo_faults demo_fs ["store"; "pkg"]
          ["project"; "node_modules"; "pkg"] hardlink with
  | Ok fs' =>
      names fs' !! ["project"; "node_modules"; "pkg"; "index.js"] = Some (File 1)
      /\ names fs' !! ["project"; "node_modules"; "pkg"; "lib"; "util.js"] = Some (File 3)
      /\ readFileSync fs' ["project"; "node_modules"; "pkg"; "lib"; "util.js"]
         = Ok "exports.util = 2"
      /\ match linkPackage 2 demo_faults fs' ["store"; "pkg"]
                 ["project"; "node_modules"; "pkg"] symlink with
         | Ok fs'' =>
             names fs'' !! ["project"; "node_modules"; "pkg"; "index.js"] = Some (File 4)
             /\ readFileSync fs'' ["project"; "node_modules"; "pkg"; "index.js"]
                = Ok "module.exports = 1"
         | _ => False
         end
  | _ => False
  end.
Proof. vm_compute. repeat split; reflexivity. Qed.

(** Without the premise that the two trees are apart the recursion need not
    end: with the destination inside the source every level of fuel is used
    up. *)
Example destination_inside_source :
  linkPackage 50 demo_faults demo_fs ["store"] ["store"; "pkg"; "copy"] hardlink = OutOfFuel.
Proof. vm_compute. reflexivity. Qed.

End Preconditions.

(** ** Package specs, command lines, file extensions *)

Section StringSearch.
Import JsString.

Lemma lacks_cons c a s : lacks c (String a s) = negb (Ascii.eqb a c) && lacks c s.
Proof. reflexivity. Qed.

Lemma lacks_app c a b : lacks c (a ++ b) = lacks c a && lacks c b.
Proof.
  induction a as [|x a IH]; [reflexivity|].
  change (String x a ++ b) with (String x (a ++ b)).
  rewrite !lacks_cons, IH. now rewrite andb_assoc.
Qed.

Lemma indexOf_none c s : indexOf c s = None <-> lacks c s = true.
Proof.
  induction s as [|a s IH]; simpl; [tauto|]. rewrite lacks_cons.
  destruct (Ascii.eqb a c); simpl; [split; discriminate|].
  rewrite <- IH. destruct (indexOf c s); simpl; split; congruence.
Qed.

Lemma indexOf_some c s n :
  indexOf c s = Some n ->
  s = slice_to n s ++ String c (Js.slice (S n) s) /\ lacks c (slice_to n s) = true.
Proof.
  revert n. induction s as [|a s IH]; intros n; simpl; [discriminate|].
  destruct (Ascii.eqb a c) eqn:E.
  - intros [= <-]. apply Ascii.eqb_eq in E. subst a. split; reflexivity.
  - destruct (indexOf c s) as [m|]; simpl; [|discriminate]. intros [= <-].
    destruct (IH m eq_refl) as [H1 H2]. split.
    + change (String a s = String a (slice_to m s ++ String c (Js.slice (S m) s))).
      now rewrite <- H1.
    + change (lacks c (String a (slice_to m s)) = true).
      rewrite lacks_cons, E, H2. reflexivity.
Qed.

Lemma lastIndexOf_none c s : lastIndexOf c s = None <-> lacks c s = true.
Proof.
  induction s as [|a s IH]; simpl; [tauto|]. rewrite lacks_cons.
  destruct (lastIndexOf c s) as [i|].
  - split; [discriminate|]. intros H. apply andb_prop in H. destruct H as [_ H].
    apply IH in H. discriminate.
  - rewrite (proj1 IH eq_refl), andb_true_r.
    destruct (Ascii.eqb a c); simpl; split; congruence.
Qed.

Lemma lastIndexOf_some c s n :
  lastIndexOf c s = Some n ->
  s = slice_to n s ++ String c (Js.slice (S n) s) /\ lacks c (Js.slice (S n) s) = true.
Proof.
  revert n. induction s as [|a s IH]; intros n; simpl; [discriminate|].
  destruct (lastIndexOf c s) as [m|] eqn:El.
  - intros [= <-]. destruct (IH m eq_refl) as [H1 H2]. split; [|exact H2].
    change (String a s = String a (slice_to m s ++ String c (Js.slice (S m) s))).
    now rewrite <- H1.
  - destruct (Ascii.eqb a c) eqn:E; [|discriminate]. intros [= <-].
    apply Ascii.eqb_eq in E. subst a. split; [reflexivity|].
    now apply lastIndexOf_none.
Qed.

Lemma indexOf_app c a b :
  lacks c a = true -> indexOf c (a ++ String c b) = Some (String.length a).
Proof.
  induction a as [|x a IH]; simpl.
  - now rewrite Ascii.eqb_refl.
  - rewrite lacks_cons. intros H. apply andb_prop in H. destruct H as [Hx Ha].
    apply negb_true_iff in Hx. rewrite Hx, (IH Ha). reflexivity.
Qed.

Lemma lastIndexOf_app c a b :
  lacks c b = true -> lastIndexOf c (a ++ String c b) = Some (String.length a).
Proof.
  intros Hb. induction a as [|x a IH]; simpl.
  - rewrite (proj2 (lastIndexOf_none c b) Hb). now rewrite Ascii.eqb_refl.
  - now rewrite IH.
Qed.

Lemma slice_to_app a b : slice_to (String.length a) (a ++ b) = a.
Proof.
  induction a as [|x a IH]; simpl; [now destruct b|]. now rewrite IH.
Qed.

Lemma slice_app a b : Js.slice (String.length a) (a ++ b) = b.
Proof. induction a as [|x a IH]; simpl; [reflexivity | exact IH]. Qed.

Lemma startsWith_char a x s : Js.startsWith (String a "") (String x s) = Ascii.eqb a x.
Proof.
  change (Js.startsWith (String a "") (String x s)) with (Ascii.eqb a x && true).
  apply andb_true_r.
Qed.

Lemma slice_to_nonempty n s : s <> "" -> slice_to (S n) s <> "".
Proof. destruct s; [congruence | discriminate]. Qed.

End StringSearch.

Section PackageSpec.
Import JsString Cli.

Lemma slice_after a c b : Js.slice (String.length a + 1) (a ++ String c b) = b.
Proof. induction a as [|x a IH]; [reflexivity | exact IH]. Qed.

(** X1. A name and a version joined by an at sign come back from
    [parsePackageSpec] as they were: for a name that is not empty and has no
    at sign after its first character (a plain name, or a scoped one such as
    [@scope/pkg]), and, for a scoped name, a version without at sign. *)
Theorem parsePackageSpec_round_trip (name version : string) :
  name <> "" ->
  lacks at_sign (Js.slice 1 name) = true ->
  negb (Js.startsWith "@" name) || lacks at_sign version = true ->
  parsePackageSpec (name ++ "@" ++ version)
  = {| spec_name := name; spec_version := version |}.
Proof.
  intros Hne Hname Hver. destruct name as [|x rest]; [congruence|].
  change (Js.slice 1 (String x rest)) with rest in Hname.
  unfold parsePackageSpec.
  change (String x rest ++ "@" ++ version) with (String x (rest ++ String at_sign version)).
  change (Js.startsWith "@" (String x (rest ++ String at_sign version)))
    with (Js.startsWith "@" (String x rest)).
  change (String x (rest ++ String at_sign version))
    with (String x rest ++ String at_sign version).
  destruct (Js.startsWith "@" (String x rest)) eqn:Es.
  - simpl in Hver. rewrite (lastIndexOf_app at_sign (String x rest) version Hver).
    change (String.length (String x rest)) with (S (String.length rest)). cbv beta iota.
    change (S (String.length rest)) with (String.length (String x rest)).
    now rewrite slice_to_app, slice_after.
  - assert (Hx : lacks at_sign (String x rest) = true).
    { rewrite lacks_cons, Hname, andb_true_r. rewrite startsWith_char in Es.
      rewrite Ascii.eqb_sym. unfold at_sign. now rewrite Es. }
    rewrite (indexOf_app at_sign (String x rest) version Hx).
    change (String.length (String x rest)) with (S (String.length rest)). cbv beta iota.
    change (S (String.length rest)) with (String.length (String x rest)).
    now rewrite slice_to_app, slice_after.
Qed.

Lemma parsePackageSpec_round_trip_witness :
  parsePackageSpec ("@types/node" ++ "@" ++ "^20.1.0")
  = {| spec_name := "@types/node"; spec_version := "^20.1.0" |}.
Proof.
  apply (parsePackageSpec_round_trip "@types/node" "^20.1.0");
    [discriminate | reflexivity | reflexivity].
Defined.

(** X2. [parsePackageSpec] loses nothing of the spec.  Either the spec has
    no at sign after its first character, and it is the name, with version
    [latest]; or the spec is the name, an at sign and the version, the name
    is not empty, and the split is at the last at sign for a scoped spec
    (the version has none) and at the first otherwise (the name has
    none). *)
Theorem parsePackageSpec_splits_at_version (spec : string) :
  let r := parsePackageSpec spec in
  (lacks at_sign (Js.slice 1 spec) = true
   /\ r = {| spec_name := spec; spec_version := "latest" |})
  \/ (spec = spec_name r ++ "@" ++ spec_version r
      /\ spec_name r <> ""
      /\ (if Js.startsWith "@" spec then lacks at_sign (spec_version r)
          else lacks at_sign (spec_name r)) = true).
Proof.
  unfold parsePackageSpec. destruct (Js.startsWith "@" spec) eqn:Es.
  - destruct (lastIndexOf at_sign spec) as [[|i]|] eqn:El; simpl.
    + left. split; [|reflexivity]. destruct spec as [|x rest]; [reflexivity|].
      simpl in El. destruct (lastIndexOf at_sign rest) eqn:E2; [discriminate|].
      now apply lastIndexOf_none.
    + right. destruct (lastIndexOf_some _ _ _ El) as [H1 H2].
      replace (i + 1)%nat with (S i) by lia.
      split; [exact H1|]. split; [|exact H2].
      apply slice_to_nonempty. intros ->. discriminate.
    + left. apply lastIndexOf_none in El. split; [|reflexivity].
      destruct spec; [reflexivity|]. rewrite lacks_cons in El.
      apply andb_prop in El. tauto.
  - destruct (indexOf at_sign spec) as [[|i]|] eqn:Ei; simpl.
    + exfalso. destruct spec as [|x rest]; [discriminate|].
      rewrite startsWith_char, Ascii.eqb_sym in Es.
      change (indexOf at_sign (String x rest))
        with (if Ascii.eqb x at_sign then Some O else S <$> indexOf at_sign rest) in Ei.
      unfold at_sign in Ei. rewrite Es in Ei.
      destruct (indexOf "@" rest); discriminate.
    + right. destruct (indexOf_some _ _ _ Ei) as [H1 H2].
      replace (i + 1)%nat with (S i) by lia.
      split; [exact H1|]. split; [|exact H2].
      apply slice_to_nonempty. intros ->. discriminate.
    + left. apply indexOf_none in Ei. split; [|reflexivity].
      destruct spec; [reflexivity|]. rewrite lacks_cons in Ei.
      apply andb_prop in Ei. tauto.
Qed.

End PackageSpec.

Section ParseArgs.
Import JsString Cli.

#[local] Abbreviation dashed := (fun a : string => Js.startsWith "-" a = true).
#[local] Abbreviation plain := (fun a : string => Js.startsWith "-" a = false).

Lemma leading_spec args o :
  exists pre, args = (pre ++ snd (leading args o))%list
    /\ Forall dashed pre
    /\ fst (leading args o) = flags_of pre o
    /\ match snd (leading args o) with a :: _ => plain a | [] => True end.
Proof.
  revert o. induction args as [|arg rest IH]; intros o.
  - exists []. repeat split; auto.
  - cbn [leading]. destruct (Js.startsWith "-" arg) eqn:Ed.
    + destruct (IH (if is_one_of arg "-V" "--version"
                    then set_version (if is_one_of arg "-h" "--help" then set_help o else o)
                    else (if is_one_of arg "-h" "--help" then set_help o else o)))
        as (pre & E & Hpre & Ho & Hhd).
      exists (arg :: pre). split; [simpl; now rewrite <- E|].
      split; [now constructor|]. split; [|exact Hhd].
      rewrite Ho. unfold flags_of. cbn [existsb].
      destruct (is_one_of arg "-h" "--help"), (is_one_of arg "-V" "--version"),
        (existsb (fun a => is_one_of a "-h" "--help") pre),
        (existsb (fun a => is_one_of a "-V" "--version") pre), o; reflexivity.
    + exists []. repeat split; auto.
Qed.

(** The second loop takes its arguments one or two at a time. *)
Lemma pairs_ind (P : list string -> Prop) :
  P [] -> (forall a, P [a]) ->
  (forall a b l, P l -> P (b :: l) -> P (a :: b :: l)) ->
  forall l, P l.
Proof.
  intros H0 H1 H2 l. enough (P l /\ forall a, P (a :: l)) by tauto.
  induction l as [|b l [IHl IHbl]]; [auto|]. split; [apply IHbl|].
  intros a. apply H2; [exact IHl | apply IHbl].
Qed.

Lemma remaining_cons arg rest r :
  remaining (arg :: rest) r =
  if is_one_of arg "-d" "--dictionary" then
    match rest with
    | val :: rest' =>
        remaining rest' (if truthy val then with_options (set_dictionary val) r else r)
    | [] => r
    end
  else if is_one_of arg "-l" "--level" then
    match rest with
    | val :: rest' => remaining rest' (with_options (set_level (Js.parseInt val)) r)
    | [] => with_options (set_level (Js.parseInt "11")) r
    end
  else if is_one_of arg "-o" "--output" then
    match rest with
    | val :: rest' =>
        remaining rest' (if truthy val then with_options (set_output val) r else r)
    | [] => r
    end
  else if is_one_of arg "-r" "--recursive" then remaining rest (with_options set_recursive r)
  else if is_one_of arg "-v" "--verbose" then remaining rest (with_options set_verbose r)
  else if is_one_of arg "-h" "--help" then remaining rest (with_options set_help r)
  else if is_one_of arg "-V" "--version" then remaining rest (with_options set_version r)
  else if negb (Js.startsWith "-" arg) then remaining rest (push_file arg r)
  else remaining rest r.
Proof. reflexivity. Qed.

Lemma is_one_of_dashed a s l :
  is_one_of a s l = true -> dashed s -> dashed l -> dashed a.
Proof.
  unfold is_one_of. intros H Hs Hl. apply orb_prop in H.
  destruct H as [E|E]; apply String.eqb_eq in E; now subst a.
Qed.

Lemma remaining_files n :
  forall args, (length args <= n)%nat ->
  forall r, exists fs,
    files (remaining args r) = (files r ++ fs)%list
    /\ command (remaining args r) = command r
    /\ sublist fs args /\ Forall plain fs
    /\ (existsb takes_value args = false ->
        fs = List.filter (fun a => negb (Js.startsWith "-" a)) args).
Proof.
  induction n as [|n IH]; intros args Hlen r.
  { destruct args; [|simpl in Hlen; lia].
    exists []. cbn [remaining]. rewrite app_nil_r. repeat split; auto. }
  destruct args as [|a rest].
  { exists []. cbn [remaining]. rewrite app_nil_r. repeat split; auto. }
  simpl in Hlen.
  assert (Hskip : forall rest' r',
    (length rest' <= n)%nat -> files r' = files r -> command r' = command r ->
    sublist rest' rest ->
    exists fs, files (remaining rest' r') = (files r ++ fs)%list
      /\ command (remaining rest' r') = command r
      /\ sublist fs (a :: rest) /\ Forall plain fs
      /\ (rest' = rest -> dashed a -> existsb takes_value rest = false ->
          fs = List.filter (fun a => negb (Js.startsWith "-" a)) (a :: rest))).
  { intros rest' r' Hl Hf Hc Hsub. destruct (IH rest' Hl r') as (fs & H1 & H2 & H3 & H4 & H5).
    exists fs. rewrite H1, H2, Hf, Hc. repeat split; auto.
    - apply sublist_cons. now transitivity rest'.
    - intros -> Hd Hv. cbn [List.filter]. rewrite Hd. cbn [negb]. now apply H5. }
  assert (Hflag : forall f, dashed a -> takes_value a = false ->
    exists fs, files (remaining rest (with_options f r)) = (files r ++ fs)%list
      /\ command (remaining rest (with_options f r)) = command r
      /\ sublist fs (a :: rest) /\ Forall plain fs
      /\ (existsb takes_value (a :: rest) = false ->
          fs = List.filter (fun a => negb (Js.startsWith "-" a)) (a :: rest))).
  { intros f Hd Ht. destruct (Hskip rest (with_options f r)) as (fs & H1 & H2 & H3 & H4 & H5);
      [lia | reflexivity | reflexivity | reflexivity |].
    exists fs. repeat split; auto. cbn [existsb]. rewrite Ht. intros Hv. now apply H5. }
  assert (Hvalue : forall r', takes_value a = true ->
    files r' = files r -> command r' = command r ->
    exists fs,
      files (match rest with _ :: rest' => remaining rest' r' | [] => r' end)
        = (files r ++ fs)%list
      /\ command (match rest with _ :: rest' => remaining rest' r' | [] => r' end) = command r
      /\ sublist fs (a :: rest) /\ Forall plain fs
      /\ (existsb takes_value (a :: rest) = false ->
          fs = List.filter (fun a => negb (Js.startsWith "-" a)) (a :: rest))).
  { intros r' Ht Hf Hc. destruct rest as [|val rest'].
    - exists []. rewrite Hf, Hc, app_nil_r. repeat split; auto.
      + apply sublist_nil_l.
      + cbn [existsb]. rewrite Ht. discriminate.
    - destruct (Hskip rest' r') as (fs & H1 & H2 & H3 & H4 & H5);
        [simpl in Hlen; lia | exact Hf | exact Hc | apply sublist_cons; reflexivity|].
      exists fs. repeat split; auto. cbn [existsb]. rewrite Ht. discriminate. }
  rewrite remaining_cons. unfold takes_value in Hflag, Hvalue.
  destruct (is_one_of a "-d" "--dictionary") eqn:E1.
  { destruct rest as [|val rest'];
      [apply (Hvalue r); auto|].
    apply (Hvalue (if truthy val then with_options (set_dictionary val) r else r));
      auto; destruct (truthy val); reflexivity. }
  destruct (is_one_of a "-l" "--level") eqn:E2.
  { destruct rest as [|val rest'].
    - apply (Hvalue (with_options (set_level (Js.parseInt "11")) r)); auto.
    - apply (Hvalue (with_options (set_level (Js.parseInt val)) r)); auto. }
  destruct (is_one_of a "-o" "--output") eqn:E3.
  { destruct rest as [|val rest'];
      [apply (Hvalue r); auto|].
    apply (Hvalue (if truthy val then with_options (set_output val) r else r));
      auto; destruct (truthy val); reflexivity. }
  destruct (is_one_of a "-r" "--recursive") eqn:E4;
    [apply Hflag; [eapply is_one_of_dashed; eauto | reflexivity]|].
  destruct (is_one_of a "-v" "--verbose") eqn:E5;
    [apply Hflag; [eapply is_one_of_dashed; eauto | reflexivity]|].
  destruct (is_one_of a "-h" "--help") eqn:E6;
    [apply Hflag; [eapply is_one_of_dashed; eauto | reflexivity]|].
  destruct (is_one_of a "-V" "--version") eqn:E7;
    [apply Hflag; [eapply is_one_of_dashed; eauto | reflexivity]|].
  destruct (Js.startsWith "-" a) eqn:Ed; cbn [negb].
  - destruct (Hflag (fun o => o) eq_refl eq_refl) as (fs & H1 & H2 & H3 & H4 & H5).
    exists fs. replace (with_options (fun o => o) r) with r in H1, H2 by now destruct r.
    repeat split; auto.
  - destruct (IH rest ltac:(lia) (push_file a r)) as (fs & H1 & H2 & H3 & H4 & H5).
    exists (a :: fs). rewrite H1, H2. cbn [push_file files command].
    rewrite <- app_assoc. repeat split; auto.
    + now apply sublist_skip.
    + cbn [existsb]. unfold takes_value at 1. rewrite E1, E2, E3. cbn [orb].
      intros Hv. rewrite (H5 Hv). cbn [List.filter]. now rewrite Ed.
Qed.

(** X3. What [parseArgs] takes for the command and the files.  The
    arguments are some that start with a dash, then, if any is left, the
    command, which does not start with a dash, and the rest.  The files are
    arguments of the rest, in their order, and none starts with a dash;
    when no option with a value ([-d], [-l], [-o] and their long forms)
    occurs in the rest, the files are all its arguments that do not start
    with a dash.  When every argument starts with a dash the command is
    empty and there are no files. *)
Theorem parseArgs_command_and_files (args : list string) :
  let r := parseArgs args in
  exists pre post,
    Forall dashed pre
    /\ ((args = pre /\ post = [] /\ command r = "")
        \/ (args = (pre ++ command r :: post)%list /\ plain (command r)))
    /\ sublist (files r) post
    /\ Forall plain (files r)
    /\ (existsb takes_value post = false ->
        files r = List.filter (fun a => negb (Js.startsWith "-" a)) post).
Proof.
  unfold parseArgs. destruct (leading_spec args no_options) as (pre & E & Hpre & _ & Hhd).
  destruct (leading args no_options) as [o rest]. cbn [fst snd] in *.
  exists pre. destruct rest as [|cmd rest'].
  - exists []. cbn. rewrite app_nil_r in E. repeat split; auto.
  - exists rest'.
    destruct (remaining_files (length rest') rest' (le_n _)
                {| command := cmd; files := []; options := o |})
      as (fs & H1 & H2 & H3 & H4 & H5).
    cbn [files command] in H1, H2. rewrite app_nil_l in H1. rewrite H1, H2.
    repeat split; auto.
Qed.

Lemma set_help_comm (f : Options -> Options) :
  In f [set_recursive; set_verbose; set_help; set_version] \/
  (exists v, f = set_dictionary v) \/ (exists v, f = set_level v) \/ (exists v, f = set_output v) ->
  forall o, f (set_help o) = set_help (f o).
Proof.
  intros H o. destruct o.
  destruct H as [H | [[v ->] | [[v ->] | [v ->]]]]; try reflexivity.
  cbn [In] in H. destruct H as [<- | [<- | [<- | [<- | []]]]]; reflexivity.
Qed.

Lemma set_version_comm (f : Options -> Options) :
  In f [set_recursive; set_verbose; set_help; set_version] \/
  (exists v, f = set_dictionary v) \/ (exists v, f = set_level v) \/ (exists v, f = set_output v) ->
  forall o, f (set_version o) = set_version (f o).
Proof.
  intros H o. destruct o.
  destruct H as [H | [[v ->] | [[v ->] | [v ->]]]]; try reflexivity.
  cbn [In] in H. destruct H as [<- | [<- | [<- | [<- | []]]]]; reflexivity.
Qed.

(** A setter [g] that commutes with every setter of the loop can be applied
    before the loop or after it. *)
Lemma remaining_comm (g : Options -> Options) :
  (forall f, In f [set_recursive; set_verbose; set_help; set_version] \/
     (exists v, f = set_dictionary v) \/ (exists v, f = set_level v)
     \/ (exists v, f = set_output v) ->
     forall o, f (g o) = g (f o)) ->
  forall args r, remaining args (with_options g r) = with_options g (remaining args r).
Proof.
  intros Hg.
  assert (Hw : forall f r,
    In f [set_recursive; set_verbose; set_help; set_version] \/
     (exists v, f = set_dictionary v) \/ (exists v, f = set_level v)
     \/ (exists v, f = set_output v) ->
    with_options f (with_options g r) = with_options g (with_options f r)).
  { intros f r Hf. unfold with_options. cbn. now rewrite (Hg f Hf). }
  induction args as [| a | a b l IHl IHbl] using pairs_ind; intros r.
  - reflexivity.
  - rewrite !remaining_cons.
    repeat match goal with
           | |- context [if ?c then _ else _] => destruct c
           end;
      cbn [remaining]; try reflexivity; try (apply Hw; cbn [In]; eauto 10).
  - rewrite !(remaining_cons a).
    destruct (is_one_of a "-d" "--dictionary").
    { destruct (truthy b); [|apply IHl]. rewrite Hw by eauto 10. apply IHl. }
    destruct (is_one_of a "-l" "--level"); [rewrite Hw by eauto 10; apply IHl|].
    destruct (is_one_of a "-o" "--output").
    { destruct (truthy b); [|apply IHl]. rewrite Hw by eauto 10. apply IHl. }
    destruct (is_one_of a "-r" "--recursive");
      [rewrite Hw by (cbn [In]; eauto 10); apply IHbl|].
    destruct (is_one_of a "-v" "--verbose");
      [rewrite Hw by (cbn [In]; eauto 10); apply IHbl|].
    destruct (is_one_of a "-h" "--help");
      [rewrite Hw by (cbn [In]; eauto 10); apply IHbl|].
    destruct (is_one_of a "-V" "--version");
      [rewrite Hw by (cbn [In]; eauto 10); apply IHbl|].
    destruct (negb (Js.startsWith "-" a)); [|apply IHbl].
    change (push_file a (with_options g r)) with (with_options g (push_file a r)).
    apply IHbl.
Qed.

Lemma leading_app pre rest o :
  Forall dashed pre -> leading (pre ++ rest) o = leading rest (flags_of pre o).
Proof.
  intros H. revert o. induction H as [|a pre Ha Hpre IH]; intros o.
  - destruct o; reflexivity.
  - cbn [app leading]. rewrite Ha, IH. f_equal. unfold flags_of. cbn [existsb].
    destruct (is_one_of a "-h" "--help"), (is_one_of a "-V" "--version"),
      (existsb (fun a => is_one_of a "-h" "--help") pre),
      (existsb (fun a => is_one_of a "-V" "--version") pre), o; reflexivity.
Qed.

Lemma leading_flags args g o :
  (forall o', set_help (g o') = g (set_help o')) ->
  (forall o', set_version (g o') = g (set_version o')) ->
  leading args (g o) = (g (fst (leading args o)), snd (leading args o)).
Proof.
  intros Hh Hv. revert o. induction args as [|a args IH]; intros o; [reflexivity|].
  cbn [leading]. destruct (Js.startsWith "-" a); [|reflexivity].
  destruct (is_one_of a "-h" "--help"), (is_one_of a "-V" "--version");
    rewrite ?Hh, ?Hv; apply IH.
Qed.

Lemma flags_of_comm pre :
  (forall f, In f [set_recursive; set_verbose; set_help; set_version] \/
     (exists v, f = set_dictionary v) \/ (exists v, f = set_level v)
     \/ (exists v, f = set_output v) ->
     forall o, f (flags_of pre o) = flags_of pre (f o)).
Proof.
  intros f Hf o. unfold flags_of.
  destruct (existsb (fun a => is_one_of a "-h" "--help") pre),
    (existsb (fun a => is_one_of a "-V" "--version") pre);
    rewrite ?(set_version_comm f Hf), ?(set_help_comm f Hf); reflexivity.
Qed.

(** X4. Options in front of the command have no effect, the help and the
    version flag apart: the result for arguments that start with a dash
    followed by more arguments is the result for the latter, with help or
    version set when one of the former asks for it.  So an option with a
    value loses it when it comes first: its value is read as the command. *)
Theorem parseArgs_leading_options (pre rest : list string) :
  Forall (fun a => Js.startsWith "-" a = true) pre ->
  parseArgs (pre ++ rest) = with_options (flags_of pre) (parseArgs rest).
Proof.
  intros Hpre. unfold parseArgs. rewrite (leading_app pre rest no_options Hpre).
  rewrite (leading_flags rest (flags_of pre) no_options).
  - destruct (leading rest no_options) as [o rest']. cbn [fst snd].
    destruct rest' as [|cmd rest'']; [reflexivity|].
    change {| command := cmd; files := []; options := flags_of pre o |}
      with (with_options (flags_of pre) {| command := cmd; files := []; options := o |}).
    apply remaining_comm. apply flags_of_comm.
  - intros o'. apply (flags_of_comm pre set_help). cbn [In]. eauto 10.
  - intros o'. apply (flags_of_comm pre set_version). cbn [In]. eauto 10.
Qed.

Lemma parseArgs_leading_options_witness :
  parseArgs (["-o"; "--help"] ++ ["out.pakk"; "compress"; "a.js"])
  = with_options (flags_of ["-o"; "--help"]) (parseArgs ["out.pakk"; "compress"; "a.js"])
  /\ command (parseArgs ["-o"; "out.pakk"; "compress"; "a.js"]) = "out.pakk"
  /\ output (options (parseArgs ["-o"; "out.pakk"; "compress"; "a.js"])) = None.
Proof.
  split; [|split; reflexivity].
  apply (parseArgs_leading_options ["-o"; "--help"] ["out.pakk"; "compress"; "a.js"]).
  repeat constructor.
Defined.

End ParseArgs.

Section ByExtension.
Import JsString Extension.

Lemma toLowerCase_app a b : toLowerCase (a ++ b) = toLowerCase a ++ toLowerCase b.
Proof.
  induction a as [|x a IH]; [reflexivity|].
  change (String (lower x) (toLowerCase (a ++ b))
          = String (lower x) (toLowerCase a ++ toLowerCase b)).
  now rewrite IH.
Qed.

Lemma lower_lower c : lower (lower c) = lower c.
Proof. destruct c as [[] [] [] [] [] [] [] []]; reflexivity. Qed.

Lemma lower_dot c : Ascii.eqb (lower c) "." = Ascii.eqb c ".".
Proof. destruct c as [[] [] [] [] [] [] [] []]; reflexivity. Qed.

Lemma toLowerCase_idem s : toLowerCase (toLowerCase s) = toLowerCase s.
Proof.
  induction s as [|x s IH]; [reflexivity|].
  change (String (lower (lower x)) (toLowerCase (toLowerCase s))
          = String (lower x) (toLowerCase s)).
  now rewrite lower_lower, IH.
Qed.

Lemma toLowerCase_lacks_dot s : lacks "." (toLowerCase s) = lacks "." s.
Proof.
  induction s as [|x s IH]; [reflexivity|].
  change (lacks "." (String (lower x) (toLowerCase s)) = lacks "." (String x s)).
  now rewrite !lacks_cons, lower_dot, IH.
Qed.

Lemma extension_of_dotless ext : lacks "." ext = true -> extension ext = toLowerCase ext.
Proof.
  intros H. unfold extension. rewrite split_no_sep; [reflexivity|].
  rewrite <- toLowerCase_lacks_dot in H. exact H.
Qed.

Lemma extension_app base ext :
  lacks "." ext = true -> extension (base ++ "." ++ ext) = toLowerCase ext.
Proof.
  intros H. unfold extension. rewrite toLowerCase_app.
  change (toLowerCase ("." ++ ext)) with (String "." (toLowerCase ext)).
  rewrite split_app, (split_no_sep "." (toLowerCase ext)).
  - apply last_last.
  - rewrite <- toLowerCase_lacks_dot in H. exact H.
Qed.

(** X5. [detectFromExtension] looks at nothing but what follows the last
    dot, and not at its case: a file name that ends in a dot and an
    extension without dot is classified as the bare extension is, and as
    its lower-case spelling is.  (A name without any dot is its own
    extension.) *)
Theorem detectFromExtension_last_segment (base ext : string) :
  lacks "." ext = true ->
  detectFromExtension (base ++ "." ++ ext) = detectFromExtension ext
  /\ detectFromExtension (base ++ "." ++ ext) = detectFromExtension (toLowerCase ext)
  /\ detectFromExtension (toLowerCase (base ++ "." ++ ext))
     = detectFromExtension (base ++ "." ++ ext).
Proof.
  intros H. unfold detectFromExtension.
  rewrite (extension_app base ext H), (extension_of_dotless ext H).
  split; [reflexivity|]. split.
  - rewrite extension_of_dotless by now rewrite toLowerCase_lacks_dot.
    now rewrite toLowerCase_idem.
  - unfold extension at 1. rewrite toLowerCase_idem.
    fold (extension (base ++ "." ++ ext)). now rewrite (extension_app base ext H).
Qed.

Lemma detectFromExtension_last_segment_witness :
  detectFromExtension ("src/App.test" ++ "." ++ "TSX") = detectFromExtension "TSX"
  /\ detectFromExtension ("src/App.test" ++ "." ++ "TSX") = Dictionary.react.
Proof.
  split; [|reflexivity].
  apply (detectFromExtension_last_segment "src/App.test" "TSX"). reflexivity.
Defined.

End ByExtension.

(** ** Downloads *)

Section Downloads.
Import Download.

Context (request : nat -> string -> string + Response).

#[local] Abbreviation download := (downloadTarball request).

Lemma downloadTarball_bound fuel : forall url count,
  (6 - count <= fuel)%nat ->
  snd (download fuel url count) <> OutOfFuel
  /\ (length (fst (download fuel url count)) <= 6 - count)%nat
  /\ (snd (download fuel url count) = Throws TooManyRedirects ->
      length (fst (download fuel url count)) = (6 - count)%nat).
Proof.
  induction fuel as [|fuel IH]; intros url count Hf.
  - cbn [downloadTarball]. destruct (5 <? count)%nat eqn:E.
    + apply Nat.ltb_lt in E. cbn. repeat split; [discriminate | lia | lia].
    + apply Nat.ltb_ge in E. lia.
  - cbn [downloadTarball]. destruct (5 <? count)%nat eqn:E.
    { apply Nat.ltb_lt in E. cbn. repeat split; [discriminate | lia | lia]. }
    apply Nat.ltb_ge in E.
    destruct (request count url) as [reason|response];
      [cbn; repeat split; [discriminate | lia | discriminate]|].
    destruct ((300 <=? statusCode response) && (statusCode response <? 400)).
    + destruct (location response) as [loc|];
        [|cbn; repeat split; [discriminate | lia | discriminate]].
      destruct (JsString.truthy loc);
        [|cbn; repeat split; [discriminate | lia | discriminate]].
      destruct (IH loc (count + 1)%nat ltac:(lia)) as (H1 & H2 & H3).
      destruct (download fuel loc (count + 1)) as [log r]. cbn [fst snd length] in *.
      repeat split; [exact H1 | lia | intros Hr; rewrite (H3 Hr); lia].
    + destruct (negb (statusCode response =? 200));
        cbn; repeat split; try discriminate; lia.
Qed.

(** X6. A download ends after at most six requests, whatever the network
    answers, a loop of redirects included, and six levels of recursion are
    enough for it; it ends with [Too many redirects] only after exactly six
    requests. *)
Theorem downloadTarball_at_most_six_requests (url : string) :
  snd (downloadTarball request 6 url 0) <> OutOfFuel
  /\ (length (fst (downloadTarball request 6 url 0)) <= 6)%nat
  /\ (snd (downloadTarball request 6 url 0) = Throws TooManyRedirects ->
      length (fst (downloadTarball request 6 url 0)) = 6%nat).
Proof. apply (downloadTarball_bound 6 url 0). lia. Qed.

Lemma redirect_chain_cons n url next rest :
  redirect_chain request n (url :: next :: rest)
  = redirects_to request n url next && redirect_chain request (S n) (next :: rest).
Proof. reflexivity. Qed.

Lemma redirects_to_step fuel n url next :
  redirects_to request n url next = true -> (n <= 5)%nat ->
  download (S fuel) url n
  = (url :: fst (download fuel next (n + 1)), snd (download fuel next (n + 1))).
Proof.
  unfold redirects_to. intros H Hn. cbn [downloadTarball].
  replace (5 <? n)%nat with false by (symmetry; apply Nat.ltb_ge; lia).
  destruct (request n url) as [|response]; [discriminate|].
  destruct ((300 <=? statusCode response) && (statusCode response <? 400));
    [|discriminate].
  destruct (location response) as [loc|]; [|discriminate].
  cbn [andb] in H. apply andb_prop in H. destruct H as [Ht He].
  apply String.eqb_eq in He. subst loc. rewrite Ht.
  now destruct (download fuel next (n + 1)).
Qed.

Lemma downloadTarball_chain urls : forall fuel n final response,
  redirect_chain request n (urls ++ [final]) = true ->
  request (n + length urls) final = inr response ->
  statusCode response = 200 ->
  (n + length urls <= 5)%nat -> (length urls < fuel)%nat ->
  download fuel final (n + length urls)
    = ([final], Ok (Buffer_concat (body response)))
  /\ download fuel (hd final urls) n
    = ((urls ++ [final])%list, Ok (Buffer_concat (body response))).
Proof.
  induction urls as [|url urls IH]; intros fuel n final response Hc Hr Hs Hn Hf.
  - cbn [length hd app] in *. rewrite Nat.add_0_r in *.
    destruct fuel as [|fuel]; [lia|]. cbn [downloadTarball].
    replace (5 <? n)%nat with false by (symmetry; apply Nat.ltb_ge; lia).
    rewrite Hr, Hs. cbn. auto.
  - cbn [length hd app] in *. destruct fuel as [|fuel]; [lia|].
    assert (Hnext : exists next, (urls ++ [final])%list = next :: tl (urls ++ [final])
                                 /\ next = hd final urls).
    { destruct urls; cbn; eauto. }
    destruct Hnext as (next & E & Enext). rewrite E in Hc.
    rewrite redirect_chain_cons in Hc. apply andb_prop in Hc. destruct Hc as [H1 H2].
    rewrite <- E in H2.
    destruct (IH fuel (S n) final response H2) as [IH1 IH2];
      [now rewrite <- Hr; f_equal; lia | exact Hs | lia | lia |].
    replace (S n + length urls)%nat with (n + S (length urls))%nat in IH1 by lia.
    split.
    + destruct fuel as [|fuel']; [lia|].
      cbn [downloadTarball].
      replace (5 <? n + S (length urls))%nat with false by (symmetry; apply Nat.ltb_ge; lia).
      rewrite Hr, Hs. cbn. auto.
    + rewrite (redirects_to_step fuel n url next H1) by lia.
      replace (n + 1)%nat with (S n) by lia. rewrite Enext, IH2. reflexivity.
Qed.

(** X7. A chain of at most five redirects is followed to its end: when each
    URL of a list is answered by a redirect to the next and the last by
    status 200, the download requests exactly these URLs, in order, and
    returns the chunks of the last body, concatenated. *)
Theorem downloadTarball_follows_redirects
    (urls : list string) (final : string) (response : Response) :
  redirect_chain request 0 (urls ++ [final]) = true ->
  request (length urls) final = inr response ->
  statusCode response = 200 ->
  (length urls <= 5)%nat ->
  downloadTarball request 6 (hd final urls) 0
  = ((urls ++ [final])%list, Ok (Buffer_concat (body response))).
Proof.
  intros Hc Hr Hs Hn.
  apply (downloadTarball_chain urls 6 0%nat final response); auto; cbn; lia.
Qed.

Lemma downloadTarball_long_chain urls : forall fuel n,
  redirect_chain request n urls = true ->
  (6 - n < length urls)%nat -> (6 - n <= fuel)%nat ->
  download fuel (hd "" urls) n = (firstn (6 - n) urls, Throws TooManyRedirects).
Proof.
  induction urls as [|url urls IH]; intros fuel n Hc Hl Hf; [cbn in Hl; lia|].
  cbn [hd]. destruct (5 <? n)%nat eqn:E.
  - pose proof (proj1 (Nat.ltb_lt _ _) E) as E'. replace (6 - n)%nat with 0%nat by lia.
    destruct fuel; cbn [downloadTarball]; rewrite E; reflexivity.
  - apply Nat.ltb_ge in E. destruct fuel as [|fuel]; [lia|].
    destruct urls as [|next urls]; [cbn in Hl; lia|].
    rewrite redirect_chain_cons in Hc. apply andb_prop in Hc. destruct Hc as [H1 H2].
    rewrite (redirects_to_step fuel n url next H1) by lia.
    replace (n + 1)%nat with (S n) by lia.
    change next with (hd "" (next :: urls)).
    rewrite (IH fuel (S n) H2) by (cbn [length] in *; lia).
    replace (6 - n)%nat with (S (6 - S n)) by lia. reflexivity.
Qed.

(** X8. The sixth redirect is not followed: when the first six URLs of a
    chain each redirect to the next, the download requests these six, does
    not request the seventh, and throws [Too many redirects], whatever the
    seventh would answer. *)
Theorem downloadTarball_gives_up_at_sixth_redirect (urls : list string) :
  redirect_chain request 0 urls = true ->
  (6 < length urls)%nat ->
  downloadTarball request 6 (hd "" urls) 0 = (firstn 6 urls, Throws TooManyRedirects).
Proof.
  intros Hc Hl. apply (downloadTarball_long_chain urls 6 0%nat); auto.
Qed.

End Downloads.

Lemma downloadTarball_follows_redirects_witness :
  Download.downloadTarball (Download.hops 5) 6 "hop0" 0
  = (["hop0"; "hop1"; "hop2"; "hop3"; "hop4"; "hop5"], Download.Ok "tarball").
Proof.
  apply (downloadTarball_follows_redirects (Download.hops 5)
           ["hop0"; "hop1"; "hop2"; "hop3"; "hop4"] "hop5"
           {| Download.statusCode := 200; Download.location := None;
              Download.body := ["tar"; "ball"] |});
    [reflexivity | reflexivity | reflexivity | cbn; lia].
Defined.

Lemma downloadTarball_gives_up_at_sixth_redirect_witness :
  Download.downloadTarball (Download.hops 6) 6 "hop0" 0
  = (["hop0"; "hop1"; "hop2"; "hop3"; "hop4"; "hop5"],
     Download.Throws Download.TooManyRedirects).
Proof.
  apply (downloadTarball_gives_up_at_sixth_redirect (Download.hops 6)
           ["hop0"; "hop1"; "hop2"; "hop3"; "hop4"; "hop5"; "hop6"]);
    [reflexivity | cbn; lia].
Defined.

(** ** Editing the manifest *)

Section Tables.
Import Registry Install Manifest.

Lemma assoc_set {A} k k' (v : A) l :
  assoc k (set k' v l) = if String.eqb k' k then Some v else assoc k l.
Proof.
  induction l as [|[k0 v0] l IH]; simpl.
  - destruct (String.eqb k' k); reflexivity.
  - destruct (String.eqb_spec k0 k') as [->|Hne]; simpl.
    + destruct (String.eqb k' k); reflexivity.
    + rewrite IH. destruct (String.eqb_spec k0 k) as [->|Hk]; [|reflexivity].
      destruct (String.eqb_spec k' k) as [->|]; [congruence | reflexivity].
Qed.

Lemma assoc_delete_key k n l :
  assoc k (delete_key n l) = if String.eqb k n then None else assoc k l.
Proof.
  unfold delete_key. induction l as [|[k0 v0] l IH]; simpl.
  - now destruct (String.eqb k n).
  - destruct (String.eqb_spec k0 n) as [->|Hne]; simpl.
    + rewrite IH. rewrite (String.eqb_sym n k). now destruct (String.eqb k n).
    + rewrite IH. destruct (String.eqb_spec k0 k) as [->|Hk]; [|reflexivity].
      destruct (String.eqb_spec k n); [congruence | reflexivity].
Qed.

Lemma assoc_in_nodup {A} k (v : A) l :
  List.NoDup (map fst l) -> In (k, v) l -> assoc k l = Some v.
Proof.
  induction l as [|[k0 v0] l IH]; simpl; [tauto|].
  intros Hnd [E|Hin].
  - injection E as -> ->. now rewrite String.eqb_refl.
  - apply List.NoDup_cons_iff in Hnd. destruct Hnd as [Hk Hnd].
    destruct (String.eqb_spec k0 k) as [->|Hne]; [|now apply IH].
    exfalso. apply Hk. change k with (fst (k, v)). now apply in_map.
Qed.

Lemma assoc_none {A} k (l : list (string * A)) : assoc k l = None <-> ~ In k (map fst l).
Proof.
  rewrite <- has_false. unfold has. destruct (assoc k l); split; congruence.
Qed.

Lemma assoc_some_in {A} k (v : A) l : assoc k l = Some v -> In (k, v) l.
Proof.
  induction l as [|[k0 v0] l IH]; simpl; [discriminate|].
  destruct (String.eqb_spec k0 k) as [->|Hne]; [intros [= ->]; now left | auto].
Qed.

(** Tables with distinct keys that hold the same entries answer alike. *)
Lemma assoc_perm {A} k (l l' : list (string * A)) :
  List.NoDup (map fst l) -> Permutation l l' -> assoc k l' = assoc k l.
Proof.
  intros Hnd Hp.
  assert (Hnd' : List.NoDup (map fst l')).
  { eapply Permutation_NoDup; [|exact Hnd]. now apply Permutation_map. }
  destruct (assoc k l) as [v|] eqn:E.
  - apply assoc_in_nodup; [exact Hnd'|]. apply assoc_some_in in E.
    eapply Permutation_in; eauto.
  - apply assoc_none. apply assoc_none in E. intros Hin. apply E.
    eapply Permutation_in; [|exact Hin]. apply Permutation_map. now symmetry.
Qed.

Lemma insert_sorted_perm {A} (cmp : A -> A -> Z) x l :
  Permutation (Js.insert_sorted cmp x l) (x :: l).
Proof.
  induction l as [|y l IH]; simpl; [reflexivity|].
  destruct (cmp x y <=? 0); [reflexivity|].
  rewrite IH. apply perm_swap.
Qed.

Lemma sort_perm {A} (cmp : A -> A -> Z) l : Permutation (Js.sort cmp l) l.
Proof.
  unfold Js.sort. induction l as [|x l IH]; simpl; [reflexivity|].
  rewrite insert_sorted_perm. now constructor.
Qed.

Lemma fromEntries_nodup {A} (l : list (string * A)) :
  List.NoDup (map fst l) -> fromEntries l = l.
Proof.
  intros H. unfold fromEntries.
  rewrite (fold_set_fresh (fun e => e) l []); [now rewrite map_id|].
  simpl. now rewrite map_ext with (g := fst) by reflexivity.
Qed.

Lemma assoc_sortObject cmp k (obj : Deps) :
  List.NoDup (map fst obj) -> assoc k (sortObject cmp obj) = assoc k obj.
Proof.
  intros H. unfold sortObject.
  pose proof (sort_perm (fun e1 e2 : string * string => cmp (fst e1) (fst e2)) obj) as Hp.
  rewrite fromEntries_nodup.
  - apply assoc_perm; [exact H | now symmetry].
  - eapply Permutation_NoDup; [|exact H]. apply Permutation_map. now symmetry.
Qed.

Lemma sortObject_nil cmp (obj : Deps) :
  List.NoDup (map fst obj) -> sortObject cmp obj = [] -> obj = [].
Proof.
  intros H E. unfold sortObject in E. rewrite fromEntries_nodup in E.
  - eapply sort_nil_inv; eauto.
  - eapply Permutation_NoDup; [|exact H]. apply Permutation_map. symmetry. apply sort_perm.
Qed.

End Tables.

Section Remove.
Import Registry Install Manifest.

Lemma lookup_drop k n sec :
  lookup k (drop n sec) = if String.eqb k n && listed n sec then None else lookup k sec.
Proof.
  unfold drop. destruct (listed n sec) eqn:E; [|now rewrite andb_false_r].
  rewrite andb_true_r. destruct sec as [deps|]; simpl.
  - apply assoc_delete_key.
  - now destruct (String.eqb k n).
Qed.

Lemma remove_one_section st name s :
  In s sections -> s (manifest (remove_one st name)) = drop name (s (manifest st)).
Proof. cbn [In sections]. intros [<-|[<-|[<-|[<-|[]]]]]; reflexivity. Qed.

Lemma existsb_snoc {A} (f : A -> bool) l x : existsb f (l ++ [x]) = existsb f l || f x.
Proof. rewrite existsb_app. simpl. now rewrite orb_false_r. Qed.

Lemma mem_in k (l : list string) : existsb (String.eqb k) l = true <-> In k l.
Proof.
  rewrite existsb_exists. split.
  - intros (x & Hx & E). apply String.eqb_eq in E. now subst x.
  - intros H. exists k. split; [exact H | apply String.eqb_refl].
Qed.

#[local] Abbreviation anywhere pj name :=
  (existsb (fun s : PackageJson -> option Deps => listed name (s pj)) sections).

Lemma drop_none n sec : drop n sec = None <-> sec = None.
Proof. unfold drop. destruct (listed n sec), sec; simpl; split; congruence. Qed.

(** After the names in [done], a table lists [n] when it did at first and
    either [n] is not among them or [Object.prototype] has a member of
    that name. *)
Lemma listed_later (done : list string) n (sec0 sec : option Deps) :
  (sec = None <-> sec0 = None) ->
  lookup n sec = (if existsb (String.eqb n) done && listed n sec0 then None
                  else lookup n sec0) ->
  listed n sec
  = listed n sec0 && (negb (existsb (String.eqb n) done) || Js.inherited n).
Proof.
  intros Hnone Hl. destruct sec as [deps|], sec0 as [deps0|];
    try (exfalso; destruct Hnone as [H1 H2];
         first [now discriminate H1 | now discriminate H2]); [|reflexivity].
  unfold listed in *. cbn [lookup] in Hl. unfold Js.property in *.
  destruct (existsb (String.eqb n) done), (assoc n deps0) as [range|];
    try destruct (JsString.truthy range) eqn:Et;
    destruct (Js.inherited n) eqn:Ei;
    cbn [negb andb orb] in Hl |- *; rewrite Hl, ?Et, ?Ei; reflexivity.
Qed.

Lemma remove_loop pj packages : forall done st,
  (forall s, In s sections -> forall k,
     lookup k (s (manifest st))
     = if existsb (String.eqb k) done && listed k (s pj) then None else lookup k (s pj)) ->
  (forall s, In s sections -> s (manifest st) = None <-> s pj = None) ->
  (forall k, In k (removedPackages st) <-> In k done /\ anywhere pj k = true) ->
  pj_name (manifest st) = pj_name pj ->
  (forall s, In s sections -> forall k,
     lookup k (s (manifest (fold_left remove_one packages st)))
     = if existsb (String.eqb k) (done ++ packages) && listed k (s pj)
       then None else lookup k (s pj))
  /\ (forall k, In k (removedPackages (fold_left remove_one packages st))
                <-> In k (done ++ packages) /\ anywhere pj k = true)
  /\ pj_name (manifest (fold_left remove_one packages st)) = pj_name pj.
Proof.
  induction packages as [|n packages IH]; intros done st Hl Hs Hr Hn.
  - rewrite app_nil_r. auto.
  - cbn [fold_left].
    replace (done ++ n :: packages)%list with ((done ++ [n]) ++ packages)%list
      by now rewrite <- app_assoc.
    assert (Hlisted : forall s, In s sections ->
      listed n (s (manifest st))
      = listed n (s pj) && (negb (existsb (String.eqb n) done) || Js.inherited n)).
    { intros s Hin. apply listed_later; [now apply Hs | now apply Hl]. }
    apply IH.
    + intros s Hin k. rewrite (remove_one_section st n s Hin), lookup_drop.
      rewrite (Hlisted s Hin), (Hl s Hin k), existsb_snoc.
      destruct (String.eqb_spec k n) as [->|Hne]; cbn [andb].
      * rewrite orb_true_r. cbn [andb].
        destruct (existsb (String.eqb n) done), (listed n (s pj)), (Js.inherited n);
          reflexivity.
      * now rewrite orb_false_r.
    + intros s Hin. rewrite (remove_one_section st n s Hin), drop_none. now apply Hs.
    + intros k. cbn [remove_one removedPackages].
      assert (Hfound :
        listed n (pj_dependencies (manifest st)) || listed n (pj_devDependencies (manifest st))
        || listed n (pj_optionalDependencies (manifest st))
        || listed n (pj_peerDependencies (manifest st))
        = anywhere pj n && (negb (existsb (String.eqb n) done) || Js.inherited n)).
      { rewrite (Hlisted pj_dependencies), (Hlisted pj_devDependencies),
          (Hlisted pj_optionalDependencies), (Hlisted pj_peerDependencies)
          by (cbn [In sections]; tauto).
        cbn [existsb sections]. rewrite orb_false_r.
        destruct (negb (existsb (String.eqb n) done) || Js.inherited n);
          [now rewrite !andb_true_r, !orb_assoc | now rewrite !andb_false_r]. }
      rewrite Hfound.
      destruct (anywhere pj n) eqn:Ea; cbn [andb].
      * destruct (existsb (String.eqb n) done) eqn:Ed; cbn [negb orb].
        -- apply mem_in in Ed. destruct (Js.inherited n).
           ++ rewrite !in_app_iff, Hr. cbn [In]. split.
              ** intros [H|[<-|[]]]; tauto.
              ** intros [[H|[<-|[]]] Ha]; tauto.
           ++ rewrite in_app_iff, Hr. cbn [In]. split; [tauto|].
              intros [[H|[<-|[]]] Ha]; tauto.
        -- rewrite !in_app_iff, Hr. cbn [In]. split.
           ++ intros [H|[<-|[]]]; tauto.
           ++ intros [[H|[<-|[]]] Ha]; tauto.
      * rewrite in_app_iff, Hr. cbn [In]. split; [tauto|].
        intros [[H|[<-|[]]] Ha]; [tauto | congruence].
    + exact Hn.
Qed.

Lemma lookup_prune k sec : lookup k (prune sec) = lookup k sec.
Proof. destruct sec as [[|e l]|]; reflexivity. Qed.

Lemma prune_not_empty sec : prune sec <> Some [].
Proof. destruct sec as [[|e l]|]; discriminate. Qed.

Lemma listed_spec name deps :
  listed name (Some deps) = true <->
  (exists range, assoc name deps = Some range /\ range <> "")
  \/ (assoc name deps = None /\ Js.inherited name = true).
Proof.
  unfold listed, Js.property. destruct (assoc name deps) as [range|].
  - unfold JsString.truthy. destruct (String.eqb_spec range "") as [->|Hne]; cbn [negb].
    + split; [discriminate|]. intros [(r & [= <-] & Hr)|[H _]]; [now destruct Hr | discriminate].
    + split; [|reflexivity]. intros _. left. now exists range.
  - destruct (Js.inherited name).
    + split; [|reflexivity]. intros _. now right.
    + split; [discriminate|]. intros [(r & H & _)|[_ H]]; discriminate.
Qed.

(** X9. What [pakk remove] writes.  A table lists a name when it has an
    entry of its own for it with a range other than the empty string, or
    has no entry for it and the name is that of a member of
    [Object.prototype], as [constructor] and [toString] are: the read of
    the table finds that member.  When some name given on the command
    line was listed by some table, the manifest written differs from the
    one read only in this: in each of the four dependency tables, the
    entries of the names given that the table listed are gone, and a table
    left without entry is dropped; the packages reported as removed are
    the names given that some table listed.  When none was listed nothing
    is written.  The command stops before that at the request for help or
    without a name (usage), without [package.json] (exit), and on one
    that does not parse (the error of [JSON.parse]). *)
Theorem commandRemove_manifest (args : list string) (w : World) :
  let packages := rm_packages (remove_args args) in
  (forall name deps,
     listed name (Some deps) = true <->
     (exists range, assoc name deps = Some range /\ range <> "")
     \/ (assoc name deps = None /\ Js.inherited name = true))
  /\ match commandRemove args w with
     | Removed _ written removed =>
         exists pj, packageJson w = Parsed pj
         /\ pj_name written = pj_name pj
         /\ (forall name, In name removed <-> In name packages /\ anywhere pj name = true)
         /\ forall s, In s sections ->
              s written <> Some []
              /\ forall name,
                   lookup name (s written)
                   = if existsb (String.eqb name) packages && listed name (s pj)
                     then None else lookup name (s pj)
     | NothingRemoved _ =>
         exists pj, packageJson w = Parsed pj
         /\ forall name, In name packages -> anywhere pj name = false
     | RemoveUsage => rm_showHelp (remove_args args) = true \/ packages = []
     | RemoveExit =>
         rm_showHelp (remove_args args) = false /\ packages <> []
         /\ packageJson w = Missing
     | RemoveThrew =>
         rm_showHelp (remove_args args) = false /\ packages <> []
         /\ packageJson w = Unparsable
     end.
Proof.
  intros packages. split; [exact listed_spec|]. unfold commandRemove. fold packages.
  destruct (rm_showHelp (remove_args args)) eqn:Eh; cbn [orb]; [now left|].
  destruct packages as [|p0 ps] eqn:Ep; cbn [length Nat.eqb]; [now right|].
  rewrite <- Ep. assert (Hps : packages <> []) by (rewrite Ep; discriminate). clear Ep.
  destruct (packageJson w) as [| |pj]; [now auto | now auto|].
  destruct (remove_loop pj packages []
              {| manifest := pj; removedPackages := []; rm_messages := [] |})
    as (Hl & Hr & Hn).
  { intros s _ k. reflexivity. }
  { intros s _. reflexivity. }
  { intros k. cbn. tauto. }
  { reflexivity. }
  cbn [app] in Hl, Hr.
  destruct (removedPackages (fold_left remove_one packages _)) as [|r0 removed] eqn:Er.
  - exists pj. split; [reflexivity|]. intros name Hin.
    destruct (anywhere pj name) eqn:Ea; [|reflexivity].
    exfalso. apply (proj2 (Hr name)). auto.
  - exists pj. split; [reflexivity|]. split; [exact Hn|]. split; [exact Hr|].
    intros s Hs.
    assert (Es : s {| pj_name := pj_name (manifest (fold_left remove_one packages
                        {| manifest := pj; removedPackages := []; rm_messages := [] |}));
                      pj_dependencies := prune (pj_dependencies (manifest (fold_left remove_one packages
                        {| manifest := pj; removedPackages := []; rm_messages := [] |})));
                      pj_devDependencies := prune (pj_devDependencies (manifest (fold_left remove_one packages
                        {| manifest := pj; removedPackages := []; rm_messages := [] |})));
                      pj_peerDependencies := prune (pj_peerDependencies (manifest (fold_left remove_one packages
                        {| manifest := pj; removedPackages := []; rm_messages := [] |})));
                      pj_optionalDependencies := prune (pj_optionalDependencies (manifest (fold_left remove_one packages
                        {| manifest := pj; removedPackages := []; rm_messages := [] |}))) |}
                = prune (s (manifest (fold_left remove_one packages
                        {| manifest := pj; removedPackages := []; rm_messages := [] |})))).
    { revert Hs. cbn [In sections]. intros [<-|[<-|[<-|[<-|[]]]]]; reflexivity. }
    cbn [pj_name]. rewrite Es. split; [apply prune_not_empty|].
    intros name. rewrite lookup_prune. now apply Hl.
Qed.

(** [pakk remove constructor], in a project that depends on [lodash]
    alone: the read of the table finds [Object.prototype.constructor], the
    package is reported as removed and [package.json] is written, as it
    was; said twice, it is reported twice. *)
Example remove_inherited_name :
  let pj := {| pj_name := Some "app"; pj_dependencies := Some [("lodash", "^4.17.0")];
               pj_devDependencies := None; pj_peerDependencies := None;
               pj_optionalDependencies := None |} in
  let w := {| packageJson := Parsed pj; lockfile := Missing; indexFile := Missing;
              disk := ∅ |} in
  commandRemove ["constructor"] w = Removed [] pj ["constructor"]
  /\ commandRemove ["constructor"; "constructor"] w
     = Removed [] pj ["constructor"; "constructor"]
  /\ commandRemove ["express"] w = NothingRemoved [NotFoundInDependencies "express"].
Proof. repeat split; reflexivity. Qed.

End Remove.

Section Add.
Import Registry Install Manifest.

Context (NUM_CPUS : N).
Context (registry : string -> option Metadata).
Context (latest_tag : string -> option string).
Context (STORE_PATH : string).
Context (sha256 : string -> string).
Context (tarballs : string -> Download).
Context (linking_throws : list (string * string) -> StoreIndex -> gset string -> LinkMode -> bool).
Context (localeCompare : string -> string -> Z).

#[local] Abbreviation add_one := (Manifest.add_one registry latest_tag).
#[local] Abbreviation commandAdd :=
  (Manifest.commandAdd NUM_CPUS registry latest_tag STORE_PATH sha256 tarballs
     linking_throws localeCompare).

(** The registry's answer to a spec: the latest version, or the best
    version of the range. *)
#[local] Abbreviation answers spec v :=
  (let name := Cli.spec_name (Cli.parsePackageSpec spec) in
   let range := Cli.spec_version (Cli.parsePackageSpec spec) in
   (range = "latest" /\ getLatestVersion registry latest_tag name = Some v)
   \/ (range <> "latest"
       /\ exists metadata, registry name = Some metadata
          /\ Semver.findBestVersion (version_keys metadata) range = Some v)).

Lemma last_added_snoc k added n v :
  last_added k (added ++ [(n, v)]) = if String.eqb n k then Some v else last_added k added.
Proof.
  induction added as [|[n0 v0] added IH]; simpl; [reflexivity|].
  rewrite IH. destruct (String.eqb n k); [reflexivity|].
  now destruct (last_added k added).
Qed.

Lemma add_one_cases st spec :
  (targetDeps (add_one st spec) = targetDeps st
   /\ addedPackages (add_one st spec) = addedPackages st)
  \/ exists v,
       answers spec v
       /\ targetDeps (add_one st spec)
          = set (Cli.spec_name (Cli.parsePackageSpec spec)) ("^" ++ v) (targetDeps st)
       /\ addedPackages (add_one st spec)
          = (addedPackages st ++ [(Cli.spec_name (Cli.parsePackageSpec spec), v)])%list.
Proof.
  unfold Manifest.add_one.
  destruct (String.eqb_spec (Cli.spec_version (Cli.parsePackageSpec spec)) "latest") as [E|E].
  - destruct (getLatestVersion registry latest_tag _) as [v|] eqn:Ev; [|left; auto].
    right. exists v. cbn. auto.
  - destruct (registry _) as [metadata|] eqn:Er; [|left; auto].
    destruct (Semver.findBestVersion _ _) as [best|] eqn:Eb; [|left; auto].
    right. exists best. cbn. split; [right; eauto | auto].
Qed.

Lemma add_loop target0 specs : forall done st,
  (forall k, assoc k (targetDeps st)
             = match last_added k (addedPackages st) with
               | Some v => Some ("^" ++ v)
               | None => assoc k target0
               end) ->
  List.NoDup (map fst (targetDeps st)) ->
  (forall name v, In (name, v) (addedPackages st) ->
     exists spec, In spec done /\ Cli.spec_name (Cli.parsePackageSpec spec) = name
                  /\ answers spec v) ->
  let st' := fold_left add_one specs st in
  (forall k, assoc k (targetDeps st')
             = match last_added k (addedPackages st') with
               | Some v => Some ("^" ++ v)
               | None => assoc k target0
               end)
  /\ List.NoDup (map fst (targetDeps st'))
  /\ (forall name v, In (name, v) (addedPackages st') ->
        exists spec, In spec (done ++ specs) /\ Cli.spec_name (Cli.parsePackageSpec spec) = name
                     /\ answers spec v).
Proof.
  induction specs as [|spec specs IH]; intros done st Ha Hn Hs.
  - cbn. rewrite app_nil_r. auto.
  - cbn [fold_left].
    replace (done ++ spec :: specs)%list with ((done ++ [spec]) ++ specs)%list
      by now rewrite <- app_assoc.
    destruct (add_one_cases st spec) as [[E1 E2] | (v & Hv & E1 & E2)]; apply IH.
    + now rewrite E1, E2.
    + now rewrite E1.
    + rewrite E2. intros name v Hin. destruct (Hs name v Hin) as (sp & H1 & H2).
      exists sp. rewrite in_app_iff. tauto.
    + intros k. rewrite E1, E2, assoc_set, last_added_snoc, Ha.
      now destruct (String.eqb _ k).
    + rewrite E1. now apply set_nodup.
    + rewrite E2. intros name v' Hin. apply in_app_or in Hin.
      destruct Hin as [Hin | [[= <- <-] | []]].
      * destruct (Hs name v' Hin) as (sp & H1 & H2). exists sp. rewrite in_app_iff. tauto.
      * exists spec. rewrite in_app_iff. cbn [In]. auto.
Qed.

Lemma lookup_written k (deps : Deps) :
  lookup k (match deps with [] => None | _ :: _ => Some deps end) = assoc k deps.
Proof. now destruct deps. Qed.

Lemma lookup_default k (section : option Deps) :
  assoc k (default [] section) = lookup k section.
Proof. now destruct section. Qed.

(** X10. What [pakk add] writes.  When some package was resolved, the
    table the command aims at ([devDependencies] with [--dev],
    [dependencies] otherwise) maps every added name to a caret followed by
    the version the registry answered for its last spec, and answers for
    every other name as before; the other table answers as before, and the
    remaining tables are kept.  Every added version is the registry's
    answer to a spec of the command line, and [install] then runs on the
    manifest written.  When nothing was resolved, nothing is written. *)
Theorem commandAdd_manifest (args : list string) (w : World) (schedule : list nat)
    (pj : PackageJson) :
  packageJson w = Parsed pj ->
  distinct_keys (pj_dependencies pj) ->
  distinct_keys (pj_devDependencies pj) ->
  let a := add_args args in
  let target := fun p => if isDev a then pj_devDependencies p else pj_dependencies p in
  let other := fun p => if isDev a then pj_dependencies p else pj_devDependencies p in
  match commandAdd args w schedule with
  | Added _ written added installed =>
      (forall name,
         lookup name (target written)
         = match last_added name added with
           | Some v => Some ("^" ++ v)
           | None => lookup name (target pj)
           end)
      /\ (forall name, lookup name (other written) = lookup name (other pj))
      /\ pj_peerDependencies written = pj_peerDependencies pj
      /\ pj_optionalDependencies written = pj_optionalDependencies pj
      /\ pj_name written = pj_name pj
      /\ (forall name v, In (name, v) added ->
            exists spec, In spec (add_packages a)
              /\ Cli.spec_name (Cli.parsePackageSpec spec) = name /\ answers spec v)
      /\ installed
         = install NUM_CPUS registry STORE_PATH sha256 tarballs linking_throws
             (with_packageJson (Parsed written) w)
             {| dev := false; production := false; frozen := false;
                verbose := add_verbose a; parallel := None; linkMode := None |}
             schedule
  | NothingAdded _ =>
      forall spec v, In spec (add_packages a) -> ~ answers spec v
  | _ => add_showHelp a = true \/ add_packages a = []
  end.
Proof.
  intros Hpj Hd Hdev a target other. unfold Manifest.commandAdd. fold a. rewrite Hpj.
  destruct (add_showHelp a || (length (add_packages a) =? 0)%nat) eqn:Eh.
  { apply orb_prop in Eh. destruct Eh as [E|E]; [now left|right].
    apply Nat.eqb_eq in E. now destruct (add_packages a). }
  set (target0 := if isDev a then default [] (pj_devDependencies pj)
                  else default [] (pj_dependencies pj)).
  destruct (add_loop target0 (add_packages a) []
              {| targetDeps := target0; addedPackages := []; add_messages := [] |})
    as (Ha & Hn & Hs).
  { intros k. reflexivity. }
  { unfold target0. destruct (isDev a); assumption. }
  { intros name v []. }
  cbn [app] in Hs.
  set (st := fold_left add_one (add_packages a)
               {| targetDeps := target0; addedPackages := []; add_messages := [] |}) in *.
  destruct (addedPackages st) as [|a0 added] eqn:Ead.
  - intros spec v Hin Hans.
    assert (Hnone : forall specs s0, addedPackages s0 = [] ->
              addedPackages (fold_left add_one specs s0) = [] ->
              forall sp v', In sp specs -> ~ answers sp v').
    { clear. induction specs as [|sp specs IH]; intros s0 H0 Hend sp' v' Hin; [destruct Hin|].
      cbn [fold_left] in Hend.
      destruct (add_one_cases s0 sp) as [[E1 E2] | (v & Hv & E1 & E2)].
      - destruct Hin as [<-|Hin].
        + intros Hans. unfold Manifest.add_one in E2.
          destruct Hans as [[El Hl] | (Hne & md & Hr & Hb)].
          * rewrite El in E2. cbn in E2. rewrite Hl in E2. cbn in E2.
            rewrite H0 in E2. discriminate.
          * apply String.eqb_neq in Hne. rewrite Hne, Hr, Hb in E2. cbn in E2.
            rewrite H0 in E2. discriminate.
        + apply (IH (add_one s0 sp)); auto. now rewrite E2.
      - exfalso.
        assert (Hgrow : forall specs' s1, addedPackages s1 <> [] ->
                  addedPackages (fold_left add_one specs' s1) <> []).
        { clear. induction specs' as [|x xs IHx]; intros s1 H1; [exact H1|].
          cbn [fold_left]. apply IHx.
          destruct (add_one_cases s1 x) as [[_ E] | (v & _ & _ & E)]; rewrite E; [exact H1|].
          now destruct (addedPackages s1). }
        apply (Hgrow specs (add_one s0 sp)); [|exact Hend].
        rewrite E2. now destruct (addedPackages s0). }
    apply (Hnone (add_packages a)
             {| targetDeps := target0; addedPackages := []; add_messages := [] |}
             eq_refl Ead spec v Hin Hans).
  - cbn [pj_dependencies pj_devDependencies pj_peerDependencies pj_optionalDependencies
         pj_name].
    assert (Hother : List.NoDup (map fst (if isDev a then default [] (pj_dependencies pj)
                                          else default [] (pj_devDependencies pj)))).
    { destruct (isDev a); assumption. }
    repeat split; auto.
    + intros name. unfold target. destruct (isDev a) eqn:Edev;
        cbn [pj_dependencies pj_devDependencies]; rewrite ?lookup_written;
        cbn [lookup]; rewrite assoc_sortObject by exact Hn;
        rewrite Ha; destruct (last_added name (a0 :: added)); try reflexivity;
        unfold target0; apply lookup_default.
    + intros name. unfold other. destruct (isDev a) eqn:Edev;
        cbn [pj_dependencies pj_devDependencies]; rewrite ?lookup_written;
        cbn [lookup]; rewrite assoc_sortObject by assumption; apply lookup_default.
Qed.

End Add.

Lemma commandAdd_manifest_witness :
  let w := Install.fresh_project [("a", "*")] in
  match Manifest.commandAdd 1 Resolver.race_registry (fun _ => None) Install.bench_store
          Install.bench_digest Install.bench_tarballs Install.bench_linking (fun _ _ => 0)
          ["b@^1.0.0"] w [] with
  | Manifest.Added _ written added _ =>
      Manifest.lookup "b" (Install.pj_dependencies written) = Some "^1.0.0"
      /\ Manifest.lookup "a" (Install.pj_dependencies written) = Some "*"
      /\ added = [("b", "1.0.0")]
  | _ => False
  end.
Proof.
  intros w.
  pose proof (commandAdd_manifest 1 Resolver.race_registry (fun _ => None) Install.bench_store
                Install.bench_digest Install.bench_tarballs Install.bench_linking
                (fun _ _ => 0) ["b@^1.0.0"] w []
                {| Install.pj_name := Some "demo";
                   Install.pj_dependencies := Some [("a", "*")];
                   Install.pj_devDependencies := None;
                   Install.pj_peerDependencies := None;
                   Install.pj_optionalDependencies := None |}
                eq_refl
                ltac:(unfold Manifest.distinct_keys; cbn; repeat constructor; intros [])
                ltac:(unfold Manifest.distinct_keys; cbn; constructor)) as H.
  cbv zeta in H.
  destruct (Manifest.commandAdd _ _ _ _ _ _ _ _ _ _ _)
    as [| | | |msgs written added installed] eqn:E;
    try (exfalso; vm_compute in E; discriminate).
  destruct H as (H1 & _).
  assert (Ea : added = [("b", "1.0.0")])
    by (vm_compute in E; congruence).
  subst added. split; [exact (H1 "b") | split; [exact (H1 "a") | reflexivity]].
Defined.

Section AddThenInstall.
Import Semver.

Lemma compareVersions_refl v : compareVersions v v = 0.
Proof.
  pose proof (compareVersions_swap v v). lia.
Qed.

Lemma satisfies_own_caret v :
  Js.startsWith "v" v = false -> satisfies v ("^" ++ v) = true.
Proof.
  intros Hv. change ("^" ++ v) with (String "^" v). rewrite satisfies_caret.
  assert (Es : strip_v v = v).
  { destruct v as [|c s]; [reflexivity|]. unfold strip_v.
    rewrite startsWith_char in Hv.
    destruct c as [[] [] [] [] [] [] [] []]; try reflexivity. discriminate. }
  rewrite Es, compareVersions_refl. unfold same.
  destruct (major_of v); [now rewrite String.eqb_refl | reflexivity].
Qed.

(** X11. The range [pakk add] writes can be resolved again: for a version
    [v] among the registry's versions, none of which is the empty string,
    that does not start with the letter v, [findBestVersion] finds for the
    range made of a caret and [v] a version that satisfies this range and
    is not below [v].  (For a version that starts with v, such as
    [v1.0.0], the range it makes is satisfied by no version at all.) *)
Theorem added_range_resolves (versions : list string) (v : string) :
  In v versions ->
  Js.startsWith "v" v = false ->
  existsb (String.eqb "") versions = false ->
  exists best,
    findBestVersion versions ("^" ++ v) = Some best
    /\ In best versions
    /\ satisfies best ("^" ++ v) = true
    /\ 0 <= compareVersions best v.
Proof.
  intros Hin Hv Hne.
  assert (Hm : In v (matching versions ("^" ++ v))).
  { unfold matching. apply filter_In. split; [exact Hin | now apply satisfies_own_caret]. }
  destruct (findBestVersion versions ("^" ++ v)) as [best|] eqn:E.
  - exists best. split; [reflexivity|].
    destruct (findBestVersion_some _ _ _ E) as (l1 & l2 & El & H1 & H2).
    assert (Hb : In best (matching versions ("^" ++ v)))
      by (rewrite El; apply in_or_app; right; now left).
    unfold matching in Hb. apply filter_In in Hb. destruct Hb as [Hb1 Hb2].
    split; [exact Hb1|]. split; [exact Hb2|].
    rewrite El in Hm. apply in_app_or in Hm.
    rewrite List.Forall_forall in H1, H2.
    rewrite (compareVersions_swap v best).
    destruct Hm as [Hm | [<- | Hm]].
    + specialize (H1 v Hm). lia.
    + rewrite compareVersions_refl. lia.
    + specialize (H2 v Hm). lia.
  - apply (findBestVersion_none _ _ Hne) in E. rewrite E in Hm. destruct Hm.
Qed.

Lemma added_range_resolves_witness :
  exists best,
    findBestVersion ["1.0.0"; "1.4.2"; "2.0.0"] ("^" ++ "1.0.0") = Some best
    /\ In best ["1.0.0"; "1.4.2"; "2.0.0"]
    /\ satisfies best ("^" ++ "1.0.0") = true
    /\ 0 <= compareVersions best "1.0.0".
Proof.
  apply (added_range_resolves ["1.0.0"; "1.4.2"; "2.0.0"] "1.0.0");
    [now left | reflexivity | reflexivity].
Defined.

(** The range made from a version that starts with v: the major of the
    range keeps the letter, that of the candidate has lost it. *)
Example caret_of_v_version :
  satisfies "v1.0.0" ("^" ++ "v1.0.0") = false
  /\ findBestVersion ["v1.0.0"; "1.0.0"; "1.2.0"] ("^" ++ "v1.0.0") = None.
Proof. split; reflexivity. Qed.

End AddThenInstall.

Section AllDeps.
Import Registry Install Manifest.

Lemma assoc_fold_set k (source target : Deps) :
  List.NoDup (map fst source) ->
  assoc k (fold_left (fun t e => set (fst e) (snd e) t) source target)
  = match assoc k source with Some v => Some v | None => assoc k target end.
Proof.
  revert target. induction source as [|[k0 v0] source IH]; intros target Hnd; [reflexivity|].
  cbn [fold_left fst snd map] in *. apply List.NoDup_cons_iff in Hnd. destruct Hnd as [Hk Hnd].
  rewrite (IH _ Hnd), assoc_set. cbn [assoc].
  destruct (String.eqb_spec k0 k) as [->|Hne]; [|reflexivity].
  now rewrite (proj2 (assoc_none k source) Hk).
Qed.

Lemma assoc_assign k target source :
  distinct_keys source ->
  assoc k (assign target source)
  = match lookup k source with Some v => Some v | None => assoc k target end.
Proof.
  intros H. unfold assign. rewrite assoc_fold_set by exact H. now destruct source.
Qed.

(** X13. Which range [install] resolves a name with.  Without options the
    range of [dependencies] wins over that of [devDependencies]; with
    [production] only [dependencies] are read; with [dev] the range of
    [devDependencies] wins over that of [dependencies], also when
    [production] is given as well, which then has no effect. *)
Theorem allDeps_precedence (options : InstallOptions) (pj : PackageJson) (name : string) :
  distinct_keys (pj_dependencies pj) ->
  distinct_keys (pj_devDependencies pj) ->
  assoc name (allDeps options pj)
  = let regular := lookup name (pj_dependencies pj) in
    let development := lookup name (pj_devDependencies pj) in
    if dev options then
      match development with Some range => Some range | None => regular end
    else if production options then regular
    else match regular with Some range => Some range | None => development end.
Proof.
  intros Hd Hv. unfold allDeps. cbv zeta.
  destruct (dev options), (production options);
    rewrite ?assoc_assign by assumption; cbn [assoc];
    destruct (lookup name (pj_dependencies pj)), (lookup name (pj_devDependencies pj));
    reflexivity.
Qed.

Lemma allDeps_precedence_witness :
  assoc "typescript"
    (allDeps {| dev := true; production := true; frozen := false; verbose := false;
                parallel := None; linkMode := None |}
       {| pj_name := None;
          pj_dependencies := Some [("typescript", "^4.0.0"); ("react", "^18.0.0")];
          pj_devDependencies := Some [("typescript", "^5.0.0")];
          pj_peerDependencies := None; pj_optionalDependencies := None |})
  = Some "^5.0.0".
Proof.
  apply (allDeps_precedence
           {| dev := true; production := true; frozen := false; verbose := false;
              parallel := None; linkMode := None |}
           {| pj_name := None;
              pj_dependencies := Some [("typescript", "^4.0.0"); ("react", "^18.0.0")];
              pj_devDependencies := Some [("typescript", "^5.0.0")];
              pj_peerDependencies := None; pj_optionalDependencies := None |}
           "typescript");
    unfold distinct_keys; cbn; repeat constructor; cbn; intuition discriminate.
Defined.

End AllDeps.

(** ** The virtual store *)

Section StorePaths.
Import Linker VirtualStore JsString.
Implicit Types (p q : path) (seg name version : string).

Lemma enter_simple p seg : simple seg = true -> enter p seg = (p ++ [seg])%list.
Proof.
  unfold simple, enter. intros H. apply andb_prop in H. destruct H as [H _].
  apply andb_prop in H. destruct H as [H1 H2].
  apply negb_true_iff in H1, H2. now rewrite H1, H2.
Qed.

Lemma resolve_simple segs : forall p,
  forallb simple segs = true -> resolve p segs = (p ++ segs)%list.
Proof.
  unfold resolve. induction segs as [|seg segs IH]; intros p H; cbn [fold_left].
  - now rewrite app_nil_r.
  - cbn [forallb] in H. apply andb_prop in H. destruct H as [H1 H2].
    rewrite (enter_simple p seg H1), (IH _ H2). now rewrite <- app_assoc.
Qed.

Lemma enter_relative_simple p seg :
  simple seg = true -> enter_relative p seg = (p ++ [seg])%list.
Proof.
  unfold simple, enter_relative. intros H. apply andb_prop in H. destruct H as [H _].
  apply andb_prop in H. destruct H as [H1 H2].
  apply negb_true_iff in H1, H2. now rewrite H1, H2.
Qed.

Lemma fold_enter_relative_simple segs : forall p,
  forallb simple segs = true -> fold_left enter_relative segs p = (p ++ segs)%list.
Proof.
  induction segs as [|seg segs IH]; intros p H; cbn [fold_left].
  - now rewrite app_nil_r.
  - cbn [forallb] in H. apply andb_prop in H. destruct H as [H1 H2].
    rewrite (enter_relative_simple p seg H1), (IH _ H2). now rewrite <- app_assoc.
Qed.

Lemma split_simple seg : simple seg = true -> Js.split "/" seg = [seg].
Proof.
  unfold simple. intros H. apply andb_prop in H. destruct H as [_ H].
  now apply split_no_sep.
Qed.

Lemma segments_simple parts :
  forallb simple parts = true -> concat (map (Js.split "/") parts) = parts.
Proof.
  induction parts as [|seg parts IH]; intros H; [reflexivity|].
  cbn [forallb] in H. apply andb_prop in H. destruct H as [H1 H2].
  cbn [map concat]. now rewrite (split_simple seg H1), (IH H2).
Qed.

Lemma join_simple p parts :
  forallb simple parts = true -> join p parts = (p ++ parts)%list.
Proof.
  intros H. unfold join. rewrite (segments_simple parts H). now apply resolve_simple.
Qed.

Lemma join_relative_simple parts :
  forallb simple parts = true -> join_relative parts = parts.
Proof.
  intros H. unfold join_relative. rewrite (segments_simple parts H).
  now rewrite fold_enter_relative_simple.
Qed.

(** [name@version] is one segment when neither part holds a slash. *)
Lemma key_simple name version :
  lacks "/" name = true -> lacks "/" version = true ->
  simple (name ++ "@" ++ version) = true.
Proof.
  intros Hn Hv.
  assert (Hat : lacks "@" (name ++ "@" ++ version) = false).
  { rewrite lacks_app. change ("@" ++ version) with (String "@" version).
    rewrite lacks_cons. cbn. apply andb_false_r. }
  assert (Hne : forall x, lacks "@" x = true -> String.eqb (name ++ "@" ++ version) x = false).
  { intros x Hx. apply String.eqb_neq. intros E. rewrite E in Hat. congruence. }
  unfold simple, skipped. rewrite !Hne by reflexivity. cbn [orb negb andb].
  rewrite lacks_app. change ("@" ++ version) with (String "@" version).
  rewrite lacks_cons, Hn, Hv. reflexivity.
Qed.

Lemma key_inj name version name' version' :
  lacks "@" name = true -> lacks "@" name' = true ->
  name ++ "@" ++ version = name' ++ "@" ++ version' -> name = name'.
Proof.
  intros Hn Hn' E.
  pose proof (indexOf_app "@" name version Hn) as H1.
  pose proof (indexOf_app "@" name' version' Hn') as H2.
  change (String "@" version) with ("@" ++ version) in H1.
  change (String "@" version') with ("@" ++ version') in H2.
  rewrite E, H2 in H1. injection H1 as Hlen.
  rewrite <- (slice_to_app name ("@" ++ version)), <- (slice_to_app name' ("@" ++ version')).
  now rewrite E, Hlen.
Qed.

Lemma unscoped_simple name : unscoped name = true -> simple name = true.
Proof.
  unfold unscoped. intros H. apply andb_prop in H. destruct H as [H _].
  apply andb_prop in H. tauto.
Qed.

Lemma unscoped_not_pakk name : unscoped name = true -> name <> ".pakk".
Proof.
  unfold unscoped. intros H. apply andb_prop in H. destruct H as [H _].
  apply andb_prop in H. destruct H as [_ H]. apply negb_true_iff in H.
  now apply String.eqb_neq.
Qed.

Lemma unscoped_lacks_at name : unscoped name = true -> lacks "@" name = true.
Proof. unfold unscoped. intros H. apply andb_prop in H. tauto. Qed.

Lemma prefix_of_app {A} (q p l : list A) :
  q `prefix_of` (p ++ l)%list ->
  q `prefix_of` p \/ exists l', q = (p ++ l')%list /\ l' `prefix_of` l.
Proof.
  intros H. destruct (prefix_weak_total q p (p ++ l)%list H) as [Hq|[l' ->]];
    [now apply prefix_app_r | now left |].
  right. exists l'. split; [reflexivity|]. now apply prefix_app_inv in H.
Qed.

Lemma simple_lacks_slash seg : simple seg = true -> lacks "/" seg = true.
Proof. unfold simple. intros H. apply andb_prop in H. tauto. Qed.

Section Layout.

Context (nm : path) (name version : string).
Context (Hname : unscoped name = true).
Context (Hversion : lacks "/" version = true).

Lemma virtualStoreDir_eq : virtualStoreDir nm = (nm ++ [".pakk"])%list.
Proof. unfold virtualStoreDir. now apply join_simple. Qed.

Lemma parts_simple :
  forallb simple [(name ++ "@" ++ version)%string; "node_modules"; name] = true.
Proof.
  cbn [forallb]. rewrite (unscoped_simple name Hname).
  rewrite key_simple; [reflexivity | | exact Hversion].
  apply simple_lacks_slash. now apply unscoped_simple.
Qed.

Lemma virtualPkgDir_eq :
  virtualPkgDir nm name version
  = (nm ++ [".pakk"; (name ++ "@" ++ version)%string; "node_modules"; name])%list.
Proof.
  unfold virtualPkgDir. rewrite virtualStoreDir_eq, (join_simple _ _ parts_simple).
  now rewrite <- app_assoc.
Qed.

Lemma topLevelLink_eq : topLevelLink nm name = (nm ++ [name])%list.
Proof.
  unfold topLevelLink. apply join_simple. cbn. now rewrite (unscoped_simple name Hname).
Qed.

Lemma relativePath_eq :
  relativePath name version = [".pakk"; name ++ "@" ++ version; "node_modules"; name].
Proof.
  unfold relativePath. apply join_relative_simple.
  change (simple ".pakk" && forallb simple [(name ++ "@" ++ version)%string; "node_modules"; name] = true).
  now rewrite parts_simple.
Qed.

(** The top-level link of a package without scope leads to its directory
    in the virtual store. *)
Lemma link_target_eq :
  resolve (dirname (topLevelLink nm name)) (relativePath name version)
  = virtualPkgDir nm name version.
Proof.
  rewrite topLevelLink_eq, relativePath_eq, virtualPkgDir_eq.
  unfold dirname. rewrite removelast_last. apply resolve_simple.
  change (simple ".pakk" && forallb simple [(name ++ "@" ++ version)%string; "node_modules"; name] = true).
  now rewrite parts_simple.
Qed.

End Layout.

End StorePaths.

Section StoreOperations.
Import Linker VirtualStore.
Implicit Types (p q : path) (fs : FS).

Lemma mkdir_from_existing todo : forall done fs,
  (forall q, done `prefix_of` q -> q `prefix_of` (done ++ todo)%list ->
             names fs !! q = Some Dir) ->
  mkdir_from done todo fs = Ok fs.
Proof.
  induction todo as [|n todo IH]; intros done fs H.
  - simpl. rewrite (H done); [reflexivity | reflexivity | now rewrite app_nil_r].
  - simpl. rewrite (H done); [|reflexivity | now apply prefix_app_r].
    apply IH. intros q H1 H2. apply H.
    + etrans; [|exact H1]. now apply prefix_app_r.
    + now rewrite <- app_assoc in H2.
Qed.

Lemma mkdirSync_existing fs p :
  (forall q, q `prefix_of` p -> names fs !! q = Some Dir) -> mkdirSync fs p = Ok fs.
Proof.
  intros H. apply mkdir_from_existing. intros q _ Hq. now apply H.
Qed.

Lemma existsSync_absent fs p : names fs !! p = None -> existsSync fs p = false.
Proof.
  intros H. unfold existsSync. rewrite follow_here by now rewrite H. now rewrite H.
Qed.

Lemma existsSync_dir fs p : names fs !! p = Some Dir -> existsSync fs p = true.
Proof.
  intros H. unfold existsSync. rewrite follow_here by now rewrite H. now rewrite H.
Qed.

End StoreOperations.

Section CreateVirtualStore.
Import Registry Linker VirtualStore JsString.
Implicit Types (p q : path) (fs : FS) (e : string * ResolvedPackage).

Context (ft : Faults) (cwd : path) (fuel : nat) (mode : LinkMode).
Context (idx : Install.StoreIndex) (nm : path).

#[local] Set Warnings "-inconsistent-scopes".
#[local] Abbreviation key e := (String.append (fst e) (String.append "@" (version (snd e)))).
#[local] Abbreviation keydir e := (nm ++ [".pakk"; key e])%list.
#[local] Abbreviation virt e := (nm ++ [".pakk"; key e; "node_modules"; fst e])%list.
#[local] Abbreviation top e := (nm ++ [fst e])%list.

Lemma plain_package_inv e :
  plain_package e = true -> unscoped (fst e) = true /\ lacks "/" (version (snd e)) = true.
Proof. unfold plain_package. intros H. apply andb_prop in H. tauto. Qed.

Lemma keydir_virt e : keydir e `prefix_of` virt e.
Proof. exists ["node_modules"; fst e]. now rewrite <- app_assoc. Qed.

Lemma pakk_keydir e : (nm ++ [".pakk"])%list `prefix_of` keydir e.
Proof. exists [key e]. now rewrite <- app_assoc. Qed.

Lemma top_not_in_pakk e q :
  unscoped (fst e) = true -> (nm ++ [".pakk"])%list `prefix_of` q -> q <> top e.
Proof.
  intros Hu [l Hl] ->. rewrite <- app_assoc in Hl. apply app_inv_head in Hl.
  injection Hl as Hn _. now apply (unscoped_not_pakk _ Hu).
Qed.

Lemma top_not_above_virt e : unscoped (fst e) = true -> ¬ (top e `prefix_of` virt e).
Proof.
  intros Hu H. apply prefix_app_inv, prefix_cons_inv_1 in H.
  now apply (unscoped_not_pakk _ Hu).
Qed.

Lemma virt_not_above_top e : ¬ (virt e `prefix_of` top e).
Proof.
  intros H. apply prefix_length in H. rewrite !length_app in H. cbn in H. lia.
Qed.

(** The strict prefixes of the directory of a package in the virtual store. *)
Lemma above_virt e q :
  q `prefix_of` virt e ->
  q `prefix_of` (nm ++ [".pakk"])%list \/ q = keydir e
  \/ q = (keydir e ++ ["node_modules"])%list \/ q = virt e.
Proof.
  intros H.
  replace (virt e) with ((keydir e ++ ["node_modules"]) ++ [fst e])%list in H
    by now rewrite <- !app_assoc.
  apply prefix_snoc_inv in H. destruct H as [->|H]; [now rewrite <- !app_assoc; auto|].
  apply prefix_snoc_inv in H. destruct H as [->|H]; [auto|].
  replace (keydir e) with ((nm ++ [".pakk"]) ++ [key e])%list in H
    by now rewrite <- !app_assoc.
  apply prefix_snoc_inv in H. destruct H as [->|H]; [now rewrite <- !app_assoc; auto|].
  now left.
Qed.

Lemma store_dir_inv fs e src :
  store_dir cwd idx fs e = Some src ->
  exists s : string, extractedPath_of idx (fst e) (version (snd e)) = Some s
            /\ src = of_string cwd s /\ existsSync fs src = true.
Proof.
  unfold store_dir. destruct (extractedPath_of idx _ _) as [s|]; [|discriminate].
  destruct (existsSync fs (of_string cwd s)) eqn:E; [|discriminate].
  intros [= <-]. eauto.
Qed.

(** One turn of the loop for a package that is in the store. *)
Lemma link_one_in_store fs warnings e src :
  plain_package e = true ->
  store_dir cwd idx fs e = Some src ->
  plain_tree fs src (S fuel) -> apart src nm ->
  (forall q, q `prefix_of` (nm ++ [".pakk"])%list -> names fs !! q = Some Dir) ->
  vacant fs (keydir e) ->
  names fs !! top e = None ->
  symlink_refused ft (virt e) (top e) = false ->
  exists fs1,
    links ft mode fs fs1 src (virt e)
    /\ link_one ft cwd (S fuel) idx nm mode (fs, warnings) e
       = Ok (with_names (insert (top e) (Symlink (virt e))) fs1, warnings).
Proof.
  intros Hp Hs Hplain Hap Hdirs Hvac Htop Hgrant.
  destruct (plain_package_inv e Hp) as [Hu Hv].
  destruct (store_dir_inv fs e src Hs) as (s & Ep & -> & Hex).
  assert (Hap' : apart (of_string cwd s) (virt e)).
  { destruct Hap as [H1 H2]. split; intros H.
    - destruct (prefix_of_app _ _ _ H) as [H'|(l' & E & _)]; [contradiction|].
      apply H2. rewrite E. now apply prefix_app_r.
    - apply H2. etrans; [|exact H]. now apply prefix_app_r. }
  assert (Hvac' : vacant fs (virt e)).
  { intros q Hq. apply Hvac. etrans; [apply keydir_virt | exact Hq]. }
  assert (Hreach : reachable fs (virt e)).
  { intros q Hq Hne. destruct (above_virt e q Hq) as [H | [ -> | [ -> | -> ] ] ].
    - right. now apply Hdirs.
    - left. now apply Hvac.
    - left. apply Hvac. now apply prefix_app_r.
    - contradiction. }
  destruct (linkPackage_links ft mode (S fuel) fs (of_string cwd s) (virt e)
              Hap' Hvac' Hreach Hplain ltac:(lia)) as (fs1 & E1 & Hlinks).
  exists fs1. split; [exact Hlinks|].
  destruct Hlinks as (F1 & F2 & F3 & C).
  unfold link_one. rewrite Ep, Hex. cbn [negb fst snd].
  rewrite (link_target_eq nm (fst e) (version (snd e)) Hu Hv).
  rewrite (virtualPkgDir_eq nm (fst e) (version (snd e)) Hu Hv).
  rewrite (topLevelLink_eq nm (fst e) Hu).
  rewrite E1. cbn [bind]. unfold dirname. rewrite removelast_last.
  rewrite (mkdirSync_existing fs1 nm).
  2:{ intros q Hq. apply F2. etrans; [exact Hq|]. now apply prefix_app_r. }
  cbn [bind].
  assert (Htop1 : names fs1 !! top e = None).
  { rewrite F1; [exact Htop | apply virt_not_above_top | now apply top_not_above_virt]. }
  rewrite (existsSync_absent fs1 _ Htop1). cbn [bind].
  unfold symlinkSync. rewrite Hgrant, Htop1.
  replace (parent (top e)) with nm by (symmetry; apply parent_snoc).
  rewrite (F2 nm) by now apply prefix_app_r.
  reflexivity.
Qed.

Lemma omap_ext_in {A B} (f g : A -> option B) (l : list A) :
  (forall x, x ∈ l -> f x = g x) -> omap f l = omap g l.
Proof.
  induction l as [|x l IH]; intros H; [reflexivity|]. cbn [omap list_omap].
  rewrite (H x) by now left. rewrite IH; [reflexivity|].
  intros y Hy. apply H. now right.
Qed.

Lemma omap_cons_eq {A B} (f : A -> option B) (x : A) (l : list A) :
  omap f (x :: l) = match f x with Some y => y :: omap f l | None => omap f l end.
Proof. reflexivity. Qed.

Lemma link_one_not_in_store fs warnings e :
  store_dir cwd idx fs e = None ->
  link_one ft cwd (S fuel) idx nm mode (fs, warnings) e
  = Ok (fs, (warnings ++ [NotInStore (fst e) (version (snd e))])%list).
Proof.
  unfold store_dir, link_one.
  destruct (extractedPath_of idx _ _) as [s|]; [|reflexivity].
  destruct (existsSync fs (of_string cwd s)); [discriminate | reflexivity].
Qed.

(** The path the index gives is apart from [nm], and a plain tree or missing. *)
#[local] Abbreviation stored fs e :=
  (match extractedPath_of idx (fst e) (version (snd e)) with
   | None => True
   | Some s =>
       apart (of_string cwd s) nm
       /\ (plain_tree fs (of_string cwd s) (S fuel) \/ names fs !! of_string cwd s = None)
   end).

(** [fs'] is [fs] outside [nm], and keeps the contents [fs] has. *)
#[local] Abbreviation extends fs fs' :=
  ((forall q, ¬ (nm `prefix_of` q) -> names fs' !! q = names fs !! q)
   /\ (forall k, k ∈ dom (data fs) -> data fs' !! k = data fs !! k)).

Lemma plain_tree_extends fs fs' src depth :
  extends fs fs' -> apart src nm -> plain_tree fs src depth -> plain_tree fs' src depth.
Proof.
  intros [Hn Hd] Hap [Hdir Hbelow]. split.
  - rewrite Hn; [exact Hdir|]. apply (apart_below src nm src Hap). reflexivity.
  - intros rel e Hrel He. rewrite Hn in He.
    2:{ apply (apart_below src nm _ Hap). now apply prefix_app_r. }
    specialize (Hbelow rel e Hrel He). destruct e as [|i|]; try exact Hbelow.
    unfold plain_entry in *. apply andb_prop in Hbelow. destruct Hbelow as [H1 H2].
    rewrite H1. cbn [andb]. apply bool_decide_eq_true in H2. apply bool_decide_eq_true.
    rewrite Hd; [exact H2 | now apply elem_of_dom].
Qed.

Lemma stored_extends fs fs' e : extends fs fs' -> stored fs e -> stored fs' e.
Proof.
  intros Hext. destruct (extractedPath_of idx _ _) as [s|]; [|auto].
  intros [Hap [Hp|Hn]]; split; auto.
  - left. eapply plain_tree_extends; eauto.
  - right. rewrite (proj1 Hext); [exact Hn|].
    apply (apart_below _ nm _ Hap). reflexivity.
Qed.

Lemma store_dir_extends fs fs' e :
  extends fs fs' -> stored fs e -> store_dir cwd idx fs' e = store_dir cwd idx fs e.
Proof.
  intros Hext. unfold store_dir. destruct (extractedPath_of idx _ _) as [s|]; [|auto].
  intros [Hap Hs].
  assert (En : names fs' !! of_string cwd s = names fs !! of_string cwd s).
  { apply (proj1 Hext). apply (apart_below _ nm _ Hap). reflexivity. }
  destruct Hs as [[Hdir _]|Hn].
  - rewrite !existsSync_dir; [reflexivity | exact Hdir | now rewrite En].
  - rewrite !existsSync_absent; [reflexivity | exact Hn | now rewrite En].
Qed.

Lemma store_dir_plain fs e src :
  stored fs e -> store_dir cwd idx fs e = Some src ->
  apart src nm /\ plain_tree fs src (S fuel).
Proof.
  intros Hs Hd. destruct (store_dir_inv fs e src Hd) as (s & Es & -> & Hex).
  rewrite Es in Hs. destruct Hs as [Hap [Hp|Hn]]; [auto|].
  rewrite (existsSync_absent _ _ Hn) in Hex. discriminate.
Qed.

Lemma keydir_disjoint e e' q :
  unscoped (fst e) = true -> unscoped (fst e') = true ->
  keydir e `prefix_of` q -> keydir e' `prefix_of` q -> fst e = fst e'.
Proof.
  intros Hu Hu' H H'.
  assert (E : keydir e = keydir e').
  { destruct (prefix_weak_total _ _ _ H H') as [Hp|Hp];
      [|symmetry]; apply (prefix_length_eq _ _ Hp); rewrite !length_app; cbn; lia. }
  apply app_inv_head in E. injection E as E.
  apply (key_inj _ _ _ _ (unscoped_lacks_at _ Hu) (unscoped_lacks_at _ Hu') E).
Qed.

Lemma keydir_not_above_pakk e q :
  keydir e `prefix_of` q -> ¬ (q `prefix_of` (nm ++ [".pakk"])%list).
Proof.
  intros H1 H2. assert (H : keydir e `prefix_of` (nm ++ [".pakk"])%list) by (etrans; eauto).
  apply prefix_length in H. rewrite !length_app in H. cbn in H. lia.
Qed.

(** What one turn for a package in the store leaves as it was. *)
Lemma link_one_frame fs fs1 e src q :
  unscoped (fst e) = true ->
  links ft mode fs fs1 src (virt e) ->
  (forall a, a `prefix_of` (nm ++ [".pakk"])%list -> names fs !! a = Some Dir) ->
  ¬ (keydir e `prefix_of` q) -> q <> top e ->
  names (with_names (insert (top e) (Symlink (virt e))) fs1) !! q = names fs !! q.
Proof.
  intros Hu (F1 & F2 & _) Hdirs Hq Hne. cbn [names with_names].
  rewrite lookup_insert_ne by congruence.
  destruct (decide (q `prefix_of` virt e)) as [Hpre|Hpre].
  - destruct (above_virt e q Hpre) as [H | [ -> | [ -> | -> ] ] ].
    + now rewrite (F2 q Hpre), (Hdirs q H).
    + exfalso. now apply Hq.
    + exfalso. apply Hq. now apply prefix_app_r.
    + exfalso. apply Hq. apply keydir_virt.
  - apply F1; [|exact Hpre]. intros H. apply Hq. etrans; [apply keydir_virt | exact H].
Qed.

#[local] Abbreviation untouched packages q :=
  (Forall (fun e : string * ResolvedPackage => ¬ (keydir e `prefix_of` q) /\ q <> top e) packages).

#[local] Abbreviation settled fs fs' e :=
  (forall src, store_dir cwd idx fs e = Some src ->
     names fs' !! top e = Some (Symlink (virt e))
     /\ names fs' !! virt e = Some Dir
     /\ forall rel i bytes,
          file_at fs src rel = Some i -> data fs !! i = Some bytes ->
          linked ft mode fs fs' (src ++ rel)%list (virt e ++ rel)%list i bytes).

Lemma untouched_outside packages q :
  ¬ (nm `prefix_of` q) -> untouched packages q.
Proof.
  intros Hq. apply Forall_forall. intros e _. split.
  - intros H. apply Hq. etrans; [|exact H]. now apply prefix_app_r.
  - intros ->. apply Hq. now apply prefix_app_r.
Qed.

Lemma link_loop packages : forall fs warnings,
  NoDup packages.*1 ->
  Forall (fun e => plain_package e = true) packages ->
  Forall (fun e => stored fs e) packages ->
  Forall (fun e => symlink_refused ft (virt e) (top e) = false) packages ->
  (forall q, q `prefix_of` (nm ++ [".pakk"])%list -> names fs !! q = Some Dir) ->
  Forall (fun e => vacant fs (keydir e) /\ names fs !! top e = None) packages ->
  exists fs',
    for_of (link_one ft cwd (S fuel) idx nm mode) packages (fs, warnings)
    = Ok (fs', (warnings ++ omap (warning_of cwd idx fs) packages)%list)
    /\ (forall q, untouched packages q -> names fs' !! q = names fs !! q)
    /\ (forall k, k ∈ dom (data fs) -> data fs' !! k = data fs !! k)
    /\ Forall (fun e => settled fs fs' e) packages.
Proof.
  induction packages as [|e rest IH]; intros fs warnings Hnd Hplain Hstored Hgrant Hdirs Hfresh.
  { exists fs. cbn. rewrite app_nil_r. repeat split; auto. }
  cbn [fmap list_fmap] in Hnd. apply NoDup_cons in Hnd. destruct Hnd as [Hnew Hnd].
  apply Forall_cons in Hplain, Hstored, Hgrant, Hfresh.
  destruct Hplain as [Hpe Hplain], Hstored as [Hse Hstored], Hgrant as [Hge Hgrant],
    Hfresh as [[Hvac Htop] Hfresh].
  destruct (plain_package_inv e Hpe) as [Hu Hv].
  cbn [for_of]. rewrite omap_cons_eq. unfold warning_of at 1.
  destruct (store_dir cwd idx fs e) as [src|] eqn:Esd.
  - destruct (store_dir_plain fs e src Hse Esd) as [Hap Hp].
    destruct (link_one_in_store fs warnings e src Hpe Esd Hp Hap Hdirs Hvac Htop Hge)
      as (fs1 & Hlinks & E1).
    rewrite E1. cbn [bind].
    set (fs4 := with_names (insert (top e) (Symlink (virt e))) fs1) in *.
    assert (SF : forall q, ¬ (keydir e `prefix_of` q) -> q <> top e ->
                           names fs4 !! q = names fs !! q).
    { intros q. now apply (link_one_frame fs fs1 e src q). }
    assert (SD : forall k, k ∈ dom (data fs) -> data fs4 !! k = data fs !! k).
    { intros k. apply (proj1 (proj2 (proj2 Hlinks))). }
    assert (Hext : extends fs fs4).
    { split; [|exact SD]. intros q Hq. apply SF.
      - intros H. apply Hq. etrans; [|exact H]. now apply prefix_app_r.
      - intros ->. apply Hq. now apply prefix_app_r. }
    assert (Hother : forall e', In e' rest -> unscoped (fst e') = true /\ fst e' <> fst e).
    { intros e' Hin. rewrite Forall_forall in Hplain.
      split; [apply plain_package_inv, Hplain; now apply list_elem_of_In|].
      intros E. apply Hnew. rewrite <- E. apply list_elem_of_fmap. exists e'.
      split; [reflexivity | now apply list_elem_of_In]. }
    destruct (IH fs4 warnings Hnd Hplain) as (fs' & E' & Hframe & Hdata & Hsettled).
    { eapply Forall_impl; [exact Hstored|]. intros e'. now apply stored_extends. }
    { exact Hgrant. }
    { intros q Hq. rewrite SF; [now apply Hdirs | |].
      - intros H. now apply (keydir_not_above_pakk e q H).
      - intros ->. apply prefix_app_inv, prefix_cons_inv_1 in Hq.
        now apply (unscoped_not_pakk _ Hu). }
    { apply Forall_forall. intros e' Hin. apply list_elem_of_In in Hin.
      destruct (Hother e' Hin) as [Hu' Hne'].
      rewrite Forall_forall in Hfresh.
      destruct (Hfresh e' ltac:(now apply list_elem_of_In)) as [Hvac' Htop']. split.
      - intros q Hq. rewrite SF; [now apply Hvac' | |].
        + intros H. apply Hne'. symmetry. now apply (keydir_disjoint e e' q).
        + apply (top_not_in_pakk e q Hu). etrans; [apply pakk_keydir | exact Hq].
      - rewrite SF; [exact Htop' | |].
        + intros H. apply (top_not_in_pakk e' (top e') Hu'); [|reflexivity].
          etrans; [apply pakk_keydir | exact H].
        + intros E. apply app_inv_head in E. injection E as E. contradiction. }
    assert (Htop_rest : untouched rest (top e)).
    { apply Forall_forall; intros e' Hin; apply list_elem_of_In in Hin.
      destruct (Hother e' Hin) as [Hu' Hne']. split.
      - intros H. apply (top_not_in_pakk e (top e) Hu); [|reflexivity].
        etrans; [apply pakk_keydir | exact H].
      - intros E. apply app_inv_head in E. injection E as E. congruence. }
    assert (Hkey_rest : forall q, keydir e `prefix_of` q -> untouched rest q).
    { intros q Hq. apply Forall_forall; intros e' Hin; apply list_elem_of_In in Hin.
      destruct (Hother e' Hin) as [Hu' Hne']. split.
      - intros H. apply Hne'. symmetry. now apply (keydir_disjoint e e' q).
      - apply (top_not_in_pakk e' q Hu'). etrans; [apply pakk_keydir | exact Hq]. }
    assert (Hdom : dom (data fs) ⊆ dom (data fs4)).
    { intros k Hk. apply elem_of_dom. rewrite (SD k Hk). now apply elem_of_dom. }
    destruct Hlinks as (F1 & F2 & F3 & C).
    exists fs'. split.
    { rewrite E'. do 3 f_equal. apply omap_ext_in. intros e' Hin.
      unfold warning_of. rewrite (store_dir_extends fs fs4 e' Hext); [reflexivity|].
      rewrite Forall_forall in Hstored. now apply Hstored. }
    split.
    { intros q Hq. apply Forall_cons in Hq. destruct Hq as [[Hq1 Hq2] Hq].
      rewrite (Hframe q Hq). now apply SF. }
    split.
    { intros k Hk. rewrite Hdata by (now apply Hdom). now apply SD. }
    apply Forall_cons. split.
    + intros src' Hsrc'. rewrite Esd in Hsrc'. injection Hsrc' as <-. split; [|split].
      * rewrite (Hframe _ Htop_rest). apply lookup_insert_eq.
      * rewrite (Hframe _ (Hkey_rest _ (keydir_virt e))). cbn [fs4 names with_names].
        rewrite lookup_insert_ne.
        -- apply F2. reflexivity.
        -- intros E. apply (virt_not_above_top e). now rewrite <- E.
      * intros rel i bytes Hf Hb.
        apply (linked_later ft mode fs fs fs1 fs'); [now apply C | reflexivity | | exact Hdata].
        rewrite Hframe.
        -- cbn [fs4 names with_names]. apply lookup_insert_ne. intros E.
          apply (top_not_in_pakk e (virt e ++ rel)%list Hu); [|now symmetry].
          etrans; [apply pakk_keydir|]. etrans; [apply keydir_virt|]. now apply prefix_app_r.
        -- apply Hkey_rest. etrans; [apply keydir_virt|]. now apply prefix_app_r.
    + rewrite Forall_forall in Hsettled, Hstored. apply Forall_forall.
      intros e' Hin src' Hsrc'.
      destruct (store_dir_plain fs e' src' (Hstored e' Hin) Hsrc') as [Hap' _].
      destruct (Hsettled e' Hin src') as (H1 & H2 & H3).
      { now rewrite (store_dir_extends fs fs4 e' Hext (Hstored e' Hin)). }
      split; [exact H1|]. split; [exact H2|].
      intros rel i bytes Hf Hb.
      apply (linked_later ft mode fs4 fs fs' fs'); [|exact Hdom | reflexivity | auto].
      apply H3.
      * rewrite (file_at_ext fs fs4); [exact Hf|].
        intros q Hq. apply (proj1 Hext). now apply (apart_below src' nm q Hap').
      * rewrite SD; [exact Hb | now apply elem_of_dom].
  - rewrite (link_one_not_in_store fs warnings e Esd). cbn [bind].
    destruct (IH fs (warnings ++ [NotInStore (fst e) (version (snd e))])%list
                Hnd Hplain Hstored Hgrant Hdirs Hfresh) as (fs' & E' & Hframe & Hdata & Hsettled).
    exists fs'. rewrite E', <- app_assoc. split; [reflexivity|]. split.
    + intros q Hq. apply Hframe. now apply Forall_cons in Hq.
    + split; [exact Hdata|]. apply Forall_cons. split; [|exact Hsettled].
      intros src Hsrc. rewrite Esd in Hsrc. discriminate.
Qed.

Lemma ancestors_spec p q : q `prefix_of` p -> q <> p -> In q (ancestors p).
Proof.
  intros [l ->] Hne. unfold ancestors. apply in_map_iff. exists (length q). split.
  - now rewrite firstn_app, Nat.sub_diag, firstn_all, firstn_O, app_nil_r.
  - apply in_seq. rewrite length_app. destruct l; [now rewrite app_nil_r in Hne | cbn; lia].
Qed.

Lemma is_dir_ancestors fs p q :
  forallb (is_dir fs) (ancestors p) = true -> q `prefix_of` p -> q <> p ->
  names fs !! q = Some Dir.
Proof.
  intros H Hq Hne. rewrite forallb_forall in H.
  specialize (H q (ancestors_spec p q Hq Hne)). unfold is_dir in H.
  destruct (names fs !! q) as [[]|]; congruence.
Qed.

Lemma store_ok_spec fs e :
  store_ok cwd idx fs nm (S fuel) e = true -> stored fs e.
Proof.
  unfold store_ok. destruct (extractedPath_of idx _ _) as [s|]; [|auto].
  intros H. apply andb_prop in H. destruct H as [H1 H2]. split; [now apply apartb_spec|].
  apply orb_prop in H2. destruct H2 as [H2|H2]; [left; now apply plain_treeb_spec|].
  right. now destruct (names fs !! of_string cwd s).
Qed.

Lemma linked_reads fs fs' src dest i bytes :
  linked ft mode fs fs' src dest i bytes ->
  names fs' !! src = Some (File i) -> data fs' !! i = Some bytes ->
  readFileSync fs' dest = Ok bytes.
Proof.
  intros Hl Hn Hd.
  assert (Hcopy : copied fs fs' dest bytes -> readFileSync fs' dest = Ok bytes).
  { intros (j & H1 & _ & H3). now apply (readFileSync_file fs' _ j). }
  unfold linked in Hl. destruct mode.
  - destruct (link_refused ft _ _); [auto|]. now apply (readFileSync_file fs' _ i).
  - destruct (symlink_refused ft _ _); [auto|].
    now apply (readFileSync_symlink fs' _ src i).
  - auto.
Qed.

End CreateVirtualStore.

Section VirtualStoreTheorems.
Import Registry Linker VirtualStore JsString.

(** X14. [createVirtualStore] on a [node_modules] that does not exist yet,
    in a project directory that does.  For packages with distinct names
    without scope, whose store directories, where the index has one, are
    plain trees apart from [node_modules], on a platform that makes the
    top-level symbolic links: the run completes in every link mode; it
    warns about exactly the packages that have no directory in the store,
    in order; for every other package the directory
    [.pakk/name@version/node_modules/name] holds each file of the store
    directory, linked or copied as [linkPackage] does, reading the same
    bytes, and [node_modules/name] is a symbolic link to that directory;
    nothing outside [node_modules] changes. *)
Theorem createVirtualStore_links_packages
    (ft : Faults) (cwd : path) (fuel : nat) (mode : LinkMode)
    (idx : Install.StoreIndex) (nm : path)
    (packages : list (string * ResolvedPackage)) (fs : FS) :
  NoDup packages.*1 ->
  forallb plain_package packages = true ->
  forallb (store_ok cwd idx fs nm (S fuel)) packages = true ->
  links_granted ft nm packages = true ->
  vacantb fs nm = true ->
  forallb (is_dir fs) (ancestors nm) = true ->
  exists fs',
    createVirtualStore ft cwd (S fuel) packages idx nm mode fs
    = Ok (fs', omap (warning_of cwd idx fs) packages)
    /\ (forall q, ¬ (nm `prefix_of` q) -> names fs' !! q = names fs !! q)
    /\ (forall k, k ∈ dom (data fs) -> data fs' !! k = data fs !! k)
    /\ forall e src,
         e ∈ packages -> store_dir cwd idx fs e = Some src ->
         let dir := virtualPkgDir nm (fst e) (version (snd e)) in
         names fs' !! topLevelLink nm (fst e) = Some (Symlink dir)
         /\ names fs' !! dir = Some Dir
         /\ forall rel i bytes,
              file_at fs src rel = Some i -> data fs !! i = Some bytes ->
              readFileSync fs' (dir ++ rel)%list = Ok bytes
              /\ linked ft mode fs fs' (src ++ rel)%list (dir ++ rel)%list i bytes.
Proof.
  intros Hnd Hplain Hstore Hgrant Hvac Hanc.
  apply vacantb_spec in Hvac.
  assert (Hplain' : Forall (fun e => plain_package e = true) packages).
  { apply Forall_forall. intros e He. rewrite forallb_forall in Hplain.
    apply Hplain. now apply list_elem_of_In. }
  assert (Hstored : Forall (fun e =>
            match extractedPath_of idx (fst e) (version (snd e)) with
            | None => True
            | Some s =>
                apart (of_string cwd s) nm
                /\ (plain_tree fs (of_string cwd s) (S fuel)
                    \/ names fs !! of_string cwd s = None)
            end) packages).
  { apply Forall_forall. intros e He. rewrite forallb_forall in Hstore.
    apply (store_ok_spec cwd fuel idx nm). apply Hstore. now apply list_elem_of_In. }
  assert (Hdirs : forall q, q `prefix_of` nm -> q <> nm -> names fs !! q = Some Dir).
  { intros q. now apply is_dir_ancestors. }
  unfold createVirtualStore. rewrite virtualStoreDir_eq.
  destruct (mkdirSync_ok fs (nm ++ [".pakk"])%list) as (fs0 & E0 & Hdata0 & Hdirs0 & Hframe0).
  { intros q Hq Hne. apply prefix_snoc_inv in Hq. destruct Hq as [->|Hq]; [contradiction|].
    destruct (decide (q = nm)) as [->|Hn]; [left; apply Hvac; reflexivity | right; auto]. }
  { apply Hvac. now apply prefix_app_r. }
  rewrite E0. cbn [bind].
  assert (Hext0 : (forall q, ¬ (nm `prefix_of` q) -> names fs0 !! q = names fs !! q)
                  /\ (forall k, k ∈ dom (data fs) -> data fs0 !! k = data fs !! k)).
  { split; [|intros k _; now rewrite Hdata0].
    intros q Hq. destruct (decide (q `prefix_of` (nm ++ [".pakk"])%list)) as [Hp|Hp].
    - rewrite (Hdirs0 q Hp). apply prefix_snoc_inv in Hp. destruct Hp as [->|Hp].
      + exfalso. apply Hq. now apply prefix_app_r.
      + symmetry. apply Hdirs; [exact Hp|]. intros ->. now apply Hq.
    - now apply Hframe0. }
  destruct (link_loop ft cwd fuel mode idx nm packages fs0 [] Hnd Hplain')
    as (fs' & E' & Hframe & Hdata & Hsettled).
  { eapply Forall_impl; [exact Hstored|]. intros e. now apply (stored_extends cwd fuel idx nm fs fs0). }
  { apply Forall_forall. intros e He. unfold links_granted in Hgrant.
    rewrite forallb_forall in Hgrant. specialize (Hgrant e ltac:(now apply list_elem_of_In)).
    apply negb_true_iff in Hgrant. rewrite Forall_forall in Hplain'.
    destruct (plain_package_inv e (Hplain' e He)) as [Hu Hv].
    now rewrite (link_target_eq nm _ _ Hu Hv), (virtualPkgDir_eq nm _ _ Hu Hv),
      (topLevelLink_eq nm _ Hu) in Hgrant. }
  { exact Hdirs0. }
  { apply Forall_forall. intros e He. rewrite Forall_forall in Hplain'.
    destruct (plain_package_inv e (Hplain' e He)) as [Hu Hv]. split.
    - intros q Hq. rewrite Hframe0.
      + apply Hvac. etrans; [|exact Hq]. now apply prefix_app_r.
      + now apply (keydir_not_above_pakk nm e q).
    - rewrite Hframe0; [apply Hvac; now apply prefix_app_r|].
      intros H. apply prefix_app_inv, prefix_cons_inv_1 in H.
      now apply (unscoped_not_pakk _ Hu). }
  exists fs'. rewrite E'. cbn [app]. split.
  { do 2 f_equal. apply omap_ext_in. intros e He. unfold warning_of.
    rewrite (store_dir_extends cwd fuel idx nm fs fs0 e Hext0); [reflexivity|].
    rewrite Forall_forall in Hstored. now apply Hstored. }
  assert (Hout : forall q, ¬ (nm `prefix_of` q) -> names fs' !! q = names fs !! q).
  { intros q Hq. rewrite Hframe by (now apply untouched_outside).
    now apply (proj1 Hext0). }
  assert (Hkeep : forall k, k ∈ dom (data fs) -> data fs' !! k = data fs !! k).
  { intros k Hk. rewrite Hdata by (now rewrite Hdata0). now rewrite Hdata0. }
  split; [exact Hout|]. split; [exact Hkeep|].
  intros e src He Hsrc. cbv zeta.
  rewrite Forall_forall in Hplain', Hstored, Hsettled.
  destruct (plain_package_inv e (Hplain' e He)) as [Hu Hv].
  rewrite (virtualPkgDir_eq nm _ _ Hu Hv), (topLevelLink_eq nm _ Hu).
  destruct (store_dir_plain cwd fuel idx nm fs e src (Hstored e He) Hsrc) as [Hap _].
  destruct (Hsettled e He src) as (H1 & H2 & H3).
  { now rewrite (store_dir_extends cwd fuel idx nm fs fs0 e Hext0 (Hstored e He)). }
  split; [exact H1|]. split; [exact H2|].
  intros rel i bytes Hf Hb.
  assert (Hl : linked ft mode fs fs' (src ++ rel)%list
                 ((nm ++ [".pakk"; (fst e ++ "@" ++ version (snd e))%string; "node_modules"; fst e])
                  ++ rel)%list i bytes).
  { apply (linked_later ft mode fs0 fs fs' fs'); [|now rewrite Hdata0 | reflexivity | auto].
    apply H3.
    - rewrite (file_at_ext fs fs0); [exact Hf|].
      intros q Hq. apply (proj1 Hext0). now apply (apart_below src nm q Hap).
    - now rewrite Hdata0. }
  split; [|exact Hl].
  apply (linked_reads ft mode fs fs' (src ++ rel)%list _ i bytes Hl).
  - rewrite Hout; [now apply file_at_names|].
    apply (apart_below src nm _ Hap). now apply prefix_app_r.
  - rewrite Hkeep; [exact Hb | now apply elem_of_dom].
Qed.

Lemma createVirtualStore_links_packages_witness :
  exists fs',
    createVirtualStore posix_faults ["project"] 2
      [demo_package "pkg" "1.0.0"; demo_package "ghost" "2.0.0"]
      demo_index ["project"; "node_modules"] hardlink demo_fs
    = Ok (fs', [NotInStore "ghost" "2.0.0"])
    /\ names fs' !! ["project"; "node_modules"; "pkg"]
       = Some (Symlink ["project"; "node_modules"; ".pakk"; "pkg@1.0.0"; "node_modules"; "pkg"])
    /\ readFileSync fs' ["project"; "node_modules"; ".pakk"; "pkg@1.0.0"; "node_modules"; "pkg";
                         "lib"; "util.js"] = Ok "exports.util = 2".
Proof.
  destruct (createVirtualStore_links_packages posix_faults ["project"] 1 hardlink demo_index
              ["project"; "node_modules"]
              [demo_package "pkg" "1.0.0"; demo_package "ghost" "2.0.0"] demo_fs)
    as (fs' & E & _ & _ & H).
  - cbn. apply NoDup_cons_2; [|apply NoDup_singleton].
    rewrite list_elem_of_singleton. discriminate.
  - vm_compute. reflexivity.
  - vm_compute. reflexivity.
  - vm_compute. reflexivity.
  - vm_compute. reflexivity.
  - vm_compute. reflexivity.
  - exists fs'. split; [exact E|].
    destruct (H (demo_package "pkg" "1.0.0") ["store"; "pkg"]) as (H1 & _ & H3);
      [left | vm_compute; reflexivity |].
    split; [exact H1|].
    apply (H3 ["lib"; "util.js"] 2%nat "exports.util = 2"); vm_compute; reflexivity.
Defined.

Section Scoped.

Context (ft : Faults) (cwd : path) (fuel : nat) (mode : LinkMode).
Context (idx : Install.StoreIndex) (nm : path).
Context (scope base : string) (pkg : ResolvedPackage).
Context (Hscope : simple scope = true) (Hpakk : scope <> ".pakk").
Context (Hbase : simple base = true) (Hversion : lacks "/" (version pkg) = true).

#[local] Abbreviation scoped_name := (String.append scope (String.append "/" base)).
#[local] Abbreviation scoped_dir :=
  (nm ++ [".pakk"; scope; String.append base (String.append "@" (version pkg));
          "node_modules"; scope; base])%list.
#[local] Abbreviation scoped_target :=
  (nm ++ [scope; ".pakk"; scope; String.append base (String.append "@" (version pkg));
          "node_modules"; scope; base])%list.

Lemma append_assoc (a b c : string) : ((a ++ b) ++ c = a ++ (b ++ c))%string.
Proof.
  induction a as [|x a IH]; [reflexivity|].
  change (String x ((a ++ b) ++ c) = String x (a ++ (b ++ c)))%string. now rewrite IH.
Qed.

Lemma split_scoped rest :
  lacks "/" rest = true -> Js.split "/" (scope ++ "/" ++ rest) = [scope; rest].
Proof.
  intros H. change ("/" ++ rest)%string with (String "/" rest).
  rewrite split_app, (split_simple scope Hscope), split_no_sep; [reflexivity | exact H].
Qed.

Lemma scoped_key :
  (scoped_name ++ "@" ++ version pkg = scope ++ "/" ++ (base ++ "@" ++ version pkg))%string.
Proof. now rewrite append_assoc. Qed.

Lemma fold_enter_simple segs p :
  forallb simple segs = true -> fold_left enter segs p = (p ++ segs)%list.
Proof. apply resolve_simple. Qed.

Lemma scoped_simple :
  simple (base ++ "@" ++ version pkg) = true.
Proof. apply key_simple; [now apply simple_lacks_slash | exact Hversion]. Qed.

#[local] Ltac simple_segments :=
  cbn [forallb app]; rewrite ?andb_true_iff; repeat split;
  first [assumption | reflexivity | apply scoped_simple].

Lemma scoped_dir_eq : virtualPkgDir nm scoped_name (version pkg) = scoped_dir.
Proof.
  unfold virtualPkgDir, virtualStoreDir, join. cbn [map concat].
  rewrite scoped_key, (split_scoped (base ++ "@" ++ version pkg)), (split_scoped base).
  2:{ now apply simple_lacks_slash. }
  2:{ apply simple_lacks_slash, scoped_simple. }
  change (Js.split "/" ".pakk") with [".pakk"].
  change (Js.split "/" "node_modules") with ["node_modules"].
  cbn [app].
  rewrite (fold_enter_simple [".pakk"] nm eq_refl).
  rewrite fold_enter_simple by simple_segments.
  now rewrite <- app_assoc.
Qed.

Lemma scoped_top_eq : topLevelLink nm scoped_name = (nm ++ [scope; base])%list.
Proof.
  unfold topLevelLink, join. cbn [map concat].
  rewrite (split_scoped base) by now apply simple_lacks_slash.
  cbn [app]. apply fold_enter_simple. simple_segments.
Qed.

Lemma scoped_target_eq :
  resolve (dirname (topLevelLink nm scoped_name)) (relativePath scoped_name (version pkg))
  = scoped_target.
Proof.
  rewrite scoped_top_eq. unfold dirname.
  replace (nm ++ [scope; base])%list with ((nm ++ [scope]) ++ [base])%list
    by now rewrite <- app_assoc.
  rewrite removelast_last. unfold relativePath, join_relative. cbn [map concat].
  rewrite scoped_key, (split_scoped (base ++ "@" ++ version pkg)), (split_scoped base).
  2:{ now apply simple_lacks_slash. }
  2:{ apply simple_lacks_slash, scoped_simple. }
  change (Js.split "/" ".pakk") with [".pakk"].
  change (Js.split "/" "node_modules") with ["node_modules"].
  cbn [app].
  rewrite fold_enter_relative_simple by simple_segments.
  rewrite resolve_simple by simple_segments.
  now rewrite <- app_assoc.
Qed.

Lemma under_inv (l1 l2 : path) :
  (nm ++ l1)%list `prefix_of` (nm ++ l2)%list -> l1 `prefix_of` l2.
Proof. apply prefix_app_inv. Qed.

Lemma scope_not_pakk_prefix (l1 l2 : path) :
  ¬ ((nm ++ scope :: l1)%list `prefix_of` (nm ++ ".pakk" :: l2)%list).
Proof. intros H. apply under_inv, prefix_cons_inv_1 in H. contradiction. Qed.

Lemma pakk_not_scope_prefix (l1 l2 : path) :
  ¬ ((nm ++ ".pakk" :: l1)%list `prefix_of` (nm ++ scope :: l2)%list).
Proof. intros H. apply under_inv, prefix_cons_inv_1 in H. now apply Hpakk. Qed.

(** X15. A scoped package is linked into the virtual store, but its
    top-level link leads nowhere.  For a name made of a scope, a slash and
    a base name, under the conditions of the theorem for packages without
    scope, [createVirtualStore] completes without warning and the files
    are in [.pakk/scope/base@version/node_modules/scope/base]; the link
    [node_modules/scope/base] is made with the path relative to
    [node_modules] as its target, which from [node_modules/scope] leads
    to [node_modules/scope/.pakk/...]: nothing is there, and
    [existsSync] of the link is false. *)
Theorem createVirtualStore_scoped_link_dangles (fs : FS) (src : path) :
  store_dir cwd idx fs (scoped_name, pkg) = Some src ->
  apartb src nm = true ->
  plain_treeb fs src (S fuel) = true ->
  symlink_refused ft scoped_target (nm ++ [scope; base])%list = false ->
  vacantb fs nm = true ->
  forallb (is_dir fs) (ancestors nm) = true ->
  exists fs',
    createVirtualStore ft cwd (S fuel) [(scoped_name, pkg)] idx nm mode fs = Ok (fs', [])
    /\ names fs' !! virtualPkgDir nm scoped_name (version pkg) = Some Dir
    /\ (forall rel i bytes,
          file_at fs src rel = Some i -> data fs !! i = Some bytes ->
          readFileSync fs' (virtualPkgDir nm scoped_name (version pkg) ++ rel)%list = Ok bytes)
    /\ names fs' !! topLevelLink nm scoped_name = Some (Symlink scoped_target)
    /\ names fs' !! scoped_target = None
    /\ existsSync fs' (topLevelLink nm scoped_name) = false.
Proof.
  intros Hsd Hap Hplain Hgrant Hvac Hanc.
  apply apartb_spec in Hap. apply plain_treeb_spec in Hplain. apply vacantb_spec in Hvac.
  assert (Hdirs : forall q, q `prefix_of` nm -> q <> nm -> names fs !! q = Some Dir).
  { intros q. now apply is_dir_ancestors. }
  destruct (store_dir_inv cwd idx fs _ src Hsd) as (s & Es & -> & _).
  cbn [fst snd] in Es.
  remember (of_string cwd s) as src eqn:Esrc.
  assert (Hout : forall q, src `prefix_of` q -> ¬ (nm `prefix_of` q) /\ ¬ (q `prefix_of` nm)).
  { intros q. now apply apart_below. }
  unfold createVirtualStore. rewrite virtualStoreDir_eq.
  destruct (mkdirSync_ok fs (nm ++ [".pakk"])%list) as (fs0 & E0 & Hdata0 & Hdirs0 & Hframe0).
  { intros q Hq Hne. apply prefix_snoc_inv in Hq. destruct Hq as [->|Hq]; [contradiction|].
    destruct (decide (q = nm)) as [->|Hn]; [left; apply Hvac; reflexivity | right; auto]. }
  { apply Hvac. now apply prefix_app_r. }
  rewrite E0. cbn [bind for_of].
  assert (Hnew0 : forall q, nm `prefix_of` q -> ¬ (q `prefix_of` (nm ++ [".pakk"])%list) ->
                            names fs0 !! q = None).
  { intros q Hq Hn. rewrite Hframe0 by exact Hn. now apply Hvac. }
  assert (Hsrc0 : forall q, src `prefix_of` q -> names fs0 !! q = names fs !! q).
  { intros q Hq. apply Hframe0. intros H. apply prefix_snoc_inv in H.
    destruct H as [->|H]; [|now apply (proj2 (Hout q Hq))].
    apply (proj1 (Hout _ Hq)). now apply prefix_app_r. }
  assert (Hplain0 : plain_tree fs0 src (S fuel)).
  { destruct Hplain as [Hd Hb]. split; [rewrite Hsrc0; [exact Hd | reflexivity]|].
    intros rel e Hrel He. rewrite Hsrc0 in He by now apply prefix_app_r.
    specialize (Hb rel e Hrel He). destruct e; try exact Hb.
    unfold plain_entry in *. now rewrite Hdata0. }
  unfold link_one. cbn [fst snd]. rewrite Es, <- Esrc.
  rewrite (existsSync_dir fs0 src) by (rewrite Hsrc0; [apply Hplain | reflexivity]).
  cbn [negb]. rewrite scoped_target_eq, scoped_dir_eq, scoped_top_eq.
  destruct (linkPackage_links ft mode (S fuel) fs0 src scoped_dir) as (fs1 & E1 & F1 & F2 & F3 & C).
  { split; intros H.
    - assert (Hn : nm `prefix_of` scoped_dir) by now apply prefix_app_r.
      destruct (prefix_weak_total _ _ _ Hn H) as [H'|H'].
      + now apply (proj1 (Hout src ltac:(reflexivity))).
      + now apply (proj2 (Hout src ltac:(reflexivity))).
    - apply (proj1 (Hout src ltac:(reflexivity))).
      etrans; [|exact H]. now apply prefix_app_r. }
  { intros q Hq. apply Hnew0.
    - etrans; [|exact Hq]. now apply prefix_app_r.
    - intros H. assert (Hl : scoped_dir `prefix_of` (nm ++ [".pakk"])%list) by (etrans; eauto).
      apply prefix_length in Hl. rewrite !length_app in Hl. cbn in Hl. lia. }
  { intros q Hq Hne.
    assert (Hp : (nm ++ [".pakk"])%list `prefix_of` scoped_dir).
    { exists [scope; (base ++ "@" ++ version pkg)%string; "node_modules"; scope; base].
      now rewrite <- app_assoc. }
    destruct (prefix_weak_total _ _ _ Hq Hp) as [H|H]; [right; now apply Hdirs0|].
    destruct (decide (q = (nm ++ [".pakk"])%list)) as [->|Hd];
      [right; apply Hdirs0; reflexivity|].
    left. apply Hnew0.
    - etrans; [|exact H]. now apply prefix_app_r.
    - intros H'. apply Hd. now apply (anti_symm prefix). }
  { exact Hplain0. }
  { lia. }
  rewrite E1. cbn [bind]. unfold dirname.
  replace (removelast (nm ++ [scope; base])%list) with (nm ++ [scope])%list.
  2:{ replace (nm ++ [scope; base])%list with ((nm ++ [scope]) ++ [base])%list
        by now rewrite <- app_assoc.
      now rewrite removelast_last. }
  assert (Hfresh1 : forall l, names fs1 !! (nm ++ scope :: l)%list = None).
  { intros l. rewrite F1.
    - apply Hnew0; [now apply prefix_app_r|]. apply scope_not_pakk_prefix.
    - apply pakk_not_scope_prefix.
    - apply scope_not_pakk_prefix. }
  destruct (mkdirSync_ok fs1 (nm ++ [scope])%list) as (fs2 & E2 & Hdata2 & Hdirs2 & Hframe2).
  { intros q Hq Hne. right. apply prefix_snoc_inv in Hq. destruct Hq as [->|Hq]; [contradiction|].
    apply F2. etrans; [exact Hq|]. now apply prefix_app_r. }
  { apply Hfresh1. }
  rewrite E2. cbn [bind].
  assert (Hfresh2 : forall x l, names fs2 !! (nm ++ scope :: x :: l)%list = None).
  { intros x l. rewrite Hframe2; [apply Hfresh1|].
    intros H. apply under_inv, prefix_length in H. cbn in H. lia. }
  rewrite (existsSync_absent fs2 (nm ++ [scope; base])%list) by apply Hfresh2.
  cbn [bind]. unfold symlinkSync. rewrite Hgrant, Hfresh2.
  replace (parent (nm ++ [scope; base])%list) with (nm ++ [scope])%list.
  2:{ replace (nm ++ [scope; base])%list with ((nm ++ [scope]) ++ [base])%list
        by now rewrite <- app_assoc.
      symmetry. apply parent_snoc. }
  rewrite (Hdirs2 (nm ++ [scope])%list) by reflexivity.
  set (fs3 := with_names (insert (nm ++ [scope; base])%list (Symlink scoped_target)) fs2).
  assert (N3 : names fs3 = <[(nm ++ [scope; base])%list := Symlink scoped_target]> (names fs2))
    by reflexivity.
  assert (D3 : data fs3 = data fs2) by reflexivity.
  exists fs3. split; [reflexivity|]. clearbody fs3.
  assert (Hlater : forall q, ¬ ((nm ++ [scope])%list `prefix_of` q) ->
            ¬ (q `prefix_of` (nm ++ [scope])%list) -> names fs3 !! q = names fs1 !! q).
  { intros q H1 H2. rewrite N3, lookup_insert_ne.
    - now apply Hframe2.
    - intros <-. apply H1. exists [base]. now rewrite <- app_assoc. }
  assert (Hpakk1 : forall l, names fs3 !! (nm ++ ".pakk" :: l)%list
                             = names fs1 !! (nm ++ ".pakk" :: l)%list).
  { intros l. apply Hlater.
    - intros H. apply under_inv, prefix_cons_inv_1 in H. contradiction.
    - apply pakk_not_scope_prefix. }
  assert (Hnone : names fs3 !! scoped_target = None).
  { rewrite N3, lookup_insert_ne.
    - apply Hfresh2.
    - intros E. apply (f_equal length) in E. rewrite !length_app in E. cbn in E. lia. }
  split; [|split; [|split; [|split]]].
  - rewrite Hpakk1. apply F2. reflexivity.
  - intros rel i bytes Hf Hb.
    assert (Hf0 : file_at fs0 src rel = Some i) by (rewrite (file_at_ext fs fs0); auto).
    assert (Hb0 : data fs0 !! i = Some bytes) by now rewrite Hdata0.
    pose proof (C rel i bytes Hf0 Hb0) as Hl.
    assert (Hin : forall q, src `prefix_of` q -> names fs3 !! q = names fs !! q).
    { intros q Hq. destruct (Hout q Hq) as [Ho1 Ho2]. rewrite Hlater, F1, Hsrc0; auto.
      - intros H. apply Ho1. etrans; [|exact H]. now apply prefix_app_r.
      - intros H. assert (Hn : nm `prefix_of` scoped_dir) by now apply prefix_app_r.
        destruct (prefix_weak_total _ _ _ Hn H); contradiction.
      - intros H. apply Ho1. etrans; [|exact H]. now apply prefix_app_r.
      - intros H. apply prefix_snoc_inv in H. destruct H as [E|H]; [|contradiction].
        apply Ho1. rewrite E. now apply prefix_app_r. }
    apply (linked_reads ft mode fs0 fs3 (src ++ rel)%list _ i bytes).
    + apply (linked_later ft mode fs0 fs0 fs1); [exact Hl | reflexivity | |].
      * rewrite <- app_assoc. apply Hpakk1.
      * intros k _. now rewrite D3, Hdata2.
    + rewrite Hin by now apply prefix_app_r. now apply file_at_names.
    + rewrite D3, Hdata2, F3; [exact Hb0 | now apply elem_of_dom].
  - rewrite N3. apply lookup_insert_eq.
  - exact Hnone.
  - unfold existsSync, MAXSYMLINKS.
    rewrite (follow_symlink _ _ _ scoped_target) by (rewrite N3; apply lookup_insert_eq).
    rewrite follow_here by now rewrite Hnone. now rewrite Hnone.
Qed.

End Scoped.

Lemma createVirtualStore_scoped_link_dangles_witness :
  exists fs',
    createVirtualStore posix_faults ["project"] 2 [demo_package "@acme/tool" "1.0.0"]
      scoped_index ["project"; "node_modules"] hardlink demo_fs = Ok (fs', [])
    /\ readFileSync fs' ["project"; "node_modules"; ".pakk"; "@acme"; "tool@1.0.0";
                         "node_modules"; "@acme"; "tool"; "index.js"]
       = Ok "module.exports = 1"
    /\ names fs' !! ["project"; "node_modules"; "@acme"; "tool"]
       = Some (Symlink ["project"; "node_modules"; "@acme"; ".pakk"; "@acme"; "tool@1.0.0";
                        "node_modules"; "@acme"; "tool"])
    /\ existsSync fs' ["project"; "node_modules"; "@acme"; "tool"] = false.
Proof.
  destruct (createVirtualStore_scoped_link_dangles posix_faults ["project"] 1 hardlink
              scoped_index ["project"; "node_modules"] "@acme" "tool"
              (snd (demo_package "@acme/tool" "1.0.0"))
              eq_refl ltac:(discriminate) eq_refl eq_refl demo_fs ["store"; "pkg"])
    as (fs' & E & _ & H & Hl & _ & Hex);
    [vm_compute; reflexivity ..|].
  exists fs'. split; [exact E|]. split; [|split; [exact Hl | exact Hex]].
  apply (H ["index.js"] 1%nat "module.exports = 1"); vm_compute; reflexivity.
Defined.

End VirtualStoreTheorems.

(** ** Compression *)

Section CompressorFacts.
Import Dictionary Compressor.








End CompressorFacts.

Section ToyCodecs.
Import Dictionary Compressor.


End ToyCodecs.


(** Without the proviso the round trip fails: a Brotli output that happens
    to start with the bytes 1F 8B is handed to [gunzipSync]. *)
Example brotli_output_taken_for_gzip :
  let codecs := Compressor.toy_codecs None in
  let input := String (Compressor.byte 31) (String (Compressor.byte 139) "..payload") in
  let options := {| Compressor.level := None; Compressor.minDictSize := None;
                    Compressor.dictionary := None;
                    Compressor.algorithm := Some Compressor.brotli |} in
  Compressor.used_algorithm (Compressor.compress codecs input options) = Compressor.brotli
  /\ Compressor.decompress codecs (Compressor.data (Compressor.compress codecs input options))
       {| Compressor.with_dictionary := None |} = Some "payload".
Proof. vm_compute. split; reflexivity. Qed.

(** ** The files a command works on *)

Section FileLists.
Import Linker Files.

Implicit Types (fs : FS) (p q dir : path) (n : string).

Lemma statSync_here fs p e :
  names fs !! p = Some e ->
  match e with Symlink _ => False | _ => True end ->
  statSync fs p = Ok e.
Proof.
  intros He Hno. unfold statSync.
  rewrite (follow_here MAXSYMLINKS fs p) by (rewrite He; exact Hno).
  now rewrite He.
Qed.

Lemma existsSync_here fs p e :
  names fs !! p = Some e ->
  match e with Symlink _ => False | _ => True end ->
  existsSync fs p = true.
Proof.
  intros He Hno. unfold existsSync.
  rewrite (follow_here MAXSYMLINKS fs p) by (rewrite He; exact Hno).
  now rewrite He.
Qed.

Lemma existsSync_none fs p : names fs !! p = None -> existsSync fs p = false.
Proof.
  intros He. unfold existsSync.
  rewrite (follow_here MAXSYMLINKS fs p) by (now rewrite He).
  now rewrite He.
Qed.

Lemma plain_tree_child fs p n d :
  plain_tree fs p (S d) -> names fs !! (p ++ [n])%list = Some Dir ->
  plain_tree fs (p ++ [n])%list d.
Proof.
  intros [_ Hplain] Hn. split; [exact Hn|].
  intros rel e Hrel He. rewrite <- app_assoc in He.
  apply (Hplain (n :: rel) e) in He; [|discriminate].
  now apply (plain_entry_below fs fs d n rel e).
Qed.

Lemma file_at_below fs p n rel :
  rel <> [] -> names fs !! (p ++ [n])%list = Some Dir ->
  file_at fs p (n :: rel) = file_at fs (p ++ [n])%list rel.
Proof.
  intros Hrel Hn. destruct rel as [|m rel]; [contradiction|].
  cbn [file_at]. now rewrite Hn.
Qed.

Lemma app_cons_inj p n m (rel rel' : path) :
  (p ++ n :: rel)%list = (p ++ m :: rel')%list -> n = m /\ rel = rel'.
Proof. intros H. apply app_inv_head in H. now injection H. Qed.

(** A loop that only pushes: what it has pushed in the end is what each
    round has, and nothing twice when the rounds push apart. *)
Lemma for_entries_collect {A} (P : A -> path -> Prop)
    (body : list path -> A -> result (list path)) (es : list A) :
  (forall files a, a ∈ es ->
     exists l, body files a = Ok (files ++ l)%list /\ NoDup l /\ forall q, q ∈ l <-> P a q) ->
  forall files0, exists new,
    for_entries body es files0 = Ok (files0 ++ new)%list
    /\ (forall q, q ∈ new <-> exists a, a ∈ es /\ P a q)
    /\ (NoDup es -> (forall a a' q, P a q -> P a' q -> a = a') -> NoDup new).
Proof.
  induction es as [|a es IH]; intros Hbody files0.
  - exists []. cbn [for_entries]. rewrite app_nil_r. split; [reflexivity|]. split.
    + intros q. rewrite elem_of_nil. split; [tauto|]. intros (a & Ha & _).
      now apply elem_of_nil in Ha.
    + intros _ _. constructor.
  - destruct (Hbody files0 a (list_elem_of_here _ _)) as (l & El & Hnd & Hl).
    destruct (IH (fun files b Hb => Hbody files b (list_elem_of_further _ _ _ Hb))
                 (files0 ++ l)%list) as (new & En & Hnew & Hnd').
    exists (l ++ new)%list. cbn [for_entries]. rewrite El. cbn [bind].
    rewrite En, app_assoc. split; [reflexivity|]. split.
    + intros q. rewrite elem_of_app, Hl, Hnew. split.
      * intros [H|(b & Hb & H)]; [exists a | exists b]; split; auto.
        -- apply list_elem_of_here.
        -- now apply list_elem_of_further.
      * intros (b & Hb & H). apply elem_of_cons in Hb. destruct Hb as [->|Hb]; [now left|].
        right. now exists b.
    + intros Hes Hapart. apply NoDup_cons in Hes. destruct Hes as [Ha Hes].
      apply NoDup_app. split; [exact Hnd|]. split; [|now apply Hnd'].
      intros q Hq Hq'. apply Hl in Hq. apply Hnew in Hq'. destruct Hq' as (b & Hb & Hq').
      rewrite (Hapart a b q Hq Hq') in Ha. contradiction.
Qed.

Lemma files_through_apart fs dir n m q :
  files_through fs dir n q -> files_through fs dir m q -> n = m.
Proof.
  intros (rel & i & -> & _) (rel' & j & E & _). now apply app_cons_inj in E.
Qed.

Lemma files_below_through fs dir q :
  names fs !! dir = Some Dir ->
  files_below fs dir q <-> exists n, n ∈ (children fs dir).*1 /\ files_through fs dir n q.
Proof.
  intros Hdir. split.
  - intros (rel & i & -> & Hf). destruct rel as [|n rel]; [discriminate|].
    exists n. split; [|now exists rel, i].
    destruct (file_at_cons _ _ _ _ _ Hf) as [[_ H]|[_ [H _]]];
      apply children_spec in H; apply list_elem_of_fmap; eexists; (split; [|exact H]);
      reflexivity.
  - intros (n & _ & rel & i & -> & Hf). now exists (n :: rel), i.
Qed.

Lemma files_through_file fs dir n i q :
  names fs !! (dir ++ [n])%list = Some (File i) ->
  q ∈ [(dir ++ [n])%list] <-> files_through fs dir n q.
Proof.
  intros Hn. rewrite list_elem_of_singleton. split.
  - intros ->. exists [], i. split; [reflexivity|]. cbn [file_at]. now rewrite Hn.
  - intros (rel & j & -> & Hf).
    destruct (file_at_cons _ _ _ _ _ Hf) as [[-> _]|[_ [H _]]]; [reflexivity | congruence].
Qed.

Lemma files_through_dir fs dir n q :
  names fs !! (dir ++ [n])%list = Some Dir ->
  files_below fs (dir ++ [n])%list q <-> files_through fs dir n q.
Proof.
  intros Hn. split.
  - intros (rel & i & -> & Hf). exists rel, i. rewrite <- app_assoc. split; [reflexivity|].
    destruct rel as [|m rel]; [discriminate|].
    now rewrite file_at_below.
  - intros (rel & i & -> & Hf). exists rel, i.
    rewrite <- app_assoc. split; [reflexivity|].
    destruct (file_at_cons _ _ _ _ _ Hf) as [[_ H]|[Hrel [_ H]]]; [congruence | exact H].
Qed.

Lemma getFilesRecursive_S fuel fs dir :
  getFilesRecursive (S fuel) fs dir =
  match readdirSync fs dir with
  | Ok entries =>
      for_entries
        (fun files entry =>
           match statSync fs (dir ++ [entry])%list with
           | Ok stat =>
               if isDirectory stat
               then bind (getFilesRecursive fuel fs (dir ++ [entry])%list)
                         (fun inner => Ok (files ++ inner)%list)
               else Ok (files ++ [(dir ++ [entry])%list])%list
           | Throws _ => Ok files
           | OutOfFuel => OutOfFuel
           end)
        (entries.*1) []
  | Throws _ => Ok []
  | OutOfFuel => OutOfFuel
  end.
Proof. reflexivity. Qed.

Lemma getFilesRecursive_plain fs : forall depth dir,
  plain_tree fs dir depth ->
  exists files, getFilesRecursive (S depth) fs dir = Ok files
                /\ NoDup files /\ forall q, q ∈ files <-> files_below fs dir q.
Proof.
  induction depth as [|d IH]; intros dir Hplain.
  all: pose proof Hplain as [Hdir Hbelow].
  all: rewrite getFilesRecursive_S; unfold readdirSync; rewrite Hdir.
  all: match goal with
       | |- context [for_entries ?body ?es []] =>
           destruct (for_entries_collect (files_through fs dir) body es) with (files0 := @nil path)
             as (new & En & Hnew & Hnd)
       end.
  2,4: exists new; rewrite En; split; [reflexivity|]; split;
       [ apply Hnd; [apply children_nodup | apply files_through_apart]
       | intros q; rewrite Hnew; symmetry; now apply files_below_through ].
  all: intros files n Hn; apply list_elem_of_fmap in Hn; destruct Hn as ([m e] & -> & Hn);
       cbn [fst]; apply children_spec in Hn;
       pose proof (Hbelow [m] e ltac:(discriminate) Hn) as He.
  - destruct e as [|i|t]; simpl in He; discriminate.
  - destruct e as [|i|t]; [| |discriminate].
    + rewrite (statSync_here fs _ Dir Hn I). cbn [isDirectory].
      destruct (IH _ (plain_tree_child fs dir m d Hplain Hn)) as (l & El & Hl & Hq).
      exists l. rewrite El. cbn [bind]. split; [reflexivity|]. split; [exact Hl|].
      intros q. rewrite Hq. now apply files_through_dir.
    + rewrite (statSync_here fs _ (File i) Hn I). cbn [isDirectory].
      exists [(dir ++ [m])%list]. split; [reflexivity|]. split; [apply NoDup_singleton|].
      intros q. now apply (files_through_file fs dir m i).
Qed.

Lemma expandFiles_plain fs depth recursive patterns :
  forallb (plain_pattern fs depth) patterns = true ->
  exists files, expandFiles (S depth) fs patterns recursive = Ok files
                /\ forall q, q ∈ files <-> exists p, p ∈ patterns /\ expands_to fs recursive p q.
Proof.
  intros Hpat. unfold expandFiles.
  match goal with
  | |- context [for_entries ?body patterns []] =>
      destruct (for_entries_collect (expands_to fs recursive) body patterns)
        with (files0 := @nil path) as (new & En & Hnew & _)
  end.
  2: { exists new. rewrite En. split; [reflexivity | exact Hnew]. }
  intros files p Hp. cbv beta.
  assert (Hplain : plain_pattern fs depth p = true).
  { rewrite forallb_forall in Hpat. apply Hpat. now apply list_elem_of_In. }
  unfold plain_pattern in Hplain.
  destruct (names fs !! p) as [[|i|t]|] eqn:Ep; [| | discriminate |].
  - (* a directory *)
    apply plain_treeb_spec in Hplain.
    rewrite (existsSync_here fs p Dir Ep I), (statSync_here fs p Dir Ep I).
    cbn [negb bind isFile isDirectory andb].
    destruct recursive.
    + destruct (getFilesRecursive_plain fs depth p Hplain) as (l & El & Hl & Hq).
      exists l. rewrite El. cbn [bind]. split; [reflexivity|]. split; [exact Hl|].
      intros q. rewrite Hq. split.
      * intros (rel & j & -> & Hf). right. split; [exact Ep|]. exists rel, j.
        split; [reflexivity|]. split; [exact Hf | discriminate].
      * intros [[_ [j Hj]]|[_ (rel & j & -> & Hf & _)]]; [congruence | now exists rel, j].
    + unfold readdirSync. rewrite Ep. cbn [bind].
      match goal with
      | |- context [for_entries ?body ?es files] =>
          destruct (for_entries_collect
                      (fun n q => q = (p ++ [n])%list
                                  /\ exists j, names fs !! (p ++ [n])%list = Some (File j))
                      body es) with (files0 := files) as (new & En & Hnew & Hnd)
      end.
      * intros files' n Hn. apply list_elem_of_fmap in Hn.
        destruct Hn as ([m e] & -> & Hn). cbn [fst]. apply children_spec in Hn.
        pose proof (proj2 Hplain [m] e ltac:(discriminate) Hn) as He.
        destruct e as [|j|t]; [| |discriminate].
        -- rewrite (statSync_here fs _ Dir Hn I). cbn [isFile].
           exists []. rewrite app_nil_r. split; [reflexivity|]. split; [constructor|].
           intros q. rewrite elem_of_nil. split; [tauto|]. intros [_ [j Hj]]. congruence.
        -- rewrite (statSync_here fs _ (File j) Hn I). cbn [isFile].
           exists [(p ++ [m])%list]. split; [reflexivity|]. split; [apply NoDup_singleton|].
           intros q. rewrite list_elem_of_singleton. split; [|tauto].
           intros ->. split; [reflexivity | now exists j].
      * exists new. split; [exact En|]. split.
        { apply Hnd; [apply children_nodup|].
          intros a a' q [-> _] [E _]. apply app_inv_head in E. now injection E. }
        intros q. rewrite Hnew. split.
        -- intros (n & _ & -> & j & Hj). right. split; [exact Ep|]. exists [n], j.
           split; [reflexivity|]. split; [|reflexivity]. cbn [file_at]. now rewrite Hj.
        -- intros [[_ [j Hj]]|[_ (rel & j & -> & Hf & Hlen)]]; [congruence|].
           specialize (Hlen eq_refl). destruct rel as [|n [|? ?]]; try discriminate.
           exists n. apply file_at_names in Hf. split.
           ++ apply list_elem_of_fmap. exists (n, File j). split; [reflexivity|].
              now apply children_spec.
           ++ split; [reflexivity | now exists j].
  - (* a regular file *)
    rewrite (existsSync_here fs p (File i) Ep I), (statSync_here fs p (File i) Ep I).
    cbn [negb bind isFile]. exists [p]. split; [reflexivity|]. split; [apply NoDup_singleton|].
    intros q. rewrite list_elem_of_singleton. split.
    + intros ->. left. split; [reflexivity | now exists i].
    + intros [[-> _]|[H _]]; [reflexivity | congruence].
  - (* nothing *)
    rewrite (existsSync_none fs p Ep). cbn [negb]. exists []. rewrite app_nil_r.
    split; [reflexivity|]. split; [constructor|].
    intros q. rewrite elem_of_nil. split; [tauto|].
    intros [[_ [j Hj]]|[H _]]; congruence.
Qed.

End FileLists.

(** X18. In a tree of directories and regular files no deeper than
    [depth], [getFilesRecursive] returns, with fuel for that depth, every
    regular file below the directory, each one once, and nothing else. *)
Theorem getFilesRecursive_lists_every_file
    (fs : Linker.FS) (dir : Linker.path) (depth : nat) :
  Linker.plain_treeb fs dir depth = true ->
  exists files,
    Files.getFilesRecursive (S depth) fs dir = Linker.Ok files
    /\ NoDup files
    /\ forall q, q ∈ files <-> Files.files_below fs dir q.
Proof.
  intros H. apply getFilesRecursive_plain. now apply plain_treeb_spec.
Qed.

Lemma getFilesRecursive_lists_every_file_witness :
  exists files,
    Files.getFilesRecursive 3 Linker.demo_fs ["store"; "pkg"] = Linker.Ok files
    /\ NoDup files
    /\ forall q, q ∈ files <-> Files.files_below Linker.demo_fs ["store"; "pkg"] q.
Proof.
  apply (getFilesRecursive_lists_every_file Linker.demo_fs ["store"; "pkg"] 2).
  vm_compute. reflexivity.
Defined.

(** X19. For patterns that name nothing, a regular file, or a directory
    over a tree of directories and regular files, [expandFiles] completes
    and returns exactly the files the patterns stand for: the file named,
    and for a directory the regular files right below it, or with
    [recursive] all regular files below it.  A pattern that names nothing
    adds nothing and raises no error. *)
Theorem expandFiles_lists_what_patterns_name
    (fs : Linker.FS) (depth : nat) (recursive : bool) (patterns : list Linker.path) :
  forallb (Files.plain_pattern fs depth) patterns = true ->
  exists files,
    Files.expandFiles (S depth) fs patterns recursive = Linker.Ok files
    /\ forall q, q ∈ files <-> exists p, p ∈ patterns /\ Files.expands_to fs recursive p q.
Proof. apply expandFiles_plain. Qed.

Lemma expandFiles_lists_what_patterns_name_witness :
  exists files,
    Files.expandFiles 3 Linker.demo_fs
      [["store"; "pkg"]; ["store"; "pkg"; "index.js"]; ["missing"]] false
    = Linker.Ok files
    /\ forall q, q ∈ files <->
                 exists p, p ∈ [["store"; "pkg"]; ["store"; "pkg"; "index.js"]; ["missing"]]
                           /\ Files.expands_to Linker.demo_fs false p q.
Proof.
  apply (expandFiles_lists_what_patterns_name Linker.demo_fs 2 false
           [["store"; "pkg"]; ["store"; "pkg"; "index.js"]; ["missing"]]).
  vm_compute. reflexivity.
Defined.

(** A file that two patterns stand for is listed twice. *)
Example expandFiles_keeps_duplicates :
  match Files.expandFiles 3 Linker.demo_fs
          [["store"; "pkg"]; ["store"; "pkg"; "index.js"]] true with
  | Linker.Ok files =>
      Files.occurrences ["store"; "pkg"; "index.js"] files = 2%nat
      /\ Files.occurrences ["store"; "pkg"; "lib"; "util.js"] files = 1%nat
  | _ => False
  end.
Proof. vm_compute. split; reflexivity. Qed.

(** ** Cleaning [node_modules] *)

Section CleanupFacts.
Import Linker VirtualStore JsString Cleanup.

Implicit Types (fs : FS) (p q nm : path) (name entry : string).

Lemma removelast_prefix q : removelast q `prefix_of` q.
Proof.
  destruct (decide (q = [])) as [->|Hq]; [reflexivity|].
  rewrite (app_removelast_last "" Hq) at 2. now apply prefix_app_r.
Qed.

Lemma prefixb_false p q : prefixb p q = false <-> ¬ (p `prefix_of` q).
Proof.
  rewrite <- prefixb_spec. destruct (prefixb p q); split; try congruence; tauto.
Qed.

(** Below a name that is no directory there is nothing. *)
Lemma well_formed_below fs p :
  well_formed fs -> names fs !! p <> Some Dir ->
  forall q, p `prefix_of` q -> q <> p -> names fs !! q = None.
Proof.
  intros Hwf Hp q [rel ->]. induction rel as [|x rel IH] using rev_ind.
  - rewrite app_nil_r. congruence.
  - intros _. destruct (names fs !! (p ++ rel ++ [x])%list) as [e|] eqn:E; [|reflexivity].
    exfalso. destruct (Hwf _ e E) as [_ Hpar]; [now destruct p, rel|].
    rewrite app_assoc, removelast_last in Hpar.
    destruct (decide (rel = [])) as [->|Hrel].
    + rewrite app_nil_r in Hpar. contradiction.
    + rewrite IH in Hpar; [discriminate|].
      intros H. apply (f_equal length) in H. rewrite length_app in H.
      destruct rel; [contradiction | simpl in H; lia].
Qed.

Lemma well_formedb_spec fs : well_formedb fs = true -> well_formed fs.
Proof.
  unfold well_formedb. intros H q e He Hq.
  apply (forallb_names _ fs q e H) in He. cbn [fst] in He.
  destruct q as [|x q]; [contradiction|].
  apply andb_prop in He. destruct He as [H1 H2]. split; [exact H1|].
  unfold is_dir in H2. now destruct (names fs !! removelast (x :: q)) as [[]|].
Qed.

(** What [rmSync] leaves. *)
Lemma rmSync_lookup fs p e :
  well_formed fs -> names fs !! p = Some e ->
  exists fs', rmSync fs p = Ok fs' /\ data fs' = data fs
              /\ forall q, names fs' !! q = if prefixb p q then None else names fs !! q.
Proof.
  intros Hwf He. unfold rmSync. rewrite He.
  assert (Hleaf : e <> Dir ->
            exists fs', Ok (with_names (delete p) fs) = Ok fs' /\ data fs' = data fs
              /\ forall q, names fs' !! q = if prefixb p q then None else names fs !! q).
  { intros Hne. eexists. split; [reflexivity|]. split; [reflexivity|].
    intros q. cbn [with_names names]. destruct (decide (q = p)) as [->|Hq].
    - rewrite lookup_delete_eq. now rewrite (proj2 (prefixb_spec p p)).
    - rewrite lookup_delete_ne by congruence.
      destruct (prefixb p q) eqn:Eb; [|reflexivity].
      apply (well_formed_below fs p Hwf); [congruence | now apply prefixb_spec | exact Hq]. }
  destruct e as [|i|t]; [|apply Hleaf; discriminate ..].
  eexists. split; [reflexivity|]. split; [reflexivity|].
  intros q. cbn [with_names names]. destruct (prefixb p q) eqn:Eb.
  - apply map_lookup_filter_None_2. right. intros x _. cbn [fst]. congruence.
  - destruct (names fs !! q) as [x|] eqn:Eq.
    + now apply map_lookup_filter_Some_2.
    + apply map_lookup_filter_None_2. now left.
Qed.

Lemma well_formed_without fs fs' p :
  well_formed fs ->
  (forall q, names fs' !! q = if prefixb p q then None else names fs !! q) ->
  well_formed fs'.
Proof.
  intros Hwf H q e He Hq. rewrite H in He. destruct (prefixb p q) eqn:Eb; [discriminate|].
  destruct (Hwf q e He Hq) as [H1 H2]. split; [exact H1|].
  rewrite H. destruct (prefixb p (removelast q)) eqn:Eb'; [|exact H2].
  apply prefixb_spec in Eb'. apply prefixb_false in Eb. exfalso. apply Eb.
  etrans; [exact Eb' | apply removelast_prefix].
Qed.

(** What leads nowhere leads nowhere when names have gone. *)
Lemma existsSync_shrinks fs fs' p :
  (forall q, names fs' !! q = None \/ names fs' !! q = names fs !! q) ->
  existsSync fs p = false -> existsSync fs' p = false.
Proof.
  intros Hsub. unfold existsSync. generalize MAXSYMLINKS. intros fuel. revert p.
  induction fuel as [|fuel IH]; intros p H; cbn [follow] in *.
  all: destruct (Hsub p) as [E|E]; [now rewrite !E|].
  all: rewrite E; destruct (names fs !! p) as [[|i|t]|] eqn:Ep;
       rewrite ?E, ?Ep in *; try discriminate; auto.
Qed.

Lemma startsWith_lacks c pre s :
  Js.startsWith pre s = true -> lacks c s = true -> lacks c pre = true.
Proof.
  revert s. induction pre as [|a pre IH]; intros s; [reflexivity|].
  destruct s as [|b s]; [discriminate|].
  change (Js.startsWith (String a pre) (String b s))
    with (Ascii.eqb a b && Js.startsWith pre s).
  rewrite !lacks_cons, !andb_true_iff. intros [Hab Hs] [Hb Hl].
  apply Ascii.eqb_eq in Hab. subst b. split; [exact Hb | now apply (IH s)].
Qed.

Section Package.

Context (nm : path) (name : string).

#[local] Abbreviation pakk := (nm ++ [".pakk"])%list.
#[local] Abbreviation starts entry := (Js.startsWith (String.append name "@") entry).

#[local] Abbreviation gone := (Cleanup.gone nm name).

Lemma gone_cons e es q :
  gone (e :: es) q = starts e && prefixb (pakk ++ [e])%list q || gone es q.
Proof. reflexivity. Qed.

Lemma gone_spec es q :
  gone es q = true <->
  exists e, e ∈ es /\ starts e = true /\ (pakk ++ [e])%list `prefix_of` q.
Proof.
  unfold Cleanup.gone. rewrite existsb_exists. split.
  - intros (e & He & H). apply andb_prop in H. destruct H as [H1 H2].
    exists e. split; [now apply list_elem_of_In|]. split; [exact H1 | now apply prefixb_spec].
  - intros (e & He & H1 & H2). exists e. split; [now apply list_elem_of_In|].
    apply andb_true_intro. split; [exact H1 | now apply prefixb_spec].
Qed.

Lemma clean_entries es : forall fs,
  well_formed fs -> NoDup es ->
  (forall e, e ∈ es -> is_Some (names fs !! (pakk ++ [e])%list)) ->
  exists fs', for_of (clean_entry name pakk) es fs = Ok fs' /\ data fs' = data fs
              /\ well_formed fs'
              /\ forall q, names fs' !! q = if gone es q then None else names fs !! q.
Proof.
  induction es as [|e es IH]; intros fs Hwf Hnd Hes.
  - exists fs. cbn [for_of gone existsb]. auto.
  - apply NoDup_cons in Hnd. destruct Hnd as [He Hnd].
    destruct (Hes e (list_elem_of_here _ _)) as [x Ex].
    assert (Hsimple : join pakk [e] = (pakk ++ [e])%list).
    { apply join_simple. cbn [forallb]. rewrite andb_true_r.
      destruct (Hwf _ x Ex) as [Hs _]; [now destruct nm|].
      rewrite forallb_app in Hs. apply andb_prop in Hs. destruct Hs as [_ Hs].
      cbn [forallb] in Hs. now rewrite andb_true_r in Hs. }
    cbn [for_of]. unfold clean_entry at 1.
    destruct (starts e) eqn:Es.
    + rewrite Hsimple.
      destruct (rmSync_lookup fs _ x Hwf Ex) as (fs1 & E1 & D1 & N1). rewrite E1. cbn [bind].
      destruct (IH fs1) as (fs' & E' & D' & W' & N').
      * now apply (well_formed_without fs fs1 (pakk ++ [e])%list).
      * exact Hnd.
      * intros e' He'. rewrite N1.
        replace (prefixb (pakk ++ [e]) (pakk ++ [e'])%list) with false.
        { apply Hes. now apply list_elem_of_further. }
        symmetry. apply prefixb_false. intros H. apply prefix_app_inv in H.
        apply prefix_cons_inv_1 in H. congruence.
      * exists fs'. split; [exact E'|]. split; [congruence|]. split; [exact W'|].
        intros q. rewrite N', N1, gone_cons, Es. cbn [andb].
        destruct (prefixb (pakk ++ [e])%list q), (gone es q); reflexivity.
    + cbn [bind]. destruct (IH fs Hwf Hnd) as (fs' & E' & D' & W' & N').
      { intros e' He'. apply Hes. now apply list_elem_of_further. }
      exists fs'. split; [exact E'|]. split; [exact D'|]. split; [exact W'|].
      intros q. now rewrite N', gone_cons, Es.
Qed.

Lemma pakk_not_below entry q : (pakk ++ [entry])%list `prefix_of` q -> q <> pakk.
Proof.
  intros H ->. apply prefix_length in H. rewrite !length_app in H. simpl in H. lia.
Qed.

Lemma pakk_dir_shrinks fs fs' :
  (forall q, names fs' !! q = None \/ names fs' !! q = names fs !! q) ->
  pakk_dir fs nm = true -> pakk_dir fs' nm = true.
Proof.
  unfold pakk_dir. intros H. destruct (H pakk) as [E|E]; rewrite E; auto.
Qed.

Context (top : path) (Htop : join nm [name] = top).

(** One round of the loop over the packages. *)
Lemma clean_package_spec fs :
  well_formed fs -> pakk_dir fs nm = true ->
  exists fs',
    clean_package nm fs name = Ok fs' /\ data fs' = data fs /\ well_formed fs'
    /\ (forall q, names fs' !! q = None \/ names fs' !! q = names fs !! q)
    /\ (forall q, ¬ (top `prefix_of` q) ->
                  (forall entry, starts entry = true -> ¬ ((pakk ++ [entry])%list `prefix_of` q)) ->
                  names fs' !! q = names fs !! q)
    /\ existsSync fs' top = false
    /\ (forall entry q, starts entry = true -> (pakk ++ [entry])%list `prefix_of` q ->
                        names fs' !! q = None)
    /\ (existsSync fs top = false ->
        (forall entry, starts entry = true -> names fs !! (pakk ++ [entry])%list = None) ->
        fs' = fs).
Proof.
  intros Hwf Hpakk. unfold clean_package. rewrite Htop.
  rewrite (join_simple nm [".pakk"] eq_refl).
  (* the entry of the package *)
  assert (Hfirst : exists fs1,
            (if existsSync fs top then rmSync fs top else Ok fs) = Ok fs1
            /\ data fs1 = data fs /\ well_formed fs1
            /\ (forall q, names fs1 !! q = None \/ names fs1 !! q = names fs !! q)
            /\ (forall q, ¬ (top `prefix_of` q) -> names fs1 !! q = names fs !! q)
            /\ existsSync fs1 top = false
            /\ (existsSync fs top = false -> fs1 = fs)).
  { destruct (existsSync fs top) eqn:Ex.
    - destruct (names fs !! top) as [e|] eqn:Et.
      2:{ now rewrite (existsSync_none fs top Et) in Ex. }
      destruct (rmSync_lookup fs top e Hwf Et) as (fs1 & E1 & D1 & N1).
      exists fs1. split; [exact E1|]. split; [exact D1|].
      split; [now apply (well_formed_without fs fs1 top)|].
      split; [intros q; rewrite N1; destruct (prefixb top q); auto|].
      split; [intros q Hq; rewrite N1; now rewrite (proj2 (prefixb_false top q) Hq)|].
      split; [|discriminate].
      apply existsSync_none. rewrite N1. now rewrite (proj2 (prefixb_spec top top)).
    - exists fs. split; [reflexivity|]. split; [reflexivity|]. split; [exact Hwf|].
      split; [now right|]. split; [reflexivity|]. split; [exact Ex | reflexivity]. }
  destruct Hfirst as (fs1 & E1 & D1 & W1 & S1 & F1 & X1 & I1). rewrite E1. cbn [bind].
  pose proof (pakk_dir_shrinks fs fs1 S1 Hpakk) as Hpakk1. unfold pakk_dir in Hpakk1.
  destruct (names fs1 !! pakk) as [[|i|t]|] eqn:Ep; try discriminate.
  - (* the entries of the virtual store *)
    rewrite (existsSync_here fs1 pakk Dir Ep I). unfold readdirSync. rewrite Ep. cbn [bind].
    destruct (clean_entries (children fs1 pakk).*1 fs1 W1 (children_nodup fs1 pakk))
      as (fs' & E' & D' & W' & N').
    { intros e He. apply list_elem_of_fmap in He. destruct He as ([m x] & -> & Hm).
      apply children_spec in Hm. cbn [fst]. now rewrite Hm. }
    assert (S' : forall q, names fs' !! q = None \/ names fs' !! q = names fs1 !! q).
    { intros q. rewrite N'. destruct (gone _ q); auto. }
    exists fs'. split; [exact E'|]. split; [congruence|]. split; [exact W'|].
    split; [|split; [|split; [|split]]].
    + intros q. destruct (S' q) as [E|E]; [now left|]. rewrite E. apply S1.
    + intros q Hq Hent. rewrite N', <- (F1 q Hq).
      destruct (gone _ q) eqn:Eg; [|reflexivity].
      apply gone_spec in Eg. destruct Eg as (e & _ & He & Hpre). now destruct (Hent e He).
    + now apply (existsSync_shrinks fs1 fs').
    + intros entry q Hs Hq. rewrite N'. destruct (gone _ q) eqn:Eg; [reflexivity|].
      destruct (names fs1 !! (pakk ++ [entry])%list) as [x|] eqn:Ee.
      * assert (Hg : gone (children fs1 pakk).*1 q = true); [|congruence].
        apply gone_spec. exists entry. split; [|now split].
        apply list_elem_of_fmap. exists (entry, x). split; [reflexivity|].
        now apply children_spec.
      * destruct (decide (q = (pakk ++ [entry])%list)) as [->|Hne]; [exact Ee|].
        apply (well_formed_below fs1 (pakk ++ [entry])%list W1); [congruence | exact Hq | exact Hne].
    + intros Hex Hnone. rewrite (I1 Hex) in *.
      assert (Hidle : forall es f, (forall e, e ∈ es -> starts e = false) ->
                for_of (clean_entry name pakk) es f = Ok f).
      { induction es as [|e es IH]; intros f Hes; [reflexivity|].
        cbn [for_of]. unfold clean_entry at 1.
        rewrite (Hes e (list_elem_of_here _ _)). cbn [bind].
        apply IH. intros e' He'. apply Hes. now apply list_elem_of_further. }
      rewrite Hidle in E'; [congruence|].
      intros e He. apply list_elem_of_fmap in He. destruct He as ([m x] & -> & Hm).
      apply children_spec in Hm. cbn [fst].
      destruct (starts m) eqn:Es; [|reflexivity]. rewrite (Hnone m Es) in Hm. discriminate.
  - (* no virtual store *)
    rewrite (existsSync_none fs1 pakk Ep).
    exists fs1. split; [reflexivity|]. split; [exact D1|]. split; [exact W1|].
    split; [exact S1|]. split; [intros q Hq _; now apply F1|]. split; [exact X1|].
    split; [|intros Hex _; now apply I1].
    intros entry q _ Hq.
    apply (well_formed_below fs1 pakk W1); [congruence | | now apply (pakk_not_below entry)].
    etrans; [|exact Hq]. now apply prefix_app_r.
Qed.

End Package.

#[local] Abbreviation pakk_of nm := (nm ++ [".pakk"])%list.
#[local] Abbreviation starts_of name entry := (Js.startsWith (String.append name "@") entry).

(** The loop over the packages, for names that are one component each. *)
Lemma clean_packages nm removed : forall fs,
  well_formed fs -> pakk_dir fs nm = true -> forallb simple removed = true ->
  exists fs',
    cleanNodeModules nm removed fs = Ok fs' /\ data fs' = data fs
    /\ (forall q, names fs' !! q = None \/ names fs' !! q = names fs !! q)
    /\ (forall q,
          (forall name, name ∈ removed ->
             ¬ ((nm ++ [name])%list `prefix_of` q)
             /\ forall entry, starts_of name entry = true ->
                              ¬ ((pakk_of nm ++ [entry])%list `prefix_of` q)) ->
          names fs' !! q = names fs !! q)
    /\ (forall name, name ∈ removed ->
          existsSync fs' (nm ++ [name])%list = false
          /\ forall entry q, starts_of name entry = true ->
                             (pakk_of nm ++ [entry])%list `prefix_of` q ->
                             names fs' !! q = None).
Proof.
  unfold cleanNodeModules.
  induction removed as [|name removed IH]; intros fs Hwf Hpakk Hnames.
  - exists fs. cbn [for_of]. split; [reflexivity|]. split; [reflexivity|].
    split; [now right|]. split; [reflexivity|]. intros name H. now apply elem_of_nil in H.
  - cbn [forallb] in Hnames. apply andb_prop in Hnames. destruct Hnames as [Hname Hnames].
    destruct (clean_package_spec nm name (nm ++ [name])%list
                (join_simple nm [name] ltac:(cbn [forallb]; now rewrite Hname)) fs Hwf Hpakk)
      as (fs1 & E1 & D1 & W1 & S1 & F1 & X1 & G1 & _).
    destruct (IH fs1 W1 (pakk_dir_shrinks nm fs fs1 S1 Hpakk) Hnames)
      as (fs' & E' & D' & S' & F' & G').
    exists fs'. cbn [for_of]. rewrite E1. cbn [bind].
    split; [exact E'|]. split; [congruence|]. split; [|split].
    + intros q. destruct (S' q) as [E|E]; [now left|]. rewrite E. apply S1.
    + intros q Hq. rewrite F'.
      * destruct (Hq name (list_elem_of_here _ _)) as [H1 H2]. now apply F1.
      * intros name' Hn. apply Hq. now apply list_elem_of_further.
    + intros name' Hn. apply elem_of_cons in Hn. destruct Hn as [->|Hn]; [|now apply G'].
      split; [now apply (existsSync_shrinks fs1 fs')|].
      intros entry q Hs Hq. destruct (S' q) as [E|E]; [exact E|].
      rewrite E. now apply (G1 entry).
Qed.

(** No entry of a directory starts with a scoped name and an at sign. *)
Lemma scoped_starts_nothing fs nm scope base entry :
  well_formed fs ->
  starts_of (scope ++ "/" ++ base)%string entry = true ->
  forall q, (pakk_of nm ++ [entry])%list `prefix_of` q -> names fs !! q = None.
Proof.
  intros Hwf Hs q [rel ->]. destruct (names fs !! _) as [e|] eqn:E; [|reflexivity].
  exfalso. destruct (Hwf _ e E) as [H _]; [now destruct nm|].
  rewrite !forallb_app in H. cbn [forallb] in H. rewrite !andb_true_iff in H.
  destruct H as [[_ [Hentry _]] _]. apply simple_lacks_slash in Hentry.
  pose proof (startsWith_lacks "/" _ _ Hs Hentry) as Hl.
  rewrite !lacks_app in Hl. change ("/" ++ base)%string with (String "/" base) in Hl.
  rewrite lacks_cons in Hl. rewrite !andb_true_iff in Hl.
  destruct Hl as [[_ [[Hl _] _]] _]. discriminate.
Qed.

End CleanupFacts.

(** X20. Cleaning [node_modules] for packages without scope, in a file
    system where [.pakk] is a directory or is not there, completes without
    error.  Afterwards [node_modules/name] leads nowhere for every package
    removed, and nothing is left at or below an entry of [.pakk] whose name
    starts with the name of the package and an at sign.  No name outside
    these places has changed, nothing has been made, and the contents of
    all files are as before. *)
Theorem cleanNodeModules_removes_packages
    (fs : Linker.FS) (nm : Linker.path) (removedPackages : list string) :
  Cleanup.well_formedb fs = true ->
  Cleanup.pakk_dir fs nm = true ->
  forallb VirtualStore.simple removedPackages = true ->
  exists fs',
    Cleanup.cleanNodeModules nm removedPackages fs = Linker.Ok fs'
    /\ (forall name, name ∈ removedPackages ->
          Linker.existsSync fs' (nm ++ [name])%list = false
          /\ forall entry q,
               Js.startsWith (name ++ "@") entry = true ->
               (nm ++ [".pakk"; entry])%list `prefix_of` q ->
               Linker.names fs' !! q = None)
    /\ (forall q,
          (forall name, name ∈ removedPackages ->
             ¬ ((nm ++ [name])%list `prefix_of` q)
             /\ forall entry, Js.startsWith (name ++ "@") entry = true ->
                              ¬ ((nm ++ [".pakk"; entry])%list `prefix_of` q)) ->
          Linker.names fs' !! q = Linker.names fs !! q)
    /\ (forall q, Linker.names fs' !! q = None
                  \/ Linker.names fs' !! q = Linker.names fs !! q)
    /\ Linker.data fs' = Linker.data fs.
Proof.
  intros Hwf Hpakk Hnames. apply well_formedb_spec in Hwf.
  destruct (clean_packages nm removedPackages fs Hwf Hpakk Hnames)
    as (fs' & E & D & S & F & G).
  assert (Hpath : forall entry, ((nm ++ [".pakk"]) ++ [entry])%list = (nm ++ [".pakk"; entry])%list).
  { intros entry. now rewrite <- app_assoc. }
  exists fs'. split; [exact E|]. split; [|split; [|split; [exact S | exact D]]].
  - intros name Hn. destruct (G name Hn) as [G1 G2]. split; [exact G1|].
    intros entry q Hs Hq. apply (G2 entry q Hs). now rewrite Hpath.
  - intros q Hq. apply F. intros name Hn. destruct (Hq name Hn) as [H1 H2].
    split; [exact H1|]. intros entry Hs. rewrite Hpath. now apply H2.
Qed.

Lemma cleanNodeModules_removes_packages_witness :
  exists fs',
    Cleanup.cleanNodeModules ["project"; "node_modules"] ["pkg"] Cleanup.demo_installed
    = Linker.Ok fs'
    /\ Linker.existsSync fs' ["project"; "node_modules"; "pkg"] = false
    /\ Linker.names fs' !! ["project"; "node_modules"; ".pakk"; "pkg@1.0.0"; "node_modules";
                            "pkg"; "index.js"] = None
    /\ Linker.names fs' !! ["store"; "pkg"; "index.js"] = Some (Linker.File 1).
Proof.
  destruct (cleanNodeModules_removes_packages Cleanup.demo_installed
              ["project"; "node_modules"] ["pkg"])
    as (fs' & E & G & F & _); [vm_compute; reflexivity ..|].
  exists fs'. split; [exact E|].
  destruct (G "pkg" (list_elem_of_here _ _)) as [G1 G2]. split; [exact G1|]. split.
  - apply (G2 "pkg@1.0.0"); [reflexivity|]. now exists ["node_modules"; "pkg"; "index.js"].
  - rewrite F; [vm_compute; reflexivity|].
    intros name Hn. apply list_elem_of_singleton in Hn. subst name.
    split; [|intros entry _]; intros [rel H]; discriminate.
Defined.

(** X21. For a package with a scope the cleaning removes nothing from
    [.pakk]: the names in that directory have no slash, and the name they
    are compared with has one, so the directory of the package in the
    virtual store stays.  When [node_modules/scope/base] leads nowhere, as
    the link that [createVirtualStore] makes for such a package does, the
    cleaning changes nothing at all. *)
Theorem cleanNodeModules_keeps_scoped_store
    (fs : Linker.FS) (nm : Linker.path) (scope base : string) :
  Cleanup.well_formedb fs = true ->
  Cleanup.pakk_dir fs nm = true ->
  VirtualStore.simple scope = true -> scope <> ".pakk" ->
  VirtualStore.simple base = true ->
  exists fs',
    Cleanup.cleanNodeModules nm [(scope ++ "/" ++ base)%string] fs = Linker.Ok fs'
    /\ (forall q, (nm ++ [".pakk"])%list `prefix_of` q ->
                  Linker.names fs' !! q = Linker.names fs !! q)
    /\ (Linker.existsSync fs (nm ++ [scope; base])%list = false -> fs' = fs).
Proof.
  intros Hwf Hpakk Hscope Hne Hbase. apply well_formedb_spec in Hwf.
  pose proof (scoped_top_eq nm scope base Hscope Hbase) as Htop.
  unfold VirtualStore.topLevelLink in Htop.
  destruct (clean_package_spec nm (scope ++ "/" ++ base)%string _ Htop fs Hwf Hpakk)
    as (fs' & E & _ & _ & S & F & _ & _ & I).
  exists fs'. unfold Cleanup.cleanNodeModules. cbn [VirtualStore.for_of]. rewrite E.
  split; [reflexivity|]. split.
  - intros q [rel ->]. destruct (Linker.names fs !! _) as [e|] eqn:Eq.
    + rewrite <- Eq. apply F.
      * rewrite <- app_assoc. now apply scope_not_pakk_prefix.
      * intros entry Hs Hq.
        rewrite (scoped_starts_nothing fs nm scope base entry Hwf Hs _ Hq) in Eq.
        discriminate.
    + destruct (S ((nm ++ [".pakk"]) ++ rel)%list) as [H|H]; [exact H | now rewrite H].
  - intros Hex. apply I; [exact Hex|].
    intros entry Hs. now apply (scoped_starts_nothing fs nm scope base entry Hwf Hs).
Qed.

Lemma cleanNodeModules_keeps_scoped_store_witness :
  Linker.names Cleanup.scoped_installed
    !! ["project"; "node_modules"; ".pakk"; "@acme"; "tool@1.0.0"; "node_modules"; "@acme";
        "tool"; "index.js"] = Some (Linker.File 1)
  /\ Cleanup.cleanNodeModules ["project"; "node_modules"] ["@acme/tool"]
       Cleanup.scoped_installed
     = Linker.Ok Cleanup.scoped_installed.
Proof.
  split; [vm_compute; reflexivity|].
  destruct (cleanNodeModules_keeps_scoped_store Cleanup.scoped_installed
              ["project"; "node_modules"] "@acme" "tool")
    as (fs' & E & _ & H); [vm_compute; reflexivity ..| discriminate | reflexivity |].
  rewrite (H ltac:(vm_compute; reflexivity)) in E. exact E.
Defined.

(** ** The command that runs *)

Section MainFacts.
Import JsString Cli Manifest Main.

#[local] Abbreviation is_version := (fun a : string => is_one_of a "-V" "--version").

Lemma version_with_options f r :
  (forall o, version (f o) = version o) ->
  version (options (with_options f r)) = version (options r).
Proof. intros H. unfold with_options. cbn [options]. apply H. Qed.

(** The second loop of [parseArgs] sets the version flag only for an
    argument that is the flag. *)
Lemma remaining_version args :
  forall r, existsb is_version args = false ->
            version (options (remaining args r)) = version (options r).
Proof.
  induction args as [| a | a b l IHl IHbl] using pairs_ind; intros r Hv.
  - reflexivity.
  - cbn [existsb] in Hv. apply orb_false_elim in Hv. destruct Hv as [Ha _].
    rewrite remaining_cons, Ha.
    repeat match goal with
           | |- context [if ?c then _ else _] => destruct c
           end; reflexivity.
  - pose proof Hv as Hv'. cbn [existsb] in Hv'. apply orb_false_elim in Hv'.
    destruct Hv' as [Ha Hbl]. pose proof Hbl as Hl. apply orb_false_elim in Hl.
    destruct Hl as [_ Hl]. rewrite remaining_cons, Ha.
    repeat match goal with
           | |- context [if is_one_of a ?s ?t then _ else _] => destruct (is_one_of a s t)
           | |- context [if truthy b then _ else _] => destruct (truthy b)
           | |- context [if negb ?c then _ else _] => destruct c; cbn [negb]
           end;
      first [ rewrite (IHl _ Hl) | rewrite (IHbl _ Hbl) ]; reflexivity.
Qed.

Lemma flags_of_version pre o :
  existsb is_version pre = false -> version (flags_of pre o) = version o.
Proof.
  intros H. unfold flags_of. rewrite H.
  now destruct (existsb (fun a => is_one_of a "-h" "--help") pre).
Qed.

(** What [parseArgs] finds when the command comes after arguments that
    start with a dash, and the version flag is nowhere. *)
Lemma parseArgs_command pre cmd rest :
  Forall (fun a => Js.startsWith "-" a = true) pre ->
  Js.startsWith "-" cmd = false ->
  existsb is_version (pre ++ rest) = false ->
  command (parseArgs (pre ++ cmd :: rest)) = cmd
  /\ version (options (parseArgs (pre ++ cmd :: rest))) = false.
Proof.
  intros Hpre Hcmd Hv. rewrite existsb_app in Hv. apply orb_false_elim in Hv.
  destruct Hv as [Hv1 Hv2].
  unfold parseArgs. rewrite (leading_app pre (cmd :: rest) no_options Hpre).
  cbn [leading]. rewrite Hcmd. split.
  - destruct (remaining_files (length rest) rest (le_n _)
                {| command := cmd; files := []; options := flags_of pre no_options |})
      as (fs & _ & H & _). exact H.
  - rewrite (remaining_version rest _ Hv2). cbn [options].
    now rewrite (flags_of_version pre no_options Hv1).
Qed.

Lemma add_args_keep x l : forall a,
  In x (add_packages a) -> In x (add_packages (fold_left add_arg l a)).
Proof.
  induction l as [|b l IH]; intros a H; [exact H|].
  cbn [fold_left]. apply IH. unfold add_arg.
  repeat match goal with
         | |- context [if ?c then _ else _] => destruct c
         end; cbn [add_packages]; auto.
  apply in_or_app. now left.
Qed.

Lemma remove_args_keep x l : forall a,
  In x (rm_packages a) -> In x (rm_packages (fold_left remove_arg l a)).
Proof.
  induction l as [|b l IH]; intros a H; [exact H|].
  cbn [fold_left]. apply IH. unfold remove_arg.
  repeat match goal with
         | |- context [if ?c then _ else _] => destruct c
         end; cbn [rm_packages]; auto.
  apply in_or_app. now left.
Qed.

End MainFacts.

(** X22. [main] hands the commands for packages all arguments but the
    first, not those after the command.  When the command, [add] or
    [remove] or one of their short forms, comes after arguments that start
    with a dash, and the version flag is nowhere, [commandAdd] or
    [commandRemove] is called with the rest of these arguments, the command
    and what follows it; and as the command does not start with a dash, it
    is then among the packages to add or to remove.  With the command in
    front, the call is on what follows it. *)
Theorem main_hands_over_all_but_first (pre rest : list string) (cmd : string) :
  Forall (fun a => Js.startsWith "-" a = true) pre ->
  existsb (fun a => Cli.is_one_of a "-V" "--version") (pre ++ rest) = false ->
  (In cmd ["add"; "a"] ->
   Main.main (pre ++ cmd :: rest) = Main.commandAdd (tl (pre ++ cmd :: rest))
   /\ (pre <> [] ->
       In cmd (Manifest.add_packages (Manifest.add_args (tl (pre ++ cmd :: rest))))))
  /\ (In cmd ["remove"; "rm"; "uninstall"; "un"] ->
      Main.main (pre ++ cmd :: rest) = Main.commandRemove (tl (pre ++ cmd :: rest))
      /\ (pre <> [] ->
          In cmd (Manifest.rm_packages (Manifest.remove_args (tl (pre ++ cmd :: rest)))))).
Proof.
  intros Hpre Hv. split; intros Hcmd.
  - assert (Hplain : Js.startsWith "-" cmd = false).
    { cbn [In] in Hcmd. destruct Hcmd as [<-|[<-|[]]]; reflexivity. }
    destruct (parseArgs_command pre cmd rest Hpre Hplain Hv) as [Hc Hver]. split.
    + unfold Main.main. rewrite Hver, Hc.
      cbn [In] in Hcmd. destruct Hcmd as [<-|[<-|[]]]; reflexivity.
    + intros Hne. destruct pre as [|flag pre]; [contradiction|]. cbn [app tl].
      unfold Manifest.add_args. rewrite fold_left_app. cbn [fold_left].
      apply add_args_keep. unfold Manifest.add_arg at 1. rewrite Hplain.
      cbn [In] in Hcmd. destruct Hcmd as [<-|[<-|[]]]; cbn; apply in_or_app; right; now left.
  - assert (Hplain : Js.startsWith "-" cmd = false).
    { cbn [In] in Hcmd. destruct Hcmd as [<-|[<-|[<-|[<-|[]]]]]; reflexivity. }
    destruct (parseArgs_command pre cmd rest Hpre Hplain Hv) as [Hc Hver]. split.
    + unfold Main.main. rewrite Hver, Hc.
      cbn [In] in Hcmd. destruct Hcmd as [<-|[<-|[<-|[<-|[]]]]]; reflexivity.
    + intros Hne. destruct pre as [|flag pre]; [contradiction|]. cbn [app tl].
      unfold Manifest.remove_args. rewrite fold_left_app. cbn [fold_left].
      apply remove_args_keep. unfold Manifest.remove_arg at 1. rewrite Hplain.
      cbn [In] in Hcmd.
      destruct Hcmd as [<-|[<-|[<-|[<-|[]]]]]; cbn; apply in_or_app; right; now left.
Qed.

Lemma main_hands_over_all_but_first_witness :
  Main.main ["--help"; "add"; "lodash"] = Main.commandAdd ["add"; "lodash"]
  /\ In "add" (Manifest.add_packages (Manifest.add_args ["add"; "lodash"])).
Proof.
  destruct (main_hands_over_all_but_first ["--help"] ["lodash"] "add") as [H _].
  - repeat constructor.
  - reflexivity.
  - destruct H as [H1 H2]; [now left|]. split; [exact H1 | now apply H2].
Defined.

(** The short form [i] always installs: the branch of [main] that takes it
    for [info] is never reached. *)
Example i_is_install :
  Main.main ["i"] = Main.commandInstall []
  /\ forall argv, Main.main argv = Main.commandInfo ->
                  Cli.command (Cli.parseArgs argv) = "info".
Proof.
  split; [reflexivity|]. intros argv. unfold Main.main.
  repeat match goal with
         | |- context [if ?c then _ else _] => destruct c eqn:?
         end; try discriminate.
  intros _.
  repeat match goal with
         | H : (_ || _)%bool = true |- _ => apply orb_prop in H; destruct H as [H|H]
         | H : (_ || _)%bool = false |- _ => apply orb_false_elim in H; destruct H
         end; try congruence.
  now apply String.eqb_eq.
Qed.
